(** * Accessibility event queue: coalescing and ordered dispatch

    A shallow embedding of [accessible/base/EventQueue.cpp]
    ([mozilla::a11y::EventQueue]) and the properties of its push, coalescing,
    dependency propagation and drain.

    Event objects live on a heap and the queue holds pointers to them, as in
    the C++ ([nsTArray<RefPtr<AccEvent>>]); coalescing mutates the objects in
    place.  Array indices are [uint32_t] values with their wrap-around written
    out, array reads are bounds-checked, and loops run on fuel. *)

From Stdlib Require Import ZArith List Bool Lia Arith PeanoNat.
Import ListNotations.
Open Scope Z_scope.

(** ** Results of fallible code *)

Inductive Fault : Type :=
| IndexOutOfBounds   (* nsTArray::ElementAt past the end *)
| NullDeref.         (* member access through a null pointer *)

Inductive Result (A : Type) : Type :=
| Ok (a : A)
| Crash (f : Fault)
| OutOfFuel.

Arguments Ok {A} a.
Arguments Crash {A} f.
Arguments OutOfFuel {A}.

Definition bind {A B : Type} (c : Result A) (k : A -> Result B) : Result B :=
  match c with
  | Ok a => k a
  | Crash f => Crash f
  | OutOfFuel => OutOfFuel
  end.

Declare Scope result_scope.
Delimit Scope result_scope with result.
Notation "x <- c ;; k" := (bind c (fun x => k))
  (at level 61, c at next level, right associativity) : result_scope.
Notation "' pat <- c ;; k" := (bind c (fun x => match x with pat => k end))
  (at level 61, pat pattern, c at next level, right associativity) : result_scope.
Open Scope result_scope.

(** ** Machine integers *)

Definition u32 (z : Z) : Z := z mod 2 ^ 32.

(** ** Event model *)

(** Identity of a [LocalAccessible] (its address). *)
Definition Acc : Type := nat.
(** Address of an [AccEvent] object. *)
Definition EventPtr : Type := nat.

Inductive EventType : Type :=
| EVENT_FOCUS
| EVENT_REORDER
| EVENT_INNER_REORDER
| EVENT_NAME_CHANGE
| EVENT_DESCRIPTION_CHANGE
| EVENT_TEXT_INSERTED
| EVENT_TEXT_REMOVED
| EVENT_TEXT_SELECTION_CHANGED
| EVENT_SELECTION
| EVENT_SELECTION_ADD
| EVENT_SELECTION_REMOVE
| EVENT_SELECTION_WITHIN
| EVENT_STATE_CHANGE
| EVENT_OTHER (code : nat).

Inductive EEventRule : Type :=
| eAllowDupes
| eCoalesceReorder
| eCoalesceOfSameType
| eCoalesceSelectionChange
| eCoalesceStateChange
| eCoalesceTextSelChange
| eRemoveDupes
| eDoNotEmit.

Inductive SelChangeType : Type := eSelectionAdd | eSelectionRemove.

Definition EventType_eq_dec (a b : EventType) : {a = b} + {a <> b}.
Proof. decide equality. apply Nat.eq_dec. Defined.

Definition EEventRule_eq_dec (a b : EEventRule) : {a = b} + {a <> b}.
Proof. decide equality. Defined.

Definition SelChangeType_eq_dec (a b : SelChangeType) : {a = b} + {a <> b}.
Proof. decide equality. Defined.

Definition type_eqb (a b : EventType) : bool :=
  if EventType_eq_dec a b then true else false.
Definition rule_eqb (a b : EEventRule) : bool :=
  if EEventRule_eq_dec a b then true else false.
Definition sel_eqb (a b : SelChangeType) : bool :=
  if SelChangeType_eq_dec a b then true else false.

(** Pointer comparison of two (possibly null) accessibles. *)
Definition acc_eqb (a b : option Acc) : bool :=
  match a, b with
  | Some x, Some y => Nat.eqb x y
  | None, None => true
  | _, _ => false
  end.

(** Fields of [AccSelChangeEvent]. *)
Record SelChange : Type := {
  mWidget : Acc;
  mItem : Acc;
  mSelChangeType : SelChangeType;
  mPreceedingCount : Z;              (* uint32_t *)
  mPackedEvent : option EventPtr     (* RefPtr<AccSelChangeEvent> *)
}.

(** The dynamic class of an event object. *)
Inductive Payload : Type :=
| PlainEvent
| StateChangeEvent (mState : Z) (mIsEnabled : bool)
| SelChangeEvent (s : SelChange)
| TextSelChangeEvent (mSel : nat).

(** Fields of [AccEvent]. *)
Record AccEvent : Type := {
  mEventType : EventType;
  mEventRule : EEventRule;
  mAccessible : option Acc;
  mIsFromUserInput : bool;
  payload : Payload
}.

Definition withType (t : EventType) (e : AccEvent) : AccEvent :=
  {| mEventType := t; mEventRule := mEventRule e;
     mAccessible := mAccessible e; mIsFromUserInput := mIsFromUserInput e;
     payload := payload e |}.

Definition withRule (r : EEventRule) (e : AccEvent) : AccEvent :=
  {| mEventType := mEventType e; mEventRule := r;
     mAccessible := mAccessible e; mIsFromUserInput := mIsFromUserInput e;
     payload := payload e |}.

Definition withAccessible (a : option Acc) (e : AccEvent) : AccEvent :=
  {| mEventType := mEventType e; mEventRule := mEventRule e;
     mAccessible := a; mIsFromUserInput := mIsFromUserInput e;
     payload := payload e |}.

Definition withPayload (p : Payload) (e : AccEvent) : AccEvent :=
  {| mEventType := mEventType e; mEventRule := mEventRule e;
     mAccessible := mAccessible e; mIsFromUserInput := mIsFromUserInput e;
     payload := p |}.

Definition withPreceedingCount (n : Z) (s : SelChange) : SelChange :=
  {| mWidget := mWidget s; mItem := mItem s;
     mSelChangeType := mSelChangeType s; mPreceedingCount := n;
     mPackedEvent := mPackedEvent s |}.

Definition withPackedEvent (p : option EventPtr) (s : SelChange) : SelChange :=
  {| mWidget := mWidget s; mItem := mItem s;
     mSelChangeType := mSelChangeType s;
     mPreceedingCount := mPreceedingCount s; mPackedEvent := p |}.

(** Writes through an [AccSelChangeEvent*]: the object keeps its class. *)
Definition onSelChange (f : SelChange -> SelChange) (e : AccEvent) : AccEvent :=
  match payload e with
  | SelChangeEvent s => withPayload (SelChangeEvent (f s)) e
  | _ => e
  end.

(** [downcast_accEvent]: null unless the object has the requested class. *)
Definition asSelChange (e : AccEvent) : Result SelChange :=
  match payload e with
  | SelChangeEvent s => Ok s
  | _ => Crash NullDeref
  end.

Definition asStateChange (e : AccEvent) : Result (Z * bool) :=
  match payload e with
  | StateChangeEvent st en => Ok (st, en)
  | _ => Crash NullDeref
  end.

Definition asTextSelChange (e : AccEvent) : Result nat :=
  match payload e with
  | TextSelChangeEvent sel => Ok sel
  | _ => Crash NullDeref
  end.

(** ** Collaborators *)

Inductive ETextEquivRule : Type := eNameFromSubtreeIfReqRule | eNameFromSubtreeRule.

Inductive ENameValueFlag : Type :=
| eNameOK
| eNameFromSubtree
| eNameFromTooltip
| eNameFromRelations
| eNameOtherFlag.

Inductive RelationType : Type := LABEL_FOR | DESCRIPTION_FOR.

(** Everything sent to a collaborator, in order, and what became of each
    pushed event.  A fired or processed event is recorded with the contents
    of the object at that moment. *)
Inductive Effect : Type :=
| ProcessFocusEvent (e : EventPtr) (now : AccEvent)
| ProcessTextSelChangeEvent (e : EventPtr) (now : AccEvent)
| FireStateChange (target : option Acc) (state : Z) (enabled fromUser : bool)
| FireEvent (e : EventPtr) (now : AccEvent)
| SendQueuedMutationEvents
| SendSelectedAccessiblesChanged (selectedIDs unselectedIDs : list Z)
| PushedToFocusSlot (e : EventPtr)
| PushDroppedAsDuplicate (e : EventPtr)
| PushAppended (e : EventPtr).

(** What a listener may do, synchronously, while a notification is being
    delivered to it. *)
Inductive Reaction : Type :=
| ReactQueueEvent (ev : AccEvent)   (* create an event and push it *)
| ReactDefunct (a : Acc)            (* destroy an accessible *)
| ReactShutdown.                    (* detach the document *)

(** The tree, the name computation, the transport and the listeners. *)
Record Env : Type := {
  HasNameRule : Acc -> ETextEquivRule -> bool;
  HasNameDependent : Acc -> bool;
  HasDescriptionDependent : Acc -> bool;
  IsHTMLFileInput : Acc -> bool;
  Name : Acc -> ENameValueFlag * bool;     (* flag, name.IsVoid() *)
  RelationByType : Acc -> RelationType -> list Acc;
  LocalParent : Acc -> option Acc;
  IsDoc : Acc -> bool;
  UniqueID : Acc -> Z;
  IPCAccessibilityActive : bool;
  IPCDoc : bool;                           (* mDocument->IPCDoc() != nullptr *)
  states_SELECTED : Z;
  defaultEventRule : EEventRule;           (* AccEvent constructor default *)
  autoDetectedUserInput : bool;            (* eAutoDetect resolved *)
  listener : Effect -> list Reaction
}.

(** ** Machine state *)

Record State : Type := {
  heap : EventPtr -> AccEvent;        (* the event objects *)
  nextPtr : EventPtr;                 (* next address [new] hands out *)
  mEvents : list EventPtr;            (* nsTArray<RefPtr<AccEvent>> *)
  mFocusEvent : option EventPtr;      (* RefPtr<AccEvent> *)
  mDocument : bool;                   (* mDocument != nullptr *)
  defunct : Acc -> bool;              (* LocalAccessible::IsDefunct *)
  log : list Effect                   (* observations, oldest first *)
}.

Definition withHeap (h : EventPtr -> AccEvent) (q : State) : State :=
  {| heap := h; nextPtr := nextPtr q; mEvents := mEvents q;
     mFocusEvent := mFocusEvent q; mDocument := mDocument q;
     defunct := defunct q; log := log q |}.

Definition withEvents (l : list EventPtr) (q : State) : State :=
  {| heap := heap q; nextPtr := nextPtr q; mEvents := l;
     mFocusEvent := mFocusEvent q; mDocument := mDocument q;
     defunct := defunct q; log := log q |}.

Definition withFocusEvent (f : option EventPtr) (q : State) : State :=
  {| heap := heap q; nextPtr := nextPtr q; mEvents := mEvents q;
     mFocusEvent := f; mDocument := mDocument q;
     defunct := defunct q; log := log q |}.

Definition withDocument (d : bool) (q : State) : State :=
  {| heap := heap q; nextPtr := nextPtr q; mEvents := mEvents q;
     mFocusEvent := mFocusEvent q; mDocument := d;
     defunct := defunct q; log := log q |}.

Definition withDefunct (d : Acc -> bool) (q : State) : State :=
  {| heap := heap q; nextPtr := nextPtr q; mEvents := mEvents q;
     mFocusEvent := mFocusEvent q; mDocument := mDocument q;
     defunct := d; log := log q |}.

Definition record (e : Effect) (q : State) : State :=
  {| heap := heap q; nextPtr := nextPtr q; mEvents := mEvents q;
     mFocusEvent := mFocusEvent q; mDocument := mDocument q;
     defunct := defunct q; log := log q ++ [e] |}.

(** In-place update of the object at [p]. *)
Definition modify (p : EventPtr) (f : AccEvent -> AccEvent) (q : State) : State :=
  withHeap (fun p' => if Nat.eqb p' p then f (heap q p) else heap q p') q.

(** [new AccEvent(...)]: a fresh object, at the next address. *)
Definition allocated (ev : AccEvent) (q : State) : State :=
  {| heap := fun p' => if Nat.eqb p' (nextPtr q) then ev else heap q p';
     nextPtr := S (nextPtr q); mEvents := mEvents q;
     mFocusEvent := mFocusEvent q; mDocument := mDocument q;
     defunct := defunct q; log := log q |}.

Definition alloc (ev : AccEvent) (q : State) : EventPtr * State :=
  (nextPtr q, allocated ev q).

Arguments allocated : simpl never.

(** ** nsTArray *)

Definition Length (l : list EventPtr) : Z := Z.of_nat (length l).

Definition IsEmpty {A : Type} (l : list A) : bool :=
  match l with [] => true | _ => false end.

(** [operator[]] aborts on an index past the end. *)
Definition ElementAt (l : list EventPtr) (index : Z) : Result EventPtr :=
  if (0 <=? index) && (index <? Length l) then
    match nth_error l (Z.to_nat index) with
    | Some p => Ok p
    | None => Crash IndexOutOfBounds
    end
  else Crash IndexOutOfBounds.

(** ** Loops *)

Inductive LoopStep (S R : Type) : Type :=
| Continue (s : S)     (* fall through to the next iteration *)
| Return (r : R).      (* [return] from the enclosing function *)

Arguments Continue {S R} s.
Arguments Return {S R} r.

(** [for (uint32_t index = start; cond(index); index--) body]. *)
Fixpoint forDown {S R : Type} (fuel : nat) (cond : Z -> bool)
    (body : Z -> S -> Result (LoopStep S R)) (index : Z) (s : S)
    : Result (LoopStep S R) :=
  if cond index then
    match fuel with
    | O => OutOfFuel
    | Datatypes.S fuel' =>
        r <- body index s ;;
        match r with
        | Continue s' => forDown fuel' cond body (u32 (index - 1)) s'
        | Return v => Ok (Return v)
        end
    end
  else Ok (Continue s).

(** Both exits of a loop whose early [return] carries the state. *)
Definition leave {S : Type} (r : LoopStep S S) : S :=
  match r with Continue s => s | Return s => s end.

(** ** The queue operations *)

(** Number of selection add/remove events in the queue when they aren't
    packed into a single selection-within event. *)
Definition kSelChangeCountToPack : Z := 5.

Definition selChangeKind (t : SelChangeType) : EventType :=
  if sel_eqb t eSelectionAdd then EVENT_SELECTION_ADD else EVENT_SELECTION_REMOVE.

(** Body of the loop in the pack step of [CoalesceSelChangeEvents]:
    do not emit any preceding selection events for same widget if they
    weren't coalesced yet. *)
Definition suppressPreceding (aTailEvent : EventPtr) (jdx : Z) (q : State)
    : Result (LoopStep State State) :=
  prevEvent <- ElementAt (mEvents q) jdx ;;
  if rule_eqb (mEventRule (heap q prevEvent)) (mEventRule (heap q aTailEvent)) then
    prevSel <- asSelChange (heap q prevEvent) ;;
    tailSel <- asSelChange (heap q aTailEvent) ;;
    if Nat.eqb (mWidget prevSel) (mWidget tailSel) then
      Ok (Continue (modify prevEvent (withRule eDoNotEmit) q))
    else Ok (Continue q)
  else Ok (Continue q).

(** The tail of [CoalesceSelChangeEvents], reached when the pair is neither
    packed into a selection-within event nor merged. *)
Definition unpackOrConvert (aTailEvent aThisEvent : EventPtr) (q : State)
    : Result State :=
  (* Unpack the packed selection change event because we've got one more
     selection add/remove. *)
  if type_eqb (mEventType (heap q aThisEvent)) EVENT_SELECTION then
    this1 <- asSelChange (heap q aThisEvent) ;;
    q <- match mPackedEvent this1 with
         | Some packed =>
             packedSel <- asSelChange (heap q packed) ;;
             let q := modify packed
                        (withType (selChangeKind (mSelChangeType packedSel))) q in
             let q := modify packed (withRule eCoalesceSelectionChange) q in
             Ok (modify aThisEvent (onSelChange (withPackedEvent None)) q)
         | None => Ok q
         end ;;
    this2 <- asSelChange (heap q aThisEvent) ;;
    Ok (modify aThisEvent (withType (selChangeKind (mSelChangeType this2))) q)
  (* Convert into selection add since control has single selection but
     other selection events for this control are queued. *)
  else if type_eqb (mEventType (heap q aTailEvent)) EVENT_SELECTION then
    Ok (modify aTailEvent (withType EVENT_SELECTION_ADD) q)
  else Ok q.

(** [EventQueue::CoalesceSelChangeEvents]. *)
Definition CoalesceSelChangeEvents (fuel : nat) (aTailEvent aThisEvent : EventPtr)
    (aThisIndex : Z) (q : State) : Result State :=
  this0 <- asSelChange (heap q aThisEvent) ;;
  let q := modify aTailEvent
             (onSelChange (withPreceedingCount (u32 (mPreceedingCount this0 + 1)))) q in
  tail1 <- asSelChange (heap q aTailEvent) ;;
  (* Pack all preceding events into single selection within event when we
     receive too much selection add/remove events. *)
  if kSelChangeCountToPack <=? mPreceedingCount tail1 then
    let q := modify aTailEvent (withType EVENT_SELECTION_WITHIN) q in
    let q := modify aTailEvent (withAccessible (Some (mWidget tail1))) q in
    let q := modify aThisEvent (withRule eDoNotEmit) q in
    if negb (type_eqb (mEventType (heap q aThisEvent)) EVENT_SELECTION_WITHIN) then
      r <- forDown fuel (fun jdx => jdx <? aThisIndex)
             (suppressPreceding aTailEvent) (u32 (aThisIndex - 1)) q ;;
      Ok (leave r)
    else Ok q
  else
    this1 <- asSelChange (heap q aThisEvent) ;;
    (* Pack sequential selection remove and selection add events into single
       selection change event. *)
    if (mPreceedingCount tail1 =? 1)
       && negb (Nat.eqb (mItem tail1) (mItem this1)) then
      if sel_eqb (mSelChangeType tail1) eSelectionAdd
         && sel_eqb (mSelChangeType this1) eSelectionRemove then
        let q := modify aThisEvent (withRule eDoNotEmit) q in
        let q := modify aTailEvent (withType EVENT_SELECTION) q in
        Ok (modify aTailEvent (onSelChange (withPackedEvent (Some aThisEvent))) q)
      else if sel_eqb (mSelChangeType this1) eSelectionAdd
         && sel_eqb (mSelChangeType tail1) eSelectionRemove then
        let q := modify aTailEvent (withRule eDoNotEmit) q in
        let q := modify aThisEvent (withType EVENT_SELECTION) q in
        Ok (modify aThisEvent (onSelChange (withPackedEvent (Some aTailEvent))) q)
      else unpackOrConvert aTailEvent aThisEvent q
    else unpackOrConvert aTailEvent aThisEvent q.

(** Bodies of the four backward scans of [CoalesceEvents]. *)

(** Coalesce old events by newer event. *)
Definition coalesceOfSameType (tailEvent : EventPtr) (index : Z) (q : State)
    : Result (LoopStep State State) :=
  accEvent <- ElementAt (mEvents q) index ;;
  if type_eqb (mEventType (heap q accEvent)) (mEventType (heap q tailEvent))
     && rule_eqb (mEventRule (heap q accEvent)) (mEventRule (heap q tailEvent))
  then Ok (Return (modify accEvent (withRule eDoNotEmit) q))
  else Ok (Continue q).

(** Coalesce selection change events within same control. *)
Definition coalesceSelectionChange (fuel : nat) (tailEvent : EventPtr)
    (index : Z) (q : State) : Result (LoopStep State State) :=
  thisEvent <- ElementAt (mEvents q) index ;;
  if rule_eqb (mEventRule (heap q thisEvent)) (mEventRule (heap q tailEvent)) then
    tailSel <- asSelChange (heap q tailEvent) ;;
    thisSel <- asSelChange (heap q thisEvent) ;;
    if Nat.eqb (mWidget tailSel) (mWidget thisSel) then
      q' <- CoalesceSelChangeEvents fuel tailEvent thisEvent index q ;;
      Ok (Return q')
    else Ok (Continue q)
  else Ok (Continue q).

(** If state change event is duped then ignore previous event. If state
    change event is opposite to previous event then no event is emitted
    (accessible state wasn't changed). *)
Definition coalesceStateChange (tailEvent : EventPtr) (index : Z) (q : State)
    : Result (LoopStep State State) :=
  thisEvent <- ElementAt (mEvents q) index ;;
  if negb (rule_eqb (mEventRule (heap q thisEvent)) eDoNotEmit)
     && type_eqb (mEventType (heap q thisEvent)) (mEventType (heap q tailEvent))
     && acc_eqb (mAccessible (heap q thisEvent)) (mAccessible (heap q tailEvent))
  then
    thisSC <- asStateChange (heap q thisEvent) ;;
    tailSC <- asStateChange (heap q tailEvent) ;;
    if fst thisSC =? fst tailSC then
      let q := modify thisEvent (withRule eDoNotEmit) q in
      if negb (Bool.eqb (snd thisSC) (snd tailSC)) then
        Ok (Continue (modify tailEvent (withRule eDoNotEmit) q))
      else Ok (Continue q)
    else Ok (Continue q)
  else Ok (Continue q).

(** Coalesce older event by newer event for the same selection or target. *)
Definition coalesceTextSelChange (tailEvent : EventPtr) (index : Z) (q : State)
    : Result (LoopStep State State) :=
  thisEvent <- ElementAt (mEvents q) index ;;
  if negb (rule_eqb (mEventRule (heap q thisEvent)) eDoNotEmit)
     && type_eqb (mEventType (heap q thisEvent)) (mEventType (heap q tailEvent))
  then
    thisSel <- asTextSelChange (heap q thisEvent) ;;
    tailSel <- asTextSelChange (heap q tailEvent) ;;
    if Nat.eqb thisSel tailSel
       || acc_eqb (mAccessible (heap q thisEvent)) (mAccessible (heap q tailEvent))
    then Ok (Continue (modify thisEvent (withRule eDoNotEmit) q))
    else Ok (Continue q)
  else Ok (Continue q).

(** [EventQueue::CoalesceEvents]. *)
Definition CoalesceEvents (fuel : nat) (q : State) : Result State :=
  let tail := u32 (Length (mEvents q) - 1) in
  tailEvent <- ElementAt (mEvents q) tail ;;
  match mEventRule (heap q tailEvent) with
  | eCoalesceReorder => Ok q
  | eCoalesceOfSameType =>
      r <- forDown fuel (fun index => index <? tail)
             (coalesceOfSameType tailEvent) (u32 (tail - 1)) q ;;
      Ok (leave r)
  | eCoalesceSelectionChange =>
      r <- forDown fuel (fun index => index <? tail)
             (coalesceSelectionChange fuel tailEvent) (u32 (tail - 1)) q ;;
      Ok (leave r)
  | eCoalesceStateChange =>
      r <- forDown fuel (fun index => index <? tail)
             (coalesceStateChange tailEvent) (u32 (tail - 1)) q ;;
      Ok (leave r)
  | eCoalesceTextSelChange =>
      r <- forDown fuel (fun index => index <? tail)
             (coalesceTextSelChange tailEvent) (u32 (tail - 1)) q ;;
      Ok (leave r)
  | eRemoveDupes | eAllowDupes | eDoNotEmit => Ok q
  end.

Section WithCollaborators.

Variable env : Env.

(** [new AccEvent(aEventType, aAccessible)], with the constructor's default
    arguments. *)
Definition newAccEvent (aEventType : EventType) (aAccessible : Acc) : AccEvent :=
  {| mEventType := aEventType; mEventRule := defaultEventRule env;
     mAccessible := Some aAccessible;
     mIsFromUserInput := autoDetectedUserInput env;
     payload := PlainEvent |}.

Section Propagation.

(** The propagator re-enters [PushEvent]; the knot is tied below. *)
Variable PushEvent : EventPtr -> State -> Result (bool * State).

(** The [while (rel.LocalNext())] loop. *)
Fixpoint pushToTargets (eventType : EventType) (targets : list Acc)
    (pushed : bool) (q : State) : Result (bool * State) :=
  match targets with
  | [] => Ok (pushed, q)
  | relTarget :: rest =>
      let '(nameChangeEvent, q) := alloc (newAccEvent eventType relTarget) q in
      '(b, q) <- PushEvent nameChangeEvent q ;;
      pushToTargets eventType rest (pushed || b) q
  end.

(** [EventQueue::PushNameOrDescriptionChangeToRelations]. *)
Definition PushNameOrDescriptionChangeToRelations (aAccessible : Acc)
    (aType : RelationType) (q : State) : Result (bool * State) :=
  let eventType := match aType with
                   | LABEL_FOR => EVENT_NAME_CHANGE
                   | DESCRIPTION_FOR => EVENT_DESCRIPTION_CHANGE
                   end in
  pushToTargets eventType (RelationByType env aAccessible aType) false q.

(** The name-change decision for an ancestor whose name comes from its
    subtree. *)
Definition fireNameChange (parent : Acc) : bool :=
  (* HTML file inputs always get part of their name from the subtree, even
     if the author provided a name. *)
  if IsHTMLFileInput env parent then true
  else
    match Name env parent with
    | (eNameOK, isVoid) => isVoid
    | (eNameFromSubtree, _) => true
    | (eNameFromTooltip, _) => true
    | (eNameFromRelations, _) => true
    | (eNameOtherFlag, _) => false
    end.

(** The [do ... while] loop of [PushNameOrDescriptionChange]. *)
Fixpoint walkAncestors (fuel : nat) (target : Acc)
    (maybeTargetNameChanged doName doDesc : bool)
    (parent : Acc) (nameCheckAncestor pushed : bool) (q : State)
    : Result (bool * State) :=
  match fuel with
  | O => OutOfFuel
  | S fuel' =>
      (* Test possible name dependent parent. *)
      '(nameCheckAncestor, pushed, q) <-
        (if doName then
           '(nameCheckAncestor, pushed, q) <-
             (if nameCheckAncestor
                 && (maybeTargetNameChanged || negb (Nat.eqb parent target))
                 && HasNameRule env parent eNameFromSubtreeRule then
                '(pushed, q) <-
                  (if fireNameChange parent then
                     let '(nameChangeEvent, q) :=
                       alloc (newAccEvent EVENT_NAME_CHANGE parent) q in
                     '(b, q) <- PushEvent nameChangeEvent q ;;
                     Ok (pushed || b, q)
                   else Ok (pushed, q)) ;;
                Ok (false, pushed, q)
              else Ok (nameCheckAncestor, pushed, q)) ;;
           '(b, q) <- PushNameOrDescriptionChangeToRelations parent LABEL_FOR q ;;
           Ok (nameCheckAncestor, pushed || b, q)
         else Ok (nameCheckAncestor, pushed, q)) ;;
      '(pushed, q) <-
        (if doDesc then
           '(b, q) <- PushNameOrDescriptionChangeToRelations parent DESCRIPTION_FOR q ;;
           Ok (pushed || b, q)
         else Ok (pushed, q)) ;;
      if IsDoc env parent then
        (* Never cross document boundaries. *)
        Ok (pushed, q)
      else
        match LocalParent env parent with
        | Some parent =>
            if HasNameRule env parent eNameFromSubtreeIfReqRule then
              walkAncestors fuel' target maybeTargetNameChanged doName doDesc
                parent nameCheckAncestor pushed q
            else Ok (pushed, q)
        | None => Ok (pushed, q)
        end
  end.

(** [EventQueue::PushNameOrDescriptionChange].  The event's target is
    dereferenced without a null check. *)
Definition PushNameOrDescriptionChange (fuel : nat) (aOrigEvent : EventPtr)
    (q : State) : Result (bool * State) :=
  match mAccessible (heap q aOrigEvent) with
  | None => Crash NullDeref
  | Some target =>
      let t := mEventType (heap q aOrigEvent) in
      let maybeTargetNameChanged :=
        (type_eqb t EVENT_TEXT_REMOVED || type_eqb t EVENT_TEXT_INSERTED
         || type_eqb t EVENT_REORDER || type_eqb t EVENT_INNER_REORDER)
        && HasNameRule env target eNameFromSubtreeRule in
      let doName := HasNameDependent env target || maybeTargetNameChanged in
      let doDesc := HasDescriptionDependent env target in
      if negb doName && negb doDesc then Ok (false, q)
      else walkAncestors fuel target maybeTargetNameChanged doName doDesc
             target true false q
  end.

End Propagation.

(** Body of the duplicate check of [PushEvent]: if aEvent is identical to
    an older event, do not append aEvent. *)
Definition checkDuplicate (aEvent : EventPtr) (index : Z) (q : State)
    : Result (LoopStep State State) :=
  checkEvent <- ElementAt (mEvents q) index ;;
  if type_eqb (mEventType (heap q checkEvent)) (mEventType (heap q aEvent))
     && rule_eqb (mEventRule (heap q checkEvent)) (mEventRule (heap q aEvent))
     && acc_eqb (mAccessible (heap q checkEvent)) (mAccessible (heap q aEvent))
  then Ok (Return (modify aEvent (withRule eDoNotEmit) q))
  else Ok (Continue q).

(** The duplicate check of [PushEvent]: [Return] when an older identical
    event exists. *)
Definition findDuplicate (fuel : nat) (aEvent : EventPtr) (q : State)
    : Result (LoopStep State State) :=
  let last := u32 (Length (mEvents q) - 1) in
  forDown fuel (fun index => index <=? last) (checkDuplicate aEvent) last q.

Definition startsPropagation (t : EventType) : bool :=
  type_eqb t EVENT_NAME_CHANGE || type_eqb t EVENT_TEXT_REMOVED
  || type_eqb t EVENT_TEXT_INSERTED.

(** [EventQueue::PushEvent]. *)
Fixpoint PushEvent (fuel : nat) (aEvent : EventPtr) (q : State)
    : Result (bool * State) :=
  match fuel with
  | O => OutOfFuel
  | S fuel' =>
      if type_eqb (mEventType (heap q aEvent)) EVENT_FOCUS then
        Ok (true, record (PushedToFocusSlot aEvent) (withFocusEvent (Some aEvent) q))
      else
        dup <- (if rule_eqb (mEventRule (heap q aEvent)) eRemoveDupes
                   && negb (IsEmpty (mEvents q))
                then findDuplicate fuel aEvent q
                else Ok (Continue q)) ;;
        match dup with
        | Return q => Ok (true, record (PushDroppedAsDuplicate aEvent) q)
        | Continue q =>
            let q := record (PushAppended aEvent)
                       (withEvents (mEvents q ++ [aEvent]) q) in
            (* Filter events. *)
            q <- CoalesceEvents fuel q ;;
            if startsPropagation (mEventType (heap q aEvent)) then
              '(_, q) <- PushNameOrDescriptionChange (PushEvent fuel') fuel' aEvent q ;;
              Ok (true, q)
            else Ok (true, q)
        end
  end.

(** A producer creating an event and queueing it:
    [PushEvent(new AccEvent(...))]. *)
Definition QueueEvent (fuel : nat) (ev : AccEvent) (q : State) : Result State :=
  let '(p, q) := alloc ev q in
  '(_, q) <- PushEvent fuel p q ;;
  Ok q.

Fixpoint QueueEvents (fuel : nat) (evs : list AccEvent) (q : State) : Result State :=
  match evs with
  | [] => Ok q
  | ev :: rest => q <- QueueEvent fuel ev q ;; QueueEvents fuel rest q
  end.

(** ** The drain *)

Fixpoint react (fuel : nat) (rs : list Reaction) (q : State) : Result State :=
  match rs with
  | [] => Ok q
  | ReactQueueEvent ev :: rest => q <- QueueEvent fuel ev q ;; react fuel rest q
  | ReactDefunct a :: rest =>
      react fuel rest
        (withDefunct (fun a' => if Nat.eqb a' a then true else defunct q a') q)
  | ReactShutdown :: rest => react fuel rest (withDocument false q)
  end.

(** Hand one notification to its collaborator; the listeners run before
    the call returns. *)
Definition emit (fuel : nat) (e : Effect) (q : State) : Result State :=
  react fuel (listener env e) (record e q).

Definition isSelectionKind (t : EventType) : bool :=
  type_eqb t EVENT_SELECTION_ADD || type_eqb t EVENT_SELECTION_REMOVE
  || type_eqb t EVENT_SELECTION.

Definition isMutationKind (t : EventType) : bool :=
  type_eqb t EVENT_REORDER || type_eqb t EVENT_TEXT_INSERTED
  || type_eqb t EVENT_TEXT_REMOVED.

(** The part of the loop body that collects select changes. *)
Definition collectSelChange (event : EventPtr) (eventType : EventType)
    (ids : list Z * list Z) (q : State) : Result (list Z * list Z) :=
  if IPCAccessibilityActive env then
    if (rule_eqb (mEventRule (heap q event)) eDoNotEmit && isSelectionKind eventType)
       || type_eqb eventType EVENT_SELECTION_WITHIN then
      selChangeEvent <- asSelChange (heap q event) ;;
      let item := mItem selChangeEvent in
      if negb (defunct q item) then
        let itemID := if IsDoc env item then 0 else UniqueID env item in
        if sel_eqb (mSelChangeType selChangeEvent) eSelectionAdd
        then Ok (fst ids ++ [itemID], snd ids)
        else Ok (fst ids, snd ids ++ [itemID])
      else Ok ids
    else Ok ids
  else Ok ids.

(** Fire selected state change events in support to selection events. *)
Definition fireSelectedState (fuel : nat) (event : EventPtr)
    (eventType : EventType) (q : State) : Result State :=
  if type_eqb eventType EVENT_SELECTION_ADD then
    emit fuel (FireStateChange (mAccessible (heap q event)) (states_SELECTED env)
                 true (mIsFromUserInput (heap q event))) q
  else if type_eqb eventType EVENT_SELECTION_REMOVE then
    emit fuel (FireStateChange (mAccessible (heap q event)) (states_SELECTED env)
                 false (mIsFromUserInput (heap q event))) q
  else if type_eqb eventType EVENT_SELECTION then
    selChangeEvent <- asSelChange (heap q event) ;;
    q <- emit fuel (FireStateChange (mAccessible (heap q event)) (states_SELECTED env)
                      (sel_eqb (mSelChangeType selChangeEvent) eSelectionAdd)
                      (mIsFromUserInput (heap q event))) q ;;
    selChangeEvent <- asSelChange (heap q event) ;;
    match mPackedEvent selChangeEvent with
    | Some packed =>
        packedSel <- asSelChange (heap q packed) ;;
        emit fuel (FireStateChange (mAccessible (heap q packed)) (states_SELECTED env)
                     (sel_eqb (mSelChangeType packedSel) eSelectionAdd)
                     (mIsFromUserInput (heap q packed))) q
    | None => Ok q
    end
  else Ok q.

(** The [for (idx = 0; idx < eventCount; idx++)] loop over the detached
    array.  [None] is the early [return] taken when the document is gone. *)
Fixpoint processEvents (fuel : nat) (events : list EventPtr)
    (ids : list Z * list Z) (q : State) : Result (option (list Z * list Z) * State) :=
  match events with
  | [] => Ok (Some ids, q)
  | event :: rest =>
      let eventType := mEventType (heap q event) in
      match mAccessible (heap q event) with
      | None => processEvents fuel rest ids q
      | Some target =>
          if defunct q target then processEvents fuel rest ids q
          else
            (* Collect select changes *)
            ids <- collectSelChange event eventType ids q ;;
            if rule_eqb (mEventRule (heap q event)) eDoNotEmit then
              processEvents fuel rest ids q
            (* Dispatch caret moved and text selection change events. *)
            else if type_eqb eventType EVENT_TEXT_SELECTION_CHANGED then
              q <- emit fuel (ProcessTextSelChangeEvent event (heap q event)) q ;;
              processEvents fuel rest ids q
            else
              q <- fireSelectedState fuel event eventType q ;;
              q <- emit fuel (FireEvent event (heap q event)) q ;;
              if negb (mDocument q) then Ok (None, q)
              else
                q <- (if isMutationKind eventType && IPCDoc env
                      then emit fuel SendQueuedMutationEvents q
                      else Ok q) ;;
                processEvents fuel rest ids q
      end
  end.

(** [EventQueue::ProcessEventQueue]. *)
Definition ProcessEventQueue (fuel : nat) (q : State) : Result State :=
  (* Process only currently queued events. *)
  let events := mEvents q in
  let q := withEvents [] q in
  q <- match mFocusEvent q with
       | Some event =>
           (* Always fire a pending focus event before all other events. *)
           let q := withFocusEvent None q in
           match mAccessible (heap q event) with
           | None => Crash NullDeref
           | Some target =>
               if negb (defunct q target)
               then emit fuel (ProcessFocusEvent event (heap q event)) q
               else Ok q
           end
       | None => Ok q
       end ;;
  '(ids, q) <- processEvents fuel events ([], []) q ;;
  match ids with
  | Some (selectedIDs, unselectedIDs) =>
      if mDocument q && IPCAccessibilityActive env
         && (negb (IsEmpty selectedIDs) || negb (IsEmpty unselectedIDs)) then
        if IPCDoc env
        then emit fuel (SendSelectedAccessiblesChanged selectedIDs unselectedIDs) q
        else Crash NullDeref
      else Ok q
  | None => Ok q
  end.

End WithCollaborators.

(** * Properties *)

(** ** Machine integers and arrays *)

Lemma u32_small (z : Z) : 0 <= z < 2 ^ 32 -> u32 z = z.
Proof. intros H. unfold u32. apply Z.mod_small. exact H. Qed.

Lemma u32_minus_one : u32 (0 - 1) = 2 ^ 32 - 1.
Proof. reflexivity. Qed.

Lemma Length_app (l : list EventPtr) (p : EventPtr) :
  Length (l ++ [p]) = Length l + 1.
Proof. unfold Length. rewrite length_app. simpl. lia. Qed.

Lemma Length_nonneg (l : list EventPtr) : 0 <= Length l.
Proof. unfold Length. lia. Qed.

Lemma ElementAt_nth (l : list EventPtr) (i : nat) (p : EventPtr) :
  nth_error l i = Some p -> ElementAt l (Z.of_nat i) = Ok p.
Proof.
  intros H. unfold ElementAt.
  assert (Hi : (i < length l)%nat) by (apply nth_error_Some; congruence).
  replace (0 <=? Z.of_nat i) with true by (symmetry; apply Z.leb_le; lia).
  replace (Z.of_nat i <? Length l) with true
    by (symmetry; apply Z.ltb_lt; unfold Length; lia).
  simpl. rewrite Nat2Z.id, H. reflexivity.
Qed.

Lemma ElementAt_in_bounds (l : list EventPtr) (i : nat) :
  (i < length l)%nat -> exists p, ElementAt l (Z.of_nat i) = Ok p /\ nth_error l i = Some p.
Proof.
  intros H. destruct (nth_error l i) as [p|] eqn:E.
  - exists p. split; [apply ElementAt_nth; exact E | reflexivity].
  - apply nth_error_None in E. lia.
Qed.

Lemma ElementAt_last (l : list EventPtr) (p : EventPtr) :
  Length l < 2 ^ 32 ->
  ElementAt (l ++ [p]) (u32 (Length (l ++ [p]) - 1)) = Ok p.
Proof.
  intros H. rewrite Length_app.
  replace (Length l + 1 - 1) with (Length l) by lia.
  rewrite u32_small by (pose proof (Length_nonneg l); lia).
  unfold Length at 1. apply ElementAt_nth.
  rewrite nth_error_app2 by lia. rewrite Nat.sub_diag. reflexivity.
Qed.

(** ** Loops: the wrapped countdown visits the indices below its bound *)

(** The indices [n-1], ..., [0], by structural recursion. *)
Fixpoint scanDown {S R : Type} (body : Z -> S -> Result (LoopStep S R))
    (n : nat) (s : S) : Result (LoopStep S R) :=
  match n with
  | O => Ok (Continue s)
  | Datatypes.S m =>
      r <- body (Z.of_nat m) s ;;
      match r with
      | Continue s' => scanDown body m s'
      | Return v => Ok (Return v)
      end
  end.

Lemma forDown_scanDown {S R : Type} (cond : Z -> bool)
    (body : Z -> S -> Result (LoopStep S R)) (B : Z) :
  0 <= B < 2 ^ 32 ->
  (forall i, 0 <= i < 2 ^ 32 -> cond i = (i <? B)) ->
  forall (n fuel : nat) (s : S),
    Z.of_nat n <= B -> (n <= fuel)%nat ->
    forDown fuel cond body (u32 (Z.of_nat n - 1)) s = scanDown body n s.
Proof.
  intros HB Hcond n. induction n as [|m IH]; intros fuel s Hn Hfuel.
  - remember (u32 (Z.of_nat 0 - 1)) as top eqn:Etop.
    assert (Htop : top = 2 ^ 32 - 1) by (subst top; reflexivity).
    assert (Hc : cond top = false).
    { rewrite Hcond by lia. apply Z.ltb_ge. lia. }
    destruct fuel; simpl; rewrite Hc; reflexivity.
  - replace (Z.of_nat (Datatypes.S m) - 1) with (Z.of_nat m) by lia.
    rewrite u32_small by lia.
    assert (Hc : cond (Z.of_nat m) = true).
    { rewrite Hcond by lia. apply Z.ltb_lt. lia. }
    destruct fuel as [|fuel]; [lia|].
    simpl. rewrite Hc.
    destruct (body (Z.of_nat m) s) as [[s'|v]| |]; simpl; try reflexivity.
    apply IH; lia.
Qed.

(** Invariant rule for the structural scan: [P k] holds when the indices
    below [k] are still to be visited. *)
Lemma scanDown_inv {S R : Type} (body : Z -> S -> Result (LoopStep S R))
    (P : nat -> S -> Prop) (Q : R -> Prop) :
  forall (n : nat),
    (forall (i : nat) s r, (i < n)%nat -> P (Datatypes.S i) s ->
       body (Z.of_nat i) s = Ok r ->
       match r with Continue s' => P i s' | Return v => Q v end) ->
    forall s r, P n s -> scanDown body n s = Ok r ->
      match r with Continue s' => P O s' | Return v => Q v end.
Proof.
  induction n as [|m IH]; intros Hbody s r HP Hrun; simpl in Hrun.
  - inversion Hrun; subst. exact HP.
  - destruct (body (Z.of_nat m) s) as [[s'|v]| |] eqn:E; simpl in Hrun;
      try discriminate.
    + apply (IH (fun i s0 r0 Hi => Hbody i s0 r0 (Nat.lt_lt_succ_r _ _ Hi)) s' r);
        [|exact Hrun].
      exact (Hbody m s (Continue s') (Nat.lt_succ_diag_r m) HP E).
    + inversion Hrun; subst.
      exact (Hbody m s (Return v) (Nat.lt_succ_diag_r m) HP E).
Qed.

(** Total version: a body that succeeds under the invariant makes the scan
    succeed. *)
Lemma scanDown_total {S R : Type} (body : Z -> S -> Result (LoopStep S R))
    (P : nat -> S -> Prop) (Q : R -> Prop) :
  forall (n : nat),
    (forall (i : nat) s, (i < n)%nat -> P (Datatypes.S i) s ->
       exists r, body (Z.of_nat i) s = Ok r /\
         match r with Continue s' => P i s' | Return v => Q v end) ->
    forall s, P n s ->
      exists r, scanDown body n s = Ok r /\
        match r with Continue s' => P O s' | Return v => Q v end.
Proof.
  induction n as [|m IH]; intros Hbody s HP; simpl.
  - exists (Continue s). split; [reflexivity | exact HP].
  - destruct (Hbody m s (Nat.lt_succ_diag_r m) HP) as [r [E Hr]].
    rewrite E. simpl. destruct r as [s'|v].
    + apply IH; [|exact Hr]. intros i s0 Hi. apply Hbody. lia.
    + exists (Return v). split; [reflexivity | exact Hr].
Qed.

(** A computation that neither ran off an array nor out of fuel. *)
Definition completes {A : Type} (r : Result A) : Prop :=
  r <> OutOfFuel /\ r <> Crash IndexOutOfBounds.

Lemma completes_Ok {A : Type} (a : A) : completes (Ok a).
Proof. split; discriminate. Qed.

Lemma completes_NullDeref {A : Type} : completes (@Crash A NullDeref).
Proof. split; discriminate. Qed.

Lemma completes_bind {A B : Type} (c : Result A) (k : A -> Result B) :
  completes c -> (forall a, c = Ok a -> completes (k a)) -> completes (bind c k).
Proof.
  intros [H1 H2] Hk. destruct c as [a|f|]; simpl.
  - apply Hk. reflexivity.
  - split; [discriminate|]. intros E. apply H2. inversion E. reflexivity.
  - congruence.
Qed.

Lemma scanDown_completes {S R : Type} (body : Z -> S -> Result (LoopStep S R))
    (P : S -> Prop) :
  forall (n : nat),
    (forall (i : nat) s, (i < n)%nat -> P s ->
       completes (body (Z.of_nat i) s) /\
       forall s', body (Z.of_nat i) s = Ok (Continue s') -> P s') ->
    forall s, P s -> completes (scanDown body n s).
Proof.
  induction n as [|m IH]; intros Hbody s HP; simpl.
  - apply completes_Ok.
  - destruct (Hbody m s (Nat.lt_succ_diag_r m) HP) as [Hc Hn].
    apply completes_bind; [exact Hc|].
    intros [s'|v] E; [|apply completes_Ok].
    apply IH; [|apply Hn; exact E].
    intros i s0 Hi. apply Hbody. lia.
Qed.

(** The two loop headers of the source, as structural scans. *)

Lemma scan_below_tail {R : Type} (body : Z -> State -> Result (LoopStep State R))
    (l : list EventPtr) (fuel : nat) (s : State) :
  l <> [] -> Length l < 2 ^ 32 -> (length l - 1 <= fuel)%nat ->
  forDown fuel (fun index => index <? u32 (Length l - 1)) body
    (u32 (u32 (Length l - 1) - 1)) s
  = scanDown body (length l - 1) s.
Proof.
  intros Hne Hlen Hfuel.
  assert (Hpos : (0 < length l)%nat) by (destruct l; [congruence | simpl; lia]).
  unfold Length in *.
  rewrite (u32_small (Z.of_nat (length l) - 1)) by lia.
  replace (Z.of_nat (length l) - 1) with (Z.of_nat (length l - 1)) by lia.
  apply (forDown_scanDown _ body (Z.of_nat (length l - 1)));
    first [lia | intros; reflexivity].
Qed.

Lemma scan_from_last {R : Type} (body : Z -> State -> Result (LoopStep State R))
    (l : list EventPtr) (fuel : nat) (s : State) :
  l <> [] -> Length l < 2 ^ 32 -> (length l <= fuel)%nat ->
  forDown fuel (fun index => index <=? u32 (Length l - 1)) body
    (u32 (Length l - 1)) s
  = scanDown body (length l) s.
Proof.
  intros Hne Hlen Hfuel.
  assert (Hpos : (0 < length l)%nat) by (destruct l; [congruence | simpl; lia]).
  unfold Length in *.
  rewrite (u32_small (Z.of_nat (length l) - 1)) by lia.
  pose proof (forDown_scanDown
                (fun index => index <=? Z.of_nat (length l) - 1) body
                (Z.of_nat (length l))) as Hscan.
  assert (Hcond : forall i : Z, 0 <= i < 2 ^ 32 ->
            (i <=? Z.of_nat (length l) - 1) = (i <? Z.of_nat (length l))).
  { intros i Hi. destruct (Z.leb_spec i (Z.of_nat (length l) - 1));
      destruct (Z.ltb_spec i (Z.of_nat (length l))); try reflexivity; lia. }
  specialize (Hscan ltac:(lia) Hcond (length l) fuel s ltac:(lia) Hfuel).
  rewrite u32_small in Hscan by lia. exact Hscan.
Qed.

Lemma scan_below_index {R : Type} (body : Z -> State -> Result (LoopStep State R))
    (aThisIndex : Z) (fuel : nat) (s : State) :
  0 <= aThisIndex < 2 ^ 32 -> (Z.to_nat aThisIndex <= fuel)%nat ->
  forDown fuel (fun jdx => jdx <? aThisIndex) body (u32 (aThisIndex - 1)) s
  = scanDown body (Z.to_nat aThisIndex) s.
Proof.
  intros Hidx Hfuel.
  pose proof (forDown_scanDown (fun jdx => jdx <? aThisIndex) body aThisIndex
                Hidx (fun i _ => eq_refl) (Z.to_nat aThisIndex) fuel s
                ltac:(lia) Hfuel) as Hscan.
  rewrite Z2Nat.id in Hscan by lia. exact Hscan.
Qed.

(** ** What coalescing leaves alone *)

(** Two states that differ at most in the contents of event objects. *)
Definition sameShape (q q' : State) : Prop :=
  nextPtr q' = nextPtr q /\ mEvents q' = mEvents q /\
  mFocusEvent q' = mFocusEvent q /\ mDocument q' = mDocument q /\
  defunct q' = defunct q /\ log q' = log q.

Lemma sameShape_refl (q : State) : sameShape q q.
Proof. repeat split. Qed.

Lemma sameShape_trans (q1 q2 q3 : State) :
  sameShape q1 q2 -> sameShape q2 q3 -> sameShape q1 q3.
Proof.
  unfold sameShape. intros (A1 & A2 & A3 & A4 & A5 & A6) (B1 & B2 & B3 & B4 & B5 & B6).
  repeat split; congruence.
Qed.

Lemma sameShape_modify (q q' : State) (p : EventPtr) (f : AccEvent -> AccEvent) :
  sameShape q q' -> sameShape q (modify p f q').
Proof. intros H. exact H. Qed.

Create HintDb shape.
#[local] Hint Resolve sameShape_refl sameShape_modify : shape.

Lemma asSelChange_cases (e : AccEvent) :
  (exists s, asSelChange e = Ok s /\ payload e = SelChangeEvent s)
  \/ asSelChange e = Crash NullDeref.
Proof.
  unfold asSelChange. destruct (payload e); eauto.
Qed.

(** Case analysis on a run that is known to have succeeded. *)
Ltac step_ok :=
  match goal with
  | H : bind ?c _ = Ok _ |- _ =>
      let E := fresh "E" in
      destruct c eqn:E; simpl in H; [|discriminate H|discriminate H]
  | H : (if ?c then _ else _) = Ok _ |- _ =>
      let E := fresh "E" in destruct c eqn:E
  | H : match ?c with Some _ => _ | None => _ end = Ok _ |- _ =>
      let E := fresh "E" in destruct c eqn:E
  | H : Ok _ = Ok _ |- _ => inversion H; subst; clear H
  | H : Crash _ = Ok _ |- _ => discriminate H
  | H : OutOfFuel = Ok _ |- _ => discriminate H
  end.

Ltac steps_ok := repeat step_ok.

Lemma suppressPreceding_shape (t : EventPtr) (i : Z) (q : State)
    (r : LoopStep State State) :
  suppressPreceding t i q = Ok r -> sameShape q (leave r).
Proof.
  unfold suppressPreceding. intros H. steps_ok; simpl; auto with shape.
Qed.

Lemma scanDown_shape (body : Z -> State -> Result (LoopStep State State))
    (n : nat) (q : State) (r : LoopStep State State) :
  (forall i s r, body i s = Ok r -> sameShape s (leave r)) ->
  scanDown body n q = Ok r -> sameShape q (leave r).
Proof.
  intros Hbody Hrun.
  pose proof (scanDown_inv body (fun _ s => sameShape q s) (fun v => sameShape q v) n) as Hinv.
  assert (Hstep : forall (i : nat) s r0, (i < n)%nat -> sameShape q s ->
            body (Z.of_nat i) s = Ok r0 ->
            match r0 with Continue s' => sameShape q s' | Return v => sameShape q v end).
  { intros i s r0 _ Hs E. specialize (Hbody _ _ _ E).
    destruct r0; simpl in Hbody; eapply sameShape_trans; eauto. }
  specialize (Hinv Hstep q r (sameShape_refl q) Hrun).
  destruct r; exact Hinv.
Qed.

Lemma forDown_shape (body : Z -> State -> Result (LoopStep State State))
    (cond : Z -> bool) (fuel : nat) :
  (forall i s r, body i s = Ok r -> sameShape s (leave r)) ->
  forall (index : Z) (q : State) (r : LoopStep State State),
    forDown fuel cond body index q = Ok r -> sameShape q (leave r).
Proof.
  intros Hbody. induction fuel as [|fuel IH]; intros index q r H; simpl in H.
  - destruct (cond index); [discriminate|]. inversion H; subst. apply sameShape_refl.
  - destruct (cond index).
    + destruct (body index q) as [[s'|v]| |] eqn:E; simpl in H; try discriminate.
      * eapply sameShape_trans; [exact (Hbody _ _ _ E)|]. simpl. eapply IH; eauto.
      * inversion H; subst. exact (Hbody _ _ _ E).
    + inversion H; subst. apply sameShape_refl.
Qed.

Lemma unpackOrConvert_shape (t p : EventPtr) (q q' : State) :
  unpackOrConvert t p q = Ok q' -> sameShape q q'.
Proof.
  unfold unpackOrConvert. intros H. steps_ok; simpl; auto with shape.
Qed.

Lemma CoalesceSelChangeEvents_shape (fuel : nat) (t p : EventPtr) (i : Z)
    (q q' : State) :
  CoalesceSelChangeEvents fuel t p i q = Ok q' -> sameShape q q'.
Proof.
  unfold CoalesceSelChangeEvents. intros H.
  steps_ok; simpl; auto with shape;
    try (apply unpackOrConvert_shape in H; exact H).
  match goal with
  | E : forDown _ _ _ _ _ = Ok _ |- _ => apply forDown_shape in E; [exact E|]
  end.
  intros; eapply suppressPreceding_shape; eauto.
Qed.

Lemma coalesce_bodies_shape (fuel : nat) (t : EventPtr) (i : Z) (q : State)
    (r : LoopStep State State) :
  (coalesceOfSameType t i q = Ok r \/
   coalesceSelectionChange fuel t i q = Ok r \/
   coalesceStateChange t i q = Ok r \/
   coalesceTextSelChange t i q = Ok r) ->
  sameShape q (leave r).
Proof.
  unfold coalesceOfSameType, coalesceSelectionChange, coalesceStateChange,
    coalesceTextSelChange.
  intros [H|[H|[H|H]]]; steps_ok; simpl; auto with shape.
  match goal with
  | E : CoalesceSelChangeEvents _ _ _ _ _ = Ok _ |- _ =>
      apply CoalesceSelChangeEvents_shape in E; exact E
  end.
Qed.

(** [CoalesceEvents] never changes the array, the focus slot or the log:
    it only writes into event objects. *)
Lemma CoalesceEvents_shape (fuel : nat) (q q' : State) :
  CoalesceEvents fuel q = Ok q' -> sameShape q q'.
Proof.
  unfold CoalesceEvents. intros H.
  step_ok.
  destruct (mEventRule (heap q a)); try (inversion H; subst; apply sameShape_refl);
    steps_ok;
    match goal with
    | E : forDown _ _ _ _ _ = Ok _ |- _ => eapply forDown_shape; [|exact E]
    end;
    intros i s r Hr; apply (coalesce_bodies_shape fuel a i s r); auto.
Qed.

(** ** The backward scans stay in bounds and terminate *)

Lemma completes_ElementAt (l : list EventPtr) (i : nat) :
  (i < length l)%nat -> completes (ElementAt l (Z.of_nat i)).
Proof.
  intros H. destruct (ElementAt_in_bounds l i H) as [p [E _]].
  rewrite E. apply completes_Ok.
Qed.

Ltac completes_tac :=
  repeat match goal with
  | |- completes (Ok _) => apply completes_Ok
  | |- completes (Crash NullDeref) => apply completes_NullDeref
  | |- completes (ElementAt _ (Z.of_nat _)) => apply completes_ElementAt
  | |- completes (bind _ _) => apply completes_bind; [|intros ? ?]
  | |- completes (if ?c then _ else _) => destruct c
  | |- completes (asSelChange ?e) => unfold asSelChange; destruct (payload e)
  | |- completes (asStateChange ?e) => unfold asStateChange; destruct (payload e)
  | |- completes (asTextSelChange ?e) => unfold asTextSelChange; destruct (payload e)
  | |- completes (match ?c with Some _ => _ | None => _ end) => destruct c
  end.

Lemma scan_completes (body : Z -> State -> Result (LoopStep State State))
    (L : list EventPtr) (n : nat) (q : State) :
  (n <= length L)%nat ->
  (forall (i : nat) s, (i < n)%nat -> mEvents s = L -> completes (body (Z.of_nat i) s)) ->
  (forall i s r, body i s = Ok r -> sameShape s (leave r)) ->
  mEvents q = L ->
  completes (scanDown body n q).
Proof.
  intros Hn Hc Hshape HL.
  apply (scanDown_completes body (fun s => mEvents s = L)); [|exact HL].
  intros i s Hi Hs. split; [apply Hc; assumption|].
  intros s' E. apply Hshape in E. simpl in E.
  destruct E as (_ & E & _). congruence.
Qed.

Lemma CoalesceSelChangeEvents_completes (fuel : nat) (aTailEvent aThisEvent : EventPtr)
    (aThisIndex : Z) (q : State) :
  Length (mEvents q) < 2 ^ 32 ->
  0 <= aThisIndex < Length (mEvents q) ->
  (Z.to_nat aThisIndex <= fuel)%nat ->
  completes (CoalesceSelChangeEvents fuel aTailEvent aThisEvent aThisIndex q).
Proof.
  intros Hlen Hidx Hfuel. unfold CoalesceSelChangeEvents, unpackOrConvert.
  completes_tac.
  rewrite scan_below_index by lia.
  apply (scan_completes _ (mEvents q)); try reflexivity.
  - unfold Length in Hidx. lia.
  - intros i s Hi Hs. unfold suppressPreceding. completes_tac.
    rewrite Hs. unfold Length in Hidx. lia.
  - intros; eapply suppressPreceding_shape; eauto.
Qed.

Lemma CoalesceEvents_completes (fuel : nat) (q : State) :
  mEvents q <> [] -> Length (mEvents q) < 2 ^ 32 ->
  (length (mEvents q) <= fuel)%nat ->
  completes (CoalesceEvents fuel q).
Proof.
  intros Hne Hlen Hfuel. unfold CoalesceEvents.
  assert (Hpos : (0 < length (mEvents q))%nat)
    by (destruct (mEvents q); [congruence | simpl; lia]).
  apply completes_bind.
  - unfold Length. rewrite u32_small by (unfold Length in Hlen; lia).
    replace (Z.of_nat (length (mEvents q)) - 1)
      with (Z.of_nat (length (mEvents q) - 1)) by lia.
    apply completes_ElementAt. lia.
  - intros tailEvent _.
    destruct (mEventRule (heap q tailEvent)); try apply completes_Ok;
      (apply completes_bind; [|intros; apply completes_Ok]);
      rewrite scan_below_tail by (try assumption; lia);
      (apply (scan_completes _ (mEvents q)); [lia| |
         intros i s r Hr; apply (coalesce_bodies_shape fuel tailEvent i s r); auto
       |reflexivity]);
      intros i s Hi Hs;
      unfold coalesceOfSameType, coalesceSelectionChange, coalesceStateChange,
        coalesceTextSelChange;
      completes_tac; try (rewrite Hs; lia).
    apply CoalesceSelChangeEvents_completes; rewrite ?Hs; unfold Length in *; lia.
Qed.

Lemma findDuplicate_completes (fuel : nat) (aEvent : EventPtr) (q : State) :
  mEvents q <> [] -> Length (mEvents q) < 2 ^ 32 ->
  (length (mEvents q) <= fuel)%nat ->
  completes (findDuplicate fuel aEvent q).
Proof.
  intros Hne Hlen Hfuel. unfold findDuplicate.
  rewrite scan_from_last by assumption.
  apply (scan_completes _ (mEvents q)); try reflexivity; try lia.
  - intros i s Hi Hs. unfold checkDuplicate. completes_tac. rewrite Hs. lia.
  - intros i s r. unfold checkDuplicate. intros H. steps_ok; simpl; auto with shape.
Qed.

(** C10.  Every backward scan over the queue -- the duplicate check of
    [PushEvent], the scan of each coalescing rule from the tail, and the
    scan of the pack step of [CoalesceSelChangeEvents] -- reads only
    in-bounds indices and terminates, in every queue state in which it runs
    (a non-empty array whose length fits its [uint32_t] field; for the pack
    step any matched position in the array), the positions 0 included: no
    run ends in [IndexOutOfBounds] or exhausts a fuel of the array's
    length. *)
Theorem backward_scans_in_bounds_and_terminate (fuel : nat) (q : State) :
  mEvents q <> [] -> Length (mEvents q) < 2 ^ 32 ->
  (length (mEvents q) <= fuel)%nat ->
  (forall aEvent, completes (findDuplicate fuel aEvent q)) /\
  completes (CoalesceEvents fuel q) /\
  (forall aTailEvent aThisEvent aThisIndex,
     0 <= aThisIndex < Length (mEvents q) ->
     completes (CoalesceSelChangeEvents fuel aTailEvent aThisEvent aThisIndex q)).
Proof.
  intros Hne Hlen Hfuel. split; [|split].
  - intros aEvent. apply findDuplicate_completes; assumption.
  - apply CoalesceEvents_completes; assumption.
  - intros t p i Hi. apply CoalesceSelChangeEvents_completes; try assumption.
    unfold Length in Hi. lia.
Qed.

(** ** An induction principle for pushes

    [PushEvent] re-enters itself through the dependency propagator.  Any
    relation between the state before and after that is reflexive and
    transitive and holds for the four primitive steps (allocating a derived
    event, storing into the focus slot, dropping a duplicate, appending and
    coalescing) holds for a whole push. *)

Lemma forDown_checkDuplicate (aEvent : EventPtr) (cond : Z -> bool) (fuel : nat) :
  forall (index : Z) (q : State) (r : LoopStep State State),
    forDown fuel cond (checkDuplicate aEvent) index q = Ok r ->
    r = Continue q \/ r = Return (modify aEvent (withRule eDoNotEmit) q).
Proof.
  induction fuel as [|fuel IH]; intros index q r H; simpl in H.
  - destruct (cond index); [discriminate|]. inversion H. auto.
  - destruct (cond index); [|inversion H; auto].
    unfold checkDuplicate at 1 in H.
    destruct (ElementAt (mEvents q) index) as [p| |]; simpl in H; try discriminate.
    match type of H with
    | context [if ?c then _ else _] => destruct c
    end; simpl in H.
    + inversion H. auto.
    + apply IH in H. exact H.
Qed.

Lemma findDuplicate_result (fuel : nat) (aEvent : EventPtr) (q : State)
    (r : LoopStep State State) :
  findDuplicate fuel aEvent q = Ok r ->
  r = Continue q \/ r = Return (modify aEvent (withRule eDoNotEmit) q).
Proof. unfold findDuplicate. apply forDown_checkDuplicate. Qed.

(** The kinds of the events the propagator creates. *)
Definition derivedKind (t : EventType) : Prop :=
  t = EVENT_NAME_CHANGE \/ t = EVENT_DESCRIPTION_CHANGE.

Section PushInduction.

Variable env : Env.
Variable Pre : State -> Prop.
Variable I : State -> State -> Prop.
Variable G : State -> EventPtr -> Prop.

Hypothesis I_refl : forall q, I q q.
Hypothesis I_trans : forall q1 q2 q3, I q1 q2 -> I q2 q3 -> I q1 q3.
Hypothesis I_Pre : forall q q', I q q' -> Pre q -> Pre q'.
Hypothesis I_alloc : forall t a q, Pre q ->
  I q (allocated (newAccEvent env t a) q).
Hypothesis G_alloc : forall t a q, Pre q -> derivedKind t ->
  G (allocated (newAccEvent env t a) q) (nextPtr q).
Hypothesis I_focus : forall p q, Pre q -> G q p ->
  mEventType (heap q p) = EVENT_FOCUS ->
  I q (record (PushedToFocusSlot p) (withFocusEvent (Some p) q)).
Hypothesis I_drop : forall p q, Pre q -> G q p ->
  mEventType (heap q p) <> EVENT_FOCUS ->
  I q (record (PushDroppedAsDuplicate p) (modify p (withRule eDoNotEmit) q)).
Hypothesis I_append : forall fuel p q q', Pre q -> G q p ->
  mEventType (heap q p) <> EVENT_FOCUS ->
  CoalesceEvents fuel (record (PushAppended p) (withEvents (mEvents q ++ [p]) q)) = Ok q' ->
  I q q'.

Section Propagators.

Variable push : EventPtr -> State -> Result (bool * State).
Hypothesis push_I : forall p q b q',
  Pre q -> G q p -> push p q = Ok (b, q') -> I q q'.

Lemma allocated_push_I (t : EventType) (a : Acc) (q : State) (b : bool) (q' : State) :
  Pre q -> derivedKind t ->
  push (nextPtr q) (allocated (newAccEvent env t a) q) = Ok (b, q') -> I q q'.
Proof.
  intros HP Ht E.
  eapply I_trans; [apply (I_alloc t a); exact HP|].
  eapply push_I; [|apply G_alloc; assumption|exact E].
  eapply I_Pre; [apply (I_alloc t a)|]; exact HP.
Qed.

Lemma pushToTargets_I (t : EventType) (targets : list Acc) :
  derivedKind t ->
  forall pushed q b q', Pre q ->
    pushToTargets env push t targets pushed q = Ok (b, q') -> I q q'.
Proof.
  intros Ht.
  induction targets as [|a rest IH]; intros pushed q b q' HP H; simpl in H.
  - inversion H; subst. apply I_refl.
  - destruct (push (nextPtr q) (allocated (newAccEvent env t a) q))
      as [[b1 q1]| |] eqn:E; simpl in H; try discriminate.
    pose proof (allocated_push_I t a q b1 q1 HP Ht E) as H1.
    eapply I_trans; [exact H1|].
    eapply IH; [|exact H]. eapply I_Pre; eassumption.
Qed.

Lemma PushNameOrDescriptionChangeToRelations_I (a : Acc) (ty : RelationType)
    (q : State) (b : bool) (q' : State) :
  Pre q ->
  PushNameOrDescriptionChangeToRelations env push a ty q = Ok (b, q') -> I q q'.
Proof.
  unfold PushNameOrDescriptionChangeToRelations. apply pushToTargets_I.
  destruct ty; [left | right]; reflexivity.
Qed.

Lemma walkAncestors_I (fuel : nat) (target : Acc) (m dn dd : bool) :
  forall parent nca pushed q b q', Pre q ->
    walkAncestors env push fuel target m dn dd parent nca pushed q = Ok (b, q') ->
    I q q'.
Proof.
  induction fuel as [|fuel IH]; intros parent nca pushed q b q' HP H; simpl in H;
    [discriminate|].
  match type of H with
  | bind ?c _ = _ => destruct c as [[[nca1 pushed1] q1]| |] eqn:E1; simpl in H;
                       try discriminate
  end.
  match type of H with
  | bind ?c _ = _ => destruct c as [[pushed2 q2]| |] eqn:E2; simpl in H;
                       try discriminate
  end.
  assert (H1 : I q q1).
  { destruct dn; [|inversion E1; subst; apply I_refl].
    match type of E1 with
    | bind ?c _ = _ => destruct c as [[[nca0 pushed0] q0]| |] eqn:E0; simpl in E1;
                         try discriminate
    end.
    destruct (PushNameOrDescriptionChangeToRelations env push parent LABEL_FOR q0)
      as [[b0 q0']| |] eqn:Er; simpl in E1; try discriminate.
    inversion E1; subst.
    assert (H0 : I q q0).
    { match type of E0 with
      | (if ?c then _ else _) = _ => destruct c
      end; [|inversion E0; subst; apply I_refl].
      destruct (fireNameChange env parent).
      - destruct (push (nextPtr q) (allocated (newAccEvent env EVENT_NAME_CHANGE parent) q))
          as [[b1 q1']| |] eqn:Ep; simpl in E0; try discriminate.
        inversion E0; subst.
        eapply allocated_push_I; try eassumption. left. reflexivity.
      - simpl in E0. inversion E0; subst. apply I_refl. }
    eapply I_trans; [exact H0|].
    eapply PushNameOrDescriptionChangeToRelations_I; [|exact Er].
    eapply I_Pre; eassumption. }
  assert (HP1 : Pre q1) by (eapply I_Pre; eassumption).
  assert (H2 : I q1 q2).
  { destruct dd; [|inversion E2; subst; apply I_refl].
    destruct (PushNameOrDescriptionChangeToRelations env push parent DESCRIPTION_FOR q1)
      as [[b0 q0']| |] eqn:Er; simpl in E2; try discriminate.
    inversion E2; subst.
    eapply PushNameOrDescriptionChangeToRelations_I; eassumption. }
  assert (H12 : I q q2) by (eapply I_trans; eassumption).
  destruct (IsDoc env parent); [inversion H; subst; exact H12|].
  destruct (LocalParent env parent) as [parent'|]; [|inversion H; subst; exact H12].
  destruct (HasNameRule env parent' eNameFromSubtreeIfReqRule);
    [|inversion H; subst; exact H12].
  eapply I_trans; [exact H12|]. eapply IH; [|exact H].
  eapply I_Pre; eassumption.
Qed.

Lemma PushNameOrDescriptionChange_I (fuel : nat) (aOrigEvent : EventPtr)
    (q : State) (b : bool) (q' : State) :
  Pre q ->
  PushNameOrDescriptionChange env push fuel aOrigEvent q = Ok (b, q') -> I q q'.
Proof.
  unfold PushNameOrDescriptionChange. intros HP H.
  destruct (mAccessible (heap q aOrigEvent)) as [target|]; [|discriminate].
  match type of H with
  | (if ?c then _ else _) = _ => destruct c
  end; [inversion H; subst; apply I_refl|].
  eapply walkAncestors_I; eassumption.
Qed.

End Propagators.

Lemma type_eqb_true (a b : EventType) : type_eqb a b = true <-> a = b.
Proof. unfold type_eqb. destruct (EventType_eq_dec a b); split; congruence. Qed.

Lemma type_eqb_false (a b : EventType) : type_eqb a b = false <-> a <> b.
Proof. unfold type_eqb. destruct (EventType_eq_dec a b); split; congruence. Qed.

Lemma PushEvent_I (fuel : nat) :
  forall aEvent q b q',
    Pre q -> G q aEvent -> PushEvent env fuel aEvent q = Ok (b, q') ->
    I q q' /\ b = true.
Proof.
  induction fuel as [|fuel IH]; intros aEvent q b q' HP HG H; simpl in H;
    [discriminate|].
  destruct (type_eqb (mEventType (heap q aEvent)) EVENT_FOCUS) eqn:Efocus.
  { inversion H; subst. apply type_eqb_true in Efocus.
    split; [apply I_focus; assumption | reflexivity]. }
  apply type_eqb_false in Efocus.
  match type of H with
  | bind ?c _ = _ => destruct c as [dup| |] eqn:Edup; simpl in H; try discriminate
  end.
  assert (Hdup : dup = Continue q \/ dup = Return (modify aEvent (withRule eDoNotEmit) q)).
  { match type of Edup with
    | (if ?c then _ else _) = _ => destruct c
    end; [apply findDuplicate_result in Edup; exact Edup | inversion Edup; auto]. }
  destruct Hdup as [-> | ->].
  - match type of H with
    | bind ?c _ = _ => destruct c as [q1| |] eqn:Ec; simpl in H; try discriminate
    end.
    assert (H1 : I q q1) by (eapply I_append; eassumption).
    destruct (startsPropagation (mEventType (heap q1 aEvent)));
      [|inversion H; subst; auto].
    match type of H with
    | bind ?c _ = _ => destruct c as [[b2 q2]| |] eqn:Ep; simpl in H; try discriminate
    end.
    inversion H; subst. split; [|reflexivity].
    eapply I_trans; [exact H1|].
    eapply PushNameOrDescriptionChange_I; [| |exact Ep].
    + intros p0 q0 b0 q0' HP0 HG0 Hp0. apply (IH p0 q0 b0 q0' HP0 HG0 Hp0).
    + eapply I_Pre; eassumption.
  - inversion H; subst. split; [apply I_drop; assumption | reflexivity].
Qed.

End PushInduction.

(** ** What a push does to the array, the focus slot and the log *)

Definition isPushOutcome (e : Effect) : bool :=
  match e with
  | PushedToFocusSlot _ | PushDroppedAsDuplicate _ | PushAppended _ => true
  | _ => false
  end.

(** A notification handed over for an event of the queue. *)
Definition isDelivery (e : Effect) : bool :=
  match e with
  | ProcessFocusEvent _ _ | ProcessTextSelChangeEvent _ _ | FireEvent _ _ => true
  | _ => false
  end.

Definition effectPtr (e : Effect) : option EventPtr :=
  match e with
  | ProcessFocusEvent p _ | ProcessTextSelChangeEvent p _ | FireEvent p _
  | PushedToFocusSlot p | PushDroppedAsDuplicate p | PushAppended p => Some p
  | _ => None
  end.

(** The events a stretch of log says were appended, in order. *)
Definition appendedIn (d : list Effect) : list EventPtr :=
  flat_map (fun e => match e with PushAppended p => [p] | _ => [] end) d.

(** The focus slot after a stretch of log. *)
Definition focusAfter (f : option EventPtr) (d : list Effect) : option EventPtr :=
  fold_left (fun f e => match e with PushedToFocusSlot p => Some p | _ => f end) d f.

Definition countIf (f : Effect -> bool) (d : list Effect) : nat :=
  length (filter f d).

Definition isFocusPush (e : Effect) : bool :=
  match e with PushedToFocusSlot _ => true | _ => false end.
Definition isDropped (e : Effect) : bool :=
  match e with PushDroppedAsDuplicate _ => true | _ => false end.
Definition isAppended (e : Effect) : bool :=
  match e with PushAppended _ => true | _ => false end.

(** [q'] is reached from [q] by steps that log only effects satisfying [ok],
    append to the array exactly the events logged as appended, and store
    into the focus slot exactly the events logged as stored there. *)
Definition logged (ok : Effect -> Prop) (q q' : State) : Prop :=
  exists d,
    log q' = log q ++ d /\ Forall ok d /\
    mEvents q' = mEvents q ++ appendedIn d /\
    mFocusEvent q' = focusAfter (mFocusEvent q) d /\
    (nextPtr q <= nextPtr q')%nat.

Lemma logged_refl (ok : Effect -> Prop) (q : State) : logged ok q q.
Proof.
  exists []. rewrite !app_nil_r. repeat split; auto.
Qed.

Lemma logged_trans (ok : Effect -> Prop) (q1 q2 q3 : State) :
  logged ok q1 q2 -> logged ok q2 q3 -> logged ok q1 q3.
Proof.
  intros (d1 & L1 & F1 & M1 & S1 & N1) (d2 & L2 & F2 & M2 & S2 & N2).
  exists (d1 ++ d2). repeat split.
  - rewrite L2, L1, app_assoc. reflexivity.
  - apply Forall_app. split; assumption.
  - unfold appendedIn in *. rewrite flat_map_app, M2, M1, app_assoc. reflexivity.
  - unfold focusAfter in *. rewrite fold_left_app, S2, S1. reflexivity.
  - lia.
Qed.

Lemma logged_weaken (ok ok' : Effect -> Prop) (q q' : State) :
  (forall e, ok e -> ok' e) -> logged ok q q' -> logged ok' q q'.
Proof.
  intros Hw (d & L & F & M & S & N). exists d. repeat split; auto.
  eapply Forall_impl; eauto.
Qed.

Lemma logged_one (ok : Effect -> Prop) (e : Effect) (q q' : State) :
  ok e -> log q' = log q ++ [e] ->
  mEvents q' = mEvents q ++ appendedIn [e] ->
  mFocusEvent q' = focusAfter (mFocusEvent q) [e] ->
  (nextPtr q <= nextPtr q')%nat ->
  logged ok q q'.
Proof.
  intros. exists [e]. repeat split; auto.
Qed.

(** A push outcome for an event at or above address [N]. *)
Definition pushAbove (N : nat) (e : Effect) : Prop :=
  isPushOutcome e = true /\ forall p, effectPtr e = Some p -> (N <= p)%nat.

Section PushLog.

Variable env : Env.
Variable N : nat.

Lemma PushEvent_logged (fuel : nat) (aEvent : EventPtr) (q : State)
    (b : bool) (q' : State) :
  (N <= nextPtr q)%nat -> (N <= aEvent)%nat ->
  PushEvent env fuel aEvent q = Ok (b, q') ->
  logged (pushAbove N) q q' /\ b = true.
Proof.
  apply (PushEvent_I env (fun q => (N <= nextPtr q)%nat) (logged (pushAbove N))
           (fun _ p => (N <= p)%nat)).
  - apply logged_refl.
  - apply logged_trans.
  - intros q0 q0' (d & _ & _ & _ & _ & Hn) H0. lia.
  - intros t a q0 _. exists []. rewrite !app_nil_r. repeat split; auto.
    unfold allocated. simpl. lia.
  - intros t a q0 H0 _. exact H0.
  - intros p q0 _ Hp _. apply (logged_one _ (PushedToFocusSlot p)); auto.
    + split; [reflexivity|]. simpl. intros p0 E. inversion E; subst. exact Hp.
    + simpl. rewrite app_nil_r. reflexivity.
  - intros p q0 _ Hp _. apply (logged_one _ (PushDroppedAsDuplicate p)); auto.
    + split; [reflexivity|]. simpl. intros p0 E. inversion E; subst. exact Hp.
    + simpl. rewrite app_nil_r. reflexivity.
  - intros fuel0 p q0 q0' _ Hp _ Hc.
    apply CoalesceEvents_shape in Hc.
    destruct Hc as (C1 & C2 & C3 & C4 & C5 & C6).
    apply (logged_one _ (PushAppended p)); auto.
    + split; [reflexivity|]. simpl. intros p0 E. inversion E; subst. exact Hp.
    + simpl in C1. lia.
Qed.

Lemma QueueEvent_logged (fuel : nat) (ev : AccEvent) (q q' : State) :
  (N <= nextPtr q)%nat ->
  QueueEvent env fuel ev q = Ok q' -> logged (pushAbove N) q q'.
Proof.
  intros HN H. unfold QueueEvent in H. simpl in H.
  destruct (PushEvent env fuel (nextPtr q) (allocated ev q)) as [[b q1]| |] eqn:E;
    simpl in H; try discriminate.
  inversion H; subst.
  apply PushEvent_logged in E; [|unfold allocated; simpl; lia|exact HN].
  destruct E as [(d & L & F & M & S & Hn) _].
  exists d. repeat split; auto. unfold allocated in Hn. simpl in Hn. lia.
Qed.

Lemma QueueEvents_logged (fuel : nat) (evs : list AccEvent) :
  forall q q', (N <= nextPtr q)%nat ->
    QueueEvents env fuel evs q = Ok q' -> logged (pushAbove N) q q'.
Proof.
  induction evs as [|ev rest IH]; intros q q' HN H; simpl in H.
  - inversion H; subst. apply logged_refl.
  - destruct (QueueEvent env fuel ev q) as [q1| |] eqn:E; simpl in H; try discriminate.
    pose proof (QueueEvent_logged _ _ _ _ HN E) as H1.
    eapply logged_trans; [exact H1|].
    apply IH; [|exact H].
    destruct H1 as (d & _ & _ & _ & _ & Hn). lia.
Qed.

End PushLog.

(** ** What the drain logs *)

(** During a drain over the detached array [S]: a push outcome for an event
    created meanwhile, or a notification about an event of [S]. *)
Definition drainOk (N : nat) (S : list EventPtr) (e : Effect) : Prop :=
  pushAbove N e \/
  (isPushOutcome e = false /\
   (forall p now, e <> ProcessFocusEvent p now) /\
   (forall p, isDelivery e = true -> effectPtr e = Some p -> In p S)).

Lemma countIf_app (f : Effect -> bool) (d1 d2 : list Effect) :
  countIf f (d1 ++ d2) = (countIf f d1 + countIf f d2)%nat.
Proof. unfold countIf. rewrite filter_app, length_app. reflexivity. Qed.

Lemma countIf_none (f : Effect -> bool) (d : list Effect) :
  Forall (fun e => f e = false) d -> countIf f d = O.
Proof.
  unfold countIf. induction 1 as [|e d He _ IH]; simpl; [reflexivity|].
  rewrite He. exact IH.
Qed.

Lemma pushAbove_not_delivery (N : nat) (d : list Effect) :
  Forall (pushAbove N) d -> Forall (fun e => isDelivery e = false) d.
Proof.
  apply Forall_impl. intros e [H _]. destruct e; simpl in *; congruence.
Qed.

Section DrainLog.

Variable env : Env.
Variable N : nat.

Lemma react_logged (fuel : nat) (rs : list Reaction) :
  forall q q', (N <= nextPtr q)%nat ->
    react env fuel rs q = Ok q' -> logged (pushAbove N) q q'.
Proof.
  induction rs as [|r rest IH]; intros q q' HN H; simpl in H.
  - inversion H; subst. apply logged_refl.
  - destruct r as [ev|a|].
    + destruct (QueueEvent env fuel ev q) as [q1| |] eqn:E; simpl in H;
        try discriminate.
      pose proof (QueueEvent_logged env N _ _ _ _ HN E) as H1.
      eapply logged_trans; [exact H1|]. apply IH; [|exact H].
      destruct H1 as (d & _ & _ & _ & _ & Hn). lia.
    + apply IH in H; [|exact HN]. exact H.
    + apply IH in H; [|exact HN]. exact H.
Qed.

(** One notification: the log grows by it and by the outcomes of the pushes
    its listeners make. *)
Lemma emit_log (fuel : nat) (e : Effect) (q q' : State) :
  isPushOutcome e = false -> (N <= nextPtr q)%nat ->
  emit env fuel e q = Ok q' ->
  exists d, log q' = log q ++ e :: d /\ Forall (pushAbove N) d /\
    mEvents q' = mEvents q ++ appendedIn d /\
    mFocusEvent q' = focusAfter (mFocusEvent q) d /\
    (nextPtr q <= nextPtr q')%nat.
Proof.
  intros He HN H. unfold emit in H.
  apply react_logged in H; [|exact HN].
  destruct H as (d & L & F & M & S & Hn). exists d.
  simpl in L. rewrite <- app_assoc in L. simpl in L. repeat split; auto.
Qed.

Lemma emit_logged (S : list EventPtr) (fuel : nat) (e : Effect) (q q' : State) :
  isPushOutcome e = false ->
  (forall p now, e <> ProcessFocusEvent p now) ->
  (forall p, isDelivery e = true -> effectPtr e = Some p -> In p S) ->
  (N <= nextPtr q)%nat ->
  emit env fuel e q = Ok q' -> logged (drainOk N S) q q'.
Proof.
  intros He Hnf Hin HN H.
  destruct (emit_log fuel e q q' He HN H) as (d & L & F & M & Sl & Hn).
  exists (e :: d). repeat split; auto.
  - constructor; [right; auto|].
    eapply Forall_impl; [|exact F]. intros e0 H0. left. exact H0.
  - simpl. destruct e; simpl in He; try discriminate; exact M.
  - simpl. destruct e; simpl in He; try discriminate; exact Sl.
Qed.

Lemma logged_nextPtr (ok : Effect -> Prop) (q q' : State) :
  logged ok q q' -> (N <= nextPtr q)%nat -> (N <= nextPtr q')%nat.
Proof. intros (d & _ & _ & _ & _ & Hn) H. lia. Qed.

Lemma fireSelectedState_logged (S : list EventPtr) (fuel : nat) (event : EventPtr)
    (t : EventType) (q q' : State) :
  (N <= nextPtr q)%nat ->
  fireSelectedState env fuel event t q = Ok q' -> logged (drainOk N S) q q'.
Proof.
  intros HN H. unfold fireSelectedState in H.
  destruct (type_eqb t EVENT_SELECTION_ADD).
  { eapply emit_logged; try exact H; auto; try discriminate; intros; discriminate. }
  destruct (type_eqb t EVENT_SELECTION_REMOVE).
  { eapply emit_logged; try exact H; auto; try discriminate; intros; discriminate. }
  destruct (type_eqb t EVENT_SELECTION); [|inversion H; subst; apply logged_refl].
  destruct (asSelChange (heap q event)) as [s| |]; simpl in H; try discriminate.
  match type of H with
  | bind ?c _ = _ => destruct c as [q1| |] eqn:E1; simpl in H; try discriminate
  end.
  assert (H1 : logged (drainOk N S) q q1).
  { eapply emit_logged; try exact E1; auto; try discriminate; intros; discriminate. }
  eapply logged_trans; [exact H1|].
  destruct (asSelChange (heap q1 event)) as [s1| |]; simpl in H; try discriminate.
  destruct (mPackedEvent s1) as [packed|]; [|inversion H; subst; apply logged_refl].
  destruct (asSelChange (heap q1 packed)) as [s2| |]; simpl in H; try discriminate.
  eapply emit_logged; try exact H; auto; try discriminate; try (intros; discriminate).
  eapply logged_nextPtr; eassumption.
Qed.

Lemma processEvents_logged (S : list EventPtr) (fuel : nat) (events : list EventPtr) :
  forall ids q r q',
    (forall p, In p events -> In p S) -> (N <= nextPtr q)%nat ->
    processEvents env fuel events ids q = Ok (r, q') ->
    logged (drainOk N S) q q'.
Proof.
  induction events as [|event rest IH]; intros ids q r q' Hin HN H; simpl in H.
  - inversion H; subst. apply logged_refl.
  - assert (Hrest : forall p, In p rest -> In p S) by (intros; apply Hin; right; assumption).
    assert (Hev : In event S) by (apply Hin; left; reflexivity).
    destruct (mAccessible (heap q event)) as [target|]; [|eapply IH; eassumption].
    destruct (defunct q target); [eapply IH; eassumption|].
    destruct (collectSelChange env event (mEventType (heap q event)) ids q)
      as [ids'| |]; simpl in H; try discriminate.
    destruct (rule_eqb (mEventRule (heap q event)) eDoNotEmit);
      [eapply IH; eassumption|].
    destruct (type_eqb (mEventType (heap q event)) EVENT_TEXT_SELECTION_CHANGED).
    { match type of H with
      | bind ?c _ = _ => destruct c as [q1| |] eqn:E1; simpl in H; try discriminate
      end.
      assert (H1 : logged (drainOk N S) q q1).
      { eapply emit_logged; try exact E1; auto; try discriminate.
        simpl. intros p _ Ep. inversion Ep; subst. exact Hev. }
      eapply logged_trans; [exact H1|].
      eapply IH; try exact H; auto. eapply logged_nextPtr; eassumption. }
    match type of H with
    | bind ?c _ = _ => destruct c as [q1| |] eqn:E1; simpl in H; try discriminate
    end.
    pose proof (fireSelectedState_logged S _ _ _ _ _ HN E1) as H1.
    match type of H with
    | bind ?c _ = _ => destruct c as [q2| |] eqn:E2; simpl in H; try discriminate
    end.
    assert (H2 : logged (drainOk N S) q1 q2).
    { eapply emit_logged; try exact E2; auto; try discriminate.
      - simpl. intros p _ Ep. inversion Ep; subst. exact Hev.
      - eapply logged_nextPtr; eassumption. }
    assert (H12 : logged (drainOk N S) q q2) by (eapply logged_trans; eassumption).
    destruct (negb (mDocument q2)); [inversion H; subst; exact H12|].
    match type of H with
    | bind ?c _ = _ => destruct c as [q3| |] eqn:E3; simpl in H; try discriminate
    end.
    assert (H3 : logged (drainOk N S) q2 q3).
    { destruct (isMutationKind (mEventType (heap q event)) && IPCDoc env);
        [|inversion E3; subst; apply logged_refl].
      eapply emit_logged; try exact E3; auto; try discriminate;
        try (intros; discriminate).
      eapply logged_nextPtr; eassumption. }
    eapply logged_trans; [exact H12|]. eapply logged_trans; [exact H3|].
    eapply IH; try exact H; auto.
    eapply logged_nextPtr; [exact H3|]. eapply logged_nextPtr; eassumption.
Qed.

End DrainLog.

(** The notification the drain starts with. *)
Definition focusDelivery (q : State) : list Effect :=
  match mFocusEvent q with
  | Some p =>
      match mAccessible (heap q p) with
      | Some a => if defunct q a then [] else [ProcessFocusEvent p (heap q p)]
      | None => []
      end
  | None => []
  end.

Lemma ProcessEventQueue_log (env : Env) (N fuel : nat) (q q' : State) :
  (N <= nextPtr q)%nat ->
  ProcessEventQueue env fuel q = Ok q' ->
  exists d, log q' = log q ++ focusDelivery q ++ d /\
    Forall (drainOk N (mEvents q)) d /\
    mEvents q' = appendedIn d /\ mFocusEvent q' = focusAfter None d /\
    (nextPtr q <= nextPtr q')%nat.
Proof.
  intros HN H. unfold ProcessEventQueue in H.
  match type of H with
  | bind ?c _ = _ => destruct c as [q1| |] eqn:E1; simpl in H; try discriminate
  end.
  assert (H1 : exists d1, log q1 = log q ++ focusDelivery q ++ d1 /\
             Forall (drainOk N (mEvents q)) d1 /\
             mEvents q1 = appendedIn d1 /\ mFocusEvent q1 = focusAfter None d1 /\
             (nextPtr q <= nextPtr q1)%nat).
  { unfold focusDelivery. simpl in E1.
    destruct (mFocusEvent q) as [event|] eqn:Ef.
    - destruct (mAccessible (heap q event)) as [target|]; [|discriminate].
      destruct (defunct q target); simpl in E1.
      + inversion E1; subst. exists []. simpl. rewrite app_nil_r. auto.
      + apply (emit_log env N) in E1; [|reflexivity|exact HN].
        destruct E1 as (d & L & F & M & S & Hn). exists d.
        simpl in *. repeat split; auto;
          try (eapply Forall_impl; [|exact F]; intros e He; left; exact He).
    - inversion E1; subst. exists []. simpl. rewrite app_nil_r. auto. }
  destruct H1 as (d1 & L1 & F1 & M1 & S1 & N1).
  match type of H with
  | bind ?c _ = _ => destruct c as [[ids q2]| |] eqn:E2; simpl in H; try discriminate
  end.
  apply (processEvents_logged env N (mEvents q)) in E2; [|auto|lia].
  destruct E2 as (d2 & L2 & F2 & M2 & S2 & N2).
  assert (H3 : exists d3, log q' = log q2 ++ d3 /\ Forall (drainOk N (mEvents q)) d3 /\
             mEvents q' = mEvents q2 ++ appendedIn d3 /\
             mFocusEvent q' = focusAfter (mFocusEvent q2) d3 /\
             (nextPtr q2 <= nextPtr q')%nat).
  { assert (Hid : exists d3, log q2 = log q2 ++ d3 /\ Forall (drainOk N (mEvents q)) d3 /\
               mEvents q2 = mEvents q2 ++ appendedIn d3 /\
               mFocusEvent q2 = focusAfter (mFocusEvent q2) d3 /\
               (nextPtr q2 <= nextPtr q2)%nat)
      by (exists []; rewrite !app_nil_r; auto).
    destruct ids as [[selectedIDs unselectedIDs]|]; [|inversion H; subst; exact Hid].
    match type of H with
    | (if ?c then _ else _) = _ => destruct c
    end; [|inversion H; subst; exact Hid].
    destruct (IPCDoc env); [|discriminate].
    apply (emit_logged env N (mEvents q)) in H; auto; try discriminate;
      try (intros; discriminate). lia. }
  destruct H3 as (d3 & L3 & F3 & M3 & S3 & N3).
  exists (d1 ++ d2 ++ d3). repeat split.
  - rewrite L3, L2, L1. rewrite <- !app_assoc. reflexivity.
  - repeat (apply Forall_app; split); assumption.
  - unfold appendedIn in *. rewrite !flat_map_app, M3, M2, M1, app_assoc. reflexivity.
  - unfold focusAfter in *. rewrite !fold_left_app, S3, S2, S1. reflexivity.
  - lia.
Qed.

(** ** The focus slot *)

Lemma heap_allocated (ev : AccEvent) (q : State) :
  heap (allocated ev q) (nextPtr q) = ev.
Proof. unfold allocated. simpl. rewrite Nat.eqb_refl. reflexivity. Qed.

Lemma PushEvent_keeps_focus (env : Env) (fuel : nat) (aEvent : EventPtr)
    (q : State) (b : bool) (q' : State) :
  mEventType (heap q aEvent) <> EVENT_FOCUS ->
  PushEvent env fuel aEvent q = Ok (b, q') ->
  mFocusEvent q' = mFocusEvent q.
Proof.
  intros Hnf H.
  apply (PushEvent_I env (fun _ => True)
           (fun q q' => mFocusEvent q' = mFocusEvent q)
           (fun q p => mEventType (heap q p) <> EVENT_FOCUS)) in H; auto.
  - tauto.
  - intros; congruence.
  - intros t a q0 _ [-> | ->]; rewrite heap_allocated; discriminate.
  - intros p q0 _ Hp Hf. contradiction.
  - intros fuel0 p q0 q0' _ _ _ Hc. apply CoalesceEvents_shape in Hc.
    destruct Hc as (_ & _ & Hc & _). exact Hc.
Qed.

Lemma QueueEvents_keep_focus (env : Env) (fuel : nat) (evs : list AccEvent) :
  Forall (fun ev => mEventType ev <> EVENT_FOCUS) evs ->
  forall q q', QueueEvents env fuel evs q = Ok q' -> mFocusEvent q' = mFocusEvent q.
Proof.
  induction 1 as [|ev rest Hev _ IH]; intros q q' H; simpl in H.
  - inversion H; reflexivity.
  - unfold QueueEvent in H at 1. simpl in H.
    destruct (PushEvent env fuel (nextPtr q) (allocated ev q)) as [[b q1]| |] eqn:E;
      simpl in H; try discriminate.
    apply IH in H. rewrite H.
    apply PushEvent_keeps_focus in E; [exact E|].
    rewrite heap_allocated. exact Hev.
Qed.

Lemma QueueEvents_app (env : Env) (fuel : nat) (l1 l2 : list AccEvent) :
  forall q, QueueEvents env fuel (l1 ++ l2) q
            = (q1 <- QueueEvents env fuel l1 q ;; QueueEvents env fuel l2 q1).
Proof.
  induction l1 as [|ev rest IH]; intros q; simpl; [reflexivity|].
  destruct (QueueEvent env fuel ev q); simpl; auto.
Qed.

Lemma PushEvent_focus (env : Env) (fuel : nat) (aEvent : EventPtr) (q : State) :
  mEventType (heap q aEvent) = EVENT_FOCUS ->
  PushEvent env (S fuel) aEvent q
  = Ok (true, record (PushedToFocusSlot aEvent) (withFocusEvent (Some aEvent) q)).
Proof.
  intros Hf. simpl. apply type_eqb_true in Hf. rewrite Hf. reflexivity.
Qed.

Lemma QueueEvent_focus (env : Env) (fuel : nat) (f : AccEvent) (q : State) :
  mEventType f = EVENT_FOCUS ->
  QueueEvent env (S fuel) f q
  = Ok (record (PushedToFocusSlot (nextPtr q))
          (withFocusEvent (Some (nextPtr q)) (allocated f q))).
Proof.
  intros Hf. unfold QueueEvent, alloc.
  rewrite PushEvent_focus by (rewrite heap_allocated; exact Hf). reflexivity.
Qed.

(** C2.  A pushed focus event never enters the ordered sequence: it only
    overwrites the focus slot.  In a generation in which a focus event [f] was
    pushed, wherever in the push order, and no focus event after it, the drain
    -- when the target of [f] is still valid at that time -- hands [f] to the
    focus collaborator before anything else, and hands over no other focus
    event. *)
Theorem focus_event_is_delivered_first (env : Env) (fuel : nat) :
  (forall aEvent q, mEventType (heap q aEvent) = EVENT_FOCUS ->
     PushEvent env (S fuel) aEvent q
     = Ok (true, record (PushedToFocusSlot aEvent)
                   (withFocusEvent (Some aEvent) q))) /\
  (forall before f after q0 q1,
     mEventType f = EVENT_FOCUS ->
     Forall (fun ev => mEventType ev <> EVENT_FOCUS) after ->
     QueueEvents env (S fuel) (before ++ f :: after) q0 = Ok q1 ->
     exists qb, QueueEvents env (S fuel) before q0 = Ok qb /\
       mFocusEvent q1 = Some (nextPtr qb) /\
       forall target fuel' q2,
         mAccessible (heap q1 (nextPtr qb)) = Some target ->
         defunct q1 target = false ->
         ProcessEventQueue env fuel' q1 = Ok q2 ->
         exists rest,
           log q2 = log q1
                    ++ ProcessFocusEvent (nextPtr qb) (heap q1 (nextPtr qb)) :: rest /\
           Forall (fun e => forall p now, e <> ProcessFocusEvent p now) rest).
Proof.
  split.
  - intros aEvent q Hf. apply PushEvent_focus. exact Hf.
  - intros before f after q0 q1 Hf Hafter H.
    rewrite QueueEvents_app in H.
    destruct (QueueEvents env (S fuel) before q0) as [qb| |] eqn:Eb;
      cbn [bind] in H; try discriminate.
    exists qb. split; [reflexivity|].
    cbn [QueueEvents] in H. rewrite QueueEvent_focus in H by exact Hf.
    cbn [bind] in H.
    assert (Hslot : mFocusEvent q1 = Some (nextPtr qb)).
    { apply QueueEvents_keep_focus in H; [|exact Hafter]. exact H. }
    split; [exact Hslot|].
    intros target fuel' q2 Ht Hd Hdrain.
    destruct (ProcessEventQueue_log env 0 fuel' q1 q2 (Nat.le_0_l _) Hdrain)
      as (d & L & F & _).
    unfold focusDelivery in L. rewrite Hslot, Ht, Hd in L.
    exists d. split; [exact L|].
    eapply Forall_impl; [|exact F].
    intros e [[Ho _]|(_ & Hn & _)]; [|exact Hn].
    intros p now ->. discriminate.
Qed.

(** ** Counting pushes and deliveries *)

(** The three ways a push ends. *)
Lemma PushEvent_cases (env : Env) (fuel : nat) (aEvent : EventPtr) (q : State)
    (b : bool) (q' : State) :
  PushEvent env (S fuel) aEvent q = Ok (b, q') ->
  b = true /\
  ((mEventType (heap q aEvent) = EVENT_FOCUS /\
    q' = record (PushedToFocusSlot aEvent) (withFocusEvent (Some aEvent) q))
   \/ (mEventType (heap q aEvent) <> EVENT_FOCUS /\
       mEventRule (heap q aEvent) = eRemoveDupes /\ mEvents q <> [] /\
       findDuplicate (S fuel) aEvent q
         = Ok (Return (modify aEvent (withRule eDoNotEmit) q)) /\
       q' = record (PushDroppedAsDuplicate aEvent)
              (modify aEvent (withRule eDoNotEmit) q))
   \/ (mEventType (heap q aEvent) <> EVENT_FOCUS /\
       exists q1,
         CoalesceEvents (S fuel)
           (record (PushAppended aEvent) (withEvents (mEvents q ++ [aEvent]) q))
           = Ok q1 /\
         if startsPropagation (mEventType (heap q1 aEvent))
         then exists b', PushNameOrDescriptionChange env (PushEvent env fuel) fuel
                           aEvent q1 = Ok (b', q')
         else q' = q1)).
Proof.
  intros H. cbn [PushEvent] in H.
  destruct (type_eqb (mEventType (heap q aEvent)) EVENT_FOCUS) eqn:Efocus.
  { inversion H; subst. apply type_eqb_true in Efocus. auto. }
  apply type_eqb_false in Efocus.
  match type of H with
  | bind ?c _ = _ => destruct c as [dup| |] eqn:Edup; cbn [bind] in H;
                       try discriminate
  end.
  assert (Hdup : dup = Continue q \/
                 (dup = Return (modify aEvent (withRule eDoNotEmit) q) /\
                  mEventRule (heap q aEvent) = eRemoveDupes /\ mEvents q <> [])).
  { destruct (rule_eqb (mEventRule (heap q aEvent)) eRemoveDupes) eqn:Er;
      [|inversion Edup; auto].
    destruct (mEvents q) eqn:Em; [inversion Edup; auto|].
    cbn [IsEmpty negb andb] in Edup.
    destruct (findDuplicate_result _ _ _ _ Edup) as [->| ->]; [auto|].
    right. split; [reflexivity|]. split; [|discriminate].
    unfold rule_eqb in Er.
    destruct (EEventRule_eq_dec (mEventRule (heap q aEvent)) eRemoveDupes);
      [assumption | discriminate]. }
  destruct Hdup as [-> | (-> & Hr & Hne)].
  - match type of H with
    | bind ?c _ = _ => destruct c as [q1| |] eqn:Ec; cbn [bind] in H; try discriminate
    end.
    destruct (startsPropagation (mEventType (heap q1 aEvent))) eqn:Es.
    + match type of H with
      | bind ?c _ = _ => destruct c as [[b2 q2]| |] eqn:Ep; cbn [bind] in H;
                           try discriminate
      end.
      inversion H; subst. split; [reflexivity|]. right. right.
      split; [exact Efocus|]. exists q1. split; [reflexivity|].
      rewrite Es. exists b2. exact Ep.
    + inversion H; subst. split; [reflexivity|]. right. right.
      split; [exact Efocus|]. exists q'. split; [reflexivity|].
      rewrite Es. reflexivity.
  - inversion H; subst. split; [reflexivity|]. right. left.
    repeat split; auto.
    destruct (rule_eqb (mEventRule (heap q aEvent)) eRemoveDupes);
      [|discriminate].
    destruct (mEvents q); [congruence|]. exact Edup.
Qed.

Lemma PushNameOrDescriptionChange_logged (env : Env) (fuel : nat)
    (aOrigEvent : EventPtr) (q : State) (b : bool) (q' : State) :
  PushNameOrDescriptionChange env (PushEvent env fuel) fuel aOrigEvent q
    = Ok (b, q') ->
  logged (pushAbove 0) q q'.
Proof.
  apply (PushNameOrDescriptionChange_I env (fun _ => True) (logged (pushAbove 0))
           (fun _ _ => True)); auto.
  - apply logged_refl.
  - apply logged_trans.
  - intros t a q0 _. exists []. rewrite !app_nil_r. repeat split; auto.
    unfold allocated. simpl. lia.
  - intros p q0 b0 q0' _ _ Hp.
    apply (PushEvent_logged env 0) in Hp; [tauto|lia|lia].
Qed.

(** Every push logs its own outcome first. *)
Lemma PushEvent_first_outcome (env : Env) (fuel : nat) (aEvent : EventPtr)
    (q : State) (b : bool) (q' : State) :
  PushEvent env fuel aEvent q = Ok (b, q') ->
  exists o d, log q' = log q ++ o :: d /\ isPushOutcome o = true /\
    effectPtr o = Some aEvent.
Proof.
  destruct fuel as [|fuel]; [discriminate|].
  intros H. apply PushEvent_cases in H.
  destruct H as [_ [[_ ->]|[(_ & _ & _ & _ & ->)|(_ & q1 & Hc & Hp)]]].
  - exists (PushedToFocusSlot aEvent), []. auto.
  - exists (PushDroppedAsDuplicate aEvent), []. auto.
  - apply CoalesceEvents_shape in Hc. destruct Hc as (_ & _ & _ & _ & _ & Hl).
    simpl in Hl.
    destruct (startsPropagation (mEventType (heap q1 aEvent))).
    + destruct Hp as [b' Hp]. apply PushNameOrDescriptionChange_logged in Hp.
      destruct Hp as (d & L & _). exists (PushAppended aEvent), d.
      rewrite L, Hl, <- app_assoc. auto.
    + subst q'. exists (PushAppended aEvent), []. auto.
Qed.

Lemma countIf_pushes (d : list Effect) :
  Forall (fun e => isPushOutcome e = true) d ->
  countIf isPushOutcome d = length d /\
  countIf isPushOutcome d
  = (countIf isAppended d + countIf isDropped d + countIf isFocusPush d)%nat /\
  countIf isDelivery d = O.
Proof.
  unfold countIf. induction 1 as [|e d He _ IH]; simpl; [auto|].
  destruct IH as (IH1 & IH2 & IH3).
  destruct e; simpl in He; try discriminate; simpl; rewrite ?IH1, ?IH3;
    repeat split; auto; rewrite <- IH1, IH2; lia.
Qed.

Lemma length_appendedIn (d : list Effect) :
  length (appendedIn d) = countIf isAppended d.
Proof.
  unfold appendedIn, countIf. induction d as [|e d IH]; simpl; [reflexivity|].
  rewrite length_app, IH. destruct e; reflexivity.
Qed.

Lemma focusAfter_pushed (d : list Effect) :
  forall f p, focusAfter f d = Some p -> f = Some p \/ (1 <= countIf isFocusPush d)%nat.
Proof.
  unfold focusAfter, countIf. induction d as [|e d IH]; intros f p H; simpl in *.
  - auto.
  - apply IH in H. destruct e; simpl; auto; destruct H as [H|H]; auto; right; lia.
Qed.

Lemma QueueEvents_outcomes (env : Env) (fuel : nat) (evs : list AccEvent) :
  forall q q', QueueEvents env fuel evs q = Ok q' ->
    exists d, log q' = log q ++ d /\ Forall (fun e => isPushOutcome e = true) d /\
      (length evs <= countIf isPushOutcome d)%nat /\
      mEvents q' = mEvents q ++ appendedIn d /\
      mFocusEvent q' = focusAfter (mFocusEvent q) d.
Proof.
  induction evs as [|ev rest IH]; intros q q' H; cbn [QueueEvents] in H.
  - inversion H; subst. exists []. rewrite !app_nil_r. simpl. auto.
  - destruct (QueueEvent env fuel ev q) as [q1| |] eqn:E; cbn [bind] in H;
      try discriminate.
    pose proof (QueueEvent_logged env 0 _ _ _ _ (Nat.le_0_l _) E) as (d1 & L1 & F1 & M1 & S1 & _).
    assert (Hone : (1 <= countIf isPushOutcome d1)%nat).
    { unfold QueueEvent, alloc in E.
      destruct (PushEvent env fuel (nextPtr q) (allocated ev q)) as [[b q2]| |] eqn:Ep;
        cbn [bind] in E; try discriminate.
      inversion E; subst q2.
      apply PushEvent_first_outcome in Ep. destruct Ep as (o & d & L & Ho & _).
      unfold allocated in L. simpl in L. rewrite L1 in L.
      apply app_inv_head in L. subst d1. unfold countIf. simpl. rewrite Ho.
      simpl. lia. }
    destruct (IH _ _ H) as (d2 & L2 & F2 & C2 & M2 & S2).
    exists (d1 ++ d2). repeat split.
    + rewrite L2, L1, app_assoc. reflexivity.
    + apply Forall_app. split; [|exact F2].
      eapply Forall_impl; [|exact F1]. intros e [He _]. exact He.
    + rewrite countIf_app. simpl. lia.
    + unfold appendedIn in *. rewrite flat_map_app, M2, M1, app_assoc. reflexivity.
    + unfold focusAfter in *. rewrite fold_left_app, S2, S1. reflexivity.
Qed.

(** [q'] is reached from [q] while handing over at most [k] events. *)
Definition delivers (k : nat) (q q' : State) : Prop :=
  exists d, log q' = log q ++ d /\ (countIf isDelivery d <= k)%nat.

Lemma delivers_refl (q : State) : delivers 0 q q.
Proof. exists []. rewrite app_nil_r. auto. Qed.

Lemma delivers_trans (k1 k2 : nat) (q1 q2 q3 : State) :
  delivers k1 q1 q2 -> delivers k2 q2 q3 -> delivers (k1 + k2) q1 q3.
Proof.
  intros (d1 & L1 & C1) (d2 & L2 & C2). exists (d1 ++ d2). split.
  - rewrite L2, L1, app_assoc. reflexivity.
  - rewrite countIf_app. lia.
Qed.

Lemma delivers_le (k k' : nat) (q q' : State) :
  (k <= k')%nat -> delivers k q q' -> delivers k' q q'.
Proof. intros Hk (d & L & C). exists d. split; [exact L | lia]. Qed.

Section DrainCount.

Variable env : Env.

Lemma emit_delivers (fuel : nat) (e : Effect) (q q' : State) :
  isPushOutcome e = false ->
  emit env fuel e q = Ok q' ->
  delivers (if isDelivery e then 1 else 0) q q'.
Proof.
  intros He H.
  destruct (emit_log env 0 fuel e q q' He (Nat.le_0_l _) H) as (d & L & F & _).
  exists (e :: d). split; [exact L|].
  change (e :: d) with ([e] ++ d). rewrite countIf_app.
  rewrite (countIf_none isDelivery d) by (eapply pushAbove_not_delivery; exact F).
  unfold countIf. simpl. destruct (isDelivery e); simpl; lia.
Qed.

Lemma fireSelectedState_delivers (fuel : nat) (event : EventPtr) (t : EventType)
    (q q' : State) :
  fireSelectedState env fuel event t q = Ok q' -> delivers 0 q q'.
Proof.
  intros H. unfold fireSelectedState in H.
  destruct (type_eqb t EVENT_SELECTION_ADD).
  { apply emit_delivers in H; [exact H | reflexivity]. }
  destruct (type_eqb t EVENT_SELECTION_REMOVE).
  { apply emit_delivers in H; [exact H | reflexivity]. }
  destruct (type_eqb t EVENT_SELECTION); [|inversion H; subst; apply delivers_refl].
  destruct (asSelChange (heap q event)) as [s| |]; cbn [bind] in H; try discriminate.
  match type of H with
  | bind ?c _ = _ => destruct c as [q1| |] eqn:E1; cbn [bind] in H; try discriminate
  end.
  apply emit_delivers in E1; [|reflexivity].
  destruct (asSelChange (heap q1 event)) as [s1| |]; cbn [bind] in H; try discriminate.
  destruct (mPackedEvent s1) as [packed|]; [|inversion H; subst; exact E1].
  destruct (asSelChange (heap q1 packed)) as [s2| |]; cbn [bind] in H; try discriminate.
  apply emit_delivers in H; [|reflexivity].
  apply (delivers_trans 0 0 _ _ _ E1 H).
Qed.

Lemma processEvents_delivers (fuel : nat) (events : list EventPtr) :
  forall ids q r q',
    processEvents env fuel events ids q = Ok (r, q') ->
    delivers (length events) q q'.
Proof.
  induction events as [|event rest IH]; intros ids q r q' H; cbn [processEvents] in H.
  - inversion H; subst. apply delivers_refl.
  - assert (Hskip : forall ids0, processEvents env fuel rest ids0 q = Ok (r, q') ->
                                 delivers (length (event :: rest)) q q').
    { intros ids0 H0. apply IH in H0. eapply delivers_le; [|exact H0]. simpl. lia. }
    destruct (mAccessible (heap q event)) as [target|]; [|eapply Hskip; exact H].
    destruct (defunct q target); [eapply Hskip; exact H|].
    destruct (collectSelChange env event (mEventType (heap q event)) ids q)
      as [ids'| |]; cbn [bind] in H; try discriminate.
    destruct (rule_eqb (mEventRule (heap q event)) eDoNotEmit);
      [eapply Hskip; exact H|].
    destruct (type_eqb (mEventType (heap q event)) EVENT_TEXT_SELECTION_CHANGED).
    { match type of H with
      | bind ?c _ = _ => destruct c as [q1| |] eqn:E1; cbn [bind] in H;
                           try discriminate
      end.
      apply emit_delivers in E1; [|reflexivity]. apply IH in H.
      apply (delivers_trans 1 (length rest) _ _ _ E1 H). }
    match type of H with
    | bind ?c _ = _ => destruct c as [q1| |] eqn:E1; cbn [bind] in H; try discriminate
    end.
    apply fireSelectedState_delivers in E1.
    match type of H with
    | bind ?c _ = _ => destruct c as [q2| |] eqn:E2; cbn [bind] in H; try discriminate
    end.
    apply emit_delivers in E2; [|reflexivity].
    pose proof (delivers_trans 0 1 _ _ _ E1 E2) as H12.
    destruct (negb (mDocument q2)).
    { inversion H; subst. eapply delivers_le; [|exact H12]. simpl. lia. }
    match type of H with
    | bind ?c _ = _ => destruct c as [q3| |] eqn:E3; cbn [bind] in H; try discriminate
    end.
    assert (H3 : delivers 0 q2 q3).
    { destruct (isMutationKind (mEventType (heap q event)) && IPCDoc env);
        [|inversion E3; subst; apply delivers_refl].
      apply emit_delivers in E3; [exact E3 | reflexivity]. }
    apply IH in H.
    pose proof (delivers_trans _ _ _ _ _ (delivers_trans _ _ _ _ _ H12 H3) H) as Hall.
    eapply delivers_le; [|exact Hall]. simpl. lia.
Qed.

Lemma ProcessEventQueue_delivers (fuel : nat) (q q' : State) :
  ProcessEventQueue env fuel q = Ok q' ->
  delivers (length (mEvents q) + match mFocusEvent q with Some _ => 1 | None => 0 end)
    q q'.
Proof.
  intros H. unfold ProcessEventQueue in H.
  match type of H with
  | bind ?c _ = _ => destruct c as [q1| |] eqn:E1; cbn [bind] in H; try discriminate
  end.
  assert (H1 : delivers (match mFocusEvent q with Some _ => 1 | None => 0 end) q q1).
  { cbn [mFocusEvent withEvents] in E1.
    destruct (mFocusEvent q) as [event|].
    - destruct (mAccessible (heap (withFocusEvent None (withEvents [] q)) event))
        as [target|]; [|discriminate].
      destruct (negb (defunct (withFocusEvent None (withEvents [] q)) target)).
      + apply emit_delivers in E1; [exact E1 | reflexivity].
      + inversion E1; subst. exists []. simpl. rewrite app_nil_r. split; [reflexivity|].
        unfold countIf. simpl. lia.
    - inversion E1; subst. exists []. simpl. rewrite app_nil_r. auto. }
  match type of H with
  | bind ?c _ = _ => destruct c as [[ids q2]| |] eqn:E2; cbn [bind] in H;
                       try discriminate
  end.
  apply processEvents_delivers in E2.
  assert (H3 : delivers 0 q2 q').
  { destruct ids as [[selectedIDs unselectedIDs]|];
      [|inversion H; subst; apply delivers_refl].
    match type of H with
    | (if ?c then _ else _) = _ => destruct c
    end; [|inversion H; subst; apply delivers_refl].
    destruct (IPCDoc env); [|discriminate].
    apply emit_delivers in H; [exact H | reflexivity]. }
  pose proof (delivers_trans _ _ _ _ _ (delivers_trans _ _ _ _ _ H1 E2) H3) as Hall.
  eapply delivers_le; [|exact Hall]. lia.
Qed.

End DrainCount.

(** C8 (amended).  For any sequence of pushes followed by one drain: every
    push invocation, those made by the dependency propagator included, is
    logged with its outcome; coalescing never changes the ordered sequence,
    it only writes into event objects; the sequence grows by exactly the
    invocations that neither went to the focus slot nor were dropped by the
    duplicate check; and a generation that starts empty hands over, at its
    drain, at most as many events as there were push invocations. *)
Theorem sequence_length_and_deliveries (env : Env) (fuel : nat)
    (evs : list AccEvent) (q0 q1 : State) :
  QueueEvents env fuel evs q0 = Ok q1 ->
  exists d, log q1 = log q0 ++ d /\
    Forall (fun e => isPushOutcome e = true) d /\
    (length evs <= countIf isPushOutcome d)%nat /\
    (forall fuel' q q', CoalesceEvents fuel' q = Ok q' -> mEvents q' = mEvents q) /\
    (length (mEvents q1) + countIf isDropped d + countIf isFocusPush d
     = length (mEvents q0) + countIf isPushOutcome d)%nat /\
    (forall fuel' q2 d',
       mEvents q0 = [] -> mFocusEvent q0 = None ->
       ProcessEventQueue env fuel' q1 = Ok q2 -> log q2 = log q1 ++ d' ->
       (countIf isDelivery d' <= countIf isPushOutcome d)%nat).
Proof.
  intros H.
  destruct (QueueEvents_outcomes env fuel evs q0 q1 H) as (d & L & F & C & M & S).
  destruct (countIf_pushes d F) as (_ & Hsum & _).
  exists d. repeat split; auto.
  - intros fuel' q q' Hc. apply CoalesceEvents_shape in Hc.
    destruct Hc as (_ & Hc & _). exact Hc.
  - rewrite M, length_app, length_appendedIn. lia.
  - intros fuel' q2 d' Hempty Hnofocus Hdrain Hlog.
    apply ProcessEventQueue_delivers in Hdrain.
    destruct Hdrain as (d2 & L2 & C2).
    rewrite Hlog in L2. apply app_inv_head in L2. subst d2.
    rewrite M, Hempty in C2. simpl in C2. rewrite length_appendedIn in C2.
    rewrite Hnofocus in S.
    destruct (mFocusEvent q1) as [p|]; [|lia].
    symmetry in S. apply focusAfter_pushed in S.
    destruct S as [S|S]; [discriminate|]. lia.
Qed.

(** ** The duplicate check *)

(** [checkEvent] is identical to [aEvent]: same kind, rule and target. *)
Definition sameEvent (q : State) (aEvent checkEvent : EventPtr) : bool :=
  type_eqb (mEventType (heap q checkEvent)) (mEventType (heap q aEvent))
  && rule_eqb (mEventRule (heap q checkEvent)) (mEventRule (heap q aEvent))
  && acc_eqb (mAccessible (heap q checkEvent)) (mAccessible (heap q aEvent)).

Lemma firstn_snoc (l : list EventPtr) (m : nat) (p : EventPtr) :
  nth_error l m = Some p -> firstn (S m) l = firstn m l ++ [p].
Proof.
  revert m. induction l as [|x l IH]; intros [|m] H; simpl in *; try discriminate.
  - inversion H; reflexivity.
  - rewrite (IH m H). reflexivity.
Qed.

Lemma scanDown_checkDuplicate (aEvent : EventPtr) (q : State) :
  forall n, (n <= length (mEvents q))%nat ->
    scanDown (checkDuplicate aEvent) n q
    = Ok (if existsb (sameEvent q aEvent) (firstn n (mEvents q))
          then Return (modify aEvent (withRule eDoNotEmit) q)
          else Continue q).
Proof.
  induction n as [|m IH]; intros Hn; [reflexivity|].
  cbn [scanDown]. unfold checkDuplicate at 1.
  destruct (ElementAt_in_bounds (mEvents q) m ltac:(lia)) as (p & E & Hnth).
  rewrite E. cbn [bind].
  rewrite (firstn_snoc _ _ _ Hnth), existsb_app. cbn [existsb].
  fold (sameEvent q aEvent p).
  destruct (sameEvent q aEvent p); cbn [bind].
  - rewrite !orb_true_r. reflexivity.
  - rewrite IH by lia. rewrite !orb_false_r. reflexivity.
Qed.

Lemma findDuplicate_spec (fuel : nat) (aEvent : EventPtr) (q : State) :
  mEvents q <> [] -> Length (mEvents q) < 2 ^ 32 ->
  (length (mEvents q) <= fuel)%nat ->
  findDuplicate fuel aEvent q
  = Ok (if existsb (sameEvent q aEvent) (mEvents q)
        then Return (modify aEvent (withRule eDoNotEmit) q)
        else Continue q).
Proof.
  intros Hne Hlen Hfuel. unfold findDuplicate.
  rewrite scan_from_last by assumption.
  rewrite scanDown_checkDuplicate by lia.
  rewrite firstn_all. reflexivity.
Qed.

Lemma rule_eqb_true (a b : EEventRule) : rule_eqb a b = true <-> a = b.
Proof. unfold rule_eqb. destruct (EEventRule_eq_dec a b); split; congruence. Qed.

Lemma rule_eqb_false (a b : EEventRule) : rule_eqb a b = false <-> a <> b.
Proof. unfold rule_eqb. destruct (EEventRule_eq_dec a b); split; congruence. Qed.

Lemma rule_eqb_refl (a : EEventRule) : rule_eqb a a = true.
Proof. apply rule_eqb_true. reflexivity. Qed.

Lemma type_eqb_refl (a : EventType) : type_eqb a a = true.
Proof. apply type_eqb_true. reflexivity. Qed.

(** Coalescing does nothing for a tail whose rule is remove-duplicates. *)
Lemma CoalesceEvents_tail_eRemoveDupes (fuel : nat) (q : State) (l : list EventPtr)
    (p : EventPtr) :
  mEvents q = l ++ [p] -> Length l < 2 ^ 32 ->
  mEventRule (heap q p) = eRemoveDupes ->
  CoalesceEvents fuel q = Ok q.
Proof.
  intros Hm Hlen Hr. unfold CoalesceEvents.
  rewrite Hm, ElementAt_last by assumption. cbn [bind].
  rewrite Hr. reflexivity.
Qed.

(** The push of an event, not a focus event, whose rule is
    remove-duplicates, onto a non-empty sequence. *)
Lemma PushEvent_remove_duplicates (env : Env) (fuel : nat)
    (aEvent : EventPtr) (q : State) :
  mEventType (heap q aEvent) <> EVENT_FOCUS ->
  mEventRule (heap q aEvent) = eRemoveDupes ->
  mEvents q <> [] ->
  Length (mEvents q) < 2 ^ 32 ->
  (length (mEvents q) <= fuel)%nat ->
  let q1 := record (PushAppended aEvent) (withEvents (mEvents q ++ [aEvent]) q) in
  CoalesceEvents (S fuel) q1 = Ok q1 /\
  PushEvent env (S fuel) aEvent q
  = if existsb (sameEvent q aEvent) (mEvents q) then
      Ok (true, record (PushDroppedAsDuplicate aEvent)
                  (modify aEvent (withRule eDoNotEmit) q))
    else if startsPropagation (mEventType (heap q aEvent))
    then '(_, q') <- PushNameOrDescriptionChange env (PushEvent env fuel) fuel
                       aEvent q1 ;; Ok (true, q')
    else Ok (true, q1).
Proof.
  intros Hnf Hr Hne Hlen Hfuel q1.
  assert (Hc : CoalesceEvents (S fuel) q1 = Ok q1)
    by (apply (CoalesceEvents_tail_eRemoveDupes _ _ (mEvents q) aEvent);
        [reflexivity | assumption | exact Hr]).
  split; [exact Hc|].
  cbn [PushEvent].
  apply type_eqb_false in Hnf. rewrite Hnf.
  rewrite Hr, rule_eqb_refl.
  assert (He : IsEmpty (mEvents q) = false)
    by (destruct (mEvents q); [congruence|reflexivity]).
  rewrite He. cbn [negb andb].
  rewrite findDuplicate_spec by (try assumption; lia).
  cbn [bind].
  destruct (existsb (sameEvent q aEvent) (mEvents q)); [reflexivity|].
  cbv zeta. change (CoalesceEvents (S fuel) _) with (CoalesceEvents (S fuel) q1).
  rewrite Hc. cbn [bind]. reflexivity.
Qed.

(** ** The selection-change scan *)

(** [thisEvent] shares the tail's rule and belongs to the same control. *)
Definition sameControl (q : State) (tailEvent thisEvent : EventPtr) : bool :=
  rule_eqb (mEventRule (heap q thisEvent)) (mEventRule (heap q tailEvent))
  && match payload (heap q tailEvent), payload (heap q thisEvent) with
     | SelChangeEvent t, SelChangeEvent s => Nat.eqb (mWidget t) (mWidget s)
     | _, _ => false
     end.

(** Every entry that shares the tail's rule is, like the tail, an
    [AccSelChangeEvent]. *)
Definition selectionTyped (q : State) (tailEvent : EventPtr) (l : list EventPtr) : Prop :=
  (exists t, payload (heap q tailEvent) = SelChangeEvent t) /\
  forall p, In p l ->
    mEventRule (heap q p) = mEventRule (heap q tailEvent) ->
    exists s, payload (heap q p) = SelChangeEvent s.

Lemma coalesceSelectionChange_skip (fuel : nat) (q : State) (tailEvent p : EventPtr)
    (l : list EventPtr) (i : nat) :
  selectionTyped q tailEvent l -> In p l ->
  ElementAt (mEvents q) (Z.of_nat i) = Ok p ->
  sameControl q tailEvent p = false ->
  coalesceSelectionChange fuel tailEvent (Z.of_nat i) q = Ok (Continue q).
Proof.
  intros [[t Ht] Hty] Hin E Hs. unfold coalesceSelectionChange. rewrite E. cbn [bind].
  unfold sameControl in Hs.
  destruct (rule_eqb (mEventRule (heap q p)) (mEventRule (heap q tailEvent))) eqn:Er;
    [|reflexivity].
  apply rule_eqb_true in Er. destruct (Hty p Hin Er) as [s Hp].
  unfold asSelChange. rewrite Ht, Hp in *. cbn [bind]. simpl in Hs. rewrite Hs.
  reflexivity.
Qed.

Lemma coalesceSelectionChange_hit (fuel : nat) (q : State) (tailEvent p : EventPtr)
    (i : nat) :
  ElementAt (mEvents q) (Z.of_nat i) = Ok p ->
  sameControl q tailEvent p = true ->
  coalesceSelectionChange fuel tailEvent (Z.of_nat i) q
  = (q' <- CoalesceSelChangeEvents fuel tailEvent p (Z.of_nat i) q ;; Ok (Return q')).
Proof.
  intros E Hs. unfold coalesceSelectionChange. rewrite E. cbn [bind].
  unfold sameControl in Hs. apply andb_prop in Hs. destruct Hs as [Hr Hw].
  rewrite Hr. unfold asSelChange.
  destruct (payload (heap q tailEvent)); try discriminate.
  destruct (payload (heap q p)); try discriminate.
  cbn [bind]. rewrite Hw. reflexivity.
Qed.

Lemma nth_error_app_In (l : list EventPtr) (t p : EventPtr) (i : nat) :
  (i < length l)%nat -> nth_error (l ++ [t]) i = Some p ->
  nth_error l i = Some p /\ In p l.
Proof.
  intros Hi H. rewrite nth_error_app1 in H by exact Hi.
  split; [exact H | eapply nth_error_In; exact H].
Qed.

Lemma scanDown_selection_none (fuel : nat) (q : State) (tailEvent : EventPtr)
    (l : list EventPtr) :
  mEvents q = l ++ [tailEvent] -> selectionTyped q tailEvent l ->
  forall n, (n <= length l)%nat ->
    (forall j p, (j < n)%nat -> nth_error l j = Some p ->
       sameControl q tailEvent p = false) ->
    scanDown (coalesceSelectionChange fuel tailEvent) n q = Ok (Continue q).
Proof.
  intros Hm Hty. induction n as [|m IH]; intros Hn Hnone; [reflexivity|].
  cbn [scanDown].
  destruct (ElementAt_in_bounds (mEvents q) m) as (p & E & Hnth).
  { rewrite Hm, length_app. simpl. lia. }
  rewrite Hm in Hnth. apply nth_error_app_In in Hnth; [|lia].
  destruct Hnth as [Hnth Hin].
  rewrite (coalesceSelectionChange_skip fuel q tailEvent p l m Hty Hin E)
    by (apply (Hnone m p); [lia | exact Hnth]).
  cbn [bind]. apply IH; [lia|]. intros j p0 Hj. apply Hnone. lia.
Qed.

Lemma scanDown_selection_hit (fuel : nat) (q : State) (tailEvent : EventPtr)
    (l : list EventPtr) (index : nat) (thisEvent : EventPtr) :
  mEvents q = l ++ [tailEvent] -> selectionTyped q tailEvent l ->
  nth_error l index = Some thisEvent ->
  sameControl q tailEvent thisEvent = true ->
  forall n, (index < n <= length l)%nat ->
    (forall j p, (index < j < n)%nat -> nth_error l j = Some p ->
       sameControl q tailEvent p = false) ->
    scanDown (coalesceSelectionChange fuel tailEvent) n q
    = (q' <- CoalesceSelChangeEvents fuel tailEvent thisEvent (Z.of_nat index) q ;;
       Ok (Return q')).
Proof.
  intros Hm Hty Hthis Hsame. induction n as [|m IH]; intros Hn Hnone; [lia|].
  cbn [scanDown].
  destruct (ElementAt_in_bounds (mEvents q) m) as (p & E & Hnth).
  { rewrite Hm, length_app. simpl. lia. }
  rewrite Hm in Hnth. apply nth_error_app_In in Hnth; [|lia].
  destruct Hnth as [Hnth Hin].
  destruct (Nat.eq_dec m index) as [->|Hneq].
  - assert (p = thisEvent) by congruence. subst p.
    rewrite (coalesceSelectionChange_hit fuel q tailEvent thisEvent index E Hsame).
    destruct (CoalesceSelChangeEvents fuel tailEvent thisEvent (Z.of_nat index) q);
      reflexivity.
  - rewrite (coalesceSelectionChange_skip fuel q tailEvent p l m Hty Hin E)
      by (apply (Hnone m p); [lia | exact Hnth]).
    cbn [bind]. apply IH; [lia|]. intros j p0 Hj. apply Hnone. lia.
Qed.

Lemma CoalesceEvents_selection (fuel : nat) (q : State) (l : list EventPtr)
    (tailEvent : EventPtr) :
  mEvents q = l ++ [tailEvent] -> Length l + 1 < 2 ^ 32 -> (length l <= fuel)%nat ->
  mEventRule (heap q tailEvent) = eCoalesceSelectionChange ->
  CoalesceEvents fuel q
  = (r <- scanDown (coalesceSelectionChange fuel tailEvent) (length l) q ;;
     Ok (leave r)).
Proof.
  intros Hm Hlen Hfuel Hr. unfold CoalesceEvents.
  assert (Hl : Length (mEvents q) < 2 ^ 32) by (rewrite Hm, Length_app; lia).
  assert (Hn : (length (mEvents q) - 1 = length l)%nat)
    by (rewrite Hm, length_app; simpl; lia).
  assert (He : ElementAt (mEvents q) (u32 (Length (mEvents q) - 1)) = Ok tailEvent)
    by (rewrite Hm; apply ElementAt_last; lia).
  cbv zeta. rewrite He. cbn [bind]. rewrite Hr.
  rewrite scan_below_tail; [|rewrite Hm; destruct l; discriminate|exact Hl|lia].
  rewrite Hn. reflexivity.
Qed.

(** C5 (amended).  When the just-inserted tail has rule
    coalesce-selection-change, the backward scan stops at the newest earlier
    entry that shares the rule and targets the same owning widget, and hands
    that entry and the tail to the selection-merge algorithm; earlier entries
    that share the rule but belong to another widget are passed over.  When no
    earlier entry shares both, the pass is a no-op. *)
Theorem selection_scan_finds_same_widget (fuel : nat) (q : State)
    (l : list EventPtr) (tailEvent : EventPtr) :
  mEvents q = l ++ [tailEvent] -> Length l + 1 < 2 ^ 32 -> (length l <= fuel)%nat ->
  mEventRule (heap q tailEvent) = eCoalesceSelectionChange ->
  selectionTyped q tailEvent l ->
  (forall index thisEvent,
     nth_error l index = Some thisEvent ->
     sameControl q tailEvent thisEvent = true ->
     (forall j p, (index < j)%nat -> nth_error l j = Some p ->
        sameControl q tailEvent p = false) ->
     CoalesceEvents fuel q
     = CoalesceSelChangeEvents fuel tailEvent thisEvent (Z.of_nat index) q) /\
  ((forall p, In p l -> sameControl q tailEvent p = false) ->
   CoalesceEvents fuel q = Ok q).
Proof.
  intros Hm Hlen Hfuel Hr Hty. split.
  - intros index thisEvent Hthis Hsame Hnewer.
    rewrite (CoalesceEvents_selection fuel q l tailEvent) by assumption.
    rewrite (scanDown_selection_hit fuel q tailEvent l index thisEvent);
      try assumption.
    + destruct (CoalesceSelChangeEvents fuel tailEvent thisEvent (Z.of_nat index) q);
        reflexivity.
    + split; [|lia]. apply nth_error_Some. congruence.
    + intros j p [Hj _]. apply Hnewer. exact Hj.
  - intros Hnone.
    rewrite (CoalesceEvents_selection fuel q l tailEvent) by assumption.
    rewrite (scanDown_selection_none fuel q tailEvent l); try assumption;
      [reflexivity | lia |].
    intros j p _ Hnth. apply Hnone. eapply nth_error_In. exact Hnth.
Qed.

(** ** The upward walk of the dependency propagator *)

(** Run both sides of an equation between computations in step. *)
Ltac run_both :=
  repeat (cbn [bind andb negb orb];
          match goal with
          | |- ?x = ?x => reflexivity
          | |- context [let (_, _) := ?x in _] => is_var x; destruct x
          | |- context [bind ?c _] =>
              lazymatch c with
              | bind _ _ => fail
              | Ok _ => fail
              | Crash _ => fail
              | OutOfFuel => fail
              | (if _ then _ else _) => fail
              | match _ with _ => _ end => fail
              | _ => destruct c
              end
          | |- context [bind (if ?c then _ else _) _] => destruct c
          | |- context [bind (match ?c with Some _ => _ | None => _ end) _] =>
              destruct c
          end);
  cbn [bind andb negb orb].

Section Walk.

Variable env : Env.
Variable push : EventPtr -> State -> Result (bool * State).

(** The nodes the walk visits, starting at [parent]: it stops after a
    document, at a missing parent, and before a parent whose name is not
    conditionally subtree-derived. *)
Fixpoint visited (fuel : nat) (parent : Acc) : option (list Acc) :=
  match fuel with
  | O => None
  | S fuel' =>
      if IsDoc env parent then Some [parent]
      else
        match LocalParent env parent with
        | Some parent' =>
            if HasNameRule env parent' eNameFromSubtreeIfReqRule
            then option_map (cons parent) (visited fuel' parent')
            else Some [parent]
        | None => Some [parent]
        end
  end.

(** A node at which the direct name-change check applies: its name is
    computed from its subtree, and it is an ancestor of the target or the
    target's own name may have changed. *)
Definition qualifies (target : Acc) (maybeTargetNameChanged : bool) (node : Acc) : bool :=
  (maybeTargetNameChanged || negb (Nat.eqb node target))
  && HasNameRule env node eNameFromSubtreeRule.

(** The direct check: a name-change event for [node] when the way its name
    was resolved calls for one. *)
Definition directNameChange (node : Acc) (pushed : bool) (q : State)
    : Result (bool * State) :=
  if fireNameChange env node then
    let '(nameChangeEvent, q) := alloc (newAccEvent env EVENT_NAME_CHANGE node) q in
    '(b, q) <- push nameChangeEvent q ;;
    Ok (pushed || b, q)
  else Ok (pushed, q).

(** Relation-based propagation at one node. *)
Definition relationsAt (doName doDesc : bool) (node : Acc) (pushed : bool) (q : State)
    : Result (bool * State) :=
  '(pushed, q) <-
    (if doName then
       '(b, q) <- PushNameOrDescriptionChangeToRelations env push node LABEL_FOR q ;;
       Ok (pushed || b, q)
     else Ok (pushed, q)) ;;
  if doDesc then
    '(b, q) <- PushNameOrDescriptionChangeToRelations env push node DESCRIPTION_FOR q ;;
    Ok (pushed || b, q)
  else Ok (pushed, q).

Fixpoint relationsAlong (doName doDesc : bool) (nodes : list Acc) (pushed : bool)
    (q : State) : Result (bool * State) :=
  match nodes with
  | [] => Ok (pushed, q)
  | node :: rest =>
      '(pushed, q) <- relationsAt doName doDesc node pushed q ;;
      relationsAlong doName doDesc rest pushed q
  end.

(** The walk as the amended claim describes it: relation-based propagation at
    every visited node; the direct check only when name propagation is on
    ([doName]), and then once, at the first visited node that qualifies;
    nodes that do not qualify are passed over with the check still
    pending. *)
Fixpoint propagateAlong (target : Acc) (maybeTargetNameChanged doName doDesc : bool)
    (nodes : list Acc) (pushed : bool) (q : State) : Result (bool * State) :=
  match nodes with
  | [] => Ok (pushed, q)
  | node :: rest =>
      if doName && qualifies target maybeTargetNameChanged node then
        '(pushed, q) <- directNameChange node pushed q ;;
        '(pushed, q) <- relationsAt doName doDesc node pushed q ;;
        relationsAlong doName doDesc rest pushed q
      else
        '(pushed, q) <- relationsAt doName doDesc node pushed q ;;
        propagateAlong target maybeTargetNameChanged doName doDesc rest pushed q
  end.

(** The walk as the claim words it: the direct check is given up at the
    first ancestor at which it is tried, whether that ancestor qualified
    (and the check fired) or not. *)
Fixpoint propagateAlong_asClaimed (target : Acc)
    (maybeTargetNameChanged doName doDesc : bool)
    (nodes : list Acc) (pushed : bool) (q : State) : Result (bool * State) :=
  match nodes with
  | [] => Ok (pushed, q)
  | node :: rest =>
      if doName && (maybeTargetNameChanged || negb (Nat.eqb node target)) then
        '(pushed, q) <-
          (if HasNameRule env node eNameFromSubtreeRule
           then directNameChange node pushed q
           else Ok (pushed, q)) ;;
        '(pushed, q) <- relationsAt doName doDesc node pushed q ;;
        relationsAlong doName doDesc rest pushed q
      else
        '(pushed, q) <- relationsAt doName doDesc node pushed q ;;
        propagateAlong_asClaimed target maybeTargetNameChanged doName doDesc
          rest pushed q
  end.

Lemma walkAncestors_step (fuel : nat) (target : Acc) (m dn dd : bool)
    (parent : Acc) (nca pushed : bool) (q : State) :
  walkAncestors env push (S fuel) target m dn dd parent nca pushed q
  = ('(pushed, q) <-
       (if dn && nca && qualifies target m parent
        then directNameChange parent pushed q else Ok (pushed, q)) ;;
     '(pushed, q) <- relationsAt dn dd parent pushed q ;;
     let nca := nca && negb (dn && qualifies target m parent) in
     if IsDoc env parent then Ok (pushed, q)
     else match LocalParent env parent with
          | Some parent' =>
              if HasNameRule env parent' eNameFromSubtreeIfReqRule
              then walkAncestors env push fuel target m dn dd parent' nca pushed q
              else Ok (pushed, q)
          | None => Ok (pushed, q)
          end).
Proof.
  cbn [walkAncestors]. unfold qualifies, relationsAt, directNameChange, alloc.
  destruct dn, nca; cbn [andb negb bind]; try reflexivity;
    try destruct ((m || negb (parent =? target)%nat)
                  && HasNameRule env parent eNameFromSubtreeRule);
    try destruct (fireNameChange env parent);
    run_both.
Qed.

Lemma walkAncestors_along (target : Acc) (m dn dd : bool) (fuel : nat) :
  forall parent path, visited fuel parent = Some path ->
    forall nca pushed q,
      walkAncestors env push fuel target m dn dd parent nca pushed q
      = if nca then propagateAlong target m dn dd path pushed q
        else relationsAlong dn dd path pushed q.
Proof.
  induction fuel as [|fuel IH]; intros parent path Hv nca pushed q;
    [discriminate|].
  rewrite walkAncestors_step. cbn [visited] in Hv.
  assert (Hlast : path = [parent] ->
            ('(pushed, q) <-
               (if dn && nca && qualifies target m parent
                then directNameChange parent pushed q else Ok (pushed, q)) ;;
             '(pushed, q) <- relationsAt dn dd parent pushed q ;;
             Ok (pushed, q))
            = if nca then propagateAlong target m dn dd path pushed q
              else relationsAlong dn dd path pushed q).
  { intros ->. cbn [propagateAlong relationsAlong].
    destruct nca; rewrite ?andb_true_r, ?andb_false_r; cbn [andb].
    - destruct (dn && qualifies target m parent); run_both.
    - run_both. }
  destruct (IsDoc env parent); [inversion Hv; subst; apply Hlast; reflexivity|].
  destruct (LocalParent env parent) as [parent'|];
    [|inversion Hv; subst; apply Hlast; reflexivity].
  destruct (HasNameRule env parent' eNameFromSubtreeIfReqRule);
    [|inversion Hv; subst; apply Hlast; reflexivity].
  clear Hlast.
  destruct (visited fuel parent') as [path'|] eqn:Ev; [|discriminate].
  inversion Hv; subst path. cbn [propagateAlong relationsAlong].
  destruct nca; rewrite ?andb_true_r, ?andb_false_r; cbn [andb negb].
  - destruct (dn && qualifies target m parent); cbn [negb]; run_both;
      rewrite ?(IH parent' path' Ev); reflexivity.
  - run_both; rewrite ?(IH parent' path' Ev); reflexivity.
Qed.

End Walk.

Lemma PushNameOrDescriptionChange_along (env : Env)
    (push : EventPtr -> State -> Result (bool * State)) (fuel : nat)
    (aOrigEvent : EventPtr) (q : State) (target : Acc) (path : list Acc) :
  mAccessible (heap q aOrigEvent) = Some target ->
  visited env fuel target = Some path ->
  let t := mEventType (heap q aOrigEvent) in
  let maybeTargetNameChanged :=
    (type_eqb t EVENT_TEXT_REMOVED || type_eqb t EVENT_TEXT_INSERTED
     || type_eqb t EVENT_REORDER || type_eqb t EVENT_INNER_REORDER)
    && HasNameRule env target eNameFromSubtreeRule in
  let doName := HasNameDependent env target || maybeTargetNameChanged in
  let doDesc := HasDescriptionDependent env target in
  doName || doDesc = true ->
  PushNameOrDescriptionChange env push fuel aOrigEvent q
  = propagateAlong env push target maybeTargetNameChanged doName doDesc path false q.
Proof.
  intros Ht Hv t m doName doDesc Hdo.
  unfold PushNameOrDescriptionChange. rewrite Ht.
  fold t. fold m. fold doName. fold doDesc.
  replace (negb doName && negb doDesc) with false
    by (destruct doName, doDesc; simpl in *; congruence).
  rewrite (walkAncestors_along env push target m doName doDesc fuel target path Hv).
  reflexivity.
Qed.

(** Without name propagation the walk is relation-based propagation alone:
    the direct check is made nowhere. *)
Lemma propagateAlong_without_name (env : Env)
    (push : EventPtr -> State -> Result (bool * State))
    (target : Acc) (m dd : bool) :
  forall nodes pushed q,
    propagateAlong env push target m false dd nodes pushed q
    = relationsAlong env push false dd nodes pushed q.
Proof.
  induction nodes as [|node rest IH]; intros pushed q; [reflexivity|].
  cbn [propagateAlong relationsAlong andb].
  destruct (relationsAt env push false dd node pushed q) as [[b q1]| |];
    cbn [bind]; [apply IH|reflexivity|reflexivity].
Qed.

(** C9 (amended).  During the upward walk the direct ancestor name-change
    check is performed only when name propagation is on for the target (it
    has a name dependent, or its own name may have changed), and then at most
    once: at the first visited node that qualifies (its name is computed from
    its subtree, and it is an ancestor of the target or the target's own name
    may have changed).  A visited node that does not qualify is passed over
    and leaves the check pending for the nodes after it; once the check has
    been performed, whether or not it produced an event, it is performed at
    no later node.  When only description propagation is on, the check is
    performed at no node at all.  Relation-based propagation runs at every
    visited node: along the label relations when name propagation is on,
    along the description relations when description propagation is on. *)
Theorem direct_check_once_at_first_qualifying_node (env : Env)
    (push : EventPtr -> State -> Result (bool * State)) (fuel : nat)
    (aOrigEvent : EventPtr) (q : State) (target : Acc) (path : list Acc) :
  mAccessible (heap q aOrigEvent) = Some target ->
  visited env fuel target = Some path ->
  let t := mEventType (heap q aOrigEvent) in
  let maybeTargetNameChanged :=
    (type_eqb t EVENT_TEXT_REMOVED || type_eqb t EVENT_TEXT_INSERTED
     || type_eqb t EVENT_REORDER || type_eqb t EVENT_INNER_REORDER)
    && HasNameRule env target eNameFromSubtreeRule in
  let doName := HasNameDependent env target || maybeTargetNameChanged in
  let doDesc := HasDescriptionDependent env target in
  doName || doDesc = true ->
  PushNameOrDescriptionChange env push fuel aOrigEvent q
  = propagateAlong env push target maybeTargetNameChanged doName doDesc path false q
  /\ (doName = false ->
      PushNameOrDescriptionChange env push fuel aOrigEvent q
      = relationsAlong env push false doDesc path false q).
Proof.
  intros Ht Hv t m doName doDesc Hdo.
  assert (H : PushNameOrDescriptionChange env push fuel aOrigEvent q
              = propagateAlong env push target m doName doDesc path false q)
    by (apply PushNameOrDescriptionChange_along; assumption).
  split; [exact H|].
  intros Hn. rewrite H, Hn. apply propagateAlong_without_name.
Qed.

(** ** Pushes leave older objects alone

    Objects at addresses from [N] up to the allocation pointer form a region
    that is closed under packed-partner pointers.  Pushing an event of the
    region into a queue of the region writes only into the region. *)

Definition inRegion (N : nat) (q : State) (p : EventPtr) : Prop :=
  (N <= p < nextPtr q)%nat.

Definition packedWithin (N M : nat) (e : AccEvent) : Prop :=
  forall s pk, payload e = SelChangeEvent s -> mPackedEvent s = Some pk ->
    (N <= pk < M)%nat.

Definition Closed (N : nat) (q : State) : Prop :=
  (N <= nextPtr q)%nat /\
  (forall p, In p (mEvents q) -> inRegion N q p) /\
  (forall p, inRegion N q p -> packedWithin N (nextPtr q) (heap q p)).

Definition agreeBelow (N : nat) (q q' : State) : Prop :=
  forall p, (p < N)%nat -> heap q' p = heap q p.

(** Invariant of the scans of a coalescing pass started in [q0]. *)
Definition regionInv (N : nat) (q0 s : State) : Prop :=
  Closed N s /\ agreeBelow N q0 s /\ sameShape q0 s.

Lemma ElementAt_In (l : list EventPtr) (i : Z) (p : EventPtr) :
  ElementAt l i = Ok p -> In p l.
Proof.
  unfold ElementAt. destruct ((0 <=? i) && (i <? Length l)); [|discriminate].
  destruct (nth_error l (Z.to_nat i)) eqn:E; [|discriminate].
  intros H. inversion H; subst. eapply nth_error_In. exact E.
Qed.

Lemma forDown_preserves (P : State -> Prop)
    (body : Z -> State -> Result (LoopStep State State))
    (cond : Z -> bool) (fuel : nat) :
  (forall i s r, P s -> body i s = Ok r -> P (leave r)) ->
  forall (index : Z) (q : State) (r : LoopStep State State),
    P q -> forDown fuel cond body index q = Ok r -> P (leave r).
Proof.
  intros Hbody. induction fuel as [|fuel IH]; intros index q r HP H; simpl in H.
  - destruct (cond index); [discriminate|]. inversion H; subst. exact HP.
  - destruct (cond index); [|inversion H; subst; exact HP].
    destruct (body index q) as [[s'|v]| |] eqn:E; simpl in H; try discriminate.
    + eapply IH; [|exact H]. exact (Hbody _ _ _ HP E).
    + inversion H; subst. exact (Hbody _ _ _ HP E).
Qed.

(** A write that keeps packed-partner pointers inside the region. *)
Definition keepsPacked (N M : nat) (f : AccEvent -> AccEvent) : Prop :=
  forall e, packedWithin N M e -> packedWithin N M (f e).

Lemma keepsPacked_withRule (N M : nat) (r : EEventRule) : keepsPacked N M (withRule r).
Proof. intros e H. exact H. Qed.

Lemma keepsPacked_withType (N M : nat) (t : EventType) : keepsPacked N M (withType t).
Proof. intros e H. exact H. Qed.

Lemma keepsPacked_withAccessible (N M : nat) (a : option Acc) :
  keepsPacked N M (withAccessible a).
Proof. intros e H. exact H. Qed.

Lemma keepsPacked_count (N M : nat) (n : Z) :
  keepsPacked N M (onSelChange (withPreceedingCount n)).
Proof.
  intros e H s pk Hp Hk. unfold onSelChange in Hp.
  destruct (payload e) as [| | s0 |] eqn:E; simpl in Hp; try congruence.
  inversion Hp; subst. simpl in Hk. eapply H; eauto.
Qed.

Lemma keepsPacked_packed (N M : nat) (p : option EventPtr) :
  (forall x, p = Some x -> (N <= x < M)%nat) ->
  keepsPacked N M (onSelChange (withPackedEvent p)).
Proof.
  intros Hx e H s pk Hp Hk. unfold onSelChange in Hp.
  destruct (payload e) as [| | s0 |] eqn:E; simpl in Hp; try congruence.
  inversion Hp; subst. simpl in Hk. apply Hx. exact Hk.
Qed.

Lemma regionInv_modify (N : nat) (q0 s : State) (x : EventPtr)
    (f : AccEvent -> AccEvent) :
  regionInv N q0 s -> inRegion N s x -> keepsPacked N (nextPtr s) f ->
  regionInv N q0 (modify x f s).
Proof.
  intros ((Hn & Hq & Hc) & Ha & Hs) Hx Hf.
  split; [split; [exact Hn | split] | split; [|exact Hs]].
  - exact Hq.
  - intros p Hp. cbn [modify withHeap heap nextPtr].
    destruct (Nat.eqb p x) eqn:E.
    + apply Hf. apply Hc. exact Hx.
    + apply Hc. exact Hp.
  - intros p Hp. cbn [modify withHeap heap].
    destruct (Nat.eqb_spec p x) as [->|_]; [|apply Ha; exact Hp].
    destruct Hx. lia.
Qed.

Lemma regionInv_In (N : nat) (q0 s : State) (i : Z) (x : EventPtr) :
  regionInv N q0 s -> ElementAt (mEvents s) i = Ok x -> inRegion N s x.
Proof.
  intros ((_ & Hq & _) & _) E. apply Hq. eapply ElementAt_In. exact E.
Qed.

Lemma regionInv_packed (N : nat) (q0 s : State) (x pk : EventPtr) (sc : SelChange) :
  regionInv N q0 s -> inRegion N s x ->
  asSelChange (heap s x) = Ok sc -> mPackedEvent sc = Some pk ->
  inRegion N s pk.
Proof.
  intros ((_ & _ & Hc) & _) Hx E Hk.
  unfold asSelChange in E. destruct (payload (heap s x)) eqn:Ep; try discriminate.
  inversion E; subst. exact (Hc x Hx sc pk Ep Hk).
Qed.

Create HintDb region.
#[local] Hint Resolve keepsPacked_withRule keepsPacked_withType
  keepsPacked_withAccessible keepsPacked_count : region.

(** Discharge a goal [regionInv N q0 (modify ... (modify ... s))]. *)
Ltac region_tac :=
  repeat match goal with
  | |- regionInv _ _ (modify _ _ _) => apply regionInv_modify
  | |- keepsPacked _ _ (onSelChange (withPackedEvent _)) =>
      apply keepsPacked_packed; intros ? [= <-]
  | |- keepsPacked _ _ _ => solve [auto with region]
  | |- inRegion _ (modify _ _ _) _ => unfold inRegion; cbn [modify withHeap nextPtr]
  end;
  try assumption.

Lemma suppressPreceding_region (N : nat) (q0 : State) (t : EventPtr) (i : Z)
    (s : State) (r : LoopStep State State) :
  regionInv N q0 s -> suppressPreceding t i s = Ok r -> regionInv N q0 (leave r).
Proof.
  intros HP H. unfold suppressPreceding in H.
  steps_ok; cbn [leave]; try assumption.
  region_tac. eapply regionInv_In; eassumption.
Qed.

Lemma unpackOrConvert_region (N : nat) (q0 : State) (t p : EventPtr) (s s' : State) :
  regionInv N q0 s -> inRegion N s t -> inRegion N s p ->
  unpackOrConvert t p s = Ok s' -> regionInv N q0 s'.
Proof.
  intros HP Ht Hp H. unfold unpackOrConvert in H.
  steps_ok; try assumption; region_tac; try discriminate.
  eapply regionInv_packed; eassumption.
  eapply regionInv_packed; eassumption.
Qed.

Lemma CoalesceSelChangeEvents_region (N : nat) (q0 : State) (fuel : nat)
    (t p : EventPtr) (i : Z) (s s' : State) :
  regionInv N q0 s -> inRegion N s t -> inRegion N s p ->
  CoalesceSelChangeEvents fuel t p i s = Ok s' -> regionInv N q0 s'.
Proof.
  intros HP Ht Hp H. unfold CoalesceSelChangeEvents in H.
  steps_ok;
    try (eapply unpackOrConvert_region; [| | |exact H]; region_tac);
    try (region_tac; fail).
  match goal with
  | E : forDown _ _ _ _ _ = Ok _ |- _ =>
      eapply (forDown_preserves (regionInv N q0)); [| |exact E]
  end.
  - intros j s0 r0. apply suppressPreceding_region.
  - region_tac.
Qed.

Lemma coalesce_bodies_region (N : nat) (q0 : State) (fuel : nat) (t : EventPtr)
    (i : Z) (s : State) (r : LoopStep State State) :
  regionInv N q0 s -> inRegion N s t ->
  (coalesceOfSameType t i s = Ok r \/
   coalesceSelectionChange fuel t i s = Ok r \/
   coalesceStateChange t i s = Ok r \/
   coalesceTextSelChange t i s = Ok r) ->
  regionInv N q0 (leave r).
Proof.
  unfold coalesceOfSameType, coalesceSelectionChange, coalesceStateChange,
    coalesceTextSelChange.
  intros HP Ht [H|[H|[H|H]]]; steps_ok; cbn [leave]; try assumption;
    try (region_tac; try (eapply regionInv_In; eassumption); fail).
  eapply CoalesceSelChangeEvents_region; [exact HP|exact Ht| |eassumption].
  eapply regionInv_In; eassumption.
Qed.

Lemma CoalesceEvents_region (N : nat) (fuel : nat) (q q' : State) :
  Closed N q -> CoalesceEvents fuel q = Ok q' ->
  Closed N q' /\ agreeBelow N q q'.
Proof.
  intros HC H.
  assert (HP : regionInv N q q).
  { split; [exact HC|]. split; [intros p _; reflexivity | apply sameShape_refl]. }
  assert (Hgoal : regionInv N q q'); [|destruct Hgoal as (A & B & _); auto].
  unfold CoalesceEvents in H. step_ok.
  assert (Ht : inRegion N q a) by (eapply regionInv_In; eassumption).
  assert (Hinv : forall s, regionInv N q s -> inRegion N s a).
  { intros s (_ & _ & (Hs & _)). unfold inRegion in *. rewrite Hs. exact Ht. }
  destruct (mEventRule (heap q a)); steps_ok; try assumption;
    match goal with
    | E : forDown _ _ _ _ _ = Ok _ |- _ =>
        eapply (forDown_preserves (regionInv N q)); [| |exact E]; [|exact HP]
    end;
    intros i s r Hs Hr;
    apply (coalesce_bodies_region N q fuel a i s r Hs (Hinv s Hs)); auto.
Qed.

(** The relation a push establishes: below [N] nothing is written, and the
    region stays closed. *)
Definition framed (N : nat) (q q' : State) : Prop :=
  Closed N q -> agreeBelow N q q' /\ Closed N q' /\
                defunct q' = defunct q /\ mDocument q' = mDocument q.

Lemma framed_refl (N : nat) (q : State) : framed N q q.
Proof.
  intros H. split; [intros p _; reflexivity|].
  split; [exact H | split; reflexivity].
Qed.

Lemma framed_trans (N : nat) (q1 q2 q3 : State) :
  framed N q1 q2 -> framed N q2 q3 -> framed N q1 q3.
Proof.
  intros H12 H23 H1. destruct (H12 H1) as (A1 & C2 & D1 & M1).
  destruct (H23 C2) as (A2 & C3 & D2 & M2).
  split; [|split; [exact C3 | split; congruence]].
  intros p Hp. rewrite (A2 p Hp). apply A1. exact Hp.
Qed.

(** An event as its constructor makes it: no packed partner. *)
Definition unpacked (ev : AccEvent) : Prop :=
  forall s, payload ev = SelChangeEvent s -> mPackedEvent s = None.

Lemma framed_allocated (N : nat) (ev : AccEvent) (q : State) :
  unpacked ev -> framed N q (allocated ev q).
Proof.
  intros Hu (Hn & Hq & Hc).
  split; [|split; [|split; reflexivity]].
  - intros p Hp. unfold allocated. cbn.
    destruct (Nat.eqb_spec p (nextPtr q)); [lia | reflexivity].
  - split; [unfold allocated; cbn; lia|]. split.
    + intros p Hp. specialize (Hq p Hp). unfold inRegion, allocated in *. cbn. lia.
    + intros p Hp s pk Hs Hk. unfold allocated in *. cbn in *.
      destruct (Nat.eqb_spec p (nextPtr q)) as [->|Hne].
      * rewrite (Hu s Hs) in Hk. discriminate.
      * assert (Hp' : inRegion N q p) by (unfold inRegion in *; cbn in *; lia).
        pose proof (Hc p Hp' s pk Hs Hk). lia.
Qed.

Lemma Closed_record (N : nat) (e : Effect) (q : State) :
  Closed N q -> Closed N (record e q).
Proof. intros H. exact H. Qed.

Lemma PushEvent_framed (env : Env) (N fuel : nat) (aEvent : EventPtr)
    (q : State) (b : bool) (q' : State) :
  Closed N q -> inRegion N q aEvent ->
  PushEvent env fuel aEvent q = Ok (b, q') ->
  agreeBelow N q q' /\ Closed N q' /\
  defunct q' = defunct q /\ mDocument q' = mDocument q.
Proof.
  intros HC HG H.
  apply (PushEvent_I env (Closed N) (framed N) (inRegion N)) in H; auto.
  - destruct H as [H _]. apply H. exact HC.
  - apply framed_refl.
  - apply framed_trans.
  - intros q0 q0' H0 HC0. apply H0. exact HC0.
  - intros t a q0 _. apply framed_allocated. intros s Hs. discriminate.
  - intros t a q0 (Hn & _) _. unfold inRegion, allocated. cbn. lia.
  - intros p q0 _ _ _ HC0.
    split; [intros x _; reflexivity|]. split; [exact HC0 | split; reflexivity].
  - intros p q0 HC0 Hp _ _.
    assert (HP : regionInv N q0 q0).
    { split; [exact HC0|]. split; [intros x _; reflexivity | apply sameShape_refl]. }
    pose proof (regionInv_modify N q0 q0 p (withRule eDoNotEmit) HP Hp
                  (keepsPacked_withRule _ _ _)) as (A & B & _).
    split; [exact B|]. split; [exact A | split; reflexivity].
  - intros fuel0 p q0 q0' HC0 Hp _ Hc _.
    assert (HC1 : Closed N (record (PushAppended p) (withEvents (mEvents q0 ++ [p]) q0))).
    { destruct HC0 as (Hn & Hq & Hcl). split; [exact Hn|]. split; [|exact Hcl].
      intros x Hx. cbn in Hx. apply in_app_or in Hx.
      destruct Hx as [Hx|[<-|[]]]; [apply Hq; exact Hx | exact Hp]. }
    pose proof (CoalesceEvents_shape _ _ _ Hc) as (_ & _ & _ & Hd & Hdef & _).
    destruct (CoalesceEvents_region N _ _ _ HC1 Hc) as [A B].
    split; [exact B|]. split; [exact A|]. split; assumption.
Qed.

(** Listeners create the events they queue through the constructors. *)
Definition wellBehaved (env : Env) : Prop :=
  forall e ev, In (ReactQueueEvent ev) (listener env e) -> unpacked ev.

Lemma QueueEvent_framed (env : Env) (N fuel : nat) (ev : AccEvent) (q q' : State) :
  unpacked ev -> Closed N q -> QueueEvent env fuel ev q = Ok q' ->
  agreeBelow N q q' /\ Closed N q' /\
  defunct q' = defunct q /\ mDocument q' = mDocument q.
Proof.
  intros Hu HC H. unfold QueueEvent, alloc in H.
  destruct (PushEvent env fuel (nextPtr q) (allocated ev q)) as [[b q1]| |] eqn:E;
    cbn [bind] in H; try discriminate.
  inversion H; subst q1.
  destruct (framed_allocated N ev q Hu HC) as (A0 & C0 & D0 & M0).
  apply (PushEvent_framed env N) in E; [|exact C0|].
  - destruct E as (A1 & C1 & D1 & M1).
    split; [|split; [exact C1 | split; congruence]].
    intros p Hp. rewrite (A1 p Hp). apply A0. exact Hp.
  - destruct HC as (Hn & _). unfold inRegion, allocated. cbn. lia.
Qed.

Lemma react_framed (env : Env) (N fuel : nat) (rs : list Reaction) :
  (forall ev, In (ReactQueueEvent ev) rs -> unpacked ev) ->
  forall q q', Closed N q -> react env fuel rs q = Ok q' ->
    agreeBelow N q q' /\ Closed N q'.
Proof.
  induction rs as [|r rest IH]; intros Hu q q' HC H; cbn [react] in H.
  - inversion H; subst. split; [intros p _; reflexivity | exact HC].
  - assert (Hrest : forall ev, In (ReactQueueEvent ev) rest -> unpacked ev)
      by (intros ev Hev; apply Hu; right; exact Hev).
    destruct r as [ev|a|].
    + destruct (QueueEvent env fuel ev q) as [q1| |] eqn:E; cbn [bind] in H;
        try discriminate.
      apply (QueueEvent_framed env N) in E; [|apply Hu; left; reflexivity|exact HC].
      destruct E as (A1 & C1 & _).
      destruct (IH Hrest q1 q' C1 H) as (A2 & C2).
      split; [|exact C2]. intros p Hp. rewrite (A2 p Hp). apply A1. exact Hp.
    + apply (IH Hrest) in H; [exact H | exact HC].
    + apply (IH Hrest) in H; [exact H | exact HC].
Qed.

Lemma emit_framed (env : Env) (N fuel : nat) (e : Effect) (q q' : State) :
  wellBehaved env -> Closed N q -> emit env fuel e q = Ok q' ->
  agreeBelow N q q' /\ Closed N q'.
Proof.
  intros Hw HC H. unfold emit in H.
  apply (react_framed env N) in H; [exact H | intros ev Hev; eapply Hw; exact Hev|].
  exact HC.
Qed.

Lemma agreeBelow_trans (N : nat) (q1 q2 q3 : State) :
  agreeBelow N q1 q2 -> agreeBelow N q2 q3 -> agreeBelow N q1 q3.
Proof. intros H1 H2 p Hp. rewrite (H2 p Hp). apply H1. exact Hp. Qed.

Lemma agreeBelow_refl (N : nat) (q : State) : agreeBelow N q q.
Proof. intros p _. reflexivity. Qed.

Lemma fireSelectedState_framed (env : Env) (N fuel : nat) (event : EventPtr)
    (t : EventType) (q q' : State) :
  wellBehaved env -> Closed N q ->
  fireSelectedState env fuel event t q = Ok q' ->
  agreeBelow N q q' /\ Closed N q'.
Proof.
  intros Hw HC H. unfold fireSelectedState in H.
  destruct (type_eqb t EVENT_SELECTION_ADD); [eapply emit_framed; eassumption|].
  destruct (type_eqb t EVENT_SELECTION_REMOVE); [eapply emit_framed; eassumption|].
  destruct (type_eqb t EVENT_SELECTION);
    [|inversion H; subst; split; [apply agreeBelow_refl | exact HC]].
  destruct (asSelChange (heap q event)) as [s| |]; cbn [bind] in H; try discriminate.
  match type of H with
  | bind ?c _ = _ => destruct c as [q1| |] eqn:E1; cbn [bind] in H; try discriminate
  end.
  destruct (emit_framed env N _ _ _ _ Hw HC E1) as [A1 C1].
  destruct (asSelChange (heap q1 event)) as [s1| |]; cbn [bind] in H; try discriminate.
  destruct (mPackedEvent s1) as [packed|]; [|inversion H; subst; auto].
  destruct (asSelChange (heap q1 packed)) as [s2| |]; cbn [bind] in H; try discriminate.
  destruct (emit_framed env N _ _ _ _ Hw C1 H) as [A2 C2].
  split; [eapply agreeBelow_trans; eassumption | exact C2].
Qed.

(** What the drain loop hands over: events of the detached array whose rule
    is not do-not-emit, with the contents they had when the loop started. *)
Definition emittable (q : State) (events : list EventPtr) (e : Effect) : Prop :=
  match e with
  | ProcessTextSelChangeEvent p now | FireEvent p now =>
      In p events /\ now = heap q p /\ mEventRule (heap q p) <> eDoNotEmit
  | ProcessFocusEvent _ _ => False
  | _ => True
  end.

Lemma pushAbove_emittable (N : nat) (q : State) (events : list EventPtr)
    (d : list Effect) :
  Forall (pushAbove N) d -> Forall (emittable q events) d.
Proof.
  apply Forall_impl. intros e [H _]. destruct e; simpl in *; try discriminate; auto.
Qed.

Lemma emittable_agree (N : nat) (q q1 : State) (events : list EventPtr) (e : Effect) :
  agreeBelow N q q1 -> (forall p, In p events -> (p < N)%nat) ->
  emittable q1 events e -> emittable q events e.
Proof.
  intros Ha Hev. destruct e; simpl; auto;
    intros (Hin & Hnow & Hr); rewrite (Ha _ (Hev _ Hin)) in *; auto.
Qed.

Lemma emittable_cons (q : State) (x : EventPtr) (events : list EventPtr) (e : Effect) :
  emittable q events e -> emittable q (x :: events) e.
Proof. destruct e; simpl; tauto. Qed.

Lemma countIf_zero (f : Effect -> bool) (d : list Effect) :
  (countIf f d <= 0)%nat -> Forall (fun e => f e = false) d.
Proof.
  unfold countIf. induction d as [|e d IH]; intros H; [constructor|].
  simpl in H. destruct (f e) eqn:E; simpl in H; [lia|].
  constructor; [exact E | apply IH; exact H].
Qed.

Lemma not_delivery_emittable (q : State) (events : list EventPtr) (d : list Effect) :
  Forall (fun e => isDelivery e = false) d -> Forall (emittable q events) d.
Proof.
  apply Forall_impl. intros e H. destruct e; simpl in *; try discriminate; auto.
Qed.

(** The state reached during a drain loop over [events], all below [N]. *)
Definition draining (N : nat) (events : list EventPtr) (q q' : State) : Prop :=
  exists d, log q' = log q ++ d /\ Forall (emittable q events) d /\
    agreeBelow N q q' /\ Closed N q'.

Lemma draining_Closed (N : nat) (events : list EventPtr) (q q' : State) :
  draining N events q q' -> Closed N q'.
Proof. intros (d & _ & _ & _ & C). exact C. Qed.

Lemma draining_agree (N : nat) (events : list EventPtr) (q q' : State) :
  draining N events q q' -> agreeBelow N q q'.
Proof. intros (d & _ & _ & A & _). exact A. Qed.

Lemma draining_refl (N : nat) (events : list EventPtr) (q : State) :
  Closed N q -> draining N events q q.
Proof.
  intros H. exists []. rewrite app_nil_r.
  split; [reflexivity|]. split; [constructor|]. split; [apply agreeBelow_refl | exact H].
Qed.

Lemma draining_trans (N : nat) (events : list EventPtr) (q1 q2 q3 : State) :
  (forall p, In p events -> (p < N)%nat) ->
  draining N events q1 q2 -> draining N events q2 q3 -> draining N events q1 q3.
Proof.
  intros Hev (d1 & L1 & F1 & A1 & C1) (d2 & L2 & F2 & A2 & C2).
  exists (d1 ++ d2). split; [rewrite L2, L1, app_assoc; reflexivity|].
  split; [|split; [eapply agreeBelow_trans; eassumption | exact C2]].
  apply Forall_app. split; [exact F1|].
  eapply Forall_impl; [|exact F2]. intros e. apply (emittable_agree N); assumption.
Qed.

Lemma draining_cons (N : nat) (x : EventPtr) (events : list EventPtr) (q q' : State) :
  draining N events q q' -> draining N (x :: events) q q'.
Proof.
  intros (d & L & F & A & C). exists d. split; [exact L|].
  split; [|split; assumption].
  eapply Forall_impl; [|exact F]. intros e. apply emittable_cons.
Qed.

Lemma emit_draining (env : Env) (N fuel : nat) (events : list EventPtr) (e : Effect)
    (q q' : State) :
  wellBehaved env -> Closed N q -> isPushOutcome e = false ->
  emittable q events e ->
  emit env fuel e q = Ok q' -> draining N events q q'.
Proof.
  intros Hw HC Ho He H.
  destruct (emit_log env 0 fuel e q q' Ho (Nat.le_0_l _) H) as (d & L & F & _).
  destruct (emit_framed env N fuel e q q' Hw HC H) as [A C].
  exists (e :: d). split; [exact L|]. split; [|split; assumption].
  constructor; [exact He|]. eapply pushAbove_emittable. exact F.
Qed.

Lemma fireSelectedState_draining (env : Env) (N fuel : nat) (events : list EventPtr)
    (event : EventPtr) (t : EventType) (q q' : State) :
  wellBehaved env -> Closed N q ->
  fireSelectedState env fuel event t q = Ok q' -> draining N events q q'.
Proof.
  intros Hw HC H.
  destruct (fireSelectedState_delivers env fuel event t q q' H) as (d & L & Cn).
  destruct (fireSelectedState_framed env N fuel event t q q' Hw HC H) as [A C].
  exists d. split; [exact L|]. split; [|split; assumption].
  apply not_delivery_emittable. apply countIf_zero. exact Cn.
Qed.

Lemma processEvents_draining (env : Env) (N fuel : nat) :
  wellBehaved env ->
  forall events ids q r q',
    Closed N q -> (forall p, In p events -> (p < N)%nat) ->
    processEvents env fuel events ids q = Ok (r, q') ->
    draining N events q q'.
Proof.
  intros Hw. induction events as [|event rest IH]; intros ids q r q' HC Hev H;
    cbn [processEvents] in H.
  - inversion H; subst. apply draining_refl. exact HC.
  - assert (Hrest : forall p, In p rest -> (p < N)%nat)
      by (intros p Hp; apply Hev; right; exact Hp).
    assert (Hall : forall p, In p (event :: rest) -> (p < N)%nat) by exact Hev.
    assert (Hskip : forall ids0, processEvents env fuel rest ids0 q = Ok (r, q') ->
                                 draining N (event :: rest) q q').
    { intros ids0 H0. apply draining_cons. eapply IH; eassumption. }
    destruct (mAccessible (heap q event)) as [target|]; [|eapply Hskip; exact H].
    destruct (defunct q target); [eapply Hskip; exact H|].
    destruct (collectSelChange env event (mEventType (heap q event)) ids q)
      as [ids'| |]; cbn [bind] in H; try discriminate.
    destruct (rule_eqb (mEventRule (heap q event)) eDoNotEmit) eqn:Er;
      [eapply Hskip; exact H|].
    apply rule_eqb_false in Er.
    assert (Hem : forall now, now = heap q event ->
              emittable q (event :: rest) (FireEvent event now) /\
              emittable q (event :: rest) (ProcessTextSelChangeEvent event now)).
    { intros now ->. simpl. auto. }
    destruct (type_eqb (mEventType (heap q event)) EVENT_TEXT_SELECTION_CHANGED).
    { match type of H with
      | bind ?c _ = _ => destruct c as [q1| |] eqn:E1; cbn [bind] in H;
                           try discriminate
      end.
      apply (emit_draining env N fuel (event :: rest)) in E1; auto;
        [|apply Hem; reflexivity].
      eapply draining_trans; [exact Hall | exact E1 |].
      apply draining_cons. eapply IH; try exact H; auto.
      eapply draining_Closed; exact E1. }
    match type of H with
    | bind ?c _ = _ => destruct c as [q1| |] eqn:E1; cbn [bind] in H; try discriminate
    end.
    apply (fireSelectedState_draining env N fuel (event :: rest)) in E1; auto.
    match type of H with
    | bind ?c _ = _ => destruct c as [q2| |] eqn:E2; cbn [bind] in H; try discriminate
    end.
    assert (HC1 : Closed N q1) by (eapply draining_Closed; exact E1).
    assert (Hh1 : heap q1 event = heap q event).
    { apply (draining_agree _ _ _ _ E1). apply Hev. left. reflexivity. }
    apply (emit_draining env N fuel (event :: rest)) in E2; auto.
    2:{ simpl. rewrite Hh1. auto. }
    assert (H12 : draining N (event :: rest) q q2)
      by (eapply draining_trans; eassumption).
    destruct (negb (mDocument q2)); [inversion H; subst; exact H12|].
    match type of H with
    | bind ?c _ = _ => destruct c as [q3| |] eqn:E3; cbn [bind] in H; try discriminate
    end.
    assert (HC2 : Closed N q2) by (eapply draining_Closed; exact E2).
    assert (H3 : draining N (event :: rest) q2 q3).
    { destruct (isMutationKind (mEventType (heap q event)) && IPCDoc env);
        [|inversion E3; subst; apply draining_refl; exact HC2].
      apply (emit_draining env N fuel (event :: rest)) in E3; auto. exact I. }
    eapply draining_trans; [exact Hall | exact H12 |].
    eapply draining_trans; [exact Hall | exact H3 |].
    apply draining_cons. eapply IH; try exact H; auto.
    eapply draining_Closed; exact H3.
Qed.

(** After the focus event, a drain hands over only events of the detached
    array whose rule was not do-not-emit when the drain started. *)
Lemma ProcessEventQueue_emittable (env : Env) (fuel : nat) (q q' : State) :
  wellBehaved env ->
  (forall p, In p (mEvents q) -> (p < nextPtr q)%nat) ->
  ProcessEventQueue env fuel q = Ok q' ->
  exists d, log q' = log q ++ focusDelivery q ++ d /\
    Forall (emittable q (mEvents q)) d.
Proof.
  intros Hw Hq H. unfold ProcessEventQueue in H.
  set (N := nextPtr q) in *.
  assert (HC0 : forall f, Closed N (withFocusEvent f (withEvents [] q))).
  { intros f. split; [apply Nat.le_refl|]. split.
    - intros p [].
    - intros p [H1 H2]. cbn in H2. unfold N in H1. lia. }
  match type of H with
  | bind ?c _ = _ => destruct c as [q1| |] eqn:E1; cbn [bind] in H; try discriminate
  end.
  assert (H1 : exists d1, log q1 = log q ++ focusDelivery q ++ d1 /\
             Forall (emittable q (mEvents q)) d1 /\
             agreeBelow N q q1 /\ Closed N q1).
  { unfold focusDelivery. cbn [mFocusEvent withEvents] in E1.
    destruct (mFocusEvent q) as [event|] eqn:Ef.
    - cbn [heap withFocusEvent withEvents defunct] in E1.
      destruct (mAccessible (heap q event)) as [target|]; [|discriminate].
      destruct (defunct q target); cbn [negb] in E1.
      + inversion E1; subst. exists []. cbn [app]. rewrite app_nil_r.
        split; [reflexivity|]. split; [constructor|].
        split; [intros p _; reflexivity | apply (HC0 None)].
      + destruct (emit_log env 0 fuel (ProcessFocusEvent event (heap q event))
                    _ _ eq_refl (Nat.le_0_l _) E1) as (d & L & F & _).
        destruct (emit_framed env N fuel _ _ _ Hw (HC0 None) E1) as [A C].
        exists d. split; [exact L|]. split; [|split; assumption].
        eapply pushAbove_emittable. exact F.
    - inversion E1; subst. exists []. cbn [app]. rewrite app_nil_r.
      split; [reflexivity|]. split; [constructor|].
      split; [intros p _; reflexivity | apply (HC0 (mFocusEvent q))]. }
  destruct H1 as (d1 & L1 & F1 & A1 & C1).
  match type of H with
  | bind ?c _ = _ => destruct c as [[ids q2]| |] eqn:E2; cbn [bind] in H;
                       try discriminate
  end.
  apply (processEvents_draining env N fuel Hw) in E2; [|exact C1|exact Hq].
  destruct E2 as (d2 & L2 & F2 & A2 & C2).
  assert (H3 : exists d3, log q' = log q2 ++ d3 /\ Forall (emittable q (mEvents q)) d3).
  { assert (Hid : exists d3, log q2 = log q2 ++ d3 /\
                    Forall (emittable q (mEvents q)) d3)
      by (exists []; rewrite app_nil_r; auto).
    destruct ids as [[selectedIDs unselectedIDs]|]; [|inversion H; subst; exact Hid].
    match type of H with
    | (if ?c then _ else _) = _ => destruct c
    end; [|inversion H; subst; exact Hid].
    destruct (IPCDoc env); [|discriminate].
    destruct (emit_log env 0 fuel
                (SendSelectedAccessiblesChanged selectedIDs unselectedIDs)
                _ _ eq_refl (Nat.le_0_l _) H) as (d & L & F & _).
    exists (SendSelectedAccessiblesChanged selectedIDs unselectedIDs :: d).
    split; [exact L|]. constructor; [exact I|].
    eapply pushAbove_emittable. exact F. }
  destruct H3 as (d3 & L3 & F3).
  exists (d1 ++ d2 ++ d3). split.
  - rewrite L3, L2, L1. rewrite <- !app_assoc. reflexivity.
  - repeat (apply Forall_app; split); try assumption.
    eapply Forall_impl; [|exact F2]. intros e.
    apply (emittable_agree N); assumption.
Qed.

(** ** Pushing an event that is appended *)

Lemma PushEvent_appends (env : Env) (fuel : nat) (aEvent : EventPtr) (q : State) :
  mEventType (heap q aEvent) <> EVENT_FOCUS ->
  mEventRule (heap q aEvent) <> eRemoveDupes ->
  PushEvent env (S fuel) aEvent q
  = (q1 <- CoalesceEvents (S fuel)
             (record (PushAppended aEvent) (withEvents (mEvents q ++ [aEvent]) q)) ;;
     if startsPropagation (mEventType (heap q1 aEvent))
     then '(_, q2) <- PushNameOrDescriptionChange env (PushEvent env fuel) fuel
                        aEvent q1 ;; Ok (true, q2)
     else Ok (true, q1)).
Proof.
  intros Hf Hr. cbn [PushEvent].
  apply type_eqb_false in Hf. rewrite Hf.
  apply rule_eqb_false in Hr. rewrite Hr. reflexivity.
Qed.

(** Read the heap of a state built by allocations and writes. *)
Ltac heap_simpl :=
  unfold allocated, modify, record, withEvents, withFocusEvent, withHeap in *;
  cbn [heap nextPtr mEvents mFocusEvent mDocument defunct log] in *.

Ltac heap_eq :=
  heap_simpl;
  repeat match goal with
  | |- context [Nat.eqb ?a ?b] => destruct (Nat.eqb_spec a b); try lia
  end;
  try reflexivity; try congruence.

Lemma heap_modify_same (x : EventPtr) (f : AccEvent -> AccEvent) (s : State) :
  heap (modify x f s) x = f (heap s x).
Proof. unfold modify. cbn. rewrite Nat.eqb_refl. reflexivity. Qed.

Lemma heap_modify_other (x p : EventPtr) (f : AccEvent -> AccEvent) (s : State) :
  p <> x -> heap (modify x f s) p = heap s p.
Proof.
  intros H. unfold modify. cbn. destruct (Nat.eqb_spec p x); [contradiction|reflexivity].
Qed.

(** ** The state-change scan *)

(** [p] is left alone by the scan for tail [t]: it is suppressed, of another
    kind or target, or about another state bit. *)
Definition stateChangeMiss (s : State) (t p : EventPtr) : Prop :=
  negb (rule_eqb (mEventRule (heap s p)) eDoNotEmit)
  && type_eqb (mEventType (heap s p)) (mEventType (heap s t))
  && acc_eqb (mAccessible (heap s p)) (mAccessible (heap s t)) = false
  \/ exists st1 e1 st2 e2,
       payload (heap s p) = StateChangeEvent st1 e1 /\
       payload (heap s t) = StateChangeEvent st2 e2 /\ st1 <> st2.

Lemma coalesceStateChange_miss (s : State) (t p : EventPtr) (i : Z) :
  ElementAt (mEvents s) i = Ok p -> stateChangeMiss s t p ->
  coalesceStateChange t i s = Ok (Continue s).
Proof.
  intros E H. unfold coalesceStateChange. rewrite E. cbn [bind].
  destruct H as [H|(st1 & e1 & st2 & e2 & Hp & Ht & Hne)].
  - rewrite H. reflexivity.
  - match goal with |- (if ?c then _ else _) = _ => destruct c end; [|reflexivity].
    unfold asStateChange. rewrite Hp, Ht. cbn [bind fst snd].
    destruct (Z.eqb_spec st1 st2); [contradiction | reflexivity].
Qed.

Lemma scanDown_stateChange_miss (s : State) (t : EventPtr) :
  forall n, (n <= length (mEvents s))%nat ->
    (forall j p, (j < n)%nat -> nth_error (mEvents s) j = Some p ->
       stateChangeMiss s t p) ->
    scanDown (coalesceStateChange t) n s = Ok (Continue s).
Proof.
  induction n as [|m IH]; intros Hn Hmiss; [reflexivity|].
  cbn [scanDown].
  destruct (ElementAt_in_bounds (mEvents s) m ltac:(lia)) as (p & E & Hnth).
  rewrite (coalesceStateChange_miss s t p _ E) by (apply (Hmiss m); [lia | exact Hnth]).
  cbn [bind]. apply IH; [lia|]. intros j p0 Hj. apply Hmiss. lia.
Qed.

Lemma coalesceStateChange_cancel (s : State) (t p : EventPtr) (i : Z)
    (st : Z) (en : bool) :
  ElementAt (mEvents s) i = Ok p ->
  mEventRule (heap s p) <> eDoNotEmit ->
  mEventType (heap s p) = mEventType (heap s t) ->
  mAccessible (heap s p) = mAccessible (heap s t) ->
  payload (heap s p) = StateChangeEvent st en ->
  payload (heap s t) = StateChangeEvent st (negb en) ->
  coalesceStateChange t i s
  = Ok (Continue (modify t (withRule eDoNotEmit) (modify p (withRule eDoNotEmit) s))).
Proof.
  intros E Hr Hty Hacc Hp Ht. unfold coalesceStateChange. rewrite E. cbn [bind].
  apply rule_eqb_false in Hr. rewrite Hr, Hty, Hacc, type_eqb_refl.
  assert (Ha : forall x, acc_eqb x x = true)
    by (intros [x|]; simpl; [apply Nat.eqb_refl | reflexivity]).
  rewrite Ha. cbn [negb andb].
  unfold asStateChange. rewrite Hp, Ht. cbn [bind fst snd].
  rewrite Z.eqb_refl. destruct en; reflexivity.
Qed.

Lemma CoalesceEvents_stateChange (fuel : nat) (q : State) (l : list EventPtr)
    (tailEvent : EventPtr) :
  mEvents q = l ++ [tailEvent] -> Length l + 1 < 2 ^ 32 -> (length l <= fuel)%nat ->
  mEventRule (heap q tailEvent) = eCoalesceStateChange ->
  CoalesceEvents fuel q
  = (r <- scanDown (coalesceStateChange tailEvent) (length l) q ;; Ok (leave r)).
Proof.
  intros Hm Hlen Hfuel Hr. unfold CoalesceEvents.
  assert (Hl : Length (mEvents q) < 2 ^ 32) by (rewrite Hm, Length_app; lia).
  assert (Hn : (length (mEvents q) - 1 = length l)%nat)
    by (rewrite Hm, length_app; simpl; lia).
  assert (He : ElementAt (mEvents q) (u32 (Length (mEvents q) - 1)) = Ok tailEvent)
    by (rewrite Hm; apply ElementAt_last; lia).
  cbv zeta. rewrite He. cbn [bind]. rewrite Hr.
  rewrite scan_below_tail; [|rewrite Hm; destruct l; discriminate|exact Hl|lia].
  rewrite Hn. reflexivity.
Qed.

(** No pending state-change event for target [a] and state bit [st] is
    queued in [l]. *)
Definition noPendingStateChange (q : State) (l : list EventPtr) (a : Acc) (st : Z) : Prop :=
  forall p, In p l ->
    mEventRule (heap q p) <> eDoNotEmit ->
    mEventType (heap q p) = EVENT_STATE_CHANGE ->
    mAccessible (heap q p) = Some a ->
    exists st' en', payload (heap q p) = StateChangeEvent st' en' /\ st' <> st.

Lemma stateChange_scan_misses (q s : State) (l rest : list EventPtr)
    (t : EventPtr) (a : Acc) (st : Z) (en : bool) :
  noPendingStateChange q l a st ->
  (forall p, In p l -> heap s p = heap q p) ->
  mEvents s = l ++ rest ->
  mEventType (heap s t) = EVENT_STATE_CHANGE ->
  mAccessible (heap s t) = Some a ->
  payload (heap s t) = StateChangeEvent st en ->
  scanDown (coalesceStateChange t) (length l) s = Ok (Continue s).
Proof.
  intros H0 Hh Hm Hty Hacc Hpl.
  apply scanDown_stateChange_miss.
  - rewrite Hm, length_app. lia.
  - intros j p Hj Hnth. rewrite Hm, nth_error_app1 in Hnth by exact Hj.
    assert (Hin : In p l) by (eapply nth_error_In; exact Hnth).
    unfold stateChangeMiss. rewrite (Hh p Hin), Hty, Hacc, Hpl.
    destruct (rule_eqb (mEventRule (heap q p)) eDoNotEmit) eqn:Er; [left; reflexivity|].
    destruct (type_eqb (mEventType (heap q p)) EVENT_STATE_CHANGE) eqn:Et;
      [|left; reflexivity].
    destruct (acc_eqb (mAccessible (heap q p)) (Some a)) eqn:Ea; [|left; reflexivity].
    right. apply rule_eqb_false in Er. apply type_eqb_true in Et.
    assert (Hpa : mAccessible (heap q p) = Some a).
    { destruct (mAccessible (heap q p)) as [x|]; simpl in Ea; [|discriminate].
      apply Nat.eqb_eq in Ea. congruence. }
    destruct (H0 p Hin Er Et Hpa) as (st' & en' & Hp & Hne).
    exists st', en', st, en. auto.
Qed.

(** An [AccStateChangeEvent] for target [a], state bit [st] and flag [en]. *)
Definition isStateChangeOf (ev : AccEvent) (a : Acc) (st : Z) (en : bool) : Prop :=
  mEventType ev = EVENT_STATE_CHANGE /\
  mEventRule ev = eCoalesceStateChange /\
  mAccessible ev = Some a /\
  payload ev = StateChangeEvent st en.

Lemma QueueEvent_stateChange_alone (env : Env) (fuel : nat) (q : State)
    (ev : AccEvent) (a : Acc) (st : Z) (en : bool) :
  isStateChangeOf ev a st en ->
  noPendingStateChange q (mEvents q) a st ->
  (forall p, In p (mEvents q) -> (p < nextPtr q)%nat) ->
  Length (mEvents q) + 1 < 2 ^ 32 -> (length (mEvents q) <= fuel)%nat ->
  QueueEvent env (S fuel) ev q
  = Ok (record (PushAppended (nextPtr q))
          (withEvents (mEvents q ++ [nextPtr q]) (allocated ev q))).
Proof.
  intros (Hty & Hr & Hacc & Hpl) H0 Hq Hlen Hfuel.
  unfold QueueEvent, alloc.
  rewrite PushEvent_appends
    by (rewrite heap_allocated; congruence).
  set (qb := record (PushAppended (nextPtr q))
               (withEvents (mEvents (allocated ev q) ++ [nextPtr q]) (allocated ev q))).
  assert (Hhb : heap qb (nextPtr q) = ev) by (unfold qb; heap_eq).
  assert (Hc : CoalesceEvents (S fuel) qb = Ok qb).
  { rewrite (CoalesceEvents_stateChange (S fuel) qb (mEvents q) (nextPtr q));
      [|reflexivity|exact Hlen|lia|rewrite Hhb; exact Hr].
    rewrite (stateChange_scan_misses q qb (mEvents q) [nextPtr q] (nextPtr q) a st en);
      try rewrite Hhb; auto.
    intros p Hp. specialize (Hq p Hp). unfold qb. heap_eq. }
  rewrite Hc. cbn [bind]. rewrite Hhb, Hty. reflexivity.
Qed.

(** Two state-change events with the same kind, target and state bit but
    opposite enabled flags, pushed one right after the other into a queue
    that holds no pending state-change event for that target and state bit,
    cancel: both pushes return, both events are retagged do-not-emit by
    coalescing, and a drain that follows delivers neither of them. *)
Lemma adjacent_opposite_state_changes_cancel (env : Env) (fuel : nat) (q : State)
    (ev1 ev2 : AccEvent) (a : Acc) (st : Z) (en : bool) :
  isStateChangeOf ev1 a st en ->
  isStateChangeOf ev2 a st (negb en) ->
  noPendingStateChange q (mEvents q) a st ->
  (forall p, In p (mEvents q) -> (p < nextPtr q)%nat) ->
  (forall p, mFocusEvent q = Some p -> (p < nextPtr q)%nat) ->
  Length (mEvents q) + 2 < 2 ^ 32 -> (length (mEvents q) + 1 <= fuel)%nat ->
  let p1 := nextPtr q in
  let p2 := S (nextPtr q) in
  exists q',
    QueueEvents env (S fuel) [ev1; ev2] q = Ok q' /\
    mEvents q' = mEvents q ++ [p1; p2] /\
    mEventRule (heap q' p1) = eDoNotEmit /\
    mEventRule (heap q' p2) = eDoNotEmit /\
    forall fuel' q'' d,
      wellBehaved env ->
      ProcessEventQueue env fuel' q' = Ok q'' -> log q'' = log q' ++ d ->
      forall e, In e d -> isDelivery e = true ->
        effectPtr e <> Some p1 /\ effectPtr e <> Some p2.
Proof.
  intros H1 H2 H0 Hq Hf Hlen Hfuel p1 p2.
  pose proof H1 as (Hty1 & Hr1 & Hacc1 & Hpl1).
  pose proof H2 as (Hty2 & Hr2 & Hacc2 & Hpl2).
  cbn [QueueEvents].
  rewrite (QueueEvent_stateChange_alone env fuel q ev1 a st en) by (auto; lia).
  cbn [bind].
  set (q1 := record (PushAppended (nextPtr q))
               (withEvents (mEvents q ++ [nextPtr q]) (allocated ev1 q))).
  unfold QueueEvent, alloc.
  rewrite PushEvent_appends by (rewrite heap_allocated; congruence).
  set (qd := record (PushAppended (nextPtr q1))
               (withEvents (mEvents (allocated ev2 q1) ++ [nextPtr q1])
                  (allocated ev2 q1))).
  assert (Hn1 : nextPtr q1 = p2) by reflexivity.
  assert (Hmd : mEvents qd = (mEvents q ++ [p1]) ++ [p2]) by reflexivity.
  assert (Hh1 : heap qd p1 = ev1) by (unfold qd, q1, p1; heap_eq).
  assert (Hh2 : heap qd p2 = ev2) by (unfold qd, q1, p2; heap_eq).
  assert (Hhl : forall p, In p (mEvents q) -> heap qd p = heap q p).
  { intros p Hp. specialize (Hq p Hp). unfold qd, q1. heap_eq. }
  set (s1 := modify p2 (withRule eDoNotEmit) (modify p1 (withRule eDoNotEmit) qd)).
  assert (Hne : p1 <> p2) by (unfold p1, p2; lia).
  assert (Hs2 : heap s1 p2 = withRule eDoNotEmit ev2).
  { unfold s1. rewrite heap_modify_same, heap_modify_other by congruence.
    rewrite Hh2. reflexivity. }
  assert (Hs1 : heap s1 p1 = withRule eDoNotEmit ev1).
  { unfold s1. rewrite heap_modify_other, heap_modify_same by congruence.
    rewrite Hh1. reflexivity. }
  assert (Hc : CoalesceEvents (S fuel) qd = Ok s1).
  { rewrite (CoalesceEvents_stateChange (S fuel) qd (mEvents q ++ [p1]) p2);
      [|exact Hmd|rewrite Length_app; lia|rewrite length_app; simpl; lia
       |rewrite Hh2; exact Hr2].
    rewrite length_app, Nat.add_comm. cbn [length plus scanDown].
    assert (He : ElementAt (mEvents qd) (Z.of_nat (length (mEvents q))) = Ok p1).
    { apply ElementAt_nth. rewrite Hmd, <- app_assoc.
      rewrite nth_error_app2 by lia. rewrite Nat.sub_diag. reflexivity. }
    rewrite (coalesceStateChange_cancel qd p2 p1 _ st en He);
      rewrite ?Hh1, ?Hh2; try congruence.
    cbn [bind]. fold s1.
    rewrite (stateChange_scan_misses q s1 (mEvents q) [p1; p2] p2 a st (negb en));
      rewrite ?Hs2; auto.
    - intros p Hp. specialize (Hq p Hp). rewrite <- (Hhl p Hp).
      unfold s1. rewrite !heap_modify_other; [reflexivity | unfold p1 | unfold p2]; lia.
    - rewrite <- app_assoc in Hmd. exact Hmd. }
  rewrite Hc. cbn [bind].
  rewrite Hn1, Hs2. cbn [withRule mEventType]. rewrite Hty2. cbn [startsPropagation].
  replace (type_eqb EVENT_STATE_CHANGE EVENT_NAME_CHANGE
           || type_eqb EVENT_STATE_CHANGE EVENT_TEXT_REMOVED
           || type_eqb EVENT_STATE_CHANGE EVENT_TEXT_INSERTED) with false by reflexivity.
  cbn [bind].
  exists s1. split; [reflexivity|].
  split; [rewrite <- app_assoc in Hmd; exact Hmd|].
  split; [rewrite Hs1; reflexivity|].
  split; [rewrite Hs2; reflexivity|].
  intros fuel' q'' d Hw Hdrain Hlog e He Hdel.
  assert (Hqs : forall p, In p (mEvents s1) -> (p < nextPtr s1)%nat).
  { intros p Hp. change (mEvents s1) with ((mEvents q ++ [p1]) ++ [p2]) in Hp.
    change (nextPtr s1) with (S (S (nextPtr q))).
    apply in_app_or in Hp. destruct Hp as [Hp|[<-|[]]]; [|unfold p2; lia].
    apply in_app_or in Hp. destruct Hp as [Hp|[<-|[]]]; [|unfold p1; lia].
    specialize (Hq p Hp). lia. }
  destruct (ProcessEventQueue_emittable env fuel' s1 q'' Hw Hqs Hdrain)
    as (d' & L & F).
  rewrite Hlog in L. apply app_inv_head in L. subst d.
  apply in_app_or in He. destruct He as [He|He].
  - unfold focusDelivery in He.
    change (mFocusEvent s1) with (mFocusEvent q) in He.
    destruct (mFocusEvent q) as [pf|] eqn:Ef; [|destruct He].
    specialize (Hf pf eq_refl).
    destruct (mAccessible (heap s1 pf)); [|destruct He].
    destruct (defunct s1 a0); [destruct He|].
    destruct He as [<-|[]]. cbn [effectPtr].
    unfold p1, p2. split; intros [= E]; lia.
  - rewrite Forall_forall in F. specialize (F e He).
    destruct e; cbn [isDelivery] in Hdel; try discriminate;
      cbn [emittable] in F; try contradiction;
      destruct F as (_ & _ & Hnr); cbn [effectPtr];
      split; intros [= ->]; apply Hnr; [rewrite Hs1|rewrite Hs2|rewrite Hs1|rewrite Hs2];
      reflexivity.
Qed.

(** ** Merging a remove and an add *)

(** An [AccSelChangeEvent] as its constructor makes it, of kind [kind]. *)
Definition isSelChangeOf (ev : AccEvent) (widget item : Acc) (t : SelChangeType)
    (kind : EventType) : Prop :=
  mEventType ev = kind /\
  mEventRule ev = eCoalesceSelectionChange /\
  mAccessible ev = Some item /\
  payload ev = SelChangeEvent {| mWidget := widget; mItem := item;
                                 mSelChangeType := t; mPreceedingCount := 0;
                                 mPackedEvent := None |}.

(** No selection-change event for [widget] is queued in [l]. *)
Definition noSelectionFor (q : State) (l : list EventPtr) (widget : Acc) : Prop :=
  forall p, In p l -> mEventRule (heap q p) = eCoalesceSelectionChange ->
    exists s, payload (heap q p) = SelChangeEvent s /\ mWidget s <> widget.

Lemma asSelChange_payload (e : AccEvent) (s : SelChange) :
  payload e = SelChangeEvent s -> asSelChange e = Ok s.
Proof. intros H. unfold asSelChange. rewrite H. reflexivity. Qed.

Lemma payload_onSelChange (f : SelChange -> SelChange) (e : AccEvent) (s : SelChange) :
  payload e = SelChangeEvent s -> payload (onSelChange f e) = SelChangeEvent (f s).
Proof. intros H. unfold onSelChange. rewrite H. reflexivity. Qed.

Lemma noSelectionFor_scan (q s : State) (l : list EventPtr) (t : EventPtr)
    (widget : Acc) (sT : SelChange) :
  noSelectionFor q l widget ->
  (forall p, In p l -> heap s p = heap q p) ->
  mEventRule (heap s t) = eCoalesceSelectionChange ->
  payload (heap s t) = SelChangeEvent sT -> mWidget sT = widget ->
  selectionTyped s t l /\
  forall p, In p l -> sameControl s t p = false.
Proof.
  intros H0 Hh Hr Hp Hw. split.
  - split; [exists sT; exact Hp|].
    intros p Hin Hrp. rewrite (Hh p Hin) in *. rewrite Hr in Hrp.
    destruct (H0 p Hin Hrp) as (sp & Hsp & _). exists sp. exact Hsp.
  - intros p Hin. unfold sameControl. rewrite (Hh p Hin), Hr, Hp.
    destruct (rule_eqb (mEventRule (heap q p)) eCoalesceSelectionChange) eqn:Er;
      [|reflexivity].
    apply rule_eqb_true in Er. destruct (H0 p Hin Er) as (sp & Hsp & Hne).
    rewrite Hsp. cbn [andb]. apply Nat.eqb_neq. congruence.
Qed.

Lemma QueueEvent_selection_alone (env : Env) (fuel : nat) (q : State)
    (ev : AccEvent) (widget item : Acc) (t : SelChangeType) (kind : EventType) :
  isSelChangeOf ev widget item t kind ->
  kind = EVENT_SELECTION_ADD \/ kind = EVENT_SELECTION_REMOVE \/ kind = EVENT_SELECTION ->
  noSelectionFor q (mEvents q) widget ->
  (forall p, In p (mEvents q) -> (p < nextPtr q)%nat) ->
  Length (mEvents q) + 1 < 2 ^ 32 -> (length (mEvents q) <= fuel)%nat ->
  QueueEvent env (S fuel) ev q
  = Ok (record (PushAppended (nextPtr q))
          (withEvents (mEvents q ++ [nextPtr q]) (allocated ev q))).
Proof.
  intros (Hty & Hr & Hacc & Hpl) Hk H0 Hq Hlen Hfuel.
  unfold QueueEvent, alloc.
  rewrite PushEvent_appends
    by (rewrite heap_allocated; try congruence;
        rewrite Hty; destruct Hk as [->|[->| ->]]; discriminate).
  set (qb := record (PushAppended (nextPtr q))
               (withEvents (mEvents (allocated ev q) ++ [nextPtr q]) (allocated ev q))).
  assert (Hhb : heap qb (nextPtr q) = ev) by (unfold qb; heap_eq).
  assert (Hc : CoalesceEvents (S fuel) qb = Ok qb).
  { rewrite (CoalesceEvents_selection (S fuel) qb (mEvents q) (nextPtr q));
      [|reflexivity|exact Hlen|lia|rewrite Hhb; exact Hr].
    assert (Hhl : forall p, In p (mEvents q) -> heap qb p = heap q p).
    { intros p Hp. specialize (Hq p Hp). unfold qb. heap_eq. }
    rewrite <- Hhb in Hr, Hpl.
    destruct (noSelectionFor_scan q qb (mEvents q) (nextPtr q) widget _
                H0 Hhl Hr Hpl eq_refl) as [Hty' Hnone].
    rewrite (scanDown_selection_none (S fuel) qb (nextPtr q) (mEvents q));
      [reflexivity|reflexivity|exact Hty'|lia|].
    intros j p _ Hnth. apply Hnone. eapply nth_error_In. exact Hnth. }
  rewrite Hc. cbn [bind]. rewrite Hhb, Hty.
  destruct Hk as [->|[->| ->]]; reflexivity.
Qed.

Lemma merged_fields (ev : AccEvent) (s : SelChange) (pk : option EventPtr)
    (t : EventType) (n : Z) :
  payload ev = SelChangeEvent s ->
  let e' := onSelChange (withPackedEvent pk)
              (withType t (onSelChange (withPreceedingCount n) ev)) in
  mEventType e' = t /\ mEventRule e' = mEventRule ev /\
  mAccessible e' = mAccessible ev /\
  mIsFromUserInput e' = mIsFromUserInput ev /\
  payload e' = SelChangeEvent (withPackedEvent pk (withPreceedingCount n s)).
Proof.
  destruct ev as [ty ru ac us pl]. cbn. intros ->. cbn. auto.
Qed.

(** The merge step of [CoalesceSelChangeEvents]: an add arriving after the
    first remove, for another item. *)
Lemma CoalesceSelChangeEvents_add_after_remove (fuel : nat) (t p : EventPtr)
    (i : Z) (s : State) (sT sP : SelChange) :
  t <> p ->
  payload (heap s t) = SelChangeEvent sT -> payload (heap s p) = SelChangeEvent sP ->
  mPreceedingCount sP = 0 -> mItem sT <> mItem sP ->
  mSelChangeType sT = eSelectionAdd -> mSelChangeType sP = eSelectionRemove ->
  CoalesceSelChangeEvents fuel t p i s
  = Ok (modify t (onSelChange (withPackedEvent (Some p)))
          (modify t (withType EVENT_SELECTION)
             (modify p (withRule eDoNotEmit)
                (modify t (onSelChange (withPreceedingCount 1)) s)))).
Proof.
  intros Hne Ht Hp Hc Hi HtA HpR. unfold CoalesceSelChangeEvents.
  rewrite (asSelChange_payload _ _ Hp). cbn [bind]. rewrite Hc.
  change (u32 (0 + 1)) with 1.
  rewrite (asSelChange_payload (heap (modify t _ s) t) (withPreceedingCount 1 sT))
    by (rewrite heap_modify_same; apply payload_onSelChange; exact Ht).
  cbn [bind withPreceedingCount mPreceedingCount mItem mSelChangeType].
  change (kSelChangeCountToPack <=? 1) with false. cbn iota.
  rewrite (asSelChange_payload (heap (modify t _ s) p) sP)
    by (rewrite heap_modify_other by congruence; exact Hp).
  cbn [bind]. change (1 =? 1) with true.
  replace (Nat.eqb (mItem sT) (mItem sP)) with false
    by (symmetry; apply Nat.eqb_neq; exact Hi).
  rewrite HtA, HpR. reflexivity.
Qed.

(** ** Draining suppressed and selection events *)

Lemma collectSelChange_total (env : Env) (event : EventPtr) (t : EventType)
    (ids : list Z * list Z) (q : State) (s : SelChange) :
  payload (heap q event) = SelChangeEvent s ->
  exists ids', collectSelChange env event t ids q = Ok ids'.
Proof.
  intros H. unfold collectSelChange. rewrite (asSelChange_payload _ _ H). cbn [bind].
  repeat match goal with
  | |- context [if ?c then _ else _] => destruct c
  end; eauto.
Qed.

Lemma collectSelChange_emitted (env : Env) (event : EventPtr) (t : EventType)
    (ids : list Z * list Z) (q : State) :
  mEventRule (heap q event) <> eDoNotEmit -> t <> EVENT_SELECTION_WITHIN ->
  collectSelChange env event t ids q = Ok ids.
Proof.
  intros Hr Ht. unfold collectSelChange.
  apply rule_eqb_false in Hr. apply type_eqb_false in Ht. rewrite Hr, Ht.
  destruct (IPCAccessibilityActive env); reflexivity.
Qed.



(** With listeners that do nothing, a notification only extends the log. *)
Lemma emit_quiet (env : Env) (fuel : nat) (e : Effect) (q : State) :
  (forall e, listener env e = []) -> emit env fuel e q = Ok (record e q).
Proof. intros H. unfold emit. rewrite H. reflexivity. Qed.

(** The end of a drain, after the loop. *)
Definition reportSelection (env : Env) (fuel : nat)
    (ids : option (list Z * list Z)) (q : State) : Result State :=
  match ids with
  | Some (selectedIDs, unselectedIDs) =>
      if mDocument q && IPCAccessibilityActive env
         && (negb (IsEmpty selectedIDs) || negb (IsEmpty unselectedIDs)) then
        if IPCDoc env
        then emit env fuel (SendSelectedAccessiblesChanged selectedIDs unselectedIDs) q
        else Crash NullDeref
      else Ok q
  | None => Ok q
  end.

Lemma ProcessEventQueue_no_focus (env : Env) (fuel : nat) (q : State) :
  mFocusEvent q = None ->
  ProcessEventQueue env fuel q
  = ('(ids, q1) <- processEvents env fuel (mEvents q) ([], []) (withEvents [] q) ;;
     reportSelection env fuel ids q1).
Proof.
  intros H. unfold ProcessEventQueue, reportSelection.
  cbn [mFocusEvent withEvents]. rewrite H. reflexivity.
Qed.

Lemma reportSelection_log (env : Env) (fuel : nat) (ids : option (list Z * list Z))
    (q q' : State) :
  reportSelection env fuel ids q = Ok q' ->
  exists d, log q' = log q ++ d /\
    Forall (fun e => isDelivery e = false /\
                     forall a st en u, e <> FireStateChange a st en u) d.
Proof.
  intros H. unfold reportSelection in H.
  assert (Hid : exists d, log q = log q ++ d /\
            Forall (fun e => isDelivery e = false /\
                             forall a st en u, e <> FireStateChange a st en u) d)
    by (exists []; rewrite app_nil_r; auto).
  destruct ids as [[selectedIDs unselectedIDs]|]; [|inversion H; subst; exact Hid].
  match type of H with
  | (if ?c then _ else _) = _ => destruct c
  end; [|inversion H; subst; exact Hid].
  destruct (IPCDoc env); [|discriminate].
  destruct (emit_log env 0 fuel
              (SendSelectedAccessiblesChanged selectedIDs unselectedIDs)
              _ _ eq_refl (Nat.le_0_l _) H) as (d & L & F & _).
  exists (SendSelectedAccessiblesChanged selectedIDs unselectedIDs :: d).
  split; [exact L|]. constructor; [split; [reflexivity | discriminate]|].
  eapply Forall_impl; [|exact F]. intros e [Ho _].
  destruct e; simpl in Ho; try discriminate; split; try reflexivity; discriminate.
Qed.

Lemma reportSelection_total (env : Env) (fuel : nat) (ids : option (list Z * list Z))
    (q : State) :
  (forall e, listener env e = []) ->
  IPCAccessibilityActive env = false \/ IPCDoc env = true ->
  exists q', reportSelection env fuel ids q = Ok q'.
Proof.
  intros Hq Hipc. unfold reportSelection.
  destruct ids as [[selectedIDs unselectedIDs]|]; [|eauto].
  destruct Hipc as [-> | ->].
  - rewrite andb_false_r. cbn [andb]. eauto.
  - match goal with |- context [if ?c then _ else _] => destruct c end; [|eauto].
    rewrite emit_quiet by exact Hq. eauto.
Qed.




(** ** A burst of selection events for one widget *)


Section Burst.

(** The queue before the burst, which holds no selection event for the
    widget; the burst's events get the addresses from [P] on. *)
Variable q : State.
Variable widget : Acc.

Let P : nat := nextPtr q.
Let L : list EventPtr := mEvents q.

Hypothesis noEarlier : noSelectionFor q (mEvents q) widget.
Hypothesis allocatedBefore : forall p, In p (mEvents q) -> (p < nextPtr q)%nat.















(** The state in which the coalescing pass for push number [k + 1] of the
    burst starts. *)
Definition pushed (k : nat) (ev : AccEvent) (s : State) : State :=
  record (PushAppended (P + k)%nat)
    (withEvents (mEvents s ++ [(P + k)%nat]) (allocated ev s)).






















End Burst.



(** ** Pushes return

    The dependency propagator re-enters [PushEvent] with events it creates,
    whose rule is the constructor's default.  When that default is
    remove-duplicates and the accessibles form a finite tree, the recursion
    ends: an event of a kind and for a target already queued is dropped
    without further propagation. *)

Definition matches (q : State) (k : EventType) (a : Acc) (p : EventPtr) : bool :=
  type_eqb (mEventType (heap q p)) k
  && rule_eqb (mEventRule (heap q p)) eRemoveDupes
  && acc_eqb (mAccessible (heap q p)) (Some a).

Definition queuedFor (q : State) (k : EventType) (a : Acc) : bool :=
  existsb (matches q k a) (mEvents q).

(** The events the propagator may create, for accessibles below [N]. *)
Definition derivedPairs (N : nat) : list (EventType * Acc) :=
  list_prod [EVENT_NAME_CHANGE; EVENT_DESCRIPTION_CHANGE] (seq 0 N).

(** How many of them are not queued yet. *)
Definition missing (N : nat) (q : State) : nat :=
  length (filter (fun ka => negb (queuedFor q (fst ka) (snd ka))) (derivedPairs N)).

Definition potential (N : nat) (q : State) : nat :=
  (length (mEvents q) + 2 * missing N q)%nat.

(** The accessibles below [N] are closed under parents and relations, every
    walk to the ancestors ends within [H] steps, and events are created with
    the rule remove-duplicates. *)
Definition settled (env : Env) (N H : nat) : Prop :=
  defaultEventRule env = eRemoveDupes /\
  (forall a b, (a < N)%nat -> LocalParent env a = Some b -> (b < N)%nat) /\
  (forall a t b, (a < N)%nat -> In b (RelationByType env a t) -> (b < N)%nat) /\
  (forall a, (a < N)%nat -> visited env H a <> None).

Definition queueOk (s : State) : Prop :=
  mEvents s <> [] /\ forall x, In x (mEvents s) -> (x < nextPtr s)%nat.

Lemma existsb_agree {A : Type} (f g : A -> bool) (l : list A) :
  (forall x, In x l -> f x = g x) -> existsb f l = existsb g l.
Proof.
  induction l as [|x l IH]; intros H; [reflexivity|]. cbn [existsb].
  rewrite (H x (or_introl eq_refl)), IH; [reflexivity|].
  intros y Hy. apply H. right. exact Hy.
Qed.

Lemma filter_count_le {A : Type} (f g : A -> bool) (l : list A) :
  (forall x, In x l -> f x = true -> g x = true) ->
  (length (filter f l) <= length (filter g l))%nat.
Proof.
  induction l as [|x l IH]; intros H; [apply Nat.le_refl|]. cbn [filter].
  assert (IH' := IH (fun y Hy => H y (or_intror Hy))).
  pose proof (H x (or_introl eq_refl)) as Hx.
  destruct (f x), (g x); cbn [length];
    first [lia | specialize (Hx eq_refl); discriminate].
Qed.

Lemma filter_count_lt {A : Type} (f g : A -> bool) (l : list A) (y : A) :
  (forall x, In x l -> f x = true -> g x = true) ->
  In y l -> g y = true -> f y = false ->
  (length (filter f l) < length (filter g l))%nat.
Proof.
  induction l as [|x l IH]; intros H Hy Hg Hf; [destruct Hy|]. cbn [filter].
  pose proof (filter_count_le f g l (fun z Hz => H z (or_intror Hz))) as Hle.
  destruct Hy as [->|Hy].
  - rewrite Hg, Hf. cbn [length]. lia.
  - specialize (IH (fun z Hz => H z (or_intror Hz)) Hy Hg Hf).
    pose proof (H x (or_introl eq_refl)) as Hx.
    destruct (f x), (g x); cbn [length];
      first [lia | specialize (Hx eq_refl); discriminate].
Qed.

Lemma queuedFor_same (s s' : State) (k : EventType) (a : Acc) :
  mEvents s' = mEvents s ->
  (forall x, In x (mEvents s) -> heap s' x = heap s x) ->
  queuedFor s' k a = queuedFor s k a.
Proof.
  intros Hm Hh. unfold queuedFor. rewrite Hm. apply existsb_agree.
  intros x Hx. unfold matches. rewrite (Hh x Hx). reflexivity.
Qed.

Lemma missing_same (N : nat) (s s' : State) :
  mEvents s' = mEvents s ->
  (forall x, In x (mEvents s) -> heap s' x = heap s x) ->
  missing N s' = missing N s.
Proof.
  intros Hm Hh. unfold missing. f_equal. apply filter_ext.
  intros [k a]. cbn [fst snd]. rewrite (queuedFor_same s s' k a Hm Hh). reflexivity.
Qed.

Lemma queuedFor_appended (s s' : State) (p : EventPtr) (k : EventType) (a : Acc) :
  mEvents s' = mEvents s ++ [p] ->
  (forall x, In x (mEvents s) -> heap s' x = heap s x) ->
  queuedFor s' k a = queuedFor s k a || matches s' k a p.
Proof.
  intros Hm Hh. unfold queuedFor. rewrite Hm, existsb_app. cbn [existsb].
  rewrite orb_false_r. f_equal. apply existsb_agree.
  intros x Hx. unfold matches. rewrite (Hh x Hx). reflexivity.
Qed.

Lemma missing_appended (N : nat) (s s' : State) (p : EventPtr) :
  mEvents s' = mEvents s ++ [p] ->
  (forall x, In x (mEvents s) -> heap s' x = heap s x) ->
  (missing N s' <= missing N s)%nat.
Proof.
  intros Hm Hh. unfold missing. apply filter_count_le.
  intros [k a] _. cbn [fst snd]. rewrite (queuedFor_appended s s' p k a Hm Hh).
  destruct (queuedFor s k a); [discriminate|reflexivity].
Qed.

Lemma missing_appended_new (N : nat) (s s' : State) (p : EventPtr)
    (k : EventType) (a : Acc) :
  mEvents s' = mEvents s ++ [p] ->
  (forall x, In x (mEvents s) -> heap s' x = heap s x) ->
  derivedKind k -> (a < N)%nat ->
  queuedFor s k a = false -> matches s' k a p = true ->
  (missing N s' + 1 <= missing N s)%nat.
Proof.
  intros Hm Hh Hk Ha Hq Hp. unfold missing.
  assert (Hlt : (length (filter (fun ka => negb (queuedFor s' (fst ka) (snd ka)))
                           (derivedPairs N))
                 < length (filter (fun ka => negb (queuedFor s (fst ka) (snd ka)))
                             (derivedPairs N)))%nat); [|lia].
  apply (filter_count_lt _ _ _ (k, a)).
  - intros [k' a'] _. cbn [fst snd].
    rewrite (queuedFor_appended s s' p k' a' Hm Hh).
    destruct (queuedFor s k' a'); [discriminate|reflexivity].
  - unfold derivedPairs. apply in_prod.
    + destruct Hk as [->| ->]; [left|right; left]; reflexivity.
    + apply in_seq. lia.
  - cbn [fst snd]. rewrite Hq. reflexivity.
  - cbn [fst snd]. rewrite (queuedFor_appended s s' p k a Hm Hh), Hp.
    rewrite orb_true_r. reflexivity.
Qed.

Lemma missing_bound (N : nat) (s : State) : (missing N s <= 2 * N)%nat.
Proof.
  unfold missing. etransitivity; [apply filter_length_le|].
  unfold derivedPairs. rewrite length_prod, length_seq. cbn [length]. lia.
Qed.

Lemma visited_mono (env : Env) (n : nat) :
  forall a path, visited env n a = Some path ->
    forall m, (n <= m)%nat -> visited env m a = Some path.
Proof.
  induction n as [|n IH]; intros a path Hv m Hm; [discriminate|].
  destruct m as [|m]; [lia|]. cbn [visited] in *.
  destruct (IsDoc env a); [exact Hv|].
  destruct (LocalParent env a) as [b|]; [|exact Hv].
  destruct (HasNameRule env b eNameFromSubtreeIfReqRule); [|exact Hv].
  destruct (visited env n b) as [path'|] eqn:E; [|discriminate].
  rewrite (IH b path' E m) by lia. exact Hv.
Qed.

Lemma visited_below (env : Env) (N : nat) :
  (forall a b, (a < N)%nat -> LocalParent env a = Some b -> (b < N)%nat) ->
  forall n a path, visited env n a = Some path -> (a < N)%nat ->
    Forall (fun b => (b < N)%nat) path.
Proof.
  intros Hclosed. induction n as [|n IH]; intros a path Hv Ha; [discriminate|].
  cbn [visited] in Hv.
  assert (Hone : Some [a] = Some path -> Forall (fun b => (b < N)%nat) path)
    by (intros E; inversion E; subst; constructor; [exact Ha|constructor]).
  destruct (IsDoc env a); [auto|].
  destruct (LocalParent env a) as [b|] eqn:Eb; [|auto].
  destruct (HasNameRule env b eNameFromSubtreeIfReqRule); [|auto].
  destruct (visited env n b) as [path'|] eqn:E; [|discriminate].
  inversion Hv; subst. constructor; [exact Ha|].
  apply (IH b path' E). apply (Hclosed a b Ha Eb).
Qed.

Section Returning.

Variable env : Env.
Variables N H : nat.
Hypothesis Hsettled : settled env N H.

(** Enough fuel for the scans over the queue as it may grow, for a walk, and
    for the pushes nested in it. *)
Definition roomy (f : nat) (s : State) : Prop :=
  (potential N s + H + 2 <= f)%nat /\ Z.of_nat (potential N s) < 2 ^ 32.

Definition after (s s' : State) : Prop :=
  queueOk s' /\ (potential N s' <= potential N s)%nat.

Lemma after_refl (s : State) : queueOk s -> after s s.
Proof. intros Hq. split; [exact Hq|apply Nat.le_refl]. Qed.

Lemma after_trans (s1 s2 s3 : State) : after s1 s2 -> after s2 s3 -> after s1 s3.
Proof. intros [_ A] [Hq B]. split; [exact Hq|lia]. Qed.

Lemma roomy_after (f : nat) (s s' : State) : roomy f s -> after s s' -> roomy f s'.
Proof. intros [R1 R2] [_ A]. split; lia. Qed.

(** Pushing an event the propagator has just created returns. *)
Definition pushReturns (f : nat) : Prop :=
  forall s k a, derivedKind k -> (a < N)%nat -> queueOk s -> roomy f s ->
    exists s',
      PushEvent env f (nextPtr s) (allocated (newAccEvent env k a) s) = Ok (true, s') /\
      after s s'.

Section Step.

Variable f : nat.
Hypothesis IHf : pushReturns f.

Lemma pushToTargets_returns (k : EventType) :
  derivedKind k ->
  forall targets, Forall (fun b => (b < N)%nat) targets ->
    forall pushed s, queueOk s -> roomy f s ->
      exists b s',
        pushToTargets env (PushEvent env f) k targets pushed s = Ok (b, s') /\
        after s s'.
Proof.
  intros Hk. induction 1 as [|b targets Hb _ IH]; intros pushed s Hq Hr.
  - exists pushed, s. split; [reflexivity|apply after_refl; exact Hq].
  - cbn [pushToTargets]. unfold alloc.
    destruct (IHf s k b Hk Hb Hq Hr) as (s1 & E & A1).
    rewrite E. cbn [bind].
    destruct (IH (pushed || true) s1 (proj1 A1) (roomy_after f s s1 Hr A1))
      as (b' & s2 & E2 & A2).
    exists b', s2. split; [exact E2|eapply after_trans; eassumption].
Qed.

Lemma relations_returns (a : Acc) (t : RelationType) (s : State) :
  (a < N)%nat -> queueOk s -> roomy f s ->
  exists b s',
    PushNameOrDescriptionChangeToRelations env (PushEvent env f) a t s = Ok (b, s') /\
    after s s'.
Proof.
  intros Ha Hq Hr. unfold PushNameOrDescriptionChangeToRelations.
  apply pushToTargets_returns; try assumption.
  - destruct t; [left|right]; reflexivity.
  - apply Forall_forall. intros b Hb.
    destruct Hsettled as (_ & _ & Hrel & _). apply (Hrel a t b Ha Hb).
Qed.

Lemma directNameChange_returns (node : Acc) (pushed : bool) (s : State) :
  (node < N)%nat -> queueOk s -> roomy f s ->
  exists b s',
    directNameChange env (PushEvent env f) node pushed s = Ok (b, s') /\ after s s'.
Proof.
  intros Ha Hq Hr. unfold directNameChange.
  destruct (fireNameChange env node);
    [|exists pushed, s; split; [reflexivity|apply after_refl; exact Hq]].
  unfold alloc.
  destruct (IHf s EVENT_NAME_CHANGE node (or_introl eq_refl) Ha Hq Hr) as (s1 & E & A1).
  rewrite E. cbn [bind]. eauto.
Qed.

Lemma relationsAt_returns (dn dd : bool) (node : Acc) (pushed : bool) (s : State) :
  (node < N)%nat -> queueOk s -> roomy f s ->
  exists b s',
    relationsAt env (PushEvent env f) dn dd node pushed s = Ok (b, s') /\ after s s'.
Proof.
  intros Ha Hq Hr. unfold relationsAt.
  assert (Hfirst : exists b1 s1,
            (if dn then
               '(b, q) <- PushNameOrDescriptionChangeToRelations env (PushEvent env f)
                            node LABEL_FOR s ;;
               Ok (pushed || b, q)
             else Ok (pushed, s)) = Ok (b1, s1) /\ after s s1).
  { destruct dn; [|exists pushed, s; split; [reflexivity|apply after_refl; exact Hq]].
    destruct (relations_returns node LABEL_FOR s Ha Hq Hr) as (b & s1 & E & A1).
    rewrite E. cbn [bind]. eauto. }
  destruct Hfirst as (b1 & s1 & E1 & A1). rewrite E1. cbn [bind].
  destruct dd; [|exists b1, s1; split; [reflexivity|exact A1]].
  destruct (relations_returns node DESCRIPTION_FOR s1 Ha (proj1 A1)
              (roomy_after f s s1 Hr A1)) as (b2 & s2 & E2 & A2).
  rewrite E2. cbn [bind]. exists (b1 || b2), s2.
  split; [reflexivity|eapply after_trans; eassumption].
Qed.

Lemma relationsAlong_returns (dn dd : bool) :
  forall nodes, Forall (fun b => (b < N)%nat) nodes ->
    forall pushed s, queueOk s -> roomy f s ->
      exists b s',
        relationsAlong env (PushEvent env f) dn dd nodes pushed s = Ok (b, s') /\
        after s s'.
Proof.
  induction 1 as [|node nodes Hn _ IH]; intros pushed s Hq Hr.
  - exists pushed, s. split; [reflexivity|apply after_refl; exact Hq].
  - cbn [relationsAlong].
    destruct (relationsAt_returns dn dd node pushed s Hn Hq Hr) as (b1 & s1 & E1 & A1).
    rewrite E1. cbn [bind].
    destruct (IH b1 s1 (proj1 A1) (roomy_after f s s1 Hr A1)) as (b2 & s2 & E2 & A2).
    exists b2, s2. split; [exact E2|eapply after_trans; eassumption].
Qed.

Lemma propagateAlong_returns (target : Acc) (m dn dd : bool) :
  forall nodes, Forall (fun b => (b < N)%nat) nodes ->
    forall pushed s, queueOk s -> roomy f s ->
      exists b s',
        propagateAlong env (PushEvent env f) target m dn dd nodes pushed s
        = Ok (b, s') /\ after s s'.
Proof.
  induction 1 as [|node nodes Hn Hrest IH]; intros pushed s Hq Hr.
  - exists pushed, s. split; [reflexivity|apply after_refl; exact Hq].
  - cbn [propagateAlong].
    destruct (dn && qualifies env target m node).
    + destruct (directNameChange_returns node pushed s Hn Hq Hr) as (b0 & s0 & E0 & A0).
      rewrite E0. cbn [bind].
      pose proof (roomy_after f s s0 Hr A0) as Hr0.
      destruct (relationsAt_returns dn dd node b0 s0 Hn (proj1 A0) Hr0)
        as (b1 & s1 & E1 & A1).
      rewrite E1. cbn [bind].
      destruct (relationsAlong_returns dn dd nodes Hrest b1 s1 (proj1 A1)
                  (roomy_after f s0 s1 Hr0 A1)) as (b2 & s2 & E2 & A2).
      exists b2, s2. split; [exact E2|].
      eapply after_trans; [eapply after_trans|]; eassumption.
    + destruct (relationsAt_returns dn dd node pushed s Hn Hq Hr) as (b1 & s1 & E1 & A1).
      rewrite E1. cbn [bind].
      destruct (IH b1 s1 (proj1 A1) (roomy_after f s s1 Hr A1)) as (b2 & s2 & E2 & A2).
      exists b2, s2. split; [exact E2|eapply after_trans; eassumption].
Qed.

(** The propagator, run for an event whose target is below [N], returns. *)
Lemma propagation_returns (p : EventPtr) (s : State) (a : Acc) :
  mAccessible (heap s p) = Some a -> (a < N)%nat -> queueOk s -> roomy f s ->
  exists b s',
    PushNameOrDescriptionChange env (PushEvent env f) f p s = Ok (b, s') /\
    after s s'.
Proof.
  intros Ha HaN Hq Hr.
  destruct Hsettled as (_ & Hpar & _ & Hvis).
  destruct (visited env H a) as [path|] eqn:Ev; [|exfalso; apply (Hvis a HaN Ev)].
  assert (Hvf : visited env f a = Some path)
    by (apply (visited_mono env H a path Ev); destruct Hr; lia).
  pose proof (visited_below env N Hpar H a path Ev HaN) as Hpath.
  pose proof (PushNameOrDescriptionChange_along env (PushEvent env f) f p s a path
                Ha Hvf) as Halong.
  cbv zeta in Halong.
  match type of Halong with
  | ?c = true -> _ => destruct c eqn:Hdo
  end.
  - rewrite (Halong eq_refl). apply propagateAlong_returns; assumption.
  - unfold PushNameOrDescriptionChange. rewrite Ha. cbv zeta.
    apply orb_false_elim in Hdo. destruct Hdo as [Hdn Hdd].
    rewrite Hdn, Hdd. cbn [negb andb].
    exists false, s. split; [reflexivity|apply after_refl; exact Hq].
Qed.

End Step.

Lemma potential_appended (s s1 : State) (p : EventPtr) :
  mEvents s1 = mEvents s ++ [p] ->
  (potential N s1 = length (mEvents s) + 1 + 2 * missing N s1)%nat.
Proof. intros Hm. unfold potential. rewrite Hm, length_app. cbn [length]. lia. Qed.

Lemma pushReturns_all : forall f, pushReturns f.
Proof.
  induction f as [|f IH]; intros s k a Hk Ha Hq Hr.
  - destruct Hr as [Hr _]. lia.
  - pose proof Hsettled as (Hrule & _).
    set (ev := newAccEvent env k a).
    set (p := nextPtr s).
    set (sa := allocated ev s).
    assert (Hp : heap sa p = ev) by apply heap_allocated.
    assert (Hold : forall x, In x (mEvents s) -> heap sa x = heap s x).
    { intros x Hx. destruct Hq as [_ Hq]. specialize (Hq x Hx).
      unfold sa, allocated. cbn [heap].
      destruct (Nat.eqb_spec x (nextPtr s)); [lia|reflexivity]. }
    assert (Hty : mEventType ev = k) by reflexivity.
    assert (Hru : mEventRule ev = eRemoveDupes) by exact Hrule.
    assert (Hac : mAccessible ev = Some a) by reflexivity.
    assert (Hlen : (length (mEvents s) <= potential N s)%nat)
      by (unfold potential; lia).
    destruct Hr as [Hr1 Hr2].
    destruct (PushEvent_remove_duplicates env f p sa) as [_ E].
    { rewrite Hp, Hty. destruct Hk as [->| ->]; discriminate. }
    { rewrite Hp. exact Hru. }
    { exact (proj1 Hq). }
    { change (mEvents sa) with (mEvents s). unfold Length. lia. }
    { change (mEvents sa) with (mEvents s). lia. }
    fold ev. fold sa. fold p. rewrite E. clear E.
    change (mEvents sa) with (mEvents s).
    assert (Hsame : forall x, In x (mEvents s) ->
              sameEvent sa p x = matches s k a x).
    { intros x Hx. unfold sameEvent, matches.
      rewrite (Hold x Hx), Hp, Hty, Hru, Hac. reflexivity. }
    rewrite (existsb_agree _ _ _ Hsame). fold (queuedFor s k a).
    destruct (queuedFor s k a) eqn:Eq.
    + eexists. split; [reflexivity|]. split.
      * split; [exact (proj1 Hq)|]. intros x Hx.
        pose proof (proj2 Hq x Hx) as Hlt.
        change (x < S (nextPtr s))%nat. lia.
      * unfold potential. cbn [mEvents record modify withHeap].
        change (mEvents sa) with (mEvents s).
        rewrite (missing_same N s
                   (record (PushDroppedAsDuplicate p)
                      (modify p (withRule eDoNotEmit) sa)));
          [apply Nat.le_refl|reflexivity|].
        intros x Hx. pose proof (proj2 Hq x Hx) as Hlt.
        change (heap (record (PushDroppedAsDuplicate p)
                        (modify p (withRule eDoNotEmit) sa)) x)
          with (heap (modify p (withRule eDoNotEmit) sa) x).
        rewrite heap_modify_other by (unfold p; lia). apply Hold. exact Hx.
    + set (q1 := record (PushAppended p) (withEvents (mEvents s ++ [p]) sa)).
      assert (Hm1 : mEvents q1 = mEvents s ++ [p]) by reflexivity.
      assert (Hh1 : forall x, In x (mEvents s) -> heap q1 x = heap s x)
        by (intros x Hx; exact (Hold x Hx)).
      assert (Hmiss : (missing N q1 + 1 <= missing N s)%nat).
      { apply (missing_appended_new N s q1 p k a Hm1 Hh1 Hk Ha Eq).
        unfold matches. change (heap q1 p) with (heap sa p).
        rewrite Hp, Hty, Hru, Hac, type_eqb_refl, rule_eqb_refl. cbn.
        apply Nat.eqb_refl. }
      assert (Hq1 : queueOk q1).
      { split; [rewrite Hm1; destruct (mEvents s); discriminate|].
        intros x Hx. rewrite Hm1 in Hx. apply in_app_or in Hx.
        change (nextPtr q1) with (S (nextPtr s)).
        destruct Hx as [Hx|[<-|[]]]; [pose proof (proj2 Hq x Hx); lia|unfold p; lia]. }
      assert (Hpot : (potential N q1 + 1 <= potential N s)%nat).
      { rewrite (potential_appended s q1 p Hm1). unfold potential. lia. }
      assert (Ha1 : after s q1) by (split; [exact Hq1|lia]).
      change (heap sa p) with (heap sa p). rewrite Hp, Hty.
      destruct Hk as [->| ->].
      * change (startsPropagation EVENT_NAME_CHANGE) with true. cbn iota.
        destruct (propagation_returns f IH p q1 a) as (b & s' & E' & A').
        { change (heap q1 p) with (heap sa p). rewrite Hp. exact Hac. }
        { exact Ha. }
        { exact Hq1. }
        { split; lia. }
        fold q1. rewrite E'. cbn [bind].
        exists s'. split; [reflexivity|eapply after_trans; eassumption].
      * change (startsPropagation EVENT_DESCRIPTION_CHANGE) with false. cbn iota.
        exists q1. split; [reflexivity|exact Ha1].
Qed.

(** With enough fuel, the push of an event whose rule is remove-duplicates
    returns, and returns true. *)
Lemma PushEvent_returns (fuel : nat) (aEvent : EventPtr) (q : State) (a : Acc) :
  mEventType (heap q aEvent) <> EVENT_FOCUS ->
  mEventRule (heap q aEvent) = eRemoveDupes ->
  mEvents q <> [] ->
  mAccessible (heap q aEvent) = Some a -> (a < N)%nat ->
  (forall p, In p (mEvents q) -> (p < nextPtr q)%nat) ->
  (aEvent < nextPtr q)%nat ->
  (length (mEvents q) + 4 * N + H + 3 <= fuel)%nat ->
  Length (mEvents q) + 4 * Z.of_nat N + 1 < 2 ^ 32 ->
  exists q', PushEvent env (S fuel) aEvent q = Ok (true, q').
Proof.
  intros Hnf Hr Hne Hacc Ha Hq Hp Hfuel Hlen. unfold Length in Hlen.
  destruct (PushEvent_remove_duplicates env fuel aEvent q Hnf Hr Hne) as [_ E];
    [unfold Length; lia|lia|].
  rewrite E. clear E.
  destruct (existsb (sameEvent q aEvent) (mEvents q)); [eauto|].
  destruct (startsPropagation (mEventType (heap q aEvent))); [|eauto].
  set (q1 := record (PushAppended aEvent) (withEvents (mEvents q ++ [aEvent]) q)).
  assert (Hm1 : mEvents q1 = mEvents q ++ [aEvent]) by reflexivity.
  pose proof (missing_bound N q1) as Hmb.
  pose proof (potential_appended q q1 aEvent Hm1) as Hpot.
  destruct (propagation_returns fuel (pushReturns_all fuel) aEvent q1 a)
    as (b & s' & E' & _).
  - exact Hacc.
  - exact Ha.
  - split; [rewrite Hm1; destruct (mEvents q); discriminate|].
    intros x Hx. rewrite Hm1 in Hx. apply in_app_or in Hx.
    change (nextPtr q1) with (nextPtr q).
    destruct Hx as [Hx|[<-|[]]]; [apply Hq; exact Hx|exact Hp].
  - split; lia.
  - rewrite E'. cbn [bind]. eauto.
Qed.

End Returning.

(** C7 (amended).  When push receives an event that is not a focus event,
    whose rule is remove-duplicates, and the sequence is non-empty, the whole
    sequence is searched for an entry with the same kind, rule and target.
    If there is one, the new event's rule is set to do-not-emit and push
    returns true without appending it, the sequence unchanged.  If there is
    none, the event is appended and coalescing runs (and leaves the state as
    it is, the tail's rule being remove-duplicates), then the dependency
    propagator where the kind asks for it.  Push returns nothing but true;
    and it does return, given enough fuel, when the event has a target in a
    finite tree of accessibles and events are created with the rule
    remove-duplicates. *)
Theorem push_of_remove_duplicates_event (env : Env) (fuel : nat)
    (aEvent : EventPtr) (q : State) :
  mEventType (heap q aEvent) <> EVENT_FOCUS ->
  mEventRule (heap q aEvent) = eRemoveDupes ->
  mEvents q <> [] ->
  Length (mEvents q) < 2 ^ 32 ->
  (length (mEvents q) <= fuel)%nat ->
  (if existsb (sameEvent q aEvent) (mEvents q) then
     PushEvent env (S fuel) aEvent q
     = Ok (true, record (PushDroppedAsDuplicate aEvent)
                   (modify aEvent (withRule eDoNotEmit) q))
   else
     let q1 := record (PushAppended aEvent)
                 (withEvents (mEvents q ++ [aEvent]) q) in
     CoalesceEvents (S fuel) q1 = Ok q1 /\
     PushEvent env (S fuel) aEvent q
     = if startsPropagation (mEventType (heap q aEvent))
       then '(_, q') <- PushNameOrDescriptionChange env (PushEvent env fuel) fuel
                          aEvent q1 ;; Ok (true, q')
       else Ok (true, q1))
  /\ (forall b q', PushEvent env (S fuel) aEvent q = Ok (b, q') -> b = true)
  /\ (forall N H a,
        settled env N H ->
        mAccessible (heap q aEvent) = Some a -> (a < N)%nat ->
        (forall p, In p (mEvents q) -> (p < nextPtr q)%nat) ->
        (aEvent < nextPtr q)%nat ->
        (length (mEvents q) + 4 * N + H + 3 <= fuel)%nat ->
        Length (mEvents q) + 4 * Z.of_nat N + 1 < 2 ^ 32 ->
        exists q', PushEvent env (S fuel) aEvent q = Ok (true, q')).
Proof.
  intros Hnf Hr Hne Hlen Hfuel. split; [|split].
  - destruct (PushEvent_remove_duplicates env fuel aEvent q Hnf Hr Hne Hlen Hfuel)
      as [Hc E].
    rewrite E.
    destruct (existsb (sameEvent q aEvent) (mEvents q)); [reflexivity|].
    cbv zeta. split; [exact Hc|reflexivity].
  - intros b q' E. apply PushEvent_cases in E. tauto.
  - intros N H a Hs Hacc Ha Hq Hp Hf Hl.
    apply (PushEvent_returns env N H Hs fuel aEvent q a); assumption.
Qed.

(** * The claims at concrete inputs *)

(** An environment without name dependencies, relations, IPC or listeners. *)
Definition quietEnv : Env := {|
  HasNameRule := fun _ _ => false;
  HasNameDependent := fun _ => false;
  HasDescriptionDependent := fun _ => false;
  IsHTMLFileInput := fun _ => false;
  Name := fun _ => (eNameOK, false);
  RelationByType := fun _ _ => [];
  LocalParent := fun _ => None;
  IsDoc := fun _ => false;
  UniqueID := fun a => Z.of_nat a;
  IPCAccessibilityActive := false;
  IPCDoc := false;
  states_SELECTED := 2;
  defaultEventRule := eRemoveDupes;
  autoDetectedUserInput := false;
  listener := fun _ => []
|}.

Definition plainEvent (t : EventType) (r : EEventRule) (a : Acc) : AccEvent :=
  {| mEventType := t; mEventRule := r; mAccessible := Some a;
     mIsFromUserInput := false; payload := PlainEvent |}.

Definition selEvent (w i : Acc) (t : SelChangeType) : AccEvent :=
  {| mEventType := selChangeKind t; mEventRule := eCoalesceSelectionChange;
     mAccessible := Some i; mIsFromUserInput := false;
     payload := SelChangeEvent {| mWidget := w; mItem := i; mSelChangeType := t;
                                  mPreceedingCount := 0; mPackedEvent := None |} |}.

Definition stateEvent (a : Acc) (st : Z) (en : bool) : AccEvent :=
  {| mEventType := EVENT_STATE_CHANGE; mEventRule := eCoalesceStateChange;
     mAccessible := Some a; mIsFromUserInput := false;
     payload := StateChangeEvent st en |}.

Definition emptyQueue : State :=
  {| heap := fun _ => plainEvent (EVENT_OTHER 0) eAllowDupes 0%nat;
     nextPtr := 0%nat; mEvents := []; mFocusEvent := None; mDocument := true;
     defunct := fun _ => false; log := [] |}.

(** The state a run ends in. *)
Definition stateOf (r : Result State) : State :=
  match r with Ok q => q | _ => emptyQueue end.


(** [n] selection-add events for the items 1 to [n] of widget [w]. *)
Definition adds (w : Acc) (n : nat) : list AccEvent :=
  map (fun i => selEvent w (S i) eSelectionAdd) (seq 0 n).


(** C10 for a queue of two selection events. *)
Definition twoAdds : State := stateOf (QueueEvents quietEnv 5 (adds 100%nat 2) emptyQueue).

Lemma backward_scans_witness :
  (forall aEvent, completes (findDuplicate 2 aEvent twoAdds)) /\
  completes (CoalesceEvents 2 twoAdds) /\
  (forall aTailEvent aThisEvent aThisIndex,
     0 <= aThisIndex < Length (mEvents twoAdds) ->
     completes (CoalesceSelChangeEvents 2 aTailEvent aThisEvent aThisIndex twoAdds)).
Proof.
  apply (backward_scans_in_bounds_and_terminate 2 twoAdds).
  - vm_compute. discriminate.
  - vm_compute. reflexivity.
  - vm_compute. lia.
Defined.

(** A listener that queues an event whenever an event is fired. *)
Definition echoEnv : Env := {|
  HasNameRule := fun _ _ => false;
  HasNameDependent := fun _ => false;
  HasDescriptionDependent := fun _ => false;
  IsHTMLFileInput := fun _ => false;
  Name := fun _ => (eNameOK, false);
  RelationByType := fun _ _ => [];
  LocalParent := fun _ => None;
  IsDoc := fun _ => false;
  UniqueID := fun a => Z.of_nat a;
  IPCAccessibilityActive := false;
  IPCDoc := false;
  states_SELECTED := 2;
  defaultEventRule := eRemoveDupes;
  autoDetectedUserInput := false;
  listener := fun e => match e with
                       | FireEvent _ _ =>
                           [ReactQueueEvent (plainEvent (EVENT_OTHER 1) eAllowDupes 7%nat)]
                       | _ => []
                       end
|}.

Definition oneEvent : State :=
  stateOf (QueueEvents echoEnv 5 [plainEvent (EVENT_OTHER 2) eAllowDupes 3%nat] emptyQueue).
Definition oneEventDrained : State := stateOf (ProcessEventQueue echoEnv 5 oneEvent).

(** C2 for a focus event pushed between two other events. *)
Definition focusEvent (a : Acc) : AccEvent := plainEvent EVENT_FOCUS eAllowDupes a.
Definition aroundFocus : list AccEvent :=
  [plainEvent (EVENT_OTHER 2) eAllowDupes 3%nat] ++ focusEvent 4%nat
    :: [plainEvent (EVENT_OTHER 5) eAllowDupes 6%nat].
Definition withFocusQueued : State := stateOf (QueueEvents quietEnv 5 aroundFocus emptyQueue).
Definition withFocusDrained : State := stateOf (ProcessEventQueue quietEnv 5 withFocusQueued).

Lemma focus_first_witness :
  mEvents withFocusQueued = [0%nat; 2%nat] /\
  mFocusEvent withFocusQueued = Some 1%nat /\
  exists rest,
    log withFocusDrained
    = log withFocusQueued ++ ProcessFocusEvent 1%nat (heap withFocusQueued 1%nat) :: rest /\
    Forall (fun e => forall p now, e <> ProcessFocusEvent p now) rest.
Proof.
  split; [reflexivity|].
  destruct (proj2 (focus_event_is_delivered_first quietEnv 4)
              [plainEvent (EVENT_OTHER 2) eAllowDupes 3%nat] (focusEvent 4%nat)
              [plainEvent (EVENT_OTHER 5) eAllowDupes 6%nat]
              emptyQueue withFocusQueued)
    as (qb & Hb & Hf & Hd).
  - reflexivity.
  - repeat constructor; discriminate.
  - vm_compute. reflexivity.
  - vm_compute in Hb. inversion Hb as [Hq]. rewrite <- Hq in Hf, Hd. clear Hb Hq qb.
    cbn [nextPtr] in Hf, Hd. split; [exact Hf|].
    apply (Hd 4%nat 5%nat withFocusDrained); vm_compute; reflexivity.
Defined.

(** C8 for an event, a focus event, and a duplicate of the first. *)
Definition mixedPushes : list AccEvent :=
  [plainEvent (EVENT_OTHER 2) eRemoveDupes 3%nat; focusEvent 4%nat;
   plainEvent (EVENT_OTHER 2) eRemoveDupes 3%nat].
Definition mixedQueued : State := stateOf (QueueEvents quietEnv 5 mixedPushes emptyQueue).

Lemma sequence_length_witness :
  exists d, log mixedQueued = log emptyQueue ++ d /\
    Forall (fun e => isPushOutcome e = true) d /\
    (length mixedPushes <= countIf isPushOutcome d)%nat /\
    (forall fuel' q q', CoalesceEvents fuel' q = Ok q' -> mEvents q' = mEvents q) /\
    (length (mEvents mixedQueued) + countIf isDropped d + countIf isFocusPush d
     = length (mEvents emptyQueue) + countIf isPushOutcome d)%nat /\
    (forall fuel' q2 d',
       mEvents emptyQueue = [] -> mFocusEvent emptyQueue = None ->
       ProcessEventQueue quietEnv fuel' mixedQueued = Ok q2 ->
       log q2 = log mixedQueued ++ d' ->
       (countIf isDelivery d' <= countIf isPushOutcome d)%nat).
Proof.
  apply (sequence_length_and_deliveries quietEnv 5 mixedPushes emptyQueue mixedQueued).
  vm_compute. reflexivity.
Defined.

(** One push of a focus event: nothing is dropped by the duplicate check,
    and the sequence stays empty.  One push of a selection-add event: the
    drain fires two notifications, the selected-state change and the event. *)
Lemma focus_push_and_selected_state_not_counted :
  (exists q, QueueEvents quietEnv 5 [focusEvent 4%nat] emptyQueue = Ok q /\
     countIf isDropped (log q) = 0%nat /\
     length (mEvents q)
     <> (length [focusEvent 4%nat] - countIf isDropped (log q))%nat) /\
  (exists q q',
     QueueEvents quietEnv 5 [selEvent 100%nat 1%nat eSelectionAdd] emptyQueue = Ok q /\
     ProcessEventQueue quietEnv 5 q = Ok q' /\
     log q'
     = log q ++ [FireStateChange (Some 1%nat) 2 true false;
                 FireEvent 0%nat (selEvent 100%nat 1%nat eSelectionAdd)]).
Proof.
  split.
  - eexists. split; [vm_compute; reflexivity|]. split; [reflexivity|].
    vm_compute. discriminate.
  - eexists. eexists. split; [vm_compute; reflexivity|].
    split; [vm_compute; reflexivity|]. reflexivity.
Qed.

(** C7: an event about to be pushed onto a sequence that holds its like. *)
Definition dupQueue : State :=
  allocated (plainEvent (EVENT_OTHER 2) eRemoveDupes 3%nat)
    (stateOf (QueueEvents quietEnv 5 [plainEvent (EVENT_OTHER 2) eRemoveDupes 3%nat]
                emptyQueue)).

(** A focus event whose rule is remove-duplicates, pushed onto a non-empty
    sequence that holds no match: it is not appended. *)
Definition focusDupQueue : State :=
  allocated (plainEvent EVENT_FOCUS eRemoveDupes 3%nat)
    (stateOf (QueueEvents quietEnv 5 [plainEvent (EVENT_OTHER 2) eRemoveDupes 3%nat]
                emptyQueue)).

Lemma focus_with_remove_duplicates_not_appended :
  mEventRule (heap focusDupQueue 1%nat) = eRemoveDupes /\
  mEvents focusDupQueue = [0%nat] /\
  existsb (sameEvent focusDupQueue 1%nat) (mEvents focusDupQueue) = false /\
  exists q', PushEvent quietEnv 2 1%nat focusDupQueue = Ok (true, q') /\
    mEvents q' = [0%nat] /\ mEventRule (heap q' 1%nat) = eRemoveDupes.
Proof.
  split; [reflexivity|]. split; [reflexivity|]. split; [reflexivity|].
  eexists. split; [vm_compute; reflexivity|]. split; reflexivity.
Qed.

(** A remove for widget 100, an add for widget 200, and, just appended, an
    add for widget 100. *)
Definition interleaved : State :=
  {| heap := fun p => match p with
                      | O => selEvent 100%nat 1%nat eSelectionRemove
                      | 1%nat => selEvent 200%nat 2%nat eSelectionAdd
                      | _ => selEvent 100%nat 3%nat eSelectionAdd
                      end;
     nextPtr := 3%nat; mEvents := [0%nat; 1%nat; 2%nat]; mFocusEvent := None;
     mDocument := true; defunct := fun _ => false; log := [] |}.

(** C5 for that queue: the tail is merged with the entry at position 0. *)
Lemma selection_scan_witness :
  CoalesceEvents 3 interleaved
  = CoalesceSelChangeEvents 3 2%nat 0%nat 0 interleaved.
Proof.
  refine (proj1 (selection_scan_finds_same_widget 3 interleaved [0%nat; 1%nat] 2%nat
                   _ _ _ _ _) 0%nat 0%nat _ _ _).
  - reflexivity.
  - vm_compute. reflexivity.
  - simpl. lia.
  - reflexivity.
  - split; [eexists; reflexivity|].
    intros p [<-|[<-|[]]] _; eexists; reflexivity.
  - reflexivity.
  - reflexivity.
  - intros [|[|j]] p Hj Hn; [lia| |destruct j; discriminate].
    inversion Hn. reflexivity.
Defined.

(** The first earlier entry sharing the tail's rule belongs to another
    widget, and yet the pass is not a no-op: it goes on to the entry before
    it, and merges that one with the tail. *)
Lemma selection_scan_goes_past_other_widget :
  mEventRule (heap interleaved 1%nat) = mEventRule (heap interleaved 2%nat) /\
  sameControl interleaved 2%nat 1%nat = false /\
  exists q', CoalesceEvents 3 interleaved = Ok q' /\
    mEventRule (heap q' 0%nat) = eDoNotEmit /\
    mEventType (heap q' 2%nat) = EVENT_SELECTION /\
    mEventRule (heap interleaved 0%nat) = eCoalesceSelectionChange /\
    mEventType (heap interleaved 2%nat) = EVENT_SELECTION_ADD.
Proof.
  split; [reflexivity|]. split; [reflexivity|].
  eexists. split; [vm_compute; reflexivity|]. repeat split.
Qed.

(** A text leaf 1 that some label depends on, inside 2, whose name is not
    computed from its subtree, inside 3, whose name is. *)
Definition treeEnv : Env := {|
  HasNameRule := fun a r =>
    match r with
    | eNameFromSubtreeIfReqRule => true
    | eNameFromSubtreeRule => Nat.eqb a 3
    end;
  HasNameDependent := fun a => Nat.eqb a 1;
  HasDescriptionDependent := fun _ => false;
  IsHTMLFileInput := fun _ => false;
  Name := fun _ => (eNameFromSubtree, false);
  RelationByType := fun _ _ => [];
  LocalParent := fun a => match a with
                          | 1%nat => Some 2%nat
                          | 2%nat => Some 3%nat
                          | _ => None
                          end;
  IsDoc := fun _ => false;
  UniqueID := fun a => Z.of_nat a;
  IPCAccessibilityActive := false;
  IPCDoc := false;
  states_SELECTED := 2;
  defaultEventRule := eRemoveDupes;
  autoDetectedUserInput := false;
  listener := fun _ => []
|}.

Definition textRemoved : State :=
  stateOf (QueueEvents quietEnv 5 [plainEvent EVENT_TEXT_REMOVED eAllowDupes 1%nat]
             emptyQueue).

Lemma treeEnv_settled : settled treeEnv 4 3.
Proof.
  split; [reflexivity|]. split; [|split].
  - intros a b Ha. destruct a as [|[|[|[|a]]]]; cbn; intros E;
      inversion E; lia.
  - intros a t b _ [].
  - intros a Ha. destruct a as [|[|[|[|a]]]]; cbn; discriminate.
Defined.

(** A text-removed event for the leaf 1, created with the rule
    remove-duplicates and about to be pushed onto a sequence of one event. *)
Definition treeQueue : State :=
  allocated (plainEvent EVENT_TEXT_REMOVED eRemoveDupes 1%nat)
    (stateOf (QueueEvents quietEnv 5 [plainEvent (EVENT_OTHER 2) eRemoveDupes 3%nat]
                emptyQueue)).

Lemma push_duplicate_witness :
  PushEvent quietEnv 2 1%nat dupQueue
  = Ok (true, record (PushDroppedAsDuplicate 1%nat)
                (modify 1%nat (withRule eDoNotEmit) dupQueue)) /\
  exists q', PushEvent treeEnv 24 1%nat treeQueue = Ok (true, q').
Proof.
  split.
  - refine (proj1 (push_of_remove_duplicates_event quietEnv 1 1%nat dupQueue
                     _ _ _ _ _)).
    + vm_compute. discriminate.
    + reflexivity.
    + vm_compute. discriminate.
    + vm_compute. reflexivity.
    + vm_compute. lia.
  - refine (proj2 (proj2 (push_of_remove_duplicates_event treeEnv 23 1%nat treeQueue
                            _ _ _ _ _)) 4%nat 3%nat 1%nat treeEnv_settled _ _ _ _ _ _).
    + vm_compute. discriminate.
    + reflexivity.
    + vm_compute. discriminate.
    + vm_compute. reflexivity.
    + vm_compute. lia.
    + reflexivity.
    + lia.
    + intros p Hp. vm_compute in Hp. destruct Hp as [<-|[]]. vm_compute. lia.
    + vm_compute. lia.
    + vm_compute. lia.
    + vm_compute. reflexivity.
Defined.

(** A text leaf 1 that some description depends on, inside 2, whose name is
    computed from its subtree. *)
Definition descEnv : Env := {|
  HasNameRule := fun a r =>
    match r with
    | eNameFromSubtreeIfReqRule => true
    | eNameFromSubtreeRule => Nat.eqb a 2
    end;
  HasNameDependent := fun _ => false;
  HasDescriptionDependent := fun a => Nat.eqb a 1;
  IsHTMLFileInput := fun _ => false;
  Name := fun _ => (eNameFromSubtree, false);
  RelationByType := fun _ _ => [];
  LocalParent := fun a => match a with
                          | 1%nat => Some 2%nat
                          | _ => None
                          end;
  IsDoc := fun _ => false;
  UniqueID := fun a => Z.of_nat a;
  IPCAccessibilityActive := false;
  IPCDoc := false;
  states_SELECTED := 2;
  defaultEventRule := eRemoveDupes;
  autoDetectedUserInput := false;
  listener := fun _ => []
|}.

(** C9 for the walk from the leaf 1: with name propagation on, and with
    description propagation alone. *)
Lemma direct_check_witness :
  PushNameOrDescriptionChange treeEnv (PushEvent treeEnv 5) 5 0%nat textRemoved
  = propagateAlong treeEnv (PushEvent treeEnv 5) 1%nat false true false
      [1%nat; 2%nat; 3%nat] false textRemoved
  /\ PushNameOrDescriptionChange descEnv (PushEvent descEnv 5) 5 0%nat textRemoved
     = relationsAlong descEnv (PushEvent descEnv 5) false true
         [1%nat; 2%nat] false textRemoved.
Proof.
  split.
  - refine (proj1 (direct_check_once_at_first_qualifying_node treeEnv
                     (PushEvent treeEnv 5) 5 0%nat textRemoved 1%nat
                     [1%nat; 2%nat; 3%nat] _ _ _)); reflexivity.
  - refine (proj2 (direct_check_once_at_first_qualifying_node descEnv
                     (PushEvent descEnv 5) 5 0%nat textRemoved 1%nat
                     [1%nat; 2%nat] _ _ _) _); reflexivity.
Defined.

(** With description propagation alone, the ancestor 2 qualifies and would
    get a name-change event, and yet none is queued for it. *)
Example description_only_walk_makes_no_direct_check :
  visited descEnv 5 1%nat = Some [1%nat; 2%nat] /\
  qualifies descEnv 1%nat false 2%nat = true /\
  fireNameChange descEnv 2%nat = true /\
  PushNameOrDescriptionChange descEnv (PushEvent descEnv 5) 5 0%nat textRemoved
  = Ok (false, textRemoved).
Proof. repeat split. Qed.

(** The walk from 1 visits 2, which does not qualify, and then 3: the direct
    check is still performed at 3, and queues a name-change event for it. *)
Lemma direct_check_survives_unqualified_ancestor :
  visited treeEnv 5 1%nat = Some [1%nat; 2%nat; 3%nat] /\
  qualifies treeEnv 1%nat false 2%nat = false /\
  (exists q', QueueEvents treeEnv 5 [plainEvent EVENT_TEXT_REMOVED eAllowDupes 1%nat]
                emptyQueue = Ok q' /\
     mEvents q' = [0%nat; 1%nat] /\
     heap q' 1%nat = newAccEvent treeEnv EVENT_NAME_CHANGE 3%nat) /\
  PushNameOrDescriptionChange treeEnv (PushEvent treeEnv 5) 5 0%nat textRemoved
  <> propagateAlong_asClaimed treeEnv (PushEvent treeEnv 5) 1%nat false true false
       [1%nat; 2%nat; 3%nat] false textRemoved.
Proof.
  split; [reflexivity|]. split; [reflexivity|]. split.
  - eexists. split; [vm_compute; reflexivity|]. split; reflexivity.
  - intros H.
    assert (Hm : option_map (fun r => mEvents (snd r))
                   (match PushNameOrDescriptionChange treeEnv (PushEvent treeEnv 5) 5
                            0%nat textRemoved with Ok r => Some r | _ => None end)
                 = Some [0%nat; 1%nat]) by (vm_compute; reflexivity).
    rewrite H in Hm. vm_compute in Hm. discriminate.
Qed.

Lemma quietEnv_wellBehaved : wellBehaved quietEnv.
Proof. intros e ev []. Defined.




(** * Further properties of the queue *)

(** ** The drain hands events over in queue order *)

(** The events of the array handed over in a stretch of log, with their
    contents at that moment. *)
Definition handed (d : list Effect) : list (EventPtr * AccEvent) :=
  flat_map (fun e => match e with
                     | FireEvent p now | ProcessTextSelChangeEvent p now => [(p, now)]
                     | _ => []
                     end) d.

Inductive subseq {A : Type} : list A -> list A -> Prop :=
| subseq_nil : subseq [] []
| subseq_skip (x : A) (l1 l2 : list A) : subseq l1 l2 -> subseq l1 (x :: l2)
| subseq_take (x : A) (l1 l2 : list A) : subseq l1 l2 -> subseq (x :: l1) (x :: l2).

(** An event the drain may hand over: not suppressed, and with a target that
    is alive. *)
Definition deliverable (q : State) (p : EventPtr) : Prop :=
  mEventRule (heap q p) <> eDoNotEmit /\
  exists a, mAccessible (heap q p) = Some a /\ defunct q a = false.

Definition noFocusDelivery (d : list Effect) : Prop :=
  Forall (fun e => forall p now, e <> ProcessFocusEvent p now) d.

(** A state reached during the drain started in [q0], whose objects all lie
    below [N]: they are as they were, and what was defunct still is. *)
Definition during (N : nat) (q0 q : State) : Prop :=
  Closed N q /\ agreeBelow N q0 q /\
  forall a, defunct q0 a = true -> defunct q a = true.

(** From [q] to [q'] the events [sub] are handed over, in this order, as they
    were in [q0]. *)
Definition hands (q0 : State) (sub : list EventPtr) (q q' : State) : Prop :=
  exists d, log q' = log q ++ d /\
    handed d = map (fun p => (p, heap q0 p)) sub /\ noFocusDelivery d.

Lemma handed_app (d1 d2 : list Effect) : handed (d1 ++ d2) = handed d1 ++ handed d2.
Proof. unfold handed. apply flat_map_app. Qed.

Lemma handed_pushes (N : nat) (d : list Effect) :
  Forall (pushAbove N) d -> handed d = [] /\ noFocusDelivery d.
Proof.
  induction 1 as [|e d [He _] _ [IH1 IH2]]; [split; [reflexivity|constructor]|].
  split.
  - cbn [handed flat_map]. fold (handed d). rewrite IH1.
    destruct e; simpl in He; try discriminate; reflexivity.
  - constructor; [|exact IH2]. intros p now E. subst e. discriminate.
Qed.

Lemma hands_refl (q0 q : State) : hands q0 [] q q.
Proof. exists []. rewrite app_nil_r. split; [|split]; try reflexivity. constructor. Qed.

Lemma hands_trans (q0 : State) (s1 s2 : list EventPtr) (q1 q2 q3 : State) :
  hands q0 s1 q1 q2 -> hands q0 s2 q2 q3 -> hands q0 (s1 ++ s2) q1 q3.
Proof.
  intros (d1 & L1 & H1 & F1) (d2 & L2 & H2 & F2). exists (d1 ++ d2).
  split; [rewrite L2, L1, app_assoc; reflexivity|].
  split; [rewrite handed_app, H1, H2, map_app; reflexivity|].
  apply Forall_app. split; assumption.
Qed.

Lemma subseq_refl {A : Type} (l : list A) : subseq l l.
Proof. induction l; constructor; assumption. Qed.

Lemma subseq_In {A : Type} (l1 l2 : list A) (x : A) :
  subseq l1 l2 -> In x l1 -> In x l2.
Proof.
  induction 1 as [|y l1 l2 _ IH|y l1 l2 _ IH]; intros H; [exact H| |].
  - right. apply IH. exact H.
  - destruct H as [->|H]; [left; reflexivity|right; apply IH; exact H].
Qed.

Lemma subseq_NoDup {A : Type} (l1 l2 : list A) :
  subseq l1 l2 -> NoDup l2 -> NoDup l1.
Proof.
  induction 1 as [|y l1 l2 _ IH|y l1 l2 Hs IH]; intros H; [exact H| |].
  - inversion H; subst. apply IH. assumption.
  - inversion H as [|? ? Hn Hd]; subst. constructor; [|apply IH; exact Hd].
    intros Hy. apply Hn. eapply subseq_In; eassumption.
Qed.

Section DrainTrace.

Variable env : Env.
Variable N : nat.
Variable q0 : State.
Hypothesis Hw : wellBehaved env.

Lemma react_during (fuel : nat) (rs : list Reaction) :
  (forall ev, In (ReactQueueEvent ev) rs -> unpacked ev) ->
  forall q q', during N q0 q -> react env fuel rs q = Ok q' -> during N q0 q'.
Proof.
  induction rs as [|r rest IH]; intros Hu q q' HD H; cbn [react] in H.
  - inversion H; subst. exact HD.
  - assert (Hrest : forall ev, In (ReactQueueEvent ev) rest -> unpacked ev)
      by (intros ev Hev; apply Hu; right; exact Hev).
    destruct HD as (HC & HA & Hdef).
    destruct r as [ev|a|].
    + destruct (QueueEvent env fuel ev q) as [q1| |] eqn:E; cbn [bind] in H;
        try discriminate.
      apply (QueueEvent_framed env N) in E; [|apply Hu; left; reflexivity|exact HC].
      destruct E as (A1 & C1 & D1 & _).
      apply (IH Hrest q1 q'); [|exact H].
      split; [exact C1|]. split; [eapply agreeBelow_trans; eassumption|].
      intros x Hx. rewrite D1. apply Hdef. exact Hx.
    + apply (IH Hrest) in H; [exact H|].
      split; [exact HC|]. split; [exact HA|].
      intros x Hx. cbn. destruct (Nat.eqb x a); [reflexivity|apply Hdef; exact Hx].
    + apply (IH Hrest) in H; [exact H|]. split; [exact HC|]. split; assumption.
Qed.

Lemma emit_hands (fuel : nat) (e : Effect) (q q' : State) :
  during N q0 q -> isPushOutcome e = false ->
  emit env fuel e q = Ok q' ->
  during N q0 q' /\
  exists d, log q' = log q ++ e :: d /\ handed d = [] /\ noFocusDelivery d.
Proof.
  intros HD Ho H.
  destruct (emit_log env 0 fuel e q q' Ho (Nat.le_0_l _) H) as (d & L & F & _).
  split.
  - unfold emit in H. apply (react_during fuel (listener env e)) in H;
      [exact H|intros ev Hev; eapply Hw; exact Hev|exact HD].
  - exists d. split; [exact L|]. eapply handed_pushes. exact F.
Qed.

(** A notification that is not for an event of the array. *)
Lemma emit_aside (fuel : nat) (e : Effect) (q q' : State) :
  during N q0 q -> isPushOutcome e = false -> isDelivery e = false ->
  emit env fuel e q = Ok q' ->
  during N q0 q' /\ hands q0 [] q q'.
Proof.
  intros HD Ho Hd H.
  destruct (emit_hands fuel e q q' HD Ho H) as (HD' & d & L & Hh & Hf).
  split; [exact HD'|]. exists (e :: d). split; [exact L|]. split.
  - cbn [handed flat_map]. fold (handed d). rewrite Hh.
    destruct e; simpl in Hd; try discriminate; reflexivity.
  - constructor; [|exact Hf]. intros p now E. subst e. discriminate.
Qed.

Lemma fireSelectedState_hands (fuel : nat) (event : EventPtr) (t : EventType)
    (q q' : State) :
  during N q0 q -> fireSelectedState env fuel event t q = Ok q' ->
  during N q0 q' /\ hands q0 [] q q'.
Proof.
  intros HD H. unfold fireSelectedState in H.
  destruct (type_eqb t EVENT_SELECTION_ADD);
    [eapply emit_aside; try exact H; auto|].
  destruct (type_eqb t EVENT_SELECTION_REMOVE);
    [eapply emit_aside; try exact H; auto|].
  destruct (type_eqb t EVENT_SELECTION);
    [|inversion H; subst; split; [exact HD|apply hands_refl]].
  destruct (asSelChange (heap q event)) as [s| |]; cbn [bind] in H; try discriminate.
  match type of H with
  | bind ?c _ = _ => destruct c as [q1| |] eqn:E1; cbn [bind] in H; try discriminate
  end.
  apply emit_aside in E1; auto. destruct E1 as [HD1 H1].
  destruct (asSelChange (heap q1 event)) as [s1| |]; cbn [bind] in H; try discriminate.
  destruct (mPackedEvent s1) as [packed|]; [|inversion H; subst; auto].
  destruct (asSelChange (heap q1 packed)) as [s2| |]; cbn [bind] in H; try discriminate.
  apply emit_aside in H; auto. destruct H as [HD2 H2].
  split; [exact HD2|]. apply (hands_trans q0 [] [] q q1 q'); assumption.
Qed.

Lemma processEvents_hands (fuel : nat) :
  forall events ids q r q',
    during N q0 q -> (forall p, In p events -> (p < N)%nat) ->
    processEvents env fuel events ids q = Ok (r, q') ->
    during N q0 q' /\
    exists sub, subseq sub events /\ Forall (deliverable q0) sub /\
                hands q0 sub q q'.
Proof.
  induction events as [|event rest IH]; intros ids q r q' HD Hev H;
    cbn [processEvents] in H.
  - inversion H; subst. split; [exact HD|]. exists [].
    split; [constructor|]. split; [constructor|apply hands_refl].
  - assert (Hrest : forall p, In p rest -> (p < N)%nat)
      by (intros p Hp; apply Hev; right; exact Hp).
    assert (Hlt : (event < N)%nat) by (apply Hev; left; reflexivity).
    assert (Hskip : forall ids0 q1 s1,
              during N q0 q1 -> hands q0 s1 q q1 ->
              (s1 = [] \/ (s1 = [event] /\ deliverable q0 event)) ->
              processEvents env fuel rest ids0 q1 = Ok (r, q') ->
              during N q0 q' /\
              exists sub, subseq sub (event :: rest) /\ Forall (deliverable q0) sub /\
                          hands q0 sub q q').
    { intros ids0 q1 s1 HD1 H1 Hs H0.
      destruct (IH ids0 q1 r q' HD1 Hrest H0) as (HD' & sub & Hsub & Hdel & Hh).
      split; [exact HD'|]. exists (s1 ++ sub).
      split; [|split; [|eapply hands_trans; eassumption]].
      - destruct Hs as [->|[-> _]]; cbn [app]; constructor; exact Hsub.
      - destruct Hs as [->|[-> Hd]]; cbn [app]; [exact Hdel|].
        constructor; assumption. }
    pose proof HD as (_ & HA & Hdef).
    destruct (mAccessible (heap q event)) as [target|] eqn:Ea;
      [|eapply Hskip; try exact H; auto; apply hands_refl].
    destruct (defunct q target) eqn:Edef;
      [eapply Hskip; try exact H; auto; apply hands_refl|].
    destruct (collectSelChange env event (mEventType (heap q event)) ids q)
      as [ids'| |]; cbn [bind] in H; try discriminate.
    destruct (rule_eqb (mEventRule (heap q event)) eDoNotEmit) eqn:Er;
      [eapply Hskip; try exact H; auto; apply hands_refl|].
    apply rule_eqb_false in Er.
    assert (Hdl : deliverable q0 event).
    { rewrite (HA event Hlt) in Er, Ea. split; [exact Er|]. exists target.
      split; [exact Ea|]. destruct (defunct q0 target) eqn:E0; [|reflexivity].
      rewrite (Hdef target E0) in Edef. discriminate. }
    destruct (type_eqb (mEventType (heap q event)) EVENT_TEXT_SELECTION_CHANGED).
    { match type of H with
      | bind ?c _ = _ => destruct c as [q1| |] eqn:E1; cbn [bind] in H;
                           try discriminate
      end.
      apply emit_hands in E1; [|exact HD|reflexivity].
      destruct E1 as (HD1 & d & L & Hh & Hf).
      eapply (Hskip ids' q1 [event]); try exact H; auto.
      exists (ProcessTextSelChangeEvent event (heap q event) :: d).
      split; [exact L|]. split.
      - cbn [handed flat_map map]. fold (handed d). rewrite Hh, (HA event Hlt).
        reflexivity.
      - constructor; [discriminate|exact Hf]. }
    match type of H with
    | bind ?c _ = _ => destruct c as [q1| |] eqn:E1; cbn [bind] in H; try discriminate
    end.
    destruct (fireSelectedState_hands fuel event _ q q1 HD E1) as [HD1 H1].
    match type of H with
    | bind ?c _ = _ => destruct c as [q2| |] eqn:E2; cbn [bind] in H; try discriminate
    end.
    apply emit_hands in E2; [|exact HD1|reflexivity].
    destruct E2 as (HD2 & d & L & Hh & Hf).
    assert (H2 : hands q0 [event] q1 q2).
    { exists (FireEvent event (heap q1 event) :: d). split; [exact L|]. split.
      - cbn [handed flat_map map]. fold (handed d).
        rewrite Hh, (proj1 (proj2 HD1) event Hlt). reflexivity.
      - constructor; [discriminate|exact Hf]. }
    assert (H12 : hands q0 [event] q q2)
      by (apply (hands_trans q0 [] [event] q q1 q2); assumption).
    destruct (negb (mDocument q2)).
    { inversion H; subst. split; [exact HD2|]. exists [event].
      split; [constructor; clear; induction rest; constructor; assumption|].
      split; [constructor; [exact Hdl|constructor]|exact H12]. }
    match type of H with
    | bind ?c _ = _ => destruct c as [q3| |] eqn:E3; cbn [bind] in H; try discriminate
    end.
    assert (H3 : during N q0 q3 /\ hands q0 [] q2 q3).
    { destruct (isMutationKind (mEventType (heap q event)) && IPCDoc env);
        [|inversion E3; subst; split; [exact HD2|apply hands_refl]].
      eapply emit_aside; try exact E3; auto. }
    destruct H3 as [HD3 H3].
    eapply (Hskip ids' q3 [event]); try exact H; auto.
    apply (hands_trans q0 [event] [] q q2 q3) in H3; [|exact H12].
    rewrite app_nil_r in H3. exact H3.
Qed.

End DrainTrace.

Lemma ProcessEventQueue_hands (env : Env) (fuel : nat) (q q' : State) :
  wellBehaved env ->
  (forall p, In p (mEvents q) -> (p < nextPtr q)%nat) ->
  ProcessEventQueue env fuel q = Ok q' ->
  exists d sub, log q' = log q ++ focusDelivery q ++ d /\
    subseq sub (mEvents q) /\ Forall (deliverable q) sub /\
    handed d = map (fun p => (p, heap q p)) sub /\ noFocusDelivery d.
Proof.
  intros Hw Hq H. unfold ProcessEventQueue in H.
  set (N := nextPtr q) in *.
  assert (HD0 : forall f, during N q (withFocusEvent f (withEvents [] q))).
  { intros f. split; [|split; [intros p _; reflexivity|intros a Ha; exact Ha]].
    split; [apply Nat.le_refl|]. split.
    - intros p [].
    - intros p [H1 H2]. cbn in H2. unfold N in H1. lia. }
  match type of H with
  | bind ?c _ = _ => destruct c as [q1| |] eqn:E1; cbn [bind] in H; try discriminate
  end.
  assert (H1 : during N q q1 /\
             exists d1, log q1 = log q ++ focusDelivery q ++ d1 /\
                        handed d1 = [] /\ noFocusDelivery d1).
  { assert (Hid : exists d1 : list Effect, log q = log q ++ [] ++ d1 /\
                      handed d1 = [] /\ noFocusDelivery d1).
    { exists []. cbn [app]. rewrite app_nil_r. repeat split. constructor. }
    unfold focusDelivery. cbn [mFocusEvent withEvents] in E1.
    destruct (mFocusEvent q) as [event|] eqn:Ef.
    - cbn [heap withFocusEvent withEvents defunct] in E1.
      destruct (mAccessible (heap q event)) as [target|]; [|discriminate].
      destruct (defunct q target); cbn [negb] in E1.
      + inversion E1; subst. split; [exact (HD0 None)|exact Hid].
      + apply (emit_hands env N q Hw) in E1; [|apply (HD0 None)|reflexivity].
        exact E1.
    - inversion E1; subst. split; [exact (HD0 None)|exact Hid]. }
  destruct H1 as (HD1 & d1 & L1 & Hh1 & Hf1).
  match type of H with
  | bind ?c _ = _ => destruct c as [[ids q2]| |] eqn:E2; cbn [bind] in H;
                       try discriminate
  end.
  apply (processEvents_hands env N q Hw) in E2; [|exact HD1|exact Hq].
  destruct E2 as (HD2 & sub & Hsub & Hdel & d2 & L2 & Hh2 & Hf2).
  assert (H3 : hands q [] q2 q').
  { destruct ids as [[selectedIDs unselectedIDs]|];
      [|inversion H; subst; apply hands_refl].
    match type of H with
    | (if ?c then _ else _) = _ => destruct c
    end; [|inversion H; subst; apply hands_refl].
    destruct (IPCDoc env); [|discriminate].
    apply (emit_aside env N q Hw) in H; [apply H|exact HD2|reflexivity|reflexivity]. }
  destruct H3 as (d3 & L3 & Hh3 & Hf3).
  exists (d1 ++ d2 ++ d3), sub.
  split; [rewrite L3, L2, L1, <- !app_assoc; reflexivity|].
  split; [exact Hsub|]. split; [exact Hdel|]. split.
  - rewrite !handed_app, Hh1, Hh2, Hh3. cbn [map app]. apply app_nil_r.
  - apply Forall_app. split; [exact Hf1|]. apply Forall_app. split; assumption.
Qed.

(** X1. Whatever well-behaved listeners do during a drain, the events that
    [ProcessEventQueue] hands to [FireEvent] or to the selection manager are
    events of the array it started with, in the order of the array and none
    more often than it stands there, each with the content it had when the
    drain started. *)
Theorem drain_hands_over_in_queue_order (env : Env) (fuel : nat) (q q' : State) :
  wellBehaved env ->
  (forall p, In p (mEvents q) -> (p < nextPtr q)%nat) ->
  ProcessEventQueue env fuel q = Ok q' ->
  exists d sub, log q' = log q ++ focusDelivery q ++ d /\
    subseq sub (mEvents q) /\
    handed d = map (fun p => (p, heap q p)) sub.
Proof.
  intros Hw Hq H.
  destruct (ProcessEventQueue_hands env fuel q q' Hw Hq H)
    as (d & sub & L & Hs & _ & Hh & _).
  exists d, sub. auto.
Qed.

Lemma handed_In (d : list Effect) (p : EventPtr) (now : AccEvent) :
  In (FireEvent p now) d \/ In (ProcessTextSelChangeEvent p now) d ->
  In (p, now) (handed d).
Proof.
  intros H. unfold handed. apply in_flat_map.
  destruct H as [H|H]; eexists; (split; [exact H|left; reflexivity]).
Qed.

(** X2. A drain never hands over an event that was marked do-not-emit, that
    had no target, or whose target was already defunct when the drain
    started. *)
Theorem drain_skips_suppressed_and_dead_events (env : Env) (fuel : nat)
    (q q' : State) :
  wellBehaved env ->
  (forall p, In p (mEvents q) -> (p < nextPtr q)%nat) ->
  ProcessEventQueue env fuel q = Ok q' ->
  exists d, log q' = log q ++ focusDelivery q ++ d /\
    forall p now,
      In (FireEvent p now) d \/ In (ProcessTextSelChangeEvent p now) d ->
      mEventRule (heap q p) <> eDoNotEmit /\
      exists a, mAccessible (heap q p) = Some a /\ defunct q a = false.
Proof.
  intros Hw Hq H.
  destruct (ProcessEventQueue_hands env fuel q q' Hw Hq H)
    as (d & sub & L & _ & Hdel & Hh & _).
  exists d. split; [exact L|]. intros p now Hin.
  apply handed_In in Hin. rewrite Hh in Hin. apply in_map_iff in Hin.
  destruct Hin as (x & Hx & Hin). inversion Hx; subst.
  rewrite Forall_forall in Hdel. apply (Hdel p Hin).
Qed.

(** ** A drain nobody interferes with *)

Definition deliverableb (q : State) (p : EventPtr) : bool :=
  negb (rule_eqb (mEventRule (heap q p)) eDoNotEmit) &&
  match mAccessible (heap q p) with
  | Some a => negb (defunct q a)
  | None => false
  end.

(** The fields a notification without listeners leaves alone. *)
Definition undisturbed (q0 q : State) : Prop :=
  heap q = heap q0 /\ defunct q = defunct q0 /\ mDocument q = mDocument q0.

Section SilentDrain.

Variable env : Env.
Variable q0 : State.
Hypothesis Hquiet : forall e, listener env e = [].

Lemma emit_silent (fuel : nat) (e : Effect) (q q' : State) :
  undisturbed q0 q -> emit env fuel e q = Ok q' ->
  undisturbed q0 q' /\ log q' = log q ++ [e].
Proof.
  intros HU H. rewrite (emit_quiet env fuel e q Hquiet) in H.
  inversion H; subst. split; [exact HU|reflexivity].
Qed.

Lemma emit_silent_aside (fuel : nat) (e : Effect) (q q' : State) :
  undisturbed q0 q -> isDelivery e = false -> emit env fuel e q = Ok q' ->
  undisturbed q0 q' /\ hands q0 [] q q'.
Proof.
  intros HU Hd H. destruct (emit_silent fuel e q q' HU H) as [HU' L].
  split; [exact HU'|]. exists [e]. split; [exact L|]. split.
  - destruct e; simpl in Hd; try discriminate; reflexivity.
  - constructor; [|constructor]. intros p now E. subst e. discriminate.
Qed.

Lemma fireSelectedState_silent (fuel : nat) (event : EventPtr) (t : EventType)
    (q q' : State) :
  undisturbed q0 q -> fireSelectedState env fuel event t q = Ok q' ->
  undisturbed q0 q' /\ hands q0 [] q q'.
Proof.
  intros HD H. unfold fireSelectedState in H.
  destruct (type_eqb t EVENT_SELECTION_ADD);
    [eapply emit_silent_aside; try exact H; auto|].
  destruct (type_eqb t EVENT_SELECTION_REMOVE);
    [eapply emit_silent_aside; try exact H; auto|].
  destruct (type_eqb t EVENT_SELECTION);
    [|inversion H; subst; split; [exact HD|apply hands_refl]].
  destruct (asSelChange (heap q event)) as [s| |]; cbn [bind] in H; try discriminate.
  match type of H with
  | bind ?c _ = _ => destruct c as [q1| |] eqn:E1; cbn [bind] in H; try discriminate
  end.
  apply emit_silent_aside in E1; auto. destruct E1 as [HD1 H1].
  destruct (asSelChange (heap q1 event)) as [s1| |]; cbn [bind] in H; try discriminate.
  destruct (mPackedEvent s1) as [packed|]; [|inversion H; subst; auto].
  destruct (asSelChange (heap q1 packed)) as [s2| |]; cbn [bind] in H; try discriminate.
  apply emit_silent_aside in H; auto. destruct H as [HD2 H2].
  split; [exact HD2|]. apply (hands_trans q0 [] [] q q1 q'); assumption.
Qed.

Lemma processEvents_silent (fuel : nat) :
  mDocument q0 = true ->
  forall events ids q r q',
    undisturbed q0 q ->
    processEvents env fuel events ids q = Ok (r, q') ->
    undisturbed q0 q' /\ hands q0 (filter (deliverableb q0) events) q q'.
Proof.
  intros Hdoc.
  induction events as [|event rest IH]; intros ids q r q' HU H;
    cbn [processEvents] in H.
  - inversion H; subst. split; [exact HU|apply hands_refl].
  - pose proof HU as (Hh & Hd & Hm).
    cbn [filter]. unfold deliverableb at 1. rewrite <- Hh, <- Hd.
    destruct (mAccessible (heap q event)) as [target|] eqn:Ea;
      [|rewrite andb_false_r; apply (IH ids q r q' HU H)].
    destruct (defunct q target) eqn:Edef;
      [rewrite andb_false_r; apply (IH ids q r q' HU H)|].
    destruct (collectSelChange env event (mEventType (heap q event)) ids q)
      as [ids'| |]; cbn [bind] in H; try discriminate.
    destruct (rule_eqb (mEventRule (heap q event)) eDoNotEmit) eqn:Er;
      [apply (IH ids' q r q' HU H)|].
    cbn [negb andb].
    destruct (type_eqb (mEventType (heap q event)) EVENT_TEXT_SELECTION_CHANGED).
    { match type of H with
      | bind ?c _ = _ => destruct c as [q1| |] eqn:E1; cbn [bind] in H;
                           try discriminate
      end.
      apply emit_silent in E1; [|exact HU]. destruct E1 as [HU1 L1].
      destruct (IH ids' q1 r q' HU1 H) as [HU' Hrest].
      split; [exact HU'|].
      apply (hands_trans q0 [event] _ q q1 q'); [|exact Hrest].
      eexists. split; [exact L1|]. split; [cbn; rewrite Hh; reflexivity|].
      constructor; [discriminate|constructor]. }
    match type of H with
    | bind ?c _ = _ => destruct c as [q1| |] eqn:E1; cbn [bind] in H; try discriminate
    end.
    apply fireSelectedState_silent in E1; [|exact HU]. destruct E1 as [HU1 H1].
    match type of H with
    | bind ?c _ = _ => destruct c as [q2| |] eqn:E2; cbn [bind] in H; try discriminate
    end.
    apply emit_silent in E2; [|exact HU1]. destruct E2 as [HU2 L2].
    assert (H2 : hands q0 [event] q1 q2).
    { eexists. split; [exact L2|]. split;
        [cbn; rewrite (proj1 HU1); reflexivity|].
      constructor; [discriminate|constructor]. }
    rewrite (proj2 (proj2 HU2)), Hdoc in H. cbn [negb] in H.
    match type of H with
    | bind ?c _ = _ => destruct c as [q3| |] eqn:E3; cbn [bind] in H; try discriminate
    end.
    assert (H3 : undisturbed q0 q3 /\ hands q0 [] q2 q3).
    { destruct (isMutationKind (mEventType (heap q event)) && IPCDoc env);
        [|inversion E3; subst; split; [exact HU2|apply hands_refl]].
      eapply emit_silent_aside; try exact E3; auto. }
    destruct H3 as [HU3 H3].
    destruct (IH ids' q3 r q' HU3 H) as [HU' Hrest].
    split; [exact HU'|].
    apply (hands_trans q0 [event] _ q q3 q'); [|exact Hrest].
    apply (hands_trans q0 [] [event] q q1 q3); [exact H1|].
    apply (hands_trans q0 [event] [] q1 q2 q3) in H3; [|exact H2].
    rewrite app_nil_r in H3. exact H3.
Qed.

End SilentDrain.

(** X3. When the document stays attached and no listener reacts, a drain
    that completes hands over every event of the array that is not marked
    do-not-emit and has a live target: all of them, in array order, each
    exactly once. *)
Theorem undisturbed_drain_hands_over_every_live_event (env : Env) (fuel : nat)
    (q q' : State) :
  (forall e, listener env e = []) ->
  mDocument q = true ->
  ProcessEventQueue env fuel q = Ok q' ->
  exists d, log q' = log q ++ focusDelivery q ++ d /\
    handed d = map (fun p => (p, heap q p)) (filter (deliverableb q) (mEvents q)).
Proof.
  intros Hquiet Hdoc H. unfold ProcessEventQueue in H.
  assert (HU0 : forall f, undisturbed q (withFocusEvent f (withEvents [] q)))
    by (intros f; repeat split).
  match type of H with
  | bind ?c _ = _ => destruct c as [q1| |] eqn:E1; cbn [bind] in H; try discriminate
  end.
  assert (H1 : undisturbed q q1 /\ log q1 = log q ++ focusDelivery q).
  { unfold focusDelivery. cbn [mFocusEvent withEvents] in E1.
    destruct (mFocusEvent q) as [event|] eqn:Ef.
    - cbn [heap withFocusEvent withEvents defunct] in E1.
      destruct (mAccessible (heap q event)) as [target|]; [|discriminate].
      destruct (defunct q target); cbn [negb] in E1.
      + inversion E1; subst. split; [apply HU0|]. cbn. rewrite app_nil_r. reflexivity.
      + apply (emit_silent env q Hquiet) in E1; [|apply HU0]. exact E1.
    - inversion E1; subst. split; [apply HU0|]. cbn. rewrite app_nil_r. reflexivity. }
  destruct H1 as [HU1 L1].
  match type of H with
  | bind ?c _ = _ => destruct c as [[ids q2]| |] eqn:E2; cbn [bind] in H;
                       try discriminate
  end.
  apply (processEvents_silent env q Hquiet fuel Hdoc) in E2; [|exact HU1].
  destruct E2 as (HU2 & d2 & L2 & Hh2 & _).
  assert (H3 : hands q [] q2 q').
  { destruct ids as [[selectedIDs unselectedIDs]|];
      [|inversion H; subst; apply hands_refl].
    match type of H with
    | (if ?c then _ else _) = _ => destruct c
    end; [|inversion H; subst; apply hands_refl].
    destruct (IPCDoc env); [|discriminate].
    apply (emit_silent_aside env q Hquiet) in H; [apply H|exact HU2|reflexivity]. }
  destruct H3 as (d3 & L3 & Hh3 & _).
  exists (d2 ++ d3).
  split; [rewrite L3, L2, L1, <- !app_assoc; reflexivity|].
  rewrite handed_app, Hh2, Hh3. cbn [map]. apply app_nil_r.
Qed.

(** *** At a concrete input: a listener that destroys a target and queues *)

(** While the event for accessible 3 is fired, the listener destroys
    accessible 5 and queues a new event. *)
Definition stormyEnv : Env := {|
  HasNameRule := fun _ _ => false;
  HasNameDependent := fun _ => false;
  HasDescriptionDependent := fun _ => false;
  IsHTMLFileInput := fun _ => false;
  Name := fun _ => (eNameOK, false);
  RelationByType := fun _ _ => [];
  LocalParent := fun _ => None;
  IsDoc := fun _ => false;
  UniqueID := fun a => Z.of_nat a;
  IPCAccessibilityActive := false;
  IPCDoc := false;
  states_SELECTED := 2;
  defaultEventRule := eRemoveDupes;
  autoDetectedUserInput := false;
  listener := fun e => match e with
                       | FireEvent _ now =>
                           match mAccessible now with
                           | Some 3%nat =>
                               [ReactDefunct 5%nat;
                                ReactQueueEvent
                                  (plainEvent (EVENT_OTHER 1) eAllowDupes 7%nat)]
                           | _ => []
                           end
                       | _ => []
                       end
|}.

Lemma stormyEnv_wellBehaved : wellBehaved stormyEnv.
Proof.
  intros e ev H. destruct e; try (destruct H; fail).
  cbn in H. destruct (mAccessible now) as [[|[|[|[|a]]]]|];
    try (destruct H; fail).
  destruct H as [H|[H|[]]]; [discriminate|].
  inversion H; subst. intros s Hs. discriminate.
Defined.

Definition stormyQueue : State :=
  stateOf (QueueEvents stormyEnv 5
             [plainEvent (EVENT_OTHER 2) eAllowDupes 3%nat;
              plainEvent (EVENT_OTHER 2) eAllowDupes 5%nat;
              plainEvent (EVENT_OTHER 2) eDoNotEmit 6%nat;
              plainEvent (EVENT_OTHER 4) eAllowDupes 6%nat] emptyQueue).
Definition stormyDrained : State := stateOf (ProcessEventQueue stormyEnv 5 stormyQueue).

Lemma stormyQueue_bound (p : EventPtr) :
  In p (mEvents stormyQueue) -> (p < nextPtr stormyQueue)%nat.
Proof.
  intros Hp. vm_compute in Hp.
  destruct Hp as [<-|[<-|[<-|[<-|[]]]]]; vm_compute; lia.
Defined.

Lemma drain_hands_over_witness :
  exists d sub, log stormyDrained = log stormyQueue ++ focusDelivery stormyQueue ++ d /\
    subseq sub (mEvents stormyQueue) /\
    handed d = map (fun p => (p, heap stormyQueue p)) sub.
Proof.
  apply (drain_hands_over_in_queue_order stormyEnv 5 stormyQueue stormyDrained).
  - exact stormyEnv_wellBehaved.
  - exact stormyQueue_bound.
  - vm_compute. reflexivity.
Defined.

Lemma drain_skips_witness :
  exists d, log stormyDrained = log stormyQueue ++ focusDelivery stormyQueue ++ d /\
    forall p now,
      In (FireEvent p now) d \/ In (ProcessTextSelChangeEvent p now) d ->
      mEventRule (heap stormyQueue p) <> eDoNotEmit /\
      exists a, mAccessible (heap stormyQueue p) = Some a /\
                defunct stormyQueue a = false.
Proof.
  apply (drain_skips_suppressed_and_dead_events stormyEnv 5 stormyQueue stormyDrained).
  - exact stormyEnv_wellBehaved.
  - exact stormyQueue_bound.
  - vm_compute. reflexivity.
Defined.

(** The event for accessible 5 was deliverable when the drain started, and
    is skipped all the same: its target died in between. *)
Example stormy_drain_runs :
  map fst (handed (log stormyDrained)) = [0%nat; 3%nat] /\
  mEvents stormyQueue = [0%nat; 1%nat; 2%nat; 3%nat] /\
  deliverableb stormyQueue 1%nat = true /\
  mEvents stormyDrained = [4%nat].
Proof. vm_compute. repeat split. Qed.

(** *** At a concrete input: nobody listens *)

Definition calmQueue : State :=
  withDefunct (fun a => Nat.eqb a 5)
    (stateOf (QueueEvents quietEnv 5
                [plainEvent (EVENT_OTHER 2) eAllowDupes 3%nat;
                 plainEvent (EVENT_OTHER 2) eAllowDupes 5%nat;
                 plainEvent (EVENT_OTHER 2) eDoNotEmit 6%nat;
                 plainEvent EVENT_TEXT_SELECTION_CHANGED eAllowDupes 6%nat] emptyQueue)).
Definition calmDrained : State := stateOf (ProcessEventQueue quietEnv 5 calmQueue).

Lemma undisturbed_drain_witness :
  exists d, log calmDrained = log calmQueue ++ focusDelivery calmQueue ++ d /\
    handed d = map (fun p => (p, heap calmQueue p))
                   (filter (deliverableb calmQueue) (mEvents calmQueue)).
Proof.
  apply (undisturbed_drain_hands_over_every_live_event quietEnv 5 calmQueue calmDrained).
  - intros e. reflexivity.
  - reflexivity.
  - vm_compute. reflexivity.
Defined.

(** ** A drain stops when the document goes away *)

Definition isFireEvent (e : Effect) : bool :=
  match e with FireEvent _ _ => true | _ => false end.

Definition isShutdown (r : Reaction) : bool :=
  match r with ReactShutdown => true | _ => false end.

(** A fired event during which a listener detaches the document. *)
Definition detaches (env : Env) (e : Effect) : bool :=
  isFireEvent e && existsb isShutdown (listener env e).

(** After the first such event, the log holds push outcomes only. *)
Fixpoint stopsAtDetach (env : Env) (d : list Effect) : bool :=
  match d with
  | [] => true
  | e :: d' => if detaches env e then forallb isPushOutcome d' else stopsAtDetach env d'
  end.

Definition tidy (env : Env) (d : list Effect) : Prop :=
  Forall (fun e => detaches env e = false) d.

Lemma stopsAtDetach_app (env : Env) (d1 d2 : list Effect) :
  tidy env d1 -> stopsAtDetach env (d1 ++ d2) = stopsAtDetach env d2.
Proof.
  induction 1 as [|e d1 He _ IH]; [reflexivity|].
  cbn [app stopsAtDetach]. rewrite He. exact IH.
Qed.

Lemma tidy_stops (env : Env) (d : list Effect) :
  tidy env d -> stopsAtDetach env d = true.
Proof.
  intros H. rewrite <- (app_nil_r d). rewrite stopsAtDetach_app by exact H.
  reflexivity.
Qed.

Lemma pushes_tidy (env : Env) (d : list Effect) :
  forallb isPushOutcome d = true -> tidy env d.
Proof.
  intros H. apply Forall_forall. intros e He.
  rewrite forallb_forall in H. specialize (H e He).
  unfold detaches. destruct e; simpl in *; congruence.
Qed.

Lemma undelivered_tidy (env : Env) (d : list Effect) :
  (countIf isDelivery d <= 0)%nat -> tidy env d.
Proof.
  unfold countIf. induction d as [|e d IH]; intros H; [constructor|].
  cbn [filter] in H. destruct (isDelivery e) eqn:E; cbn [length] in H; [lia|].
  constructor; [|apply IH; exact H].
  unfold detaches. destruct e; simpl in *; congruence.
Qed.

Lemma stopsAtDetach_split (env : Env) (d1 d2 : list Effect) (e : Effect) :
  stopsAtDetach env (d1 ++ e :: d2) = true -> detaches env e = true ->
  Forall (fun e => isPushOutcome e = true) d2.
Proof.
  intros H He. induction d1 as [|x d1 IH]; cbn [app stopsAtDetach] in H.
  - rewrite He in H. apply Forall_forall. apply forallb_forall. exact H.
  - destruct (detaches env x); [|apply IH; exact H].
    rewrite forallb_app in H. cbn [forallb] in H.
    unfold detaches in He. destruct e; simpl in He; try discriminate.
    simpl in H. rewrite andb_false_r in H. discriminate.
Qed.

Section Detach.

Variable env : Env.

Lemma QueueEvent_document (fuel : nat) (ev : AccEvent) (q q' : State) :
  QueueEvent env fuel ev q = Ok q' -> mDocument q' = mDocument q.
Proof.
  intros H. unfold QueueEvent, alloc in H.
  destruct (PushEvent env fuel (nextPtr q) (allocated ev q)) as [[b q1]| |] eqn:E;
    cbn [bind] in H; try discriminate.
  inversion H; subst.
  apply (PushEvent_I env (fun _ => True) (fun s s' => mDocument s' = mDocument s)
           (fun _ _ => True)) in E; auto.
  - apply E.
  - intros; congruence.
  - intros fuel0 p s s' _ _ _ Hc. apply CoalesceEvents_shape in Hc.
    destruct Hc as (_ & _ & _ & C4 & _). exact C4.
Qed.

Lemma react_detached (fuel : nat) (rs : list Reaction) :
  forall q q', react env fuel rs q = Ok q' ->
    mDocument q = false \/ existsb isShutdown rs = true -> mDocument q' = false.
Proof.
  induction rs as [|r rest IH]; intros q q' H Hd; cbn [react] in H.
  - inversion H; subst. destruct Hd as [Hd|Hd]; [exact Hd|discriminate].
  - destruct r as [ev|a|].
    + destruct (QueueEvent env fuel ev q) as [q1| |] eqn:E; cbn [bind] in H;
        try discriminate.
      apply QueueEvent_document in E. apply (IH q1 q' H).
      destruct Hd as [Hd|Hd]; [left; congruence|right; exact Hd].
    + apply (IH _ q' H). exact Hd.
    + apply (IH _ q' H). left. reflexivity.
Qed.

Lemma emit_detaching (fuel : nat) (e : Effect) (q q' : State) :
  isPushOutcome e = false -> emit env fuel e q = Ok q' ->
  exists d, log q' = log q ++ e :: d /\ forallb isPushOutcome d = true /\
            (detaches env e = true -> mDocument q' = false).
Proof.
  intros He H.
  destruct (emit_log env 0 fuel e q q' He (Nat.le_0_l _) H) as (d & L & F & _).
  exists d. split; [exact L|]. split.
  - apply forallb_forall. rewrite Forall_forall in F. intros x Hx. apply (F x Hx).
  - intros Hd. unfold emit in H. apply (react_detached fuel _ _ _ H).
    right. unfold detaches in Hd. apply andb_true_iff in Hd. apply Hd.
Qed.

Lemma emit_tidy (fuel : nat) (e : Effect) (q q' : State) :
  isPushOutcome e = false -> isFireEvent e = false ->
  emit env fuel e q = Ok q' ->
  exists d, log q' = log q ++ d /\ tidy env d.
Proof.
  intros He Hf H. destruct (emit_detaching fuel e q q' He H) as (d & L & F & _).
  exists (e :: d). split; [exact L|].
  constructor; [unfold detaches; rewrite Hf; reflexivity|apply pushes_tidy; exact F].
Qed.

Lemma processEvents_stops (fuel : nat) :
  forall events ids q r q',
    processEvents env fuel events ids q = Ok (r, q') ->
    exists d, log q' = log q ++ d /\
      match r with
      | Some _ => tidy env d
      | None => stopsAtDetach env d = true
      end.
Proof.
  induction events as [|event rest IH]; intros ids q r q' H; cbn [processEvents] in H.
  - inversion H; subst. exists []. rewrite app_nil_r. split; [reflexivity|constructor].
  - assert (Hnext : forall ids0 q1 d1,
              log q1 = log q ++ d1 -> tidy env d1 ->
              processEvents env fuel rest ids0 q1 = Ok (r, q') ->
              exists d, log q' = log q ++ d /\
                match r with
                | Some _ => tidy env d
                | None => stopsAtDetach env d = true
                end).
    { intros ids0 q1 d1 L1 T1 H0.
      destruct (IH ids0 q1 r q' H0) as (d2 & L2 & T2).
      exists (d1 ++ d2). split; [rewrite L2, L1, app_assoc; reflexivity|].
      destruct r; [apply Forall_app; split; assumption|].
      rewrite stopsAtDetach_app by exact T1. exact T2. }
    assert (Hskip : forall ids0, processEvents env fuel rest ids0 q = Ok (r, q') ->
              exists d, log q' = log q ++ d /\
                match r with
                | Some _ => tidy env d
                | None => stopsAtDetach env d = true
                end).
    { intros ids0. apply (Hnext ids0 q []); [rewrite app_nil_r; reflexivity|constructor]. }
    destruct (mAccessible (heap q event)) as [target|]; [|apply (Hskip _ H)].
    destruct (defunct q target); [apply (Hskip _ H)|].
    destruct (collectSelChange env event (mEventType (heap q event)) ids q)
      as [ids'| |]; cbn [bind] in H; try discriminate.
    destruct (rule_eqb (mEventRule (heap q event)) eDoNotEmit); [apply (Hskip _ H)|].
    destruct (type_eqb (mEventType (heap q event)) EVENT_TEXT_SELECTION_CHANGED).
    { match type of H with
      | bind ?c _ = _ => destruct c as [q1| |] eqn:E1; cbn [bind] in H;
                           try discriminate
      end.
      apply emit_tidy in E1; [|reflexivity|reflexivity].
      destruct E1 as (d1 & L1 & T1). apply (Hnext ids' q1 d1 L1 T1 H). }
    match type of H with
    | bind ?c _ = _ => destruct c as [q1| |] eqn:E1; cbn [bind] in H; try discriminate
    end.
    apply fireSelectedState_delivers in E1. destruct E1 as (d1 & L1 & C1).
    apply (undelivered_tidy env) in C1.
    match type of H with
    | bind ?c _ = _ => destruct c as [q2| |] eqn:E2; cbn [bind] in H; try discriminate
    end.
    apply emit_detaching in E2; [|reflexivity].
    destruct E2 as (d2 & L2 & F2 & D2).
    destruct (mDocument q2) eqn:Edoc; cbn [negb] in H.
    + assert (T2 : tidy env (d1 ++ FireEvent event (heap q1 event) :: d2)).
      { apply Forall_app. split; [exact C1|].
        constructor; [|apply pushes_tidy; exact F2].
        destruct (detaches env (FireEvent event (heap q1 event))) eqn:Ed;
          [|reflexivity].
        exact (D2 eq_refl). }
      match type of H with
      | bind ?c _ = _ => destruct c as [q3| |] eqn:E3; cbn [bind] in H;
                           try discriminate
      end.
      assert (H3 : exists d3, log q3 = log q2 ++ d3 /\ tidy env d3).
      { destruct (isMutationKind (mEventType (heap q event)) && IPCDoc env);
          [apply emit_tidy in E3; auto|].
        inversion E3; subst. exists []. rewrite app_nil_r.
        split; [reflexivity|constructor]. }
      destruct H3 as (d3 & L3 & T3).
      apply (Hnext ids' q3 ((d1 ++ FireEvent event (heap q1 event) :: d2) ++ d3));
        [|apply Forall_app; split; assumption|exact H].
      rewrite L3, L2, L1, <- !app_assoc. reflexivity.
    + inversion H; subst.
      exists (d1 ++ FireEvent event (heap q1 event) :: d2).
      split; [rewrite L2, L1, <- app_assoc; reflexivity|].
      rewrite stopsAtDetach_app by exact C1. cbn [stopsAtDetach].
      destruct (detaches env (FireEvent event (heap q1 event))); [exact F2|].
      apply tidy_stops. apply pushes_tidy. exact F2.
Qed.

End Detach.

(** X4. When a listener detaches the document while an event is being
    fired, the drain ends with that event: the rest of the array is given
    up, and neither queued mutation events nor the selection report are sent
    afterwards.  All the log holds after it are the outcomes of the pushes
    that the event's own listeners made. *)
Theorem drain_stops_when_document_is_detached (env : Env) (fuel : nat)
    (q q' : State) :
  ProcessEventQueue env fuel q = Ok q' ->
  exists d, log q' = log q ++ d /\
    forall d1 p now d2,
      d = d1 ++ FireEvent p now :: d2 ->
      In ReactShutdown (listener env (FireEvent p now)) ->
      Forall (fun e => isPushOutcome e = true) d2.
Proof.
  intros H. unfold ProcessEventQueue in H.
  match type of H with
  | bind ?c _ = _ => destruct c as [q1| |] eqn:E1; cbn [bind] in H; try discriminate
  end.
  assert (H1 : exists d1, log q1 = log q ++ d1 /\ tidy env d1).
  { assert (Hid : exists d1 : list Effect, log q = log q ++ d1 /\ tidy env d1)
      by (exists []; rewrite app_nil_r; split; [reflexivity|constructor]).
    cbn [mFocusEvent withEvents] in E1.
    destruct (mFocusEvent q) as [event|].
    - cbn [heap withFocusEvent withEvents defunct] in E1.
      destruct (mAccessible (heap q event)) as [target|]; [|discriminate].
      destruct (defunct q target); cbn [negb] in E1.
      + inversion E1; subst. exact Hid.
      + apply emit_tidy in E1; [exact E1|reflexivity|reflexivity].
    - inversion E1; subst. exact Hid. }
  destruct H1 as (d1 & L1 & T1).
  match type of H with
  | bind ?c _ = _ => destruct c as [[ids q2]| |] eqn:E2; cbn [bind] in H;
                       try discriminate
  end.
  apply processEvents_stops in E2. destruct E2 as (d2 & L2 & T2).
  assert (H3 : exists d3, log q' = log q2 ++ d3 /\
             match ids with Some _ => tidy env d3 | None => d3 = [] end).
  { destruct ids as [[selectedIDs unselectedIDs]|];
      [|inversion H; subst; exists []; rewrite app_nil_r; auto].
    assert (Hid : exists d3 : list Effect, log q2 = log q2 ++ d3 /\ tidy env d3)
      by (exists []; rewrite app_nil_r; split; [reflexivity|constructor]).
    match type of H with
    | (if ?c then _ else _) = _ => destruct c
    end; [|inversion H; subst; exact Hid].
    destruct (IPCDoc env); [|discriminate].
    apply emit_tidy in H; [exact H|reflexivity|reflexivity]. }
  destruct H3 as (d3 & L3 & T3).
  exists (d1 ++ d2 ++ d3).
  split; [rewrite L3, L2, L1, <- !app_assoc; reflexivity|].
  assert (Hs : stopsAtDetach env (d1 ++ d2 ++ d3) = true).
  { rewrite stopsAtDetach_app by exact T1.
    destruct ids as [ids|].
    - apply tidy_stops. apply Forall_app. split; assumption.
    - subst d3. rewrite app_nil_r. exact T2. }
  intros d1' p now d2' Hd Hin. rewrite Hd in Hs.
  apply (stopsAtDetach_split env d1' d2' _ Hs).
  unfold detaches. cbn [isFireEvent andb]. apply existsb_exists.
  exists ReactShutdown. split; [exact Hin|reflexivity].
Qed.

(** While the event for accessible 3 is fired, the listener queues an event
    and detaches the document. *)
Definition closingEnv : Env := {|
  HasNameRule := fun _ _ => false;
  HasNameDependent := fun _ => false;
  HasDescriptionDependent := fun _ => false;
  IsHTMLFileInput := fun _ => false;
  Name := fun _ => (eNameOK, false);
  RelationByType := fun _ _ => [];
  LocalParent := fun _ => None;
  IsDoc := fun _ => false;
  UniqueID := fun a => Z.of_nat a;
  IPCAccessibilityActive := true;
  IPCDoc := true;
  states_SELECTED := 2;
  defaultEventRule := eRemoveDupes;
  autoDetectedUserInput := false;
  listener := fun e => match e with
                       | FireEvent _ now =>
                           match mAccessible now with
                           | Some 3%nat =>
                               [ReactShutdown;
                                ReactQueueEvent
                                  (plainEvent (EVENT_OTHER 1) eAllowDupes 7%nat)]
                           | _ => []
                           end
                       | _ => []
                       end
|}.

Definition closingQueue : State :=
  stateOf (QueueEvents closingEnv 5
             [plainEvent (EVENT_OTHER 2) eAllowDupes 4%nat;
              plainEvent EVENT_REORDER eAllowDupes 3%nat;
              plainEvent (EVENT_OTHER 2) eAllowDupes 6%nat] emptyQueue).
Definition closingDrained : State := stateOf (ProcessEventQueue closingEnv 5 closingQueue).

Lemma drain_stops_witness :
  exists d, log closingDrained = log closingQueue ++ d /\
    forall d1 p now d2,
      d = d1 ++ FireEvent p now :: d2 ->
      In ReactShutdown (listener closingEnv (FireEvent p now)) ->
      Forall (fun e => isPushOutcome e = true) d2.
Proof.
  apply (drain_stops_when_document_is_detached closingEnv 5 closingQueue closingDrained).
  vm_compute. reflexivity.
Defined.

(** The third event of the array is alive and not suppressed, and is never
    handed over. *)
Example closing_drain_runs :
  map fst (handed (log closingDrained)) = [0%nat; 1%nat] /\
  mEvents closingQueue = [0%nat; 1%nat; 2%nat] /\
  deliverableb closingQueue 2%nat = true /\
  countIf (fun e => match e with SendQueuedMutationEvents => true | _ => false end)
    (log closingDrained) = 0%nat.
Proof. vm_compute. repeat split. Qed.

(** ** A state-change push, in closed form *)

(** A pending state-change event for target [a] and state bit [st]. *)
Definition sameStateChange (a : Acc) (st : Z) (e : AccEvent) : bool :=
  negb (rule_eqb (mEventRule e) eDoNotEmit)
  && type_eqb (mEventType e) EVENT_STATE_CHANGE
  && acc_eqb (mAccessible e) (Some a)
  && match payload e with
     | StateChangeEvent st' _ => st' =? st
     | _ => false
     end.

Definition flagOf (e : AccEvent) : bool :=
  match payload e with
  | StateChangeEvent _ en => en
  | _ => false
  end.

(** ... and with the flag opposite to [en]. *)
Definition opposes (a : Acc) (st : Z) (en : bool) (e : AccEvent) : bool :=
  sameStateChange a st e && negb (Bool.eqb (flagOf e) en).

Lemma skipn_nth_error {A : Type} (l : list A) :
  forall i x, nth_error l i = Some x -> skipn i l = x :: skipn (S i) l.
Proof.
  induction l as [|y l IH]; intros [|i] x H; try discriminate.
  - inversion H; subst. reflexivity.
  - cbn [nth_error] in H. rewrite skipn_cons. rewrite (IH i x H). reflexivity.
Qed.

Lemma skipn_incl {A : Type} (l : list A) :
  forall k x, In x (skipn k l) -> In x l.
Proof.
  induction l as [|y l IH]; intros [|k] x H; try exact H.
  right. apply (IH k). exact H.
Qed.

Lemma withRule_withRule (r1 r2 : EEventRule) (e : AccEvent) :
  withRule r1 (withRule r2 e) = withRule r1 e.
Proof. reflexivity. Qed.

Section StateChangePush.

Variables (a : Acc) (st : Z) (en : bool) (ev : AccEvent).
Hypothesis Hev : isStateChangeOf ev a st en.

Lemma coalesceStateChange_step (s : State) (t p : EventPtr) (i : Z) :
  ElementAt (mEvents s) i = Ok p ->
  heap s t = ev \/ heap s t = withRule eDoNotEmit ev ->
  (mEventType (heap s p) = EVENT_STATE_CHANGE -> mAccessible (heap s p) = Some a ->
   exists st' en', payload (heap s p) = StateChangeEvent st' en') ->
  coalesceStateChange t i s
  = Ok (Continue
          (if sameStateChange a st (heap s p) then
             if negb (Bool.eqb (flagOf (heap s p)) en)
             then modify t (withRule eDoNotEmit) (modify p (withRule eDoNotEmit) s)
             else modify p (withRule eDoNotEmit) s
           else s)).
Proof.
  intros E Ht Hwt. destruct Hev as (Hty & _ & Hacc & Hpl).
  assert (Ht' : mEventType (heap s t) = EVENT_STATE_CHANGE /\
                mAccessible (heap s t) = Some a /\
                payload (heap s t) = StateChangeEvent st en)
    by (destruct Ht as [-> | ->]; cbn; auto).
  destruct Ht' as (T1 & T2 & T3).
  unfold coalesceStateChange, sameStateChange, flagOf. rewrite E. cbn [bind].
  rewrite T1, T2.
  destruct (negb (rule_eqb (mEventRule (heap s p)) eDoNotEmit)); [|reflexivity].
  destruct (type_eqb (mEventType (heap s p)) EVENT_STATE_CHANGE) eqn:Et; [|reflexivity].
  destruct (acc_eqb (mAccessible (heap s p)) (Some a)) eqn:Ea; [|reflexivity].
  cbn [andb]. apply type_eqb_true in Et.
  assert (Hpa : mAccessible (heap s p) = Some a).
  { destruct (mAccessible (heap s p)) as [x|]; simpl in Ea; [|discriminate].
    apply Nat.eqb_eq in Ea. congruence. }
  destruct (Hwt Et Hpa) as (st' & en' & Hp).
  unfold asStateChange. rewrite Hp, T3. cbn [bind fst snd].
  destruct (st' =? st); [|reflexivity].
  destruct (Bool.eqb en' en); reflexivity.
Qed.

Lemma sameStateChange_suppressed (e : AccEvent) :
  sameStateChange a st (withRule eDoNotEmit e) = false.
Proof. reflexivity. Qed.

(** The whole scan: every earlier pending event for the same target and
    state bit is suppressed, and the tail with them when one of them carried
    the opposite flag. *)
Lemma scanDown_stateChange_all (s0 : State) (L : list EventPtr) (t : EventPtr) :
  mEvents s0 = L ++ [t] -> ~ In t L -> heap s0 t = ev ->
  (forall p, In p L -> mEventType (heap s0 p) = EVENT_STATE_CHANGE ->
     mAccessible (heap s0 p) = Some a ->
     exists st' en', payload (heap s0 p) = StateChangeEvent st' en') ->
  exists s',
    scanDown (coalesceStateChange t) (length L) s0 = Ok (Continue s') /\
    sameShape s0 s' /\
    (forall x, ~ In x L -> x <> t -> heap s' x = heap s0 x) /\
    (forall p, In p L ->
       heap s' p = if sameStateChange a st (heap s0 p)
                   then withRule eDoNotEmit (heap s0 p) else heap s0 p) /\
    heap s' t = if existsb (fun p => opposes a st en (heap s0 p)) L
                then withRule eDoNotEmit ev else ev.
Proof.
  intros Hm Ht Hh Hwt.
  set (P := fun (k : nat) (s : State) =>
    sameShape s0 s /\
    (forall x, ~ In x L -> x <> t -> heap s x = heap s0 x) /\
    (forall p, In p L ->
       heap s p = heap s0 p \/
       (sameStateChange a st (heap s0 p) = true /\ In p (skipn k L))) /\
    (forall p, In p (skipn k L) -> sameStateChange a st (heap s0 p) = true ->
       heap s p = withRule eDoNotEmit (heap s0 p)) /\
    heap s t = if existsb (fun p => opposes a st en (heap s0 p)) (skipn k L)
               then withRule eDoNotEmit ev else ev).
  destruct (scanDown_total (coalesceStateChange t) P (fun _ => False) (length L))
    with (s := s0) as (r & Hrun & Hr).
  - intros i s Hi (HS & Hout & Hdis & Hhit & Htail).
    destruct (nth_error L i) as [p|] eqn:Hnth;
      [|apply nth_error_None in Hnth; lia].
    assert (Hin : In p L) by (eapply nth_error_In; exact Hnth).
    assert (Hpt : p <> t) by (intros ->; contradiction).
    assert (HE : ElementAt (mEvents s) (Z.of_nat i) = Ok p).
    { apply ElementAt_nth. destruct HS as (_ & -> & _). rewrite Hm.
      rewrite nth_error_app1 by exact Hi. exact Hnth. }
    unfold P. rewrite (skipn_nth_error L i p Hnth). cbn [existsb].
    assert (Htl : heap s t = ev \/ heap s t = withRule eDoNotEmit ev)
      by (rewrite Htail; destruct (existsb _ _); auto).
    eexists. split.
    { apply (coalesceStateChange_step s t p _ HE Htl).
      destruct (Hdis p Hin) as [-> | [Hs Hi']]; [apply Hwt; exact Hin|].
      rewrite (Hhit p Hi' Hs). cbn [withRule mEventType mAccessible payload].
      apply Hwt; exact Hin. }
    destruct (Hdis p Hin) as [Hsame | [Hs Hi']].
    + rewrite Hsame. unfold opposes at 1.
      destruct (sameStateChange a st (heap s0 p)) eqn:Ehit; cbn [andb orb].
      * assert (Hp' : forall (b : bool) s1, sameShape s0 s1 ->
                  (forall x, x <> p -> x <> t -> heap s1 x = heap s x) ->
                  heap s1 p = withRule eDoNotEmit (heap s0 p) ->
                  heap s1 t = (if b then withRule eDoNotEmit ev else heap s t) ->
                  sameShape s0 s1 /\
                  (forall x, ~ In x L -> x <> t -> heap s1 x = heap s0 x) /\
                  (forall p0, In p0 L ->
                     heap s1 p0 = heap s0 p0 \/
                     (sameStateChange a st (heap s0 p0) = true /\
                      In p0 (p :: skipn (S i) L))) /\
                  (forall p0, In p0 (p :: skipn (S i) L) ->
                     sameStateChange a st (heap s0 p0) = true ->
                     heap s1 p0 = withRule eDoNotEmit (heap s0 p0)) /\
                  heap s1 t
                  = if b || existsb (fun p0 => opposes a st en (heap s0 p0))
                                    (skipn (S i) L)
                    then withRule eDoNotEmit ev else ev).
        { intros b s1 HS1 Ho1 Hp1 Ht1.
          split; [exact HS1|]. split; [|split; [|split]].
          - intros x Hx Hxt. rewrite Ho1; [apply Hout; assumption| |exact Hxt].
            intros ->. contradiction.
          - intros p' Hp'. destruct (Nat.eq_dec p' p) as [->|Hne].
            + right. split; [exact Ehit|left; reflexivity].
            + assert (p' <> t) by (intros ->; contradiction).
              rewrite Ho1 by assumption.
              destruct (Hdis p' Hp') as [H1|[H1 H2]]; [left; exact H1|].
              right. split; [exact H1|right; exact H2].
          - intros p' Hp' Hs'. destruct (Nat.eq_dec p' p) as [->|Hne];
              [exact Hp1|].
            destruct Hp' as [Heq|Hp']; [congruence|].
            assert (p' <> t).
            { intros ->. apply Ht. apply (skipn_incl L (S i)). exact Hp'. }
            rewrite Ho1 by assumption. apply Hhit; assumption.
          - rewrite Ht1. destruct b; cbn [orb]; [reflexivity|exact Htail]. }
        destruct (negb (Bool.eqb (flagOf (heap s0 p)) en)) eqn:Eopp.
        -- apply (Hp' true); auto with shape.
           ++ intros x Hx Hxt. rewrite !heap_modify_other by assumption. reflexivity.
           ++ rewrite heap_modify_other, heap_modify_same by assumption.
              rewrite Hsame. reflexivity.
           ++ rewrite heap_modify_same, heap_modify_other by congruence.
              destruct Htl as [-> | ->]; reflexivity.
        -- apply (Hp' false); auto with shape.
           ++ intros x Hx Hxt. rewrite !heap_modify_other by assumption. reflexivity.
           ++ rewrite heap_modify_same. rewrite Hsame. reflexivity.
           ++ rewrite heap_modify_other by congruence. reflexivity.
      * split; [exact HS|]. split; [exact Hout|]. split; [|split].
        -- intros p' Hp'. destruct (Hdis p' Hp') as [H1|[H1 H2]]; [left; exact H1|].
           right. split; [exact H1|right; exact H2].
        -- intros p' [Heq|Hp'] Hs'; [congruence|]. apply Hhit; assumption.
        -- exact Htail.
    + rewrite (Hhit p Hi' Hs), sameStateChange_suppressed.
      split; [exact HS|]. split; [exact Hout|]. split; [|split].
      * intros p' Hp'. destruct (Hdis p' Hp') as [H1|[H1 H2]]; [left; exact H1|].
        right. split; [exact H1|right; exact H2].
      * intros p' [Heq|Hp'] Hs'; [subst p'|]; apply Hhit; assumption.
      * rewrite Htail. destruct (opposes a st en (heap s0 p)) eqn:Eo; [|reflexivity].
        cbn [orb]. replace (existsb _ (skipn (S i) L)) with true; [reflexivity|].
        symmetry. apply existsb_exists. exists p. split; assumption.
  - unfold P. rewrite skipn_all. cbn [existsb].
    split; [apply sameShape_refl|]. split; [reflexivity|].
    split; [intros; left; reflexivity|]. split; [intros p []|exact Hh].
  - destruct r as [s'|v]; [|contradiction].
    destruct Hr as (HS & Hout & Hdis & Hhit & Htail). rewrite skipn_O in *.
    exists s'. split; [exact Hrun|]. split; [exact HS|]. split; [exact Hout|].
    split; [|exact Htail].
    intros p Hp. destruct (sameStateChange a st (heap s0 p)) eqn:E.
    + apply Hhit; assumption.
    + destruct (Hdis p Hp) as [H1|[H1 _]]; [exact H1|congruence].
Qed.

End StateChangePush.

Lemma QueueEvent_stateChange_closed (env : Env) (fuel : nat) (q : State)
    (ev : AccEvent) (a : Acc) (st : Z) (en : bool) :
  isStateChangeOf ev a st en ->
  (forall p, In p (mEvents q) -> (p < nextPtr q)%nat) ->
  (forall p, In p (mEvents q) -> mEventType (heap q p) = EVENT_STATE_CHANGE ->
     mAccessible (heap q p) = Some a ->
     exists st' en', payload (heap q p) = StateChangeEvent st' en') ->
  Length (mEvents q) + 1 < 2 ^ 32 -> (length (mEvents q) <= fuel)%nat ->
  exists q',
    QueueEvent env (S fuel) ev q = Ok q' /\
    mEvents q' = mEvents q ++ [nextPtr q] /\
    log q' = log q ++ [PushAppended (nextPtr q)] /\
    (forall p, In p (mEvents q) ->
       heap q' p = if sameStateChange a st (heap q p)
                   then withRule eDoNotEmit (heap q p) else heap q p) /\
    heap q' (nextPtr q)
    = (if existsb (fun p => opposes a st en (heap q p)) (mEvents q)
       then withRule eDoNotEmit ev else ev) /\
    (forall x, ~ In x (mEvents q) -> x <> nextPtr q -> heap q' x = heap q x).
Proof.
  intros Hev Hq Hwt Hlen Hfuel. pose proof Hev as (Hty & Hr & Hacc & Hpl).
  unfold QueueEvent, alloc.
  rewrite PushEvent_appends by (rewrite heap_allocated; congruence).
  set (qb := record (PushAppended (nextPtr q))
               (withEvents (mEvents (allocated ev q) ++ [nextPtr q]) (allocated ev q))).
  assert (Hhb : heap qb (nextPtr q) = ev) by (unfold qb; heap_eq).
  assert (Hho : forall x, x <> nextPtr q -> heap qb x = heap q x)
    by (intros x Hx; unfold qb; heap_eq).
  assert (Hhl : forall p, In p (mEvents q) -> heap qb p = heap q p).
  { intros p Hp. apply Hho. specialize (Hq p Hp). lia. }
  assert (Hnt : ~ In (nextPtr q) (mEvents q))
    by (intros Hin; specialize (Hq _ Hin); lia).
  destruct (scanDown_stateChange_all a st en ev Hev qb (mEvents q) (nextPtr q))
    as (s' & Hrun & HS & Hout & Hin & Htail); auto.
  { intros p Hp. rewrite (Hhl p Hp). apply Hwt. exact Hp. }
  exists s'.
  rewrite (CoalesceEvents_stateChange (S fuel) qb (mEvents q) (nextPtr q));
    [|reflexivity|exact Hlen|lia|rewrite Hhb; exact Hr].
  rewrite Hrun. cbn [bind leave].
  assert (Hst : startsPropagation (mEventType (heap s' (nextPtr q))) = false).
  { rewrite Htail. destruct (existsb _ _); cbn [withRule mEventType];
      rewrite Hty; reflexivity. }
  rewrite Hst. destruct HS as (_ & S2 & _ & _ & _ & S6).
  split; [reflexivity|]. split; [rewrite S2; reflexivity|].
  split; [rewrite S6; reflexivity|]. split; [|split].
  - intros p Hp. rewrite (Hin p Hp), (Hhl p Hp). reflexivity.
  - rewrite Htail. rewrite (existsb_agree _ (fun p => opposes a st en (heap q p)));
      [reflexivity|]. intros p Hp. rewrite (Hhl p Hp). reflexivity.
  - intros x Hx Hxt. rewrite (Hout x Hx Hxt). apply Hho. exact Hxt.
Qed.

(** X5. Pushing a state-change event suppresses every earlier pending
    state-change event of the queue for the same target and state bit,
    whatever its flag and however many there are; the new event is
    suppressed as well exactly when one of them carried the opposite flag;
    every other event object is left as it was.  So at most one
    state-change event per target and state bit is ever left to emit. *)
Theorem state_change_push_suppresses_earlier_ones (env : Env) (fuel : nat)
    (q : State) (ev : AccEvent) (a : Acc) (st : Z) (en : bool) :
  isStateChangeOf ev a st en ->
  (forall p, In p (mEvents q) -> (p < nextPtr q)%nat) ->
  (forall p, In p (mEvents q) -> mEventType (heap q p) = EVENT_STATE_CHANGE ->
     mAccessible (heap q p) = Some a ->
     exists st' en', payload (heap q p) = StateChangeEvent st' en') ->
  Length (mEvents q) + 1 < 2 ^ 32 -> (length (mEvents q) <= fuel)%nat ->
  exists q',
    QueueEvent env (S fuel) ev q = Ok q' /\
    mEvents q' = mEvents q ++ [nextPtr q] /\
    (forall p, In p (mEvents q) ->
       heap q' p = if sameStateChange a st (heap q p)
                   then withRule eDoNotEmit (heap q p) else heap q p) /\
    heap q' (nextPtr q)
    = (if existsb (fun p => opposes a st en (heap q p)) (mEvents q)
       then withRule eDoNotEmit ev else ev) /\
    (forall x, ~ In x (mEvents q) -> x <> nextPtr q -> heap q' x = heap q x) /\
    (forall p, In p (mEvents q) -> sameStateChange a st (heap q' p) = false).
Proof.
  intros Hev Hq Hwt Hlen Hfuel.
  destruct (QueueEvent_stateChange_closed env fuel q ev a st en Hev Hq Hwt Hlen Hfuel)
    as (q' & Hrun & Hm & _ & Hin & Htail & Hout).
  exists q'. repeat (split; [assumption|]).
  intros p Hp. rewrite (Hin p Hp).
  destruct (sameStateChange a st (heap q p)) eqn:E; [reflexivity|exact E].
Qed.

(** Two events that set bit 8 of accessible 3, one for another bit and one
    for another accessible are queued; the bit is then cleared. *)
Definition stateQueue : State :=
  stateOf (QueueEvents quietEnv 5
             [stateEvent 3%nat 8 true; stateEvent 3%nat 4 true;
              stateEvent 5%nat 8 true] emptyQueue).

Lemma state_change_push_witness :
  exists q',
    QueueEvent quietEnv 4 (stateEvent 3%nat 8 false) stateQueue = Ok q' /\
    mEvents q' = mEvents stateQueue ++ [nextPtr stateQueue] /\
    (forall p, In p (mEvents stateQueue) ->
       heap q' p = if sameStateChange 3%nat 8 (heap stateQueue p)
                   then withRule eDoNotEmit (heap stateQueue p)
                   else heap stateQueue p) /\
    heap q' (nextPtr stateQueue)
    = (if existsb (fun p => opposes 3%nat 8 false (heap stateQueue p))
                  (mEvents stateQueue)
       then withRule eDoNotEmit (stateEvent 3%nat 8 false)
       else stateEvent 3%nat 8 false) /\
    (forall x, ~ In x (mEvents stateQueue) -> x <> nextPtr stateQueue ->
       heap q' x = heap stateQueue x) /\
    (forall p, In p (mEvents stateQueue) ->
       sameStateChange 3%nat 8 (heap q' p) = false).
Proof.
  apply (state_change_push_suppresses_earlier_ones quietEnv 3 stateQueue
           (stateEvent 3%nat 8 false) 3%nat 8 false).
  - repeat split.
  - intros p Hp. vm_compute in Hp. destruct Hp as [<-|[<-|[<-|[]]]]; vm_compute; lia.
  - intros p Hp _ _. vm_compute in Hp.
    destruct Hp as [<-|[<-|[<-|[]]]]; vm_compute; eauto.
  - vm_compute. reflexivity.
  - vm_compute. lia.
Defined.

Example state_changes_net_effect :
  map (fun p => mEventRule (heap (stateOf (QueueEvents quietEnv 6
                                   [stateEvent 3%nat 8 true; stateEvent 3%nat 8 true;
                                    stateEvent 3%nat 8 false; stateEvent 3%nat 8 false]
                                   emptyQueue)) p))
      [0%nat; 1%nat; 2%nat; 3%nat]
  = [eDoNotEmit; eDoNotEmit; eDoNotEmit; eCoalesceStateChange].
Proof. vm_compute. reflexivity. Qed.

(** ** A text-selection-change push, in closed form *)

(** An [AccTextSelChangeEvent] for target [a] and selection [sel]. *)
Definition isTextSelChangeOf (ev : AccEvent) (a : Acc) (sel : nat) : Prop :=
  mEventType ev = EVENT_TEXT_SELECTION_CHANGED /\
  mEventRule ev = eCoalesceTextSelChange /\
  mAccessible ev = Some a /\
  payload ev = TextSelChangeEvent sel.

(** A pending text-selection-change event for the selection [sel] or for
    the target [a]. *)
Definition sameTextSelChange (a : Acc) (sel : nat) (e : AccEvent) : bool :=
  negb (rule_eqb (mEventRule e) eDoNotEmit)
  && type_eqb (mEventType e) EVENT_TEXT_SELECTION_CHANGED
  && match payload e with
     | TextSelChangeEvent sel' => Nat.eqb sel' sel || acc_eqb (mAccessible e) (Some a)
     | _ => false
     end.

Section TextSelChangePush.

Variables (a : Acc) (sel : nat) (ev : AccEvent).
Hypothesis Hev : isTextSelChangeOf ev a sel.

Lemma coalesceTextSelChange_step (s : State) (t p : EventPtr) (i : Z) :
  ElementAt (mEvents s) i = Ok p ->
  heap s t = ev ->
  (mEventType (heap s p) = EVENT_TEXT_SELECTION_CHANGED ->
   exists sel', payload (heap s p) = TextSelChangeEvent sel') ->
  coalesceTextSelChange t i s
  = Ok (Continue (if sameTextSelChange a sel (heap s p)
                  then modify p (withRule eDoNotEmit) s else s)).
Proof.
  intros E Ht Hwt. destruct Hev as (Hty & _ & Hacc & Hpl).
  unfold coalesceTextSelChange, sameTextSelChange. rewrite E. cbn [bind].
  rewrite Ht, Hty, Hacc.
  destruct (negb (rule_eqb (mEventRule (heap s p)) eDoNotEmit)); [|reflexivity].
  destruct (type_eqb (mEventType (heap s p)) EVENT_TEXT_SELECTION_CHANGED) eqn:Et;
    [|reflexivity].
  cbn [andb]. apply type_eqb_true in Et.
  destruct (Hwt Et) as (sel' & Hp).
  unfold asTextSelChange. rewrite Hp, Hpl. cbn [bind].
  destruct (Nat.eqb sel' sel || acc_eqb (mAccessible (heap s p)) (Some a));
    reflexivity.
Qed.

Lemma scanDown_textSelChange_all (s0 : State) (L : list EventPtr) (t : EventPtr) :
  mEvents s0 = L ++ [t] -> ~ In t L -> heap s0 t = ev ->
  (forall p, In p L -> mEventType (heap s0 p) = EVENT_TEXT_SELECTION_CHANGED ->
     exists sel', payload (heap s0 p) = TextSelChangeEvent sel') ->
  exists s',
    scanDown (coalesceTextSelChange t) (length L) s0 = Ok (Continue s') /\
    sameShape s0 s' /\
    (forall x, ~ In x L -> heap s' x = heap s0 x) /\
    (forall p, In p L ->
       heap s' p = if sameTextSelChange a sel (heap s0 p)
                   then withRule eDoNotEmit (heap s0 p) else heap s0 p).
Proof.
  intros Hm Ht Hh Hwt.
  set (P := fun (k : nat) (s : State) =>
    sameShape s0 s /\
    (forall x, ~ In x L -> heap s x = heap s0 x) /\
    (forall p, In p L ->
       heap s p = heap s0 p \/
       (sameTextSelChange a sel (heap s0 p) = true /\
        heap s p = withRule eDoNotEmit (heap s0 p))) /\
    (forall p, In p (skipn k L) -> sameTextSelChange a sel (heap s0 p) = true ->
       heap s p = withRule eDoNotEmit (heap s0 p))).
  destruct (scanDown_total (coalesceTextSelChange t) P (fun _ => False) (length L))
    with (s := s0) as (r & Hrun & Hr).
  - intros i s Hi (HS & Hout & Hdis & Hhit).
    destruct (nth_error L i) as [p|] eqn:Hnth;
      [|apply nth_error_None in Hnth; lia].
    assert (Hin : In p L) by (eapply nth_error_In; exact Hnth).
    assert (HE : ElementAt (mEvents s) (Z.of_nat i) = Ok p).
    { apply ElementAt_nth. destruct HS as (_ & -> & _). rewrite Hm.
      rewrite nth_error_app1 by exact Hi. exact Hnth. }
    assert (Htl : heap s t = ev) by (rewrite (Hout t Ht); exact Hh).
    unfold P. rewrite (skipn_nth_error L i p Hnth).
    eexists. split.
    { apply (coalesceTextSelChange_step s t p _ HE Htl).
      destruct (Hdis p Hin) as [-> | [_ ->]]; [apply Hwt; exact Hin|].
      cbn [withRule mEventType payload]. apply Hwt; exact Hin. }
    destruct (Hdis p Hin) as [Hsame | [Hs Hd]].
    + rewrite Hsame.
      destruct (sameTextSelChange a sel (heap s0 p)) eqn:Ehit.
      * split; [auto with shape|]. split; [|split].
        -- intros x Hx. rewrite heap_modify_other by (intros ->; contradiction).
           apply Hout. exact Hx.
        -- intros p' Hp'. destruct (Nat.eq_dec p' p) as [->|Hne].
           ++ right. split; [exact Ehit|]. rewrite heap_modify_same, Hsame. reflexivity.
           ++ rewrite heap_modify_other by exact Hne. apply Hdis. exact Hp'.
        -- intros p' Hp' Hs'. destruct (Nat.eq_dec p' p) as [->|Hne].
           ++ rewrite heap_modify_same, Hsame. reflexivity.
           ++ rewrite heap_modify_other by exact Hne.
              destruct Hp' as [Heq|Hp']; [congruence|]. apply Hhit; assumption.
      * split; [exact HS|]. split; [exact Hout|]. split; [exact Hdis|].
        intros p' [Heq|Hp'] Hs'; [congruence|]. apply Hhit; assumption.
    + rewrite Hd. cbn [sameTextSelChange withRule mEventRule rule_eqb].
      replace (sameTextSelChange a sel (withRule eDoNotEmit (heap s0 p))) with false
        by reflexivity.
      split; [exact HS|]. split; [exact Hout|]. split; [exact Hdis|].
      intros p' [Heq|Hp'] Hs'; [subst p'; exact Hd|]. apply Hhit; assumption.
  - unfold P. rewrite skipn_all.
    split; [apply sameShape_refl|]. split; [reflexivity|].
    split; [intros; left; reflexivity|intros p []].
  - destruct r as [s'|v]; [|contradiction].
    destruct Hr as (HS & Hout & Hdis & Hhit). rewrite skipn_O in *.
    exists s'. split; [exact Hrun|]. split; [exact HS|]. split; [exact Hout|].
    intros p Hp. destruct (sameTextSelChange a sel (heap s0 p)) eqn:E.
    + apply Hhit; assumption.
    + destruct (Hdis p Hp) as [H1|[H1 _]]; [exact H1|congruence].
Qed.

End TextSelChangePush.

Lemma CoalesceEvents_textSelChange (fuel : nat) (q : State) (l : list EventPtr)
    (tailEvent : EventPtr) :
  mEvents q = l ++ [tailEvent] -> Length l + 1 < 2 ^ 32 -> (length l <= fuel)%nat ->
  mEventRule (heap q tailEvent) = eCoalesceTextSelChange ->
  CoalesceEvents fuel q
  = (r <- scanDown (coalesceTextSelChange tailEvent) (length l) q ;; Ok (leave r)).
Proof.
  intros Hm Hlen Hfuel Hr. unfold CoalesceEvents.
  assert (Hl : Length (mEvents q) < 2 ^ 32) by (rewrite Hm, Length_app; lia).
  assert (Hn : (length (mEvents q) - 1 = length l)%nat)
    by (rewrite Hm, length_app; simpl; lia).
  assert (He : ElementAt (mEvents q) (u32 (Length (mEvents q) - 1)) = Ok tailEvent)
    by (rewrite Hm; apply ElementAt_last; lia).
  cbv zeta. rewrite He. cbn [bind]. rewrite Hr.
  rewrite scan_below_tail; [|rewrite Hm; destruct l; discriminate|exact Hl|lia].
  rewrite Hn. reflexivity.
Qed.

(** X6. Pushing a text-selection-change event suppresses every earlier
    pending text-selection-change event of the queue that is for the same
    selection or for the same target, and no other event; the new event
    itself is kept. *)
Theorem text_selection_push_suppresses_earlier_ones (env : Env) (fuel : nat)
    (q : State) (ev : AccEvent) (a : Acc) (sel : nat) :
  isTextSelChangeOf ev a sel ->
  (forall p, In p (mEvents q) -> (p < nextPtr q)%nat) ->
  (forall p, In p (mEvents q) ->
     mEventType (heap q p) = EVENT_TEXT_SELECTION_CHANGED ->
     exists sel', payload (heap q p) = TextSelChangeEvent sel') ->
  Length (mEvents q) + 1 < 2 ^ 32 -> (length (mEvents q) <= fuel)%nat ->
  exists q',
    QueueEvent env (S fuel) ev q = Ok q' /\
    mEvents q' = mEvents q ++ [nextPtr q] /\
    (forall p, In p (mEvents q) ->
       heap q' p = if sameTextSelChange a sel (heap q p)
                   then withRule eDoNotEmit (heap q p) else heap q p) /\
    heap q' (nextPtr q) = ev /\
    (forall x, ~ In x (mEvents q) -> x <> nextPtr q -> heap q' x = heap q x).
Proof.
  intros Hev Hq Hwt Hlen Hfuel. pose proof Hev as (Hty & Hr & Hacc & Hpl).
  unfold QueueEvent, alloc.
  rewrite PushEvent_appends by (rewrite heap_allocated; congruence).
  set (qb := record (PushAppended (nextPtr q))
               (withEvents (mEvents (allocated ev q) ++ [nextPtr q]) (allocated ev q))).
  assert (Hhb : heap qb (nextPtr q) = ev) by (unfold qb; heap_eq).
  assert (Hho : forall x, x <> nextPtr q -> heap qb x = heap q x)
    by (intros x Hx; unfold qb; heap_eq).
  assert (Hhl : forall p, In p (mEvents q) -> heap qb p = heap q p).
  { intros p Hp. apply Hho. specialize (Hq p Hp). lia. }
  assert (Hnt : ~ In (nextPtr q) (mEvents q))
    by (intros Hin; specialize (Hq _ Hin); lia).
  destruct (scanDown_textSelChange_all a sel ev Hev qb (mEvents q) (nextPtr q))
    as (s' & Hrun & HS & Hout & Hin); auto.
  { intros p Hp. rewrite (Hhl p Hp). apply Hwt. exact Hp. }
  exists s'.
  rewrite (CoalesceEvents_textSelChange (S fuel) qb (mEvents q) (nextPtr q));
    [|reflexivity|exact Hlen|lia|rewrite Hhb; exact Hr].
  rewrite Hrun. cbn [bind leave].
  assert (Htail : heap s' (nextPtr q) = ev) by (rewrite (Hout _ Hnt); exact Hhb).
  rewrite Htail, Hty. cbn [startsPropagation].
  replace (type_eqb EVENT_TEXT_SELECTION_CHANGED EVENT_NAME_CHANGE
           || type_eqb EVENT_TEXT_SELECTION_CHANGED EVENT_TEXT_REMOVED
           || type_eqb EVENT_TEXT_SELECTION_CHANGED EVENT_TEXT_INSERTED)
    with false by reflexivity.
  destruct HS as (_ & S2 & _).
  split; [reflexivity|]. split; [rewrite S2; reflexivity|]. split; [|split].
  - intros p Hp. rewrite (Hin p Hp), (Hhl p Hp). reflexivity.
  - reflexivity.
  - intros x Hx Hxt. rewrite (Hout x Hx). apply Hho. exact Hxt.
Qed.

Definition textSelEvent (a : Acc) (sel : nat) : AccEvent :=
  {| mEventType := EVENT_TEXT_SELECTION_CHANGED; mEventRule := eCoalesceTextSelChange;
     mAccessible := Some a; mIsFromUserInput := false;
     payload := TextSelChangeEvent sel |}.

(** Three pending events, for different selections and targets; the event
    pushed then shares its selection with the first and its target with the
    second. *)
Definition textSelQueue : State :=
  stateOf (QueueEvents quietEnv 5
             [textSelEvent 3%nat 1%nat; textSelEvent 4%nat 2%nat;
              textSelEvent 5%nat 7%nat] emptyQueue).

Lemma text_selection_push_witness :
  exists q',
    QueueEvent quietEnv 4 (textSelEvent 4%nat 1%nat) textSelQueue = Ok q' /\
    mEvents q' = mEvents textSelQueue ++ [nextPtr textSelQueue] /\
    (forall p, In p (mEvents textSelQueue) ->
       heap q' p = if sameTextSelChange 4%nat 1%nat (heap textSelQueue p)
                   then withRule eDoNotEmit (heap textSelQueue p)
                   else heap textSelQueue p) /\
    heap q' (nextPtr textSelQueue) = textSelEvent 4%nat 1%nat /\
    (forall x, ~ In x (mEvents textSelQueue) -> x <> nextPtr textSelQueue ->
       heap q' x = heap textSelQueue x).
Proof.
  apply (text_selection_push_suppresses_earlier_ones quietEnv 3 textSelQueue
           (textSelEvent 4%nat 1%nat) 4%nat 1%nat).
  - repeat split.
  - intros p Hp. vm_compute in Hp. destruct Hp as [<-|[<-|[<-|[]]]]; vm_compute; lia.
  - intros p Hp _. vm_compute in Hp.
    destruct Hp as [<-|[<-|[<-|[]]]]; vm_compute; eauto.
  - vm_compute. reflexivity.
  - vm_compute. lia.
Defined.

Example text_selection_push_runs :
  map (fun p => mEventRule
                  (heap (stateOf (QueueEvent quietEnv 4 (textSelEvent 4%nat 1%nat)
                                    textSelQueue)) p))
      [0%nat; 1%nat; 2%nat; 3%nat]
  = [eDoNotEmit; eDoNotEmit; eCoalesceTextSelChange; eCoalesceTextSelChange].
Proof. vm_compute. reflexivity. Qed.

(** ** Events coalesced with others of the same type *)

(** An event that a tail like [ev] coalesces: same type, same rule. *)
Definition sameKind (ev e : AccEvent) : bool :=
  type_eqb (mEventType e) (mEventType ev) && rule_eqb (mEventRule e) (mEventRule ev).

(** No two entries of the array are pending same-type-coalesced events of
    one type. *)
Definition onePendingPerType (q : State) : Prop :=
  forall i j p p', (i < j)%nat ->
    nth_error (mEvents q) i = Some p -> nth_error (mEvents q) j = Some p' ->
    mEventRule (heap q p) = eCoalesceOfSameType ->
    mEventRule (heap q p') = eCoalesceOfSameType ->
    mEventType (heap q p) <> mEventType (heap q p').

Lemma CoalesceEvents_sameType (fuel : nat) (q : State) (l : list EventPtr)
    (tailEvent : EventPtr) :
  mEvents q = l ++ [tailEvent] -> Length l + 1 < 2 ^ 32 -> (length l <= fuel)%nat ->
  mEventRule (heap q tailEvent) = eCoalesceOfSameType ->
  CoalesceEvents fuel q
  = (r <- scanDown (coalesceOfSameType tailEvent) (length l) q ;; Ok (leave r)).
Proof.
  intros Hm Hlen Hfuel Hr. unfold CoalesceEvents.
  assert (Hl : Length (mEvents q) < 2 ^ 32) by (rewrite Hm, Length_app; lia).
  assert (Hn : (length (mEvents q) - 1 = length l)%nat)
    by (rewrite Hm, length_app; simpl; lia).
  assert (He : ElementAt (mEvents q) (u32 (Length (mEvents q) - 1)) = Ok tailEvent)
    by (rewrite Hm; apply ElementAt_last; lia).
  cbv zeta. rewrite He. cbn [bind]. rewrite Hr.
  rewrite scan_below_tail; [|rewrite Hm; destruct l; discriminate|exact Hl|lia].
  rewrite Hn. reflexivity.
Qed.

(** The scan stops at the newest earlier event of the same kind. *)
Lemma scanDown_sameType (s0 : State) (L : list EventPtr) (t : EventPtr) :
  mEvents s0 = L ++ [t] ->
  exists r, scanDown (coalesceOfSameType t) (length L) s0 = Ok r /\
    ((leave r = s0 /\
      forall p, In p L -> sameKind (heap s0 t) (heap s0 p) = false) \/
     (exists i p, nth_error L i = Some p /\
        sameKind (heap s0 t) (heap s0 p) = true /\
        (forall j p', (i < j)%nat -> nth_error L j = Some p' ->
           sameKind (heap s0 t) (heap s0 p') = false) /\
        leave r = modify p (withRule eDoNotEmit) s0)).
Proof.
  intros Hm.
  set (P := fun (k : nat) (s : State) =>
    s = s0 /\
    forall j p', (k <= j)%nat -> nth_error L j = Some p' ->
      sameKind (heap s0 t) (heap s0 p') = false).
  set (Q := fun (v : State) =>
    exists i p, nth_error L i = Some p /\
      sameKind (heap s0 t) (heap s0 p) = true /\
      (forall j p', (i < j)%nat -> nth_error L j = Some p' ->
         sameKind (heap s0 t) (heap s0 p') = false) /\
      v = modify p (withRule eDoNotEmit) s0).
  destruct (scanDown_total (coalesceOfSameType t) P Q (length L))
    with (s := s0) as (r & Hrun & Hr).
  - intros i s Hi [-> Hno].
    destruct (nth_error L i) as [p|] eqn:Hnth;
      [|apply nth_error_None in Hnth; lia].
    assert (HE : ElementAt (mEvents s0) (Z.of_nat i) = Ok p).
    { apply ElementAt_nth. rewrite Hm, nth_error_app1 by exact Hi. exact Hnth. }
    unfold coalesceOfSameType. rewrite HE. cbn [bind].
    fold (sameKind (heap s0 t) (heap s0 p)).
    destruct (sameKind (heap s0 t) (heap s0 p)) eqn:Ek.
    + eexists. split; [reflexivity|]. exists i, p.
      split; [exact Hnth|]. split; [exact Ek|]. split; [|reflexivity].
      intros j p' Hj. apply Hno. lia.
    + eexists. split; [reflexivity|]. split; [reflexivity|].
      intros j p' Hj Hp'. destruct (Nat.eq_dec j i) as [->|Hne].
      * rewrite Hnth in Hp'. inversion Hp'; subst. exact Ek.
      * apply (Hno j); [lia|exact Hp'].
  - split; [reflexivity|]. intros j p' Hj Hp'.
    assert (j < length L)%nat by (apply nth_error_Some; congruence). lia.
  - exists r. split; [exact Hrun|]. destruct r as [s'|v]; cbn [leave].
    + destruct Hr as [-> Hno]. left. split; [reflexivity|].
      intros p Hp. apply In_nth_error in Hp. destruct Hp as [j Hj].
      apply (Hno j); [lia|exact Hj].
    + right. exact Hr.
Qed.

Lemma QueueEvent_sameType (env : Env) (fuel : nat) (q : State) (ev : AccEvent) :
  mEventRule ev = eCoalesceOfSameType ->
  mEventType ev <> EVENT_FOCUS ->
  startsPropagation (mEventType ev) = false ->
  (forall p, In p (mEvents q) -> (p < nextPtr q)%nat) ->
  onePendingPerType q ->
  Length (mEvents q) + 1 < 2 ^ 32 -> (length (mEvents q) <= fuel)%nat ->
  exists q',
    QueueEvent env (S fuel) ev q = Ok q' /\
    sameShape (record (PushAppended (nextPtr q))
                 (withEvents (mEvents q ++ [nextPtr q]) (allocated ev q))) q' /\
    heap q' (nextPtr q) = ev /\
    (forall p, In p (mEvents q) ->
       heap q' p = if sameKind ev (heap q p)
                   then withRule eDoNotEmit (heap q p) else heap q p) /\
    (forall x, ~ In x (mEvents q) -> x <> nextPtr q -> heap q' x = heap q x).
Proof.
  intros Hr Hf Hst Hq HU Hlen Hfuel.
  unfold QueueEvent, alloc.
  rewrite PushEvent_appends by (rewrite heap_allocated; congruence).
  set (qb := record (PushAppended (nextPtr q))
               (withEvents (mEvents (allocated ev q) ++ [nextPtr q]) (allocated ev q))).
  assert (Hhb : heap qb (nextPtr q) = ev) by (unfold qb; heap_eq).
  assert (Hho : forall x, x <> nextPtr q -> heap qb x = heap q x)
    by (intros x Hx; unfold qb; heap_eq).
  assert (Hhl : forall p, In p (mEvents q) -> heap qb p = heap q p).
  { intros p Hp. apply Hho. specialize (Hq p Hp). lia. }
  assert (Hnt : forall p, In p (mEvents q) -> p <> nextPtr q)
    by (intros p Hin; specialize (Hq _ Hin); lia).
  destruct (scanDown_sameType qb (mEvents q) (nextPtr q) eq_refl)
    as (r & Hrun & Hres).
  rewrite (CoalesceEvents_sameType (S fuel) qb (mEvents q) (nextPtr q));
    [|reflexivity|exact Hlen|lia|rewrite Hhb; exact Hr].
  rewrite Hrun. cbn [bind]. rewrite Hhb in Hres.
  assert (Hfin : sameShape qb (leave r) /\
                 heap (leave r) (nextPtr q) = ev /\
                 (forall p, In p (mEvents q) ->
                    heap (leave r) p = if sameKind ev (heap q p)
                                       then withRule eDoNotEmit (heap q p)
                                       else heap q p) /\
                 (forall x, ~ In x (mEvents q) -> x <> nextPtr q ->
                    heap (leave r) x = heap q x)).
  { destruct Hres as [[-> Hno]|(i & p & Hnth & Hk & Hnewer & ->)].
    - split; [apply sameShape_refl|]. split; [exact Hhb|]. split.
      + intros p Hp. rewrite <- (Hhl p Hp), (Hno p Hp). reflexivity.
      + intros x _ Hx. apply Hho. exact Hx.
    - assert (Hin : In p (mEvents q)) by (eapply nth_error_In; exact Hnth).
      split; [auto with shape|]. split; [|split].
      + rewrite heap_modify_other by (intros E; apply (Hnt p Hin); congruence).
        exact Hhb.
      + intros p' Hp'. destruct (Nat.eq_dec p' p) as [->|Hne].
        * rewrite heap_modify_same, <- (Hhl p Hin), Hk. reflexivity.
        * rewrite heap_modify_other by exact Hne. rewrite (Hhl p' Hp').
          destruct (sameKind ev (heap q p')) eqn:Ek'; [|reflexivity].
          exfalso. rewrite (Hhl p Hin) in Hk.
          apply In_nth_error in Hp'. destruct Hp' as [j Hj].
          unfold sameKind in Hk, Ek'.
          apply andb_true_iff in Hk, Ek'. destruct Hk as [K1 K2], Ek' as [K3 K4].
          apply type_eqb_true in K1, K3. apply rule_eqb_true in K2, K4.
          rewrite Hr in K2, K4.
          destruct (Nat.lt_total i j) as [Hlt|[Heq|Hgt]].
          -- apply (HU i j p p' Hlt Hnth Hj K2 K4). congruence.
          -- subst j. rewrite Hnth in Hj. congruence.
          -- apply (HU j i p' p Hgt Hj Hnth K4 K2). congruence.
      + intros x Hx Hxt. rewrite heap_modify_other by (intros ->; contradiction).
        apply Hho. exact Hxt. }
  destruct Hfin as (HS & Ht & Hin & Hout).
  exists (leave r). rewrite Ht, Hst. auto.
Qed.

(** X7. Pushing an event with the rule "coalesce of same type" that is not a
    focus event and whose type does not start the name propagation (it is
    not a name-change, text-inserted or text-removed event) onto a queue
    that holds at most one pending such event per type suppresses the
    pending earlier event of that type, if there is one, keeps the new
    event, changes nothing else, and leaves a queue that again holds at most
    one pending such event per type: the newest.  A focus event with this
    rule is not appended at all: it is stored in the focus slot, and the
    array and every other event object stay as they were. *)
Theorem same_type_push_keeps_only_the_newest (env : Env) (fuel : nat)
    (q : State) (ev : AccEvent) :
  mEventRule ev = eCoalesceOfSameType ->
  (forall p, In p (mEvents q) -> (p < nextPtr q)%nat) ->
  onePendingPerType q ->
  Length (mEvents q) + 1 < 2 ^ 32 -> (length (mEvents q) <= fuel)%nat ->
  (mEventType ev <> EVENT_FOCUS ->
   startsPropagation (mEventType ev) = false ->
   exists q',
     QueueEvent env (S fuel) ev q = Ok q' /\
     mEvents q' = mEvents q ++ [nextPtr q] /\
     heap q' (nextPtr q) = ev /\
     (forall p, In p (mEvents q) ->
        heap q' p = if sameKind ev (heap q p)
                    then withRule eDoNotEmit (heap q p) else heap q p) /\
     (forall x, ~ In x (mEvents q) -> x <> nextPtr q -> heap q' x = heap q x) /\
     onePendingPerType q') /\
  (mEventType ev = EVENT_FOCUS ->
   exists q',
     QueueEvent env (S fuel) ev q = Ok q' /\
     mEvents q' = mEvents q /\
     mFocusEvent q' = Some (nextPtr q) /\
     heap q' (nextPtr q) = ev /\
     (forall x, x <> nextPtr q -> heap q' x = heap q x) /\
     onePendingPerType q').
Proof.
  intros Hr Hq HU Hlen Hfuel. split.
  - intros Hf Hst.
    destruct (QueueEvent_sameType env fuel q ev Hr Hf Hst Hq HU Hlen Hfuel)
      as (q' & Hrun & HS & Ht & Hin & Hout).
    destruct HS as (_ & Hm & _). cbn [mEvents record withEvents] in Hm.
    exists q'. repeat (split; [assumption|]).
    assert (Hkeep : forall p, In p (mEvents q) ->
              mEventRule (heap q' p) = eCoalesceOfSameType ->
              heap q' p = heap q p /\ mEventType (heap q p) <> mEventType ev).
    { intros p Hp Hrp. rewrite (Hin p Hp) in *.
      destruct (sameKind ev (heap q p)) eqn:Ek; [discriminate Hrp|].
      split; [reflexivity|]. intros Hty. unfold sameKind in Ek.
      rewrite Hty, type_eqb_refl, Hrp, Hr in Ek. discriminate. }
    intros i j p p' Hij Hi Hj Hri Hrj. rewrite Hm in Hi, Hj.
    assert (Hjl : (j < length (mEvents q ++ [nextPtr q]))%nat)
      by (apply nth_error_Some; congruence).
    rewrite length_app in Hjl. cbn [length] in Hjl.
    rewrite nth_error_app1 in Hi by lia.
    assert (Hpi : In p (mEvents q)) by (eapply nth_error_In; exact Hi).
    destruct (Hkeep p Hpi Hri) as [Ep Htp]. rewrite Ep in *.
    destruct (Nat.eq_dec j (length (mEvents q))) as [->|Hne].
    + rewrite nth_error_app2, Nat.sub_diag in Hj by lia.
      inversion Hj; subst p'. rewrite Ht. exact Htp.
    + rewrite nth_error_app1 in Hj by lia.
      assert (Hpj : In p' (mEvents q)) by (eapply nth_error_In; exact Hj).
      destruct (Hkeep p' Hpj Hrj) as [Ep' _]. rewrite Ep' in *.
      apply (HU i j p p' Hij Hi Hj Hri Hrj).
  - intros Hf. rewrite (QueueEvent_focus env fuel ev q Hf).
    eexists. split; [reflexivity|].
    assert (Hh : forall x, x <> nextPtr q ->
              heap (record (PushedToFocusSlot (nextPtr q))
                      (withFocusEvent (Some (nextPtr q)) (allocated ev q))) x
              = heap q x) by (intros x Hx; heap_eq).
    split; [reflexivity|]. split; [reflexivity|].
    split; [heap_eq|]. split; [exact Hh|].
    intros i j p p' Hij Hi Hj Hri Hrj.
    cbn [mEvents record withFocusEvent] in Hi, Hj.
    change (mEvents (allocated ev q)) with (mEvents q) in Hi, Hj.
    assert (Hp : p <> nextPtr q)
      by (apply nth_error_In, Hq in Hi; lia).
    assert (Hp' : p' <> nextPtr q)
      by (apply nth_error_In, Hq in Hj; lia).
    rewrite (Hh p Hp) in *. rewrite (Hh p' Hp') in *.
    apply (HU i j p p' Hij Hi Hj Hri Hrj).
Qed.

(** Pending events of types 9 and 8 coalesced by type, and one of type 9
    with another rule; the event pushed then is of type 9 again. *)
Definition sameTypeQueue : State :=
  stateOf (QueueEvents quietEnv 5
             [plainEvent (EVENT_OTHER 9) eCoalesceOfSameType 3%nat;
              plainEvent (EVENT_OTHER 8) eCoalesceOfSameType 3%nat;
              plainEvent (EVENT_OTHER 9) eAllowDupes 4%nat] emptyQueue).

Lemma sameTypeQueue_onePending : onePendingPerType sameTypeQueue.
Proof.
  intros i j p p' Hij Hi Hj.
  assert (Hj3 : (j < length (mEvents sameTypeQueue))%nat)
    by (apply nth_error_Some; congruence).
  vm_compute in Hj3.
  destruct j as [|[|[|j]]]; try lia; destruct i as [|[|i]]; try lia;
    vm_compute in Hi, Hj; inversion Hi; inversion Hj; subst;
    vm_compute; intros; discriminate.
Defined.

Lemma same_type_push_witness :
  (exists q',
     QueueEvent quietEnv 4 (plainEvent (EVENT_OTHER 9) eCoalesceOfSameType 5%nat)
       sameTypeQueue = Ok q' /\
     mEvents q' = mEvents sameTypeQueue ++ [nextPtr sameTypeQueue] /\
     heap q' (nextPtr sameTypeQueue)
     = plainEvent (EVENT_OTHER 9) eCoalesceOfSameType 5%nat /\
     (forall p, In p (mEvents sameTypeQueue) ->
        heap q' p
        = if sameKind (plainEvent (EVENT_OTHER 9) eCoalesceOfSameType 5%nat)
                      (heap sameTypeQueue p)
          then withRule eDoNotEmit (heap sameTypeQueue p)
          else heap sameTypeQueue p) /\
     (forall x, ~ In x (mEvents sameTypeQueue) -> x <> nextPtr sameTypeQueue ->
        heap q' x = heap sameTypeQueue x) /\
     onePendingPerType q') /\
  (exists q',
     QueueEvent quietEnv 4 (plainEvent EVENT_FOCUS eCoalesceOfSameType 5%nat)
       sameTypeQueue = Ok q' /\
     mEvents q' = mEvents sameTypeQueue /\
     mFocusEvent q' = Some (nextPtr sameTypeQueue) /\
     heap q' (nextPtr sameTypeQueue)
     = plainEvent EVENT_FOCUS eCoalesceOfSameType 5%nat /\
     (forall x, x <> nextPtr sameTypeQueue -> heap q' x = heap sameTypeQueue x) /\
     onePendingPerType q').
Proof.
  assert (Hq : forall p, In p (mEvents sameTypeQueue) ->
                 (p < nextPtr sameTypeQueue)%nat).
  { intros p Hp. vm_compute in Hp.
    destruct Hp as [<-|[<-|[<-|[]]]]; vm_compute; lia. }
  assert (Hlen : Length (mEvents sameTypeQueue) + 1 < 2 ^ 32)
    by (vm_compute; reflexivity).
  assert (Hfuel : (length (mEvents sameTypeQueue) <= 3)%nat) by (vm_compute; lia).
  split.
  - refine (proj1 (same_type_push_keeps_only_the_newest quietEnv 3 sameTypeQueue
                     (plainEvent (EVENT_OTHER 9) eCoalesceOfSameType 5%nat)
                     eq_refl Hq sameTypeQueue_onePending Hlen Hfuel) _ eq_refl).
    discriminate.
  - exact (proj2 (same_type_push_keeps_only_the_newest quietEnv 3 sameTypeQueue
                    (plainEvent EVENT_FOCUS eCoalesceOfSameType 5%nat)
                    eq_refl Hq sameTypeQueue_onePending Hlen Hfuel) eq_refl).
Defined.

Example same_type_push_runs :
  map (fun p => mEventRule
                  (heap (stateOf (QueueEvent quietEnv 4
                                    (plainEvent (EVENT_OTHER 9) eCoalesceOfSameType 5%nat)
                                    sameTypeQueue)) p))
      [0%nat; 1%nat; 2%nat; 3%nat]
  = [eDoNotEmit; eCoalesceOfSameType; eAllowDupes; eCoalesceOfSameType].
Proof. vm_compute. reflexivity. Qed.

(** ** A selection add followed by a remove *)

(** The merge step of [CoalesceSelChangeEvents]: a remove arriving after the
    first add, for another item. *)
Lemma CoalesceSelChangeEvents_remove_after_add (fuel : nat) (t p : EventPtr)
    (i : Z) (s : State) (sT sP : SelChange) :
  t <> p ->
  payload (heap s t) = SelChangeEvent sT -> payload (heap s p) = SelChangeEvent sP ->
  mPreceedingCount sP = 0 -> mItem sT <> mItem sP ->
  mSelChangeType sT = eSelectionRemove -> mSelChangeType sP = eSelectionAdd ->
  CoalesceSelChangeEvents fuel t p i s
  = Ok (modify p (onSelChange (withPackedEvent (Some t)))
          (modify p (withType EVENT_SELECTION)
             (modify t (withRule eDoNotEmit)
                (modify t (onSelChange (withPreceedingCount 1)) s)))).
Proof.
  intros Hne Ht Hp Hc Hi HtR HpA. unfold CoalesceSelChangeEvents.
  rewrite (asSelChange_payload _ _ Hp). cbn [bind]. rewrite Hc.
  change (u32 (0 + 1)) with 1.
  rewrite (asSelChange_payload (heap (modify t _ s) t) (withPreceedingCount 1 sT))
    by (rewrite heap_modify_same; apply payload_onSelChange; exact Ht).
  cbn [bind withPreceedingCount mPreceedingCount mItem mSelChangeType].
  change (kSelChangeCountToPack <=? 1) with false. cbn iota.
  rewrite (asSelChange_payload (heap (modify t _ s) p) sP)
    by (rewrite heap_modify_other by congruence; exact Hp).
  cbn [bind]. change (1 =? 1) with true.
  replace (Nat.eqb (mItem sT) (mItem sP)) with false
    by (symmetry; apply Nat.eqb_neq; exact Hi).
  cbn [negb andb]. rewrite HtR, HpA.
  reflexivity.
Qed.

Lemma add_then_remove_merged (env : Env) (fuel : nat) (q : State)
    (evA evR : AccEvent) (widget A B : Acc) (kindA : EventType) :
  isSelChangeOf evA widget B eSelectionAdd kindA ->
  kindA = EVENT_SELECTION_ADD \/ kindA = EVENT_SELECTION ->
  isSelChangeOf evR widget A eSelectionRemove EVENT_SELECTION_REMOVE ->
  A <> B ->
  noSelectionFor q (mEvents q) widget ->
  (forall p, In p (mEvents q) -> (p < nextPtr q)%nat) ->
  Length (mEvents q) + 2 < 2 ^ 32 -> (length (mEvents q) + 1 <= fuel)%nat ->
  let p1 := nextPtr q in
  let p2 := S (nextPtr q) in
  exists q',
    QueueEvents env (S fuel) [evA; evR] q = Ok q' /\
    log q' = log q ++ [PushAppended p1; PushAppended p2] /\
    nextPtr q' = S (S (nextPtr q)) /\
    mEvents q' = mEvents q ++ [p1; p2] /\
    mFocusEvent q' = mFocusEvent q /\ mDocument q' = mDocument q /\
    defunct q' = defunct q /\
    heap q' p1 = onSelChange (withPackedEvent (Some p2)) (withType EVENT_SELECTION evA) /\
    heap q' p2 = withRule eDoNotEmit (onSelChange (withPreceedingCount 1) evR).
Proof.
  intros HA Hk HR HAB H0 Hq Hlen Hfuel p1 p2.
  pose proof HR as (HtyR & HrR & HaccR & HplR).
  pose proof HA as (HtyA & HrA & HaccA & HplA).
  cbn [QueueEvents].
  rewrite (QueueEvent_selection_alone env fuel q evA widget B eSelectionAdd kindA)
    by (auto; try lia; destruct Hk; auto).
  cbn [bind].
  set (q1 := record (PushAppended (nextPtr q))
               (withEvents (mEvents q ++ [nextPtr q]) (allocated evA q))).
  unfold QueueEvent, alloc.
  rewrite PushEvent_appends
    by (rewrite heap_allocated; try congruence; rewrite HtyR; discriminate).
  set (qd := record (PushAppended (nextPtr q1))
               (withEvents (mEvents (allocated evR q1) ++ [nextPtr q1])
                  (allocated evR q1))).
  assert (Hn1 : nextPtr q1 = p2) by reflexivity.
  assert (Hmd : mEvents qd = (mEvents q ++ [p1]) ++ [p2]) by reflexivity.
  assert (Hne : p2 <> p1) by (unfold p1, p2; lia).
  assert (Hh1 : heap qd p1 = evA) by (unfold qd, q1, p1; heap_eq).
  assert (Hh2 : heap qd p2 = evR) by (unfold qd, q1, p2; heap_eq).
  assert (Hhl : forall p, In p (mEvents q) -> heap qd p = heap q p).
  { intros p Hp. specialize (Hq p Hp). unfold qd, q1. heap_eq. }
  set (s1 := modify p1 (onSelChange (withPackedEvent (Some p2)))
               (modify p1 (withType EVENT_SELECTION)
                  (modify p2 (withRule eDoNotEmit)
                     (modify p2 (onSelChange (withPreceedingCount 1)) qd)))).
  assert (Hs1 : heap s1 p1
                = onSelChange (withPackedEvent (Some p2)) (withType EVENT_SELECTION evA)).
  { unfold s1. rewrite !heap_modify_same. rewrite !heap_modify_other by congruence.
    rewrite Hh1. reflexivity. }
  assert (Hs2 : heap s1 p2
                = withRule eDoNotEmit (onSelChange (withPreceedingCount 1) evR)).
  { unfold s1. rewrite !heap_modify_other by congruence.
    rewrite !heap_modify_same, Hh2. reflexivity. }
  assert (Hc : CoalesceEvents (S fuel) qd = Ok s1).
  { rewrite <- Hh2 in HrR, HplR. rewrite <- Hh1 in HrA, HplA.
    rewrite (CoalesceEvents_selection (S fuel) qd (mEvents q ++ [p1]) p2);
      [|exact Hmd|rewrite Length_app; lia|rewrite length_app; simpl; lia|exact HrR].
    destruct (noSelectionFor_scan q qd (mEvents q) p2 widget _
                H0 Hhl HrR HplR eq_refl) as [[_ Hty'] Hnone].
    rewrite (scanDown_selection_hit (S fuel) qd p2 (mEvents q ++ [p1])
               (length (mEvents q)) p1 Hmd).
    - rewrite (CoalesceSelChangeEvents_remove_after_add (S fuel) p2 p1 _ qd _ _
                 Hne HplR HplA);
        [cbn [bind leave]; reflexivity | reflexivity | cbn; congruence
        | reflexivity | reflexivity].
    - split; [eexists; exact HplR|]. intros p Hp Hrp.
      apply in_app_or in Hp. destruct Hp as [Hp|[<-|[]]]; [apply Hty'; assumption|].
      eexists; exact HplA.
    - rewrite nth_error_app2 by lia. rewrite Nat.sub_diag. reflexivity.
    - unfold sameControl. rewrite HrA, HrR, HplA, HplR. cbn.
      rewrite Nat.eqb_refl. reflexivity.
    - rewrite length_app. simpl. lia.
    - intros j p [Hj1 Hj2]. rewrite length_app in Hj2. simpl in Hj2. lia. }
  rewrite Hc. cbn [bind]. rewrite Hn1, Hs2.
  replace (mEventType (withRule eDoNotEmit (onSelChange (withPreceedingCount 1) evR)))
    with EVENT_SELECTION_REMOVE
    by (unfold onSelChange; rewrite HplR; cbn; congruence).
  cbn [startsPropagation].
  replace (type_eqb EVENT_SELECTION_REMOVE EVENT_NAME_CHANGE
           || type_eqb EVENT_SELECTION_REMOVE EVENT_TEXT_REMOVED
           || type_eqb EVENT_SELECTION_REMOVE EVENT_TEXT_INSERTED) with false by reflexivity.
  cbn [bind].
  exists s1. split; [reflexivity|].
  split; [change (log s1) with ((log q ++ [PushAppended p1]) ++ [PushAppended p2]);
          rewrite <- app_assoc; reflexivity|].
  split; [reflexivity|].
  split; [rewrite <- app_assoc in Hmd; exact Hmd|].
  split; [reflexivity|]. split; [reflexivity|]. split; [reflexivity|].
  split; [exact Hs1|]. rewrite <- Hs2. reflexivity.
Qed.

(** X8. A selection-add event for item [B] followed by a selection-remove
    event for another item [A] of the same widget, in a queue holding no
    other selection event for that widget, are merged the other way round:
    it is the older event, the add, that becomes the single selection event
    on [B], with the newer remove suppressed and stored as its packed
    partner.  Drained from an otherwise empty queue with no listener
    reacting, the pair yields the selected-state notification for [B], the
    one for [A], then the combined event, and nothing else is handed
    over. *)
Theorem add_then_remove_merge (env : Env) (fuel : nat) (q : State)
    (evA evR : AccEvent) (widget A B : Acc) (kindA : EventType) :
  isSelChangeOf evA widget B eSelectionAdd kindA ->
  kindA = EVENT_SELECTION_ADD \/ kindA = EVENT_SELECTION ->
  isSelChangeOf evR widget A eSelectionRemove EVENT_SELECTION_REMOVE ->
  A <> B ->
  noSelectionFor q (mEvents q) widget ->
  (forall p, In p (mEvents q) -> (p < nextPtr q)%nat) ->
  Length (mEvents q) + 2 < 2 ^ 32 -> (length (mEvents q) + 1 <= fuel)%nat ->
  let p1 := nextPtr q in
  let p2 := S (nextPtr q) in
  exists q',
    QueueEvents env (S fuel) [evA; evR] q = Ok q' /\
    mEvents q' = mEvents q ++ [p1; p2] /\
    mEventType (heap q' p1) = EVENT_SELECTION /\
    mEventRule (heap q' p1) = eCoalesceSelectionChange /\
    mAccessible (heap q' p1) = Some B /\
    payload (heap q' p1)
    = SelChangeEvent {| mWidget := widget; mItem := B;
                        mSelChangeType := eSelectionAdd; mPreceedingCount := 0;
                        mPackedEvent := Some p2 |} /\
    mEventType (heap q' p2) = EVENT_SELECTION_REMOVE /\
    mEventRule (heap q' p2) = eDoNotEmit /\
    mAccessible (heap q' p2) = Some A /\
    (mEvents q = [] -> mFocusEvent q = None -> defunct q B = false ->
     (forall e, listener env e = []) ->
     forall fuel',
       (IPCAccessibilityActive env = false \/ IPCDoc env = true ->
        exists q'', ProcessEventQueue env fuel' q' = Ok q'') /\
       (forall q'', ProcessEventQueue env fuel' q' = Ok q'' ->
          exists d,
            log q'' = log q'
              ++ [FireStateChange (Some B) (states_SELECTED env) true
                    (mIsFromUserInput evA);
                  FireStateChange (Some A) (states_SELECTED env) false
                    (mIsFromUserInput evR);
                  FireEvent p1 (heap q' p1)] ++ d /\
            Forall (fun e => isDelivery e = false /\
                             forall a st en u, e <> FireStateChange a st en u) d)).
Proof.
  intros HA Hk HR HAB H0 Hq Hlen Hfuel p1 p2.
  destruct (add_then_remove_merged env fuel q evA evR widget A B kindA
              HA Hk HR HAB H0 Hq Hlen Hfuel)
    as (s1 & Hrun & Hlog & Hnext & Hm & Hfoc & Hdoc & Hdef & Hs1 & Hs2).
  fold p2 in Hlog, Hm, Hs1, Hs2. fold p1 in Hlog, Hm, Hs1, Hs2.
  pose proof HR as (HtyR & HrR & HaccR & HplR).
  pose proof HA as (HtyA & HrA & HaccA & HplA).
  assert (F1 : mEventType (heap s1 p1) = EVENT_SELECTION /\
               mEventRule (heap s1 p1) = eCoalesceSelectionChange /\
               mAccessible (heap s1 p1) = Some B /\
               mIsFromUserInput (heap s1 p1) = mIsFromUserInput evA /\
               payload (heap s1 p1)
               = SelChangeEvent {| mWidget := widget; mItem := B;
                                   mSelChangeType := eSelectionAdd;
                                   mPreceedingCount := 0;
                                   mPackedEvent := Some p2 |}).
  { rewrite Hs1. unfold onSelChange. cbn [withType payload]. rewrite HplA. cbn. auto. }
  assert (F2 : mEventType (heap s1 p2) = EVENT_SELECTION_REMOVE /\
               mEventRule (heap s1 p2) = eDoNotEmit /\
               mAccessible (heap s1 p2) = Some A /\
               mIsFromUserInput (heap s1 p2) = mIsFromUserInput evR /\
               payload (heap s1 p2)
               = SelChangeEvent {| mWidget := widget; mItem := A;
                                   mSelChangeType := eSelectionRemove;
                                   mPreceedingCount := 1;
                                   mPackedEvent := None |}).
  { rewrite Hs2. unfold onSelChange. rewrite HplR. cbn. auto. }
  destruct F1 as (Hty1 & Hr1 & Hacc1 & Hu1 & Hpl1).
  destruct F2 as (Hty2 & Hr2 & Hacc2 & Hu2 & Hpl2).
  exists s1. split; [exact Hrun|]. split; [exact Hm|].
  do 7 (split; [assumption|]).
  intros Hempty Hnofocus HdefB Hquiet fuel'.
  assert (Hms : mEvents s1 = [p1; p2]) by (rewrite Hm, Hempty; reflexivity).
  assert (Hfs : mFocusEvent s1 = None) by congruence.
  rewrite (ProcessEventQueue_no_focus env fuel' s1 Hfs), Hms.
  set (s0 := withEvents [] s1).
  set (s3 := record (FireEvent p1 (heap s1 p1))
               (record (FireStateChange (Some A) (states_SELECTED env) false
                          (mIsFromUserInput evR))
                  (record (FireStateChange (Some B) (states_SELECTED env) true
                             (mIsFromUserInput evA)) s0))).
  assert (Hstep : exists r, processEvents env fuel' [p1; p2] ([], []) s0 = Ok (r, s3)).
  { cbn [processEvents].
    change (heap s0 p1) with (heap s1 p1).
    rewrite Hacc1. change (defunct s0 B) with (defunct s1 B). rewrite Hdef, HdefB.
    rewrite collectSelChange_emitted
      by (change (heap s0 p1) with (heap s1 p1); rewrite ?Hr1, ?Hty1; discriminate).
    cbn [bind]. rewrite Hr1, Hty1.
    change (rule_eqb eCoalesceSelectionChange eDoNotEmit) with false.
    change (type_eqb EVENT_SELECTION EVENT_TEXT_SELECTION_CHANGED) with false.
    cbn iota. unfold fireSelectedState.
    change (type_eqb EVENT_SELECTION EVENT_SELECTION_ADD) with false.
    change (type_eqb EVENT_SELECTION EVENT_SELECTION_REMOVE) with false.
    change (type_eqb EVENT_SELECTION EVENT_SELECTION) with true.
    cbn iota. change (heap s0 p1) with (heap s1 p1).
    rewrite (asSelChange_payload _ _ Hpl1). cbn [bind mSelChangeType].
    rewrite Hacc1, Hu1.
    change (sel_eqb eSelectionAdd eSelectionAdd) with true.
    rewrite emit_quiet by exact Hquiet. cbn [bind].
    change (heap (record _ s0) p1) with (heap s1 p1).
    rewrite (asSelChange_payload _ _ Hpl1). cbn [bind mPackedEvent].
    change (heap (record _ s0) p2) with (heap s1 p2).
    rewrite (asSelChange_payload _ _ Hpl2). cbn [bind mSelChangeType].
    rewrite Hacc2, Hu2.
    change (sel_eqb eSelectionRemove eSelectionAdd) with false.
    rewrite emit_quiet by exact Hquiet. cbn [bind].
    rewrite emit_quiet by exact Hquiet. cbn [bind].
    change (heap (record _ (record _ s0)) p1) with (heap s1 p1). fold s3.
    destruct (negb (mDocument s3)); [eauto|].
    change (isMutationKind EVENT_SELECTION) with false. cbn [andb bind].
    change (heap s3 p2) with (heap s1 p2). rewrite Hacc2.
    destruct (defunct s3 A); [eauto|].
    destruct (collectSelChange_total env p2 (mEventType (heap s1 p2)) ([], []) s3 _
                Hpl2) as [ids' E].
    rewrite E. cbn [bind]. rewrite Hr2, rule_eqb_refl. eauto. }
  destruct Hstep as [r Hstep]. rewrite Hstep. cbn [bind].
  split.
  - intros Hipc. apply reportSelection_total; assumption.
  - intros q'' H.
    destruct (reportSelection_log env fuel' r s3 q'' H) as (d & L & F).
    exists d. split; [|exact F]. rewrite L. unfold s3. cbn [log record].
    change (log s0) with (log s1). rewrite <- !app_assoc. reflexivity.
Qed.

Lemma add_then_remove_witness :
  exists q',
    QueueEvents quietEnv 2
      [selEvent 100%nat 2%nat eSelectionAdd; selEvent 100%nat 1%nat eSelectionRemove]
      emptyQueue = Ok q' /\
    mEvents q' = [0%nat; 1%nat] /\
    mEventType (heap q' 0%nat) = EVENT_SELECTION /\
    mEventRule (heap q' 0%nat) = eCoalesceSelectionChange /\
    mAccessible (heap q' 0%nat) = Some 2%nat /\
    payload (heap q' 0%nat)
    = SelChangeEvent {| mWidget := 100%nat; mItem := 2%nat;
                        mSelChangeType := eSelectionAdd; mPreceedingCount := 0;
                        mPackedEvent := Some 1%nat |} /\
    mEventType (heap q' 1%nat) = EVENT_SELECTION_REMOVE /\
    mEventRule (heap q' 1%nat) = eDoNotEmit /\
    mAccessible (heap q' 1%nat) = Some 1%nat /\
    exists q'', ProcessEventQueue quietEnv 3 q' = Ok q'' /\
      exists d,
        log q'' = log q'
          ++ [FireStateChange (Some 2%nat) 2 true false;
              FireStateChange (Some 1%nat) 2 false false;
              FireEvent 0%nat (heap q' 0%nat)] ++ d /\
        Forall (fun e => isDelivery e = false /\
                         forall a st en u, e <> FireStateChange a st en u) d.
Proof.
  destruct (add_then_remove_merge quietEnv 1 emptyQueue
              (selEvent 100%nat 2%nat eSelectionAdd)
              (selEvent 100%nat 1%nat eSelectionRemove) 100%nat 1%nat 2%nat
              EVENT_SELECTION_ADD)
    as (q' & Hrun & Hm & Ht & Hr & Ha & Hp & Ht2 & Hr2 & Ha2 & Hdrain).
  - repeat split.
  - left. reflexivity.
  - repeat split.
  - discriminate.
  - intros p [].
  - intros p [].
  - vm_compute. reflexivity.
  - simpl. lia.
  - exists q'. do 9 (split; [assumption|]).
    destruct (Hdrain eq_refl eq_refl eq_refl (fun _ => eq_refl) 3%nat) as [Hex Hlog].
    destruct Hex as [q'' Hq'']; [left; reflexivity|].
    exists q''. split; [exact Hq''|]. exact (Hlog q'' Hq'').
Defined.

(** ** A third selection event undoes the merge *)

(** The unpack step of [CoalesceSelChangeEvents]: the newest earlier event
    is a merged pair, and the tail neither packs nor merges. *)
Lemma CoalesceSelChangeEvents_unpack (fuel : nat) (t p pk : EventPtr)
    (i : Z) (s : State) (sT sP sK : SelChange) :
  t <> p -> t <> pk -> p <> pk ->
  payload (heap s t) = SelChangeEvent sT -> payload (heap s p) = SelChangeEvent sP ->
  payload (heap s pk) = SelChangeEvent sK ->
  mEventType (heap s p) = EVENT_SELECTION -> mPackedEvent sP = Some pk ->
  1 <= mPreceedingCount sP < 4 ->
  CoalesceSelChangeEvents fuel t p i s
  = Ok (modify p (withType (selChangeKind (mSelChangeType sP)))
          (modify p (onSelChange (withPackedEvent None))
             (modify pk (withRule eCoalesceSelectionChange)
                (modify pk (withType (selChangeKind (mSelChangeType sK)))
                   (modify t (onSelChange
                                (withPreceedingCount (mPreceedingCount sP + 1)))
                      s))))).
Proof.
  intros Htp Htk Hpk Ht Hp Hk Hty Hpacked Hc. unfold CoalesceSelChangeEvents.
  rewrite (asSelChange_payload _ _ Hp). cbn [bind].
  rewrite (u32_small (mPreceedingCount sP + 1)) by lia.
  set (c := mPreceedingCount sP + 1).
  set (s1 := modify t (onSelChange (withPreceedingCount c)) s).
  assert (H1t : payload (heap s1 t) = SelChangeEvent (withPreceedingCount c sT))
    by (unfold s1; rewrite heap_modify_same; apply payload_onSelChange; exact Ht).
  assert (H1p : heap s1 p = heap s p)
    by (unfold s1; apply heap_modify_other; congruence).
  assert (H1k : heap s1 pk = heap s pk)
    by (unfold s1; apply heap_modify_other; congruence).
  rewrite (asSelChange_payload _ _ H1t).
  cbn [bind withPreceedingCount mPreceedingCount mItem mSelChangeType].
  replace (kSelChangeCountToPack <=? c) with false
    by (symmetry; apply Z.leb_gt; unfold kSelChangeCountToPack, c; lia).
  cbn iota. rewrite H1p, (asSelChange_payload _ _ Hp). cbn [bind].
  replace (c =? 1) with false by (symmetry; apply Z.eqb_neq; unfold c; lia).
  cbn [andb]. unfold unpackOrConvert. rewrite H1p, Hty.
  change (type_eqb EVENT_SELECTION EVENT_SELECTION) with true. cbn iota.
  rewrite (asSelChange_payload _ _ Hp). cbn [bind]. rewrite Hpacked.
  rewrite H1k, (asSelChange_payload _ _ Hk). cbn [bind].
  match goal with
  | |- context [asSelChange (heap ?st p)] =>
      assert (H3p : payload (heap st p) = SelChangeEvent (withPackedEvent None sP))
  end.
  { rewrite heap_modify_same. apply payload_onSelChange.
    rewrite !heap_modify_other by congruence. rewrite H1p. exact Hp. }
  rewrite (asSelChange_payload _ _ H3p). cbn [bind withPackedEvent mSelChangeType].
  reflexivity.
Qed.

(** The queue after a remove and an add of another item were merged. *)
Lemma remove_then_add_merged (env : Env) (fuel : nat) (q : State)
    (evR evA : AccEvent) (widget A B : Acc) (kindA : EventType) :
  isSelChangeOf evR widget A eSelectionRemove EVENT_SELECTION_REMOVE ->
  isSelChangeOf evA widget B eSelectionAdd kindA ->
  kindA = EVENT_SELECTION_ADD \/ kindA = EVENT_SELECTION ->
  A <> B ->
  noSelectionFor q (mEvents q) widget ->
  (forall p, In p (mEvents q) -> (p < nextPtr q)%nat) ->
  Length (mEvents q) + 2 < 2 ^ 32 -> (length (mEvents q) + 1 <= fuel)%nat ->
  let p1 := nextPtr q in
  let p2 := S (nextPtr q) in
  exists q',
    QueueEvents env (S fuel) [evR; evA] q = Ok q' /\
    nextPtr q' = S (S (nextPtr q)) /\
    mEvents q' = mEvents q ++ [p1; p2] /\
    (forall x, (x < nextPtr q)%nat -> heap q' x = heap q x) /\
    heap q' p1 = withRule eDoNotEmit evR /\
    heap q' p2 = onSelChange (withPackedEvent (Some p1))
                   (withType EVENT_SELECTION
                      (onSelChange (withPreceedingCount 1) evA)).
Proof.
  intros HR HA Hk HAB H0 Hq Hlen Hfuel p1 p2.
  pose proof HR as (HtyR & HrR & HaccR & HplR).
  pose proof HA as (HtyA & HrA & HaccA & HplA).
  cbn [QueueEvents].
  rewrite (QueueEvent_selection_alone env fuel q evR widget A eSelectionRemove
             EVENT_SELECTION_REMOVE) by (auto; lia).
  cbn [bind].
  set (q1 := record (PushAppended (nextPtr q))
               (withEvents (mEvents q ++ [nextPtr q]) (allocated evR q))).
  unfold QueueEvent, alloc.
  rewrite PushEvent_appends
    by (rewrite heap_allocated; try congruence; rewrite HtyA;
        destruct Hk as [->| ->]; discriminate).
  set (qd := record (PushAppended (nextPtr q1))
               (withEvents (mEvents (allocated evA q1) ++ [nextPtr q1])
                  (allocated evA q1))).
  assert (Hn1 : nextPtr q1 = p2) by reflexivity.
  assert (Hmd : mEvents qd = (mEvents q ++ [p1]) ++ [p2]) by reflexivity.
  assert (Hne : p2 <> p1) by (unfold p1, p2; lia).
  assert (Hh1 : heap qd p1 = evR) by (unfold qd, q1, p1; heap_eq).
  assert (Hh2 : heap qd p2 = evA) by (unfold qd, q1, p2; heap_eq).
  assert (Hho : forall x, (x < nextPtr q)%nat -> heap qd x = heap q x)
    by (intros x Hx; unfold qd, q1; heap_eq).
  assert (Hhl : forall p, In p (mEvents q) -> heap qd p = heap q p)
    by (intros p Hp; apply Hho, Hq, Hp).
  set (s1 := modify p2 (onSelChange (withPackedEvent (Some p1)))
               (modify p2 (withType EVENT_SELECTION)
                  (modify p1 (withRule eDoNotEmit)
                     (modify p2 (onSelChange (withPreceedingCount 1)) qd)))).
  assert (Hs1 : heap s1 p1 = withRule eDoNotEmit evR).
  { unfold s1. rewrite !heap_modify_other by congruence.
    rewrite heap_modify_same, heap_modify_other by congruence.
    rewrite Hh1. reflexivity. }
  assert (Hs2 : heap s1 p2
                = onSelChange (withPackedEvent (Some p1))
                    (withType EVENT_SELECTION
                       (onSelChange (withPreceedingCount 1) evA))).
  { unfold s1. rewrite !heap_modify_same. rewrite heap_modify_other by congruence.
    rewrite heap_modify_same, Hh2. reflexivity. }
  assert (Hc : CoalesceEvents (S fuel) qd = Ok s1).
  { rewrite <- Hh2 in HrA, HplA. rewrite <- Hh1 in HrR, HplR.
    rewrite (CoalesceEvents_selection (S fuel) qd (mEvents q ++ [p1]) p2);
      [|exact Hmd|rewrite Length_app; lia|rewrite length_app; simpl; lia|exact HrA].
    destruct (noSelectionFor_scan q qd (mEvents q) p2 widget _
                H0 Hhl HrA HplA eq_refl) as [[_ Hty'] Hnone].
    rewrite (scanDown_selection_hit (S fuel) qd p2 (mEvents q ++ [p1])
               (length (mEvents q)) p1 Hmd).
    - rewrite (CoalesceSelChangeEvents_add_after_remove (S fuel) p2 p1 _ qd _ _
                 Hne HplA HplR);
        [cbn [bind leave]; reflexivity | reflexivity | cbn; congruence
        | reflexivity | reflexivity].
    - split; [eexists; exact HplA|]. intros p Hp Hrp.
      apply in_app_or in Hp. destruct Hp as [Hp|[<-|[]]]; [apply Hty'; assumption|].
      eexists; exact HplR.
    - rewrite nth_error_app2 by lia. rewrite Nat.sub_diag. reflexivity.
    - unfold sameControl. rewrite HrA, HrR, HplA, HplR. cbn.
      rewrite Nat.eqb_refl. reflexivity.
    - rewrite length_app. simpl. lia.
    - intros j p [Hj1 Hj2]. rewrite length_app in Hj2. simpl in Hj2. lia. }
  rewrite Hc. cbn [bind]. rewrite Hn1.
  destruct (merged_fields evA _ (Some p1) EVENT_SELECTION 1 HplA)
    as (Hty2 & _).
  rewrite <- Hs2 in Hty2. rewrite Hty2. cbn [startsPropagation].
  replace (type_eqb EVENT_SELECTION EVENT_NAME_CHANGE
           || type_eqb EVENT_SELECTION EVENT_TEXT_REMOVED
           || type_eqb EVENT_SELECTION EVENT_TEXT_INSERTED) with false by reflexivity.
  cbn [bind].
  exists s1. split; [reflexivity|]. split; [reflexivity|].
  split; [rewrite <- app_assoc in Hmd; exact Hmd|].
  split; [|split; assumption].
  intros x Hx. unfold s1.
  rewrite !heap_modify_other by (unfold p1, p2; lia). apply Hho. exact Hx.
Qed.

(** X9. A third selection event for the widget, arriving after a remove
    and an add were merged into one selection event, undoes the merge: the
    remove is restored to exactly the event that was pushed, pending again;
    the combined event becomes a plain selection-add event again; and the
    new event is kept, counting two predecessors.  All three are then
    emitted one by one. *)
Theorem third_selection_event_undoes_the_merge (env : Env) (fuel : nat) (q : State)
    (evR evA ev3 : AccEvent) (widget A B C : Acc) (kindA kind3 : EventType)
    (t3 : SelChangeType) :
  isSelChangeOf evR widget A eSelectionRemove EVENT_SELECTION_REMOVE ->
  isSelChangeOf evA widget B eSelectionAdd kindA ->
  kindA = EVENT_SELECTION_ADD \/ kindA = EVENT_SELECTION ->
  isSelChangeOf ev3 widget C t3 kind3 ->
  kind3 = EVENT_SELECTION_ADD \/ kind3 = EVENT_SELECTION_REMOVE
  \/ kind3 = EVENT_SELECTION ->
  A <> B ->
  noSelectionFor q (mEvents q) widget ->
  (forall p, In p (mEvents q) -> (p < nextPtr q)%nat) ->
  Length (mEvents q) + 3 < 2 ^ 32 -> (length (mEvents q) + 2 <= fuel)%nat ->
  let p1 := nextPtr q in
  let p2 := S (nextPtr q) in
  let p3 := S (S (nextPtr q)) in
  exists q',
    QueueEvents env (S fuel) [evR; evA; ev3] q = Ok q' /\
    mEvents q' = mEvents q ++ [p1; p2; p3] /\
    heap q' p1 = evR /\
    heap q' p2 = withType EVENT_SELECTION_ADD
                   (onSelChange (withPreceedingCount 1) evA) /\
    heap q' p3 = onSelChange (withPreceedingCount 2) ev3 /\
    (forall x, (x < nextPtr q)%nat -> heap q' x = heap q x).
Proof.
  intros HR HA Hk H3 Hk3 HAB H0 Hq Hlen Hfuel p1 p2 p3.
  destruct (remove_then_add_merged env fuel q evR evA widget A B kindA
              HR HA Hk HAB H0 Hq ltac:(lia) ltac:(lia))
    as (s1 & Hrun & Hnext & Hm & Hold & Hs1 & Hs2).
  fold p2 in Hm, Hs2. fold p1 in Hm, Hs1, Hs2.
  pose proof HR as (HtyR & HrR & HaccR & HplR).
  pose proof HA as (HtyA & HrA & HaccA & HplA).
  pose proof H3 as (Hty3 & Hr3 & Hacc3 & Hpl3).
  change (QueueEvents env (S fuel) [evR; evA; ev3] q)
    with (q1 <- QueueEvent env (S fuel) evR q ;;
          q2 <- QueueEvent env (S fuel) evA q1 ;;
          q3 <- QueueEvent env (S fuel) ev3 q2 ;; Ok q3).
  cbn [QueueEvents] in Hrun.
  destruct (QueueEvent env (S fuel) evR q) as [qa| |]; cbn [bind] in Hrun |- *;
    try discriminate.
  destruct (QueueEvent env (S fuel) evA qa) as [qb| |]; cbn [bind] in Hrun |- *;
    try discriminate.
  inversion Hrun; subst qb. clear Hrun.
  unfold QueueEvent, alloc.
  rewrite PushEvent_appends
    by (rewrite heap_allocated; try congruence; rewrite Hty3;
        destruct Hk3 as [->|[->| ->]]; discriminate).
  rewrite Hnext. fold p3.
  set (qd := record (PushAppended p3)
               (withEvents (mEvents (allocated ev3 s1) ++ [p3]) (allocated ev3 s1))).
  assert (Hmd : mEvents qd = (mEvents q ++ [p1; p2]) ++ [p3])
    by (unfold qd, allocated; cbn [mEvents record withEvents]; rewrite Hm;
        reflexivity).
  assert (Hho : forall x, x <> p3 -> heap qd x = heap s1 x).
  { intros x Hx. unfold qd, allocated. cbn. rewrite Hnext. fold p3.
    destruct (Nat.eqb_spec x p3); [contradiction|reflexivity]. }
  assert (Hh3 : heap qd p3 = ev3).
  { unfold qd, allocated. cbn. rewrite Hnext. fold p3. rewrite Nat.eqb_refl.
    reflexivity. }
  assert (Hh1 : heap qd p1 = withRule eDoNotEmit evR)
    by (rewrite Hho by (unfold p1, p3; lia); exact Hs1).
  assert (Hh2 : heap qd p2 = onSelChange (withPackedEvent (Some p1))
                   (withType EVENT_SELECTION
                      (onSelChange (withPreceedingCount 1) evA)))
    by (rewrite Hho by (unfold p2, p3; lia); exact Hs2).
  assert (Hhl : forall p, In p (mEvents q) -> heap qd p = heap q p).
  { intros p Hp. specialize (Hq p Hp). rewrite Hho by (unfold p3; lia).
    apply Hold. exact Hq. }
  destruct (merged_fields evA _ (Some p1) EVENT_SELECTION 1 HplA)
    as (Hty2 & Hr2 & Hacc2 & Hu2 & Hpl2).
  rewrite <- Hh2 in Hty2, Hr2, Hacc2, Hu2, Hpl2. rewrite HrA in Hr2.
  assert (Hpl1 : payload (heap qd p1) = payload evR) by (rewrite Hh1; reflexivity).
  rewrite HplR in Hpl1.
  assert (Hpl3' : payload (heap qd p3) = payload ev3) by (rewrite Hh3; reflexivity).
  rewrite Hpl3 in Hpl3'.
  assert (Hr3' : mEventRule (heap qd p3) = eCoalesceSelectionChange)
    by (rewrite Hh3; exact Hr3).
  set (s3 := modify p2 (withType (selChangeKind eSelectionAdd))
               (modify p2 (onSelChange (withPackedEvent None))
                  (modify p1 (withRule eCoalesceSelectionChange)
                     (modify p1 (withType (selChangeKind eSelectionRemove))
                        (modify p3 (onSelChange (withPreceedingCount (1 + 1)))
                           qd))))).
  assert (Hc : CoalesceEvents (S fuel) qd = Ok s3).
  { rewrite (CoalesceEvents_selection (S fuel) qd (mEvents q ++ [p1; p2]) p3);
      [|exact Hmd|unfold Length in *; rewrite length_app; cbn [length]; lia
       |rewrite length_app; cbn [length]; lia|exact Hr3'].
    destruct (noSelectionFor_scan q qd (mEvents q) p3 widget _
                H0 Hhl Hr3' Hpl3' eq_refl) as [[_ Hty'] Hnone].
    rewrite (scanDown_selection_hit (S fuel) qd p3 (mEvents q ++ [p1; p2])
               (S (length (mEvents q))) p2 Hmd).
    - assert (H32 : p3 <> p2) by (unfold p2, p3; lia).
      assert (H31 : p3 <> p1) by (unfold p1, p3; lia).
      assert (H21 : p2 <> p1) by (unfold p1, p2; lia).
      rewrite (CoalesceSelChangeEvents_unpack (S fuel) p3 p2 p1 _ qd _ _ _
                 H32 H31 H21 Hpl3' Hpl2 Hpl1 Hty2);
        [cbn [bind leave]; reflexivity|reflexivity|cbn; lia].
    - split; [eexists; exact Hpl3'|]. intros p Hp Hrp.
      apply in_app_or in Hp.
      destruct Hp as [Hp|[<-|[<-|[]]]]; [apply Hty'; assumption| |].
      + eexists; exact Hpl1.
      + eexists; exact Hpl2.
    - rewrite nth_error_app2 by lia.
      replace (S (length (mEvents q)) - length (mEvents q))%nat with 1%nat by lia.
      reflexivity.
    - unfold sameControl. rewrite Hr3', Hr2, Hpl3', Hpl2. cbn.
      rewrite Nat.eqb_refl. reflexivity.
    - rewrite length_app. cbn [length]. lia.
    - intros j p [Hj1 Hj2]. rewrite length_app in Hj2. cbn [length] in Hj2. lia. }
  change (CoalesceEvents (S fuel) _) with (CoalesceEvents (S fuel) qd).
  rewrite Hc. cbn [bind].
  assert (Hf3 : heap s3 p3 = onSelChange (withPreceedingCount 2) ev3).
  { unfold s3. rewrite !heap_modify_other by (unfold p1, p2, p3; lia).
    rewrite heap_modify_same, Hh3. reflexivity. }
  assert (Hf1 : heap s3 p1 = evR).
  { unfold s3. rewrite !heap_modify_other by (unfold p1, p2; lia).
    rewrite !heap_modify_same.
    rewrite heap_modify_other by (unfold p1, p3; lia). rewrite Hh1.
    destruct evR as [ty ru ac us pl]. cbn in HtyR, HrR |- *. subst ty ru.
    reflexivity. }
  assert (Hf2 : heap s3 p2 = withType EVENT_SELECTION_ADD
                               (onSelChange (withPreceedingCount 1) evA)).
  { unfold s3. rewrite !heap_modify_same.
    rewrite !heap_modify_other by (unfold p1, p2, p3; lia). rewrite Hh2.
    destruct evA as [ty ru ac us pl]. cbn in HplA |- *. subst pl. reflexivity. }
  rewrite Hf3.
  replace (mEventType (onSelChange (withPreceedingCount 2) ev3)) with kind3
    by (unfold onSelChange; rewrite Hpl3; cbn; congruence).
  replace (startsPropagation kind3) with false
    by (destruct Hk3 as [->|[->| ->]]; reflexivity).
  cbn [bind]. exists s3. split; [reflexivity|].
  split; [rewrite <- app_assoc in Hmd; exact Hmd|].
  split; [exact Hf1|]. split; [exact Hf2|]. split; [exact Hf3|].
  intros x Hx. unfold s3.
  rewrite !heap_modify_other by (unfold p1, p2, p3; lia).
  rewrite Hho by (unfold p3; lia). apply Hold. exact Hx.
Qed.

Lemma third_selection_event_witness :
  exists q',
    QueueEvents quietEnv 3
      [selEvent 100%nat 1%nat eSelectionRemove; selEvent 100%nat 2%nat eSelectionAdd;
       selEvent 100%nat 3%nat eSelectionAdd]
      emptyQueue = Ok q' /\
    mEvents q' = [0%nat; 1%nat; 2%nat] /\
    heap q' 0%nat = selEvent 100%nat 1%nat eSelectionRemove /\
    heap q' 1%nat = withType EVENT_SELECTION_ADD
                      (onSelChange (withPreceedingCount 1)
                         (selEvent 100%nat 2%nat eSelectionAdd)) /\
    heap q' 2%nat = onSelChange (withPreceedingCount 2)
                      (selEvent 100%nat 3%nat eSelectionAdd) /\
    (forall x, (x < 0)%nat -> heap q' x = heap emptyQueue x).
Proof.
  apply (third_selection_event_undoes_the_merge quietEnv 2 emptyQueue
           (selEvent 100%nat 1%nat eSelectionRemove)
           (selEvent 100%nat 2%nat eSelectionAdd)
           (selEvent 100%nat 3%nat eSelectionAdd)
           100%nat 1%nat 2%nat 3%nat EVENT_SELECTION_ADD EVENT_SELECTION_ADD
           eSelectionAdd).
  - repeat split.
  - repeat split.
  - left. reflexivity.
  - repeat split.
  - left. reflexivity.
  - discriminate.
  - intros p [].
  - intros p [].
  - vm_compute. reflexivity.
  - simpl. lia.
Defined.

Example unmerged_events_are_all_fired :
  map fst (handed (log (stateOf (ProcessEventQueue quietEnv 3
             (stateOf (QueueEvents quietEnv 3
                [selEvent 100%nat 1%nat eSelectionRemove;
                 selEvent 100%nat 2%nat eSelectionAdd;
                 selEvent 100%nat 3%nat eSelectionAdd] emptyQueue))))))
  = [0%nat; 1%nat; 2%nat].
Proof. vm_compute. reflexivity. Qed.

(** ** What the propagator reports *)

(** From [q] with the flag [pushed0] to [q'] with the flag [b]: the flag is
    set exactly when an event object was created on the way, and an unset
    flag means that nothing happened at all. *)
Definition reported (pushed0 : bool) (q : State) (b : bool) (q' : State) : Prop :=
  exists d, log q' = log q ++ d /\
    Forall (fun e => isPushOutcome e = true) d /\
    (nextPtr q <= nextPtr q')%nat /\
    (pushed0 = true -> b = true) /\
    (b = false -> q' = q) /\
    (b = true -> pushed0 = true \/ ((nextPtr q < nextPtr q')%nat /\ d <> [])).

Lemma reported_refl (b : bool) (q : State) : reported b q b q.
Proof. exists []. rewrite app_nil_r. repeat split; auto. Qed.

Lemma reported_trans (b0 b1 b2 : bool) (q0 q1 q2 : State) :
  reported b0 q0 b1 q1 -> reported b1 q1 b2 q2 -> reported b0 q0 b2 q2.
Proof.
  intros (d1 & L1 & F1 & A1 & A2 & A3 & A4) (d2 & L2 & F2 & B1 & B2 & B3 & B4).
  exists (d1 ++ d2). split; [rewrite L2, L1, app_assoc; reflexivity|].
  split; [apply Forall_app; split; assumption|].
  split; [lia|]. split; [auto|]. split.
  - intros H. rewrite (B3 H) in *. apply A3.
    destruct b1; [|reflexivity]. rewrite B2 in H by reflexivity. discriminate.
  - intros H. destruct b1.
    + destruct (A4 eq_refl) as [H1|[H1 H1']]; [left; exact H1|right].
      split; [lia|]. destruct d1; [congruence|discriminate].
    + destruct (B4 H) as [H1|[H1 H1']]; [discriminate|right].
      split; [lia|]. destruct d1; [exact H1'|discriminate].
Qed.

(** A sub-step that starts from an unset flag, or-ed into the flag. *)
Lemma reported_or (pushed0 b : bool) (q q' : State) :
  reported false q b q' -> reported pushed0 q (pushed0 || b) q'.
Proof.
  intros (d & L & F & A1 & _ & A3 & A4). exists d.
  split; [exact L|]. split; [exact F|].
  split; [exact A1|]. split; [intros ->; reflexivity|].
  split.
  - intros H. apply orb_false_iff in H. apply A3, H.
  - intros H. destruct pushed0; [left; reflexivity|]. cbn in H.
    destruct (A4 H) as [H1|H1]; [discriminate|right; exact H1].
Qed.

Section Reporting.

Variable env : Env.
Variable push : EventPtr -> State -> Result (bool * State).
Hypothesis push_ok : forall p q b q',
  push p q = Ok (b, q') ->
  b = true /\ (nextPtr q <= nextPtr q')%nat /\
  exists o d, log q' = log q ++ o :: d /\
    Forall (fun e => isPushOutcome e = true) (o :: d).

Lemma allocated_push_reported (t : EventType) (a : Acc) (q : State)
    (b : bool) (q' : State) :
  push (nextPtr q) (allocated (newAccEvent env t a) q) = Ok (b, q') ->
  reported false q b q'.
Proof.
  intros H. apply push_ok in H. destruct H as (-> & Hn & o & d & L & F).
  change (nextPtr (allocated (newAccEvent env t a) q)) with (S (nextPtr q)) in Hn.
  exists (o :: d). split; [exact L|]. split; [exact F|].
  split; [lia|]. split; [discriminate|]. split; [discriminate|].
  intros _. right. split; [lia|discriminate].
Qed.

Lemma pushToTargets_reported (t : EventType) (targets : list Acc) :
  forall pushed0 q b q',
    pushToTargets env push t targets pushed0 q = Ok (b, q') ->
    reported pushed0 q b q'.
Proof.
  induction targets as [|a rest IH]; intros pushed0 q b q' H; cbn [pushToTargets] in H.
  - inversion H; subst. apply reported_refl.
  - unfold alloc in H.
    destruct (push (nextPtr q) (allocated (newAccEvent env t a) q))
      as [[b1 q1]| |] eqn:E; cbn [bind] in H; try discriminate.
    apply allocated_push_reported in E. apply IH in H.
    eapply reported_trans; [apply reported_or; exact E|exact H].
Qed.

Lemma relations_reported (a : Acc) (r : RelationType) (q : State)
    (b : bool) (q' : State) :
  PushNameOrDescriptionChangeToRelations env push a r q = Ok (b, q') ->
  reported false q b q'.
Proof. apply pushToTargets_reported. Qed.

Lemma walkAncestors_reported (fuel : nat) (target : Acc) (m doName doDesc : bool) :
  forall parent nca pushed0 q b q',
    walkAncestors env push fuel target m doName doDesc parent nca pushed0 q
    = Ok (b, q') ->
    reported pushed0 q b q'.
Proof.
  induction fuel as [|fuel IH]; intros parent nca pushed0 q b q' H;
    cbn [walkAncestors] in H; [discriminate|].
  match type of H with
  | bind ?c _ = _ => destruct c as [[[nca1 b1] q1]| |] eqn:E1; cbn [bind] in H;
                       try discriminate
  end.
  assert (R1 : reported pushed0 q b1 q1).
  { destruct doName; [|inversion E1; subst; apply reported_refl].
    match type of E1 with
    | bind ?c _ = _ => destruct c as [[[nca0 b0] q0]| |] eqn:E0; cbn [bind] in E1;
                         try discriminate
    end.
    assert (R0 : reported pushed0 q b0 q0).
    { match type of E0 with
      | (if ?c then _ else _) = _ => destruct c
      end; [|inversion E0; subst; apply reported_refl].
      match type of E0 with
      | bind ?c _ = _ => destruct c as [[b' q'0]| |] eqn:Ef; cbn [bind] in E0;
                           try discriminate
      end.
      inversion E0; subst.
      destruct (fireNameChange env parent);
        [|inversion Ef; subst; apply reported_refl].
      unfold alloc in Ef.
      match type of Ef with
      | bind ?c _ = _ => destruct c as [[b2 q2]| |] eqn:Ep; cbn [bind] in Ef;
                           try discriminate
      end.
      inversion Ef; subst. apply reported_or.
      eapply allocated_push_reported. exact Ep. }
    match type of E1 with
    | bind ?c _ = _ => destruct c as [[b2 q2]| |] eqn:Er; cbn [bind] in E1;
                         try discriminate
    end.
    inversion E1; subst.
    eapply reported_trans; [exact R0|].
    apply reported_or. eapply relations_reported. exact Er. }
  match type of H with
  | bind ?c _ = _ => destruct c as [[b2 q2]| |] eqn:E2; cbn [bind] in H;
                       try discriminate
  end.
  assert (R2 : reported b1 q1 b2 q2).
  { destruct doDesc; [|inversion E2; subst; apply reported_refl].
    match type of E2 with
    | bind ?c _ = _ => destruct c as [[b3 q3]| |] eqn:Er; cbn [bind] in E2;
                         try discriminate
    end.
    inversion E2; subst. apply reported_or. eapply relations_reported. exact Er. }
  assert (R : reported pushed0 q b2 q2) by (eapply reported_trans; eassumption).
  destruct (IsDoc env parent); [inversion H; subst; exact R|].
  destruct (LocalParent env parent) as [parent'|]; [|inversion H; subst; exact R].
  destruct (HasNameRule env parent' eNameFromSubtreeIfReqRule);
    [|inversion H; subst; exact R].
  eapply reported_trans; [exact R|]. eapply IH. exact H.
Qed.

Lemma PushNameOrDescriptionChange_reported (fuel : nat) (aOrigEvent : EventPtr)
    (q : State) (b : bool) (q' : State) :
  PushNameOrDescriptionChange env push fuel aOrigEvent q = Ok (b, q') ->
  reported false q b q'.
Proof.
  unfold PushNameOrDescriptionChange. intros H.
  destruct (mAccessible (heap q aOrigEvent)) as [target|]; [|discriminate].
  match type of H with
  | (if ?c then _ else _) = _ => destruct c
  end; [inversion H; subst; apply reported_refl|].
  eapply walkAncestors_reported. exact H.
Qed.

End Reporting.

Lemma PushEvent_grows (env : Env) (fuel : nat) (p : EventPtr) (q : State)
    (b : bool) (q' : State) :
  PushEvent env fuel p q = Ok (b, q') ->
  b = true /\ (nextPtr q <= nextPtr q')%nat /\
  exists o d, log q' = log q ++ o :: d /\
    Forall (fun e => isPushOutcome e = true) (o :: d).
Proof.
  intros H. pose proof (PushEvent_first_outcome env fuel p q b q' H)
    as (o & d' & L' & _).
  apply (PushEvent_logged env 0) in H; try lia.
  destruct H as [(d & L & F & _ & _ & Hn) Hb].
  split; [exact Hb|]. split; [exact Hn|]. exists o, d'. split; [exact L'|].
  rewrite L in L'. apply app_inv_head in L'. subst d.
  eapply Forall_impl; [|exact F]. intros e [He _]. exact He.
Qed.

(** X10. [PushNameOrDescriptionChange] returns true exactly when it
    created and pushed at least one event: a false result means that the
    queue, the event objects and the log are all as they were, and a true
    result means that at least one new event object exists and that the log
    grew, by push outcomes only. *)
Theorem propagator_reports_whether_it_pushed (env : Env) (fuel fuel' : nat)
    (aOrigEvent : EventPtr) (q : State) (b : bool) (q' : State) :
  PushNameOrDescriptionChange env (PushEvent env fuel) fuel' aOrigEvent q
  = Ok (b, q') ->
  (b = false -> q' = q) /\
  (b = true ->
   (nextPtr q < nextPtr q')%nat /\
   exists o d, log q' = log q ++ o :: d /\
     Forall (fun e => isPushOutcome e = true) (o :: d)).
Proof.
  intros H.
  apply (PushNameOrDescriptionChange_reported env _ (PushEvent_grows env fuel)) in H.
  destruct H as (d & L & F & _ & _ & H3 & H4). split; [exact H3|].
  intros Hb. destruct (H4 Hb) as [H|[H1 H2]]; [discriminate|].
  split; [exact H1|]. destruct d as [|o d]; [congruence|]. exists o, d. auto.
Qed.

Lemma pushToTargets_counts (env : Env) (fuel : nat) (t : EventType)
    (targets : list Acc) :
  forall pushed0 q b q',
    pushToTargets env (PushEvent env fuel) t targets pushed0 q = Ok (b, q') ->
    b = pushed0 || negb (IsEmpty targets) /\
    (nextPtr q + length targets <= nextPtr q')%nat.
Proof.
  induction targets as [|a rest IH]; intros pushed0 q b q' H; cbn [pushToTargets] in H.
  - inversion H; subst. rewrite orb_false_r. split; [reflexivity|cbn; lia].
  - unfold alloc in H.
    destruct (PushEvent env fuel (nextPtr q) (allocated (newAccEvent env t a) q))
      as [[b1 q1]| |] eqn:E; cbn [bind] in H; try discriminate.
    apply PushEvent_grows in E. destruct E as (-> & Hn & _).
    change (nextPtr (allocated (newAccEvent env t a) q)) with (S (nextPtr q)) in Hn.
    apply IH in H. destruct H as [-> Hn']. rewrite orb_true_r. cbn [orb IsEmpty negb].
    rewrite orb_true_r. split; [reflexivity|cbn [length]; lia].
Qed.

(** X11. [PushNameOrDescriptionChangeToRelations] returns true exactly
    when the relation has a target; it creates at least one event object per
    target, and with no target it leaves the state as it was. *)
Theorem relations_push_reports_whether_it_pushed (env : Env) (fuel : nat)
    (aAccessible : Acc) (aType : RelationType) (q : State) (b : bool) (q' : State) :
  PushNameOrDescriptionChangeToRelations env (PushEvent env fuel) aAccessible aType q
  = Ok (b, q') ->
  b = negb (IsEmpty (RelationByType env aAccessible aType)) /\
  (b = false -> q' = q) /\
  (nextPtr q + length (RelationByType env aAccessible aType) <= nextPtr q')%nat.
Proof.
  intros H. pose proof H as H'.
  apply pushToTargets_counts in H. destruct H as [Hb Hn].
  apply (relations_reported env _ (PushEvent_grows env fuel)) in H'.
  destruct H' as (_ & _ & _ & _ & _ & H3 & _). auto.
Qed.

(** The result of a run, for runs that succeed. *)
Definition outcomeOf (r : Result (bool * State)) : bool * State :=
  match r with Ok x => x | _ => (false, emptyQueue) end.

Definition treeWalk : bool * State :=
  outcomeOf (PushNameOrDescriptionChange treeEnv (PushEvent treeEnv 5) 5 0%nat
               textRemoved).

Lemma propagator_reports_witness :
  (fst treeWalk = false -> snd treeWalk = textRemoved) /\
  (fst treeWalk = true ->
   (nextPtr textRemoved < nextPtr (snd treeWalk))%nat /\
   exists o d, log (snd treeWalk) = log textRemoved ++ o :: d /\
     Forall (fun e => isPushOutcome e = true) (o :: d)).
Proof.
  apply (propagator_reports_whether_it_pushed treeEnv 5 5 0%nat textRemoved
           (fst treeWalk) (snd treeWalk)).
  vm_compute. reflexivity.
Defined.

(** Accessible 1 labels the accessibles 4 and 5. *)
Definition labelEnv : Env := {|
  HasNameRule := fun _ _ => false;
  HasNameDependent := fun a => Nat.eqb a 1;
  HasDescriptionDependent := fun _ => false;
  IsHTMLFileInput := fun _ => false;
  Name := fun _ => (eNameOK, false);
  RelationByType := fun a r =>
    match a, r with
    | 1%nat, LABEL_FOR => [4%nat; 5%nat]
    | _, _ => []
    end;
  LocalParent := fun _ => None;
  IsDoc := fun _ => false;
  UniqueID := fun a => Z.of_nat a;
  IPCAccessibilityActive := false;
  IPCDoc := false;
  states_SELECTED := 2;
  defaultEventRule := eRemoveDupes;
  autoDetectedUserInput := false;
  listener := fun _ => []
|}.

Definition labelPush : bool * State :=
  outcomeOf (PushNameOrDescriptionChangeToRelations labelEnv (PushEvent labelEnv 5)
               1%nat LABEL_FOR textRemoved).

Lemma relations_push_witness :
  fst labelPush = negb (IsEmpty (RelationByType labelEnv 1%nat LABEL_FOR)) /\
  (fst labelPush = false -> snd labelPush = textRemoved) /\
  (nextPtr textRemoved + length (RelationByType labelEnv 1%nat LABEL_FOR)
   <= nextPtr (snd labelPush))%nat.
Proof.
  apply (relations_push_reports_whether_it_pushed labelEnv 5 1%nat LABEL_FOR
           textRemoved (fst labelPush) (snd labelPush)).
  vm_compute. reflexivity.
Defined.

Example relations_push_runs :
  fst labelPush = true /\
  map (fun p => (mEventType (heap (snd labelPush) p),
                 mAccessible (heap (snd labelPush) p)))
      (mEvents (snd labelPush))
  = [(EVENT_TEXT_REMOVED, Some 1%nat); (EVENT_NAME_CHANGE, Some 4%nat);
     (EVENT_NAME_CHANGE, Some 5%nat)].
Proof. vm_compute. split; reflexivity. Qed.

(** ** What no push and no drain ever changes *)

(** What an event is about: the fields of its class that say which change it
    reports, without the bookkeeping of the selection merge. *)
Definition subject (pl : Payload) : Payload :=
  match pl with
  | SelChangeEvent s =>
      SelChangeEvent (withPackedEvent None (withPreceedingCount 0 s))
  | _ => pl
  end.

(** [e'] reports the same change as [e]: possibly retagged, retyped and, for
    a selection event, retargeted at its widget. *)
Definition sameSubject (e e' : AccEvent) : Prop :=
  mIsFromUserInput e' = mIsFromUserInput e /\
  subject (payload e') = subject (payload e) /\
  (mAccessible e' = mAccessible e \/
   exists s, payload e = SelChangeEvent s /\ mAccessible e' = Some (mWidget s)).

Lemma sameSubject_refl (e : AccEvent) : sameSubject e e.
Proof. repeat split. left. reflexivity. Qed.

Lemma sameSubject_trans (e1 e2 e3 : AccEvent) :
  sameSubject e1 e2 -> sameSubject e2 e3 -> sameSubject e1 e3.
Proof.
  intros (A1 & A2 & A3) (B1 & B2 & B3).
  split; [congruence|]. split; [congruence|].
  destruct B3 as [B3|(s & Hs & B3)].
  - rewrite B3. exact A3.
  - right. destruct (payload e1) as [| |s1|] eqn:E1;
      destruct (payload e2) as [| |s2|] eqn:E2; cbn in A2; try discriminate.
    inversion Hs; subst s2. exists s1. split; [reflexivity|].
    rewrite B3. inversion A2. reflexivity.
Qed.

(** The writes the queue makes into event objects. *)
Definition keepsSubject (f : AccEvent -> AccEvent) : Prop :=
  forall e, sameSubject e (f e).

Lemma keepsSubject_withRule (r : EEventRule) : keepsSubject (withRule r).
Proof. intros e. repeat split. left. reflexivity. Qed.

Lemma keepsSubject_withType (t : EventType) : keepsSubject (withType t).
Proof. intros e. repeat split. left. reflexivity. Qed.

Lemma keepsSubject_onSelChange (f : SelChange -> SelChange) :
  (forall s, withPackedEvent None (withPreceedingCount 0 (f s))
             = withPackedEvent None (withPreceedingCount 0 s)) ->
  keepsSubject (onSelChange f).
Proof.
  intros Hf e. unfold onSelChange, sameSubject.
  destruct (payload e) as [| |s|] eqn:E; cbn; rewrite ?E;
    try (repeat split; left; reflexivity).
  cbn. rewrite Hf. repeat split. left. reflexivity.
Qed.

(** Every object is about what it was about in [q0]. *)
Definition subjectsKept (q0 q : State) : Prop :=
  forall x, sameSubject (heap q0 x) (heap q x).

Lemma subjectsKept_refl (q : State) : subjectsKept q q.
Proof. intros x. apply sameSubject_refl. Qed.

Lemma subjectsKept_modify (q0 q : State) (x : EventPtr) (f : AccEvent -> AccEvent) :
  subjectsKept q0 q -> keepsSubject f -> subjectsKept q0 (modify x f q).
Proof.
  intros H Hf y. cbn [modify withHeap heap].
  destruct (Nat.eqb_spec y x) as [->|_]; [|apply H].
  eapply sameSubject_trans; [apply H|apply Hf].
Qed.

(** The pack step retargets the tail at its widget. *)
Lemma subjectsKept_retarget (q0 q : State) (x : EventPtr) (s : SelChange) :
  subjectsKept q0 q -> payload (heap q x) = SelChangeEvent s ->
  subjectsKept q0 (modify x (withAccessible (Some (mWidget s))) q).
Proof.
  intros H Hp y. cbn [modify withHeap heap].
  destruct (Nat.eqb_spec y x) as [->|_]; [|apply H].
  eapply sameSubject_trans; [apply H|].
  split; [reflexivity|]. split; [reflexivity|]. right. exists s. auto.
Qed.

Lemma asSelChange_Ok (e : AccEvent) (s : SelChange) :
  asSelChange e = Ok s -> payload e = SelChangeEvent s.
Proof. unfold asSelChange. destruct (payload e); congruence. Qed.

Lemma keepsSubject_count (n : Z) : keepsSubject (onSelChange (withPreceedingCount n)).
Proof. apply keepsSubject_onSelChange. reflexivity. Qed.

Lemma keepsSubject_packed (p : option EventPtr) :
  keepsSubject (onSelChange (withPackedEvent p)).
Proof. apply keepsSubject_onSelChange. reflexivity. Qed.

Create HintDb subject.
#[local] Hint Resolve keepsSubject_withRule keepsSubject_withType
  keepsSubject_count keepsSubject_packed : subject.

Ltac subject_tac :=
  repeat match goal with
  | |- subjectsKept _ (modify _ (withAccessible _) _) => apply subjectsKept_retarget
  | |- subjectsKept _ (modify _ _ _) => apply subjectsKept_modify
  | |- keepsSubject _ => solve [auto with subject]
  end;
  try assumption.

Lemma suppressPreceding_subject (q0 : State) (t : EventPtr) (i : Z)
    (s : State) (r : LoopStep State State) :
  subjectsKept q0 s -> suppressPreceding t i s = Ok r -> subjectsKept q0 (leave r).
Proof.
  intros HP H. unfold suppressPreceding in H.
  steps_ok; cbn [leave]; subject_tac.
Qed.

Lemma unpackOrConvert_subject (q0 : State) (t p : EventPtr) (s s' : State) :
  subjectsKept q0 s -> unpackOrConvert t p s = Ok s' -> subjectsKept q0 s'.
Proof.
  intros HP H. unfold unpackOrConvert in H.
  steps_ok; subject_tac.
Qed.

Lemma CoalesceSelChangeEvents_subject (q0 : State) (fuel : nat)
    (t p : EventPtr) (i : Z) (s s' : State) :
  subjectsKept q0 s ->
  CoalesceSelChangeEvents fuel t p i s = Ok s' -> subjectsKept q0 s'.
Proof.
  intros HP H. unfold CoalesceSelChangeEvents in H.
  steps_ok;
    try (eapply unpackOrConvert_subject; [|exact H]; subject_tac; fail);
    try (subject_tac; fail).
  - match goal with
    | E : forDown _ _ _ _ _ = Ok _ |- _ =>
        eapply (forDown_preserves (subjectsKept q0)); [| |exact E]
    end.
    + intros j s0 r0. apply suppressPreceding_subject.
    + subject_tac.
      rewrite heap_modify_same. cbn [withType payload].
      apply asSelChange_Ok. assumption.
  - subject_tac.
    rewrite heap_modify_same. cbn [withType payload].
    apply asSelChange_Ok. assumption.
Qed.

Lemma coalesce_bodies_subject (q0 : State) (fuel : nat) (t : EventPtr)
    (i : Z) (s : State) (r : LoopStep State State) :
  subjectsKept q0 s ->
  (coalesceOfSameType t i s = Ok r \/
   coalesceSelectionChange fuel t i s = Ok r \/
   coalesceStateChange t i s = Ok r \/
   coalesceTextSelChange t i s = Ok r) ->
  subjectsKept q0 (leave r).
Proof.
  unfold coalesceOfSameType, coalesceSelectionChange, coalesceStateChange,
    coalesceTextSelChange.
  intros HP [H|[H|[H|H]]]; steps_ok; cbn [leave]; subject_tac.
  eapply CoalesceSelChangeEvents_subject; [exact HP|eassumption].
Qed.

Lemma CoalesceEvents_subject (fuel : nat) (q q' : State) :
  CoalesceEvents fuel q = Ok q' -> subjectsKept q q'.
Proof.
  intros H. unfold CoalesceEvents in H. step_ok.
  destruct (mEventRule (heap q a)); steps_ok; try apply subjectsKept_refl;
    match goal with
    | E : forDown _ _ _ _ _ = Ok _ |- _ =>
        eapply (forDown_preserves (subjectsKept q)); [| |exact E];
          [|apply subjectsKept_refl]
    end;
    intros i s r Hs Hr;
    apply (coalesce_bodies_subject q fuel a i s r Hs); auto.
Qed.

(** The objects that exist in [q] are in [q'] about what they were about. *)
Definition subjectsStay (q q' : State) : Prop :=
  (nextPtr q <= nextPtr q')%nat /\
  forall x, (x < nextPtr q)%nat -> sameSubject (heap q x) (heap q' x).

Lemma subjectsStay_refl (q : State) : subjectsStay q q.
Proof. split; [lia|]. intros x _. apply sameSubject_refl. Qed.

Lemma subjectsStay_trans (q1 q2 q3 : State) :
  subjectsStay q1 q2 -> subjectsStay q2 q3 -> subjectsStay q1 q3.
Proof.
  intros [A1 A2] [B1 B2]. split; [lia|]. intros x Hx.
  eapply sameSubject_trans; [apply A2; exact Hx|apply B2; lia].
Qed.

Lemma PushEvent_subject (env : Env) (fuel : nat) (aEvent : EventPtr) (q : State)
    (b : bool) (q' : State) :
  PushEvent env fuel aEvent q = Ok (b, q') -> subjectsStay q q'.
Proof.
  intros H.
  apply (PushEvent_I env (fun _ => True) subjectsStay (fun _ _ => True)) in H; auto.
  - apply H.
  - apply subjectsStay_refl.
  - apply subjectsStay_trans.
  - intros t a s _. split; [unfold allocated; cbn; lia|].
    intros x Hx. unfold allocated. cbn.
    destruct (Nat.eqb_spec x (nextPtr s)); [lia|apply sameSubject_refl].
  - intros p s _ _ _. split; [cbn; lia|]. intros x _. apply sameSubject_refl.
  - intros p s _ _ _. split; [cbn; lia|]. intros x _.
    apply (subjectsKept_modify s s p (withRule eDoNotEmit));
      [apply subjectsKept_refl|apply keepsSubject_withRule].
  - intros fuel0 p s s' _ _ _ Hc. pose proof (CoalesceEvents_shape _ _ _ Hc) as (S1 & _).
    apply CoalesceEvents_subject in Hc. split; [rewrite S1; cbn; lia|].
    intros x _. apply Hc.
Qed.

Lemma QueueEvent_subject (env : Env) (fuel : nat) (ev : AccEvent) (q q' : State) :
  QueueEvent env fuel ev q = Ok q' -> subjectsStay q q'.
Proof.
  intros H. unfold QueueEvent, alloc in H.
  destruct (PushEvent env fuel (nextPtr q) (allocated ev q)) as [[b q1]| |] eqn:E;
    cbn [bind] in H; try discriminate.
  inversion H; subst. apply PushEvent_subject in E. destruct E as [E1 E2].
  change (nextPtr (allocated ev q)) with (S (nextPtr q)) in E1, E2.
  split; [lia|]. intros x Hx.
  replace (heap q x) with (heap (allocated ev q) x); [apply E2; lia|].
  unfold allocated. cbn. destruct (Nat.eqb_spec x (nextPtr q)); [lia|reflexivity].
Qed.

Section DrainSubject.

Variable env : Env.

Lemma react_subject (fuel : nat) (rs : list Reaction) :
  forall q q', react env fuel rs q = Ok q' -> subjectsStay q q'.
Proof.
  induction rs as [|r rest IH]; intros q q' H; cbn [react] in H.
  - inversion H; subst. apply subjectsStay_refl.
  - destruct r as [ev|a|].
    + destruct (QueueEvent env fuel ev q) as [q1| |] eqn:E; cbn [bind] in H;
        try discriminate.
      eapply subjectsStay_trans; [eapply QueueEvent_subject; exact E|].
      apply IH. exact H.
    + apply IH in H. exact H.
    + apply IH in H. exact H.
Qed.

Lemma emit_subject (fuel : nat) (e : Effect) (q q' : State) :
  emit env fuel e q = Ok q' -> subjectsStay q q'.
Proof. intros H. unfold emit in H. apply react_subject in H. exact H. Qed.

Lemma fireSelectedState_subject (fuel : nat) (event : EventPtr) (t : EventType)
    (q q' : State) :
  fireSelectedState env fuel event t q = Ok q' -> subjectsStay q q'.
Proof.
  intros H. unfold fireSelectedState in H.
  repeat match type of H with
  | (if ?c then _ else _) = _ => destruct c
  end; try (apply emit_subject in H; exact H);
    [|inversion H; subst; apply subjectsStay_refl].
  destruct (asSelChange (heap q event)) as [s| |]; cbn [bind] in H; try discriminate.
  match type of H with
  | bind ?c _ = _ => destruct c as [q1| |] eqn:E1; cbn [bind] in H; try discriminate
  end.
  apply emit_subject in E1.
  destruct (asSelChange (heap q1 event)) as [s1| |]; cbn [bind] in H; try discriminate.
  destruct (mPackedEvent s1) as [packed|]; [|inversion H; subst; exact E1].
  destruct (asSelChange (heap q1 packed)) as [s2| |]; cbn [bind] in H; try discriminate.
  apply emit_subject in H. eapply subjectsStay_trans; eassumption.
Qed.

Lemma processEvents_subject (fuel : nat) :
  forall events ids q r q',
    processEvents env fuel events ids q = Ok (r, q') -> subjectsStay q q'.
Proof.
  induction events as [|event rest IH]; intros ids q r q' H; cbn [processEvents] in H.
  - inversion H; subst. apply subjectsStay_refl.
  - destruct (mAccessible (heap q event)) as [target|]; [|eapply IH; exact H].
    destruct (defunct q target); [eapply IH; exact H|].
    destruct (collectSelChange env event (mEventType (heap q event)) ids q)
      as [ids'| |]; cbn [bind] in H; try discriminate.
    destruct (rule_eqb (mEventRule (heap q event)) eDoNotEmit); [eapply IH; exact H|].
    destruct (type_eqb (mEventType (heap q event)) EVENT_TEXT_SELECTION_CHANGED).
    { match type of H with
      | bind ?c _ = _ => destruct c as [q1| |] eqn:E1; cbn [bind] in H;
                           try discriminate
      end.
      eapply subjectsStay_trans; [eapply emit_subject; exact E1|eapply IH; exact H]. }
    match type of H with
    | bind ?c _ = _ => destruct c as [q1| |] eqn:E1; cbn [bind] in H; try discriminate
    end.
    apply fireSelectedState_subject in E1.
    match type of H with
    | bind ?c _ = _ => destruct c as [q2| |] eqn:E2; cbn [bind] in H; try discriminate
    end.
    apply emit_subject in E2.
    assert (R2 : subjectsStay q q2) by (eapply subjectsStay_trans; eassumption).
    destruct (negb (mDocument q2)); [inversion H; subst; exact R2|].
    match type of H with
    | bind ?c _ = _ => destruct c as [q3| |] eqn:E3; cbn [bind] in H; try discriminate
    end.
    assert (R3 : subjectsStay q2 q3).
    { destruct (isMutationKind (mEventType (heap q event)) && IPCDoc env);
        [apply emit_subject in E3; exact E3|].
      inversion E3; subst. apply subjectsStay_refl. }
    eapply subjectsStay_trans; [exact R2|].
    eapply subjectsStay_trans; [exact R3|eapply IH; exact H].
Qed.

Lemma ProcessEventQueue_subject (fuel : nat) (q q' : State) :
  ProcessEventQueue env fuel q = Ok q' -> subjectsStay q q'.
Proof.
  intros H. unfold ProcessEventQueue in H.
  match type of H with
  | bind ?c _ = _ => destruct c as [q1| |] eqn:E1; cbn [bind] in H; try discriminate
  end.
  assert (R1 : subjectsStay q q1).
  { cbn [mFocusEvent withEvents] in E1.
    destruct (mFocusEvent q) as [event|].
    - cbn [heap withFocusEvent withEvents defunct] in E1.
      destruct (mAccessible (heap q event)) as [target|]; [|discriminate].
      destruct (defunct q target); cbn [negb] in E1.
      + inversion E1; subst. apply (subjectsStay_refl q).
      + apply emit_subject in E1. exact E1.
    - inversion E1; subst. apply (subjectsStay_refl q). }
  match type of H with
  | bind ?c _ = _ => destruct c as [[ids q2]| |] eqn:E2; cbn [bind] in H;
                       try discriminate
  end.
  apply processEvents_subject in E2.
  assert (R2 : subjectsStay q q2) by (eapply subjectsStay_trans; eassumption).
  destruct ids as [[selectedIDs unselectedIDs]|]; [|inversion H; subst; exact R2].
  match type of H with
  | (if ?c then _ else _) = _ => destruct c
  end; [|inversion H; subst; exact R2].
  destruct (IPCDoc env); [|discriminate].
  apply emit_subject in H. eapply subjectsStay_trans; eassumption.
Qed.

End DrainSubject.

(** X12. Neither a push, with the coalescing and the propagation it
    triggers, nor a drain, with whatever its listeners push meanwhile, ever
    changes what an existing event object reports: its user-input flag and
    the fields of its class (widget, item and kind of a selection change;
    state bit and flag of a state change; selection of a text selection
    change) stay as they were, and its target is either unchanged or, for a
    selection event, the event's widget.  Only the rule, the type and the
    bookkeeping of the selection merge are ever rewritten. *)
Theorem queue_never_changes_what_an_event_reports (env : Env) (fuel : nat) :
  (forall aEvent q b q',
     PushEvent env fuel aEvent q = Ok (b, q') ->
     forall x, (x < nextPtr q)%nat -> sameSubject (heap q x) (heap q' x)) /\
  (forall q q',
     ProcessEventQueue env fuel q = Ok q' ->
     forall x, (x < nextPtr q)%nat -> sameSubject (heap q x) (heap q' x)).
Proof.
  split.
  - intros aEvent q b q' H. apply PushEvent_subject in H. apply H.
  - intros q q' H. apply ProcessEventQueue_subject in H. apply H.
Qed.

(** Five selection-add events queued and a sixth one created: pushing it
    turns it into the selection-within event of the widget. *)
Definition packingQueue : State :=
  allocated (selEvent 100%nat 6%nat eSelectionAdd)
    (stateOf (QueueEvents quietEnv 6 (adds 100%nat 5) emptyQueue)).
Definition packingPush : bool * State :=
  outcomeOf (PushEvent quietEnv 7 5%nat packingQueue).

Lemma what_an_event_reports_witness :
  (forall x, (x < nextPtr packingQueue)%nat ->
     sameSubject (heap packingQueue x) (heap (snd packingPush) x)) /\
  (forall x, (x < nextPtr stormyQueue)%nat ->
     sameSubject (heap stormyQueue x) (heap stormyDrained x)).
Proof.
  destruct (queue_never_changes_what_an_event_reports quietEnv 7) as [Hpush _].
  destruct (queue_never_changes_what_an_event_reports stormyEnv 5) as [_ Hdrain].
  split.
  - apply (Hpush 5%nat packingQueue (fst packingPush) (snd packingPush)).
    vm_compute. reflexivity.
  - apply (Hdrain stormyQueue stormyDrained). vm_compute. reflexivity.
Defined.

Example packing_push_retargets_the_tail :
  mAccessible (heap packingQueue 5%nat) = Some 6%nat /\
  mAccessible (heap (snd packingPush) 5%nat) = Some 100%nat /\
  mEventType (heap (snd packingPush) 5%nat) = EVENT_SELECTION_WITHIN.
Proof. vm_compute. repeat split. Qed.

(** ** The selection report to the parent process *)

(** What a drained event contributes to the report: whether its item became
    selected, and the item's id.  Only events with a live target count, and
    of these the suppressed selection events and the selection-within
    events. *)
Definition reportedItem (env : Env) (q : State) (p : EventPtr) : option (bool * Z) :=
  match mAccessible (heap q p) with
  | Some target =>
      if defunct q target then None
      else if (rule_eqb (mEventRule (heap q p)) eDoNotEmit
               && isSelectionKind (mEventType (heap q p)))
              || type_eqb (mEventType (heap q p)) EVENT_SELECTION_WITHIN then
        match payload (heap q p) with
        | SelChangeEvent s =>
            if defunct q (mItem s) then None
            else Some (sel_eqb (mSelChangeType s) eSelectionAdd,
                       if IsDoc env (mItem s) then 0 else UniqueID env (mItem s))
        | _ => None
        end
      else None
  | None => None
  end.

Definition reportedIDs (env : Env) (q : State) (selected : bool)
    (events : list EventPtr) : list Z :=
  flat_map (fun p => match reportedItem env q p with
                     | Some (b, id) => if Bool.eqb b selected then [id] else []
                     | None => []
                     end) events.

Definition isReport (e : Effect) : bool :=
  match e with SendSelectedAccessiblesChanged _ _ => true | _ => false end.

Lemma collectSelChange_reported (env : Env) (q : State) (p : EventPtr)
    (target : Acc) (ids ids' : list Z * list Z) :
  IPCAccessibilityActive env = true ->
  mAccessible (heap q p) = Some target -> defunct q target = false ->
  collectSelChange env p (mEventType (heap q p)) ids q = Ok ids' ->
  ids' = (fst ids ++ reportedIDs env q true [p],
          snd ids ++ reportedIDs env q false [p]).
Proof.
  intros Hipc Ha Hd H. destruct ids as [sel unsel].
  unfold collectSelChange in H. rewrite Hipc in H.
  unfold reportedIDs, reportedItem. cbn [flat_map fst snd] in *. rewrite Ha, Hd.
  destruct ((rule_eqb (mEventRule (heap q p)) eDoNotEmit
             && isSelectionKind (mEventType (heap q p)))
            || type_eqb (mEventType (heap q p)) EVENT_SELECTION_WITHIN).
  - unfold asSelChange in H. destruct (payload (heap q p)) as [| |s|];
      cbn [bind] in H; try discriminate.
    destruct (defunct q (mItem s)); cbn [negb] in H.
    + inversion H; subst. cbn. rewrite !app_nil_r. reflexivity.
    + destruct (sel_eqb (mSelChangeType s) eSelectionAdd); inversion H; subst;
        cbn; rewrite !app_nil_r; reflexivity.
  - inversion H; subst. cbn. rewrite !app_nil_r. reflexivity.
Qed.

Lemma reportedIDs_cons (env : Env) (q : State) (b : bool) (p : EventPtr)
    (rest : list EventPtr) :
  reportedIDs env q b (p :: rest) = reportedIDs env q b [p] ++ reportedIDs env q b rest.
Proof. unfold reportedIDs. cbn [flat_map]. rewrite app_nil_r. reflexivity. Qed.

Lemma reportedIDs_skipped (env : Env) (q : State) (b : bool) (p : EventPtr) :
  reportedItem env q p = None -> reportedIDs env q b [p] = [].
Proof. intros H. unfold reportedIDs. cbn [flat_map]. rewrite H. reflexivity. Qed.

Section SilentReport.

Variable env : Env.
Variable q0 : State.
Hypothesis Hquiet : forall e, listener env e = [].
Hypothesis Hipc : IPCAccessibilityActive env = true.
Hypothesis Hdoc : mDocument q0 = true.

(** From [q] to [q'] nothing is reported. *)
Definition unreported (q q' : State) : Prop :=
  exists d, log q' = log q ++ d /\ Forall (fun e => isReport e = false) d.

Lemma unreported_refl (q : State) : unreported q q.
Proof. exists []. rewrite app_nil_r. split; [reflexivity|constructor]. Qed.

Lemma unreported_trans (q1 q2 q3 : State) :
  unreported q1 q2 -> unreported q2 q3 -> unreported q1 q3.
Proof.
  intros (d1 & L1 & F1) (d2 & L2 & F2). exists (d1 ++ d2).
  split; [rewrite L2, L1, app_assoc; reflexivity|apply Forall_app; split; assumption].
Qed.

Lemma emit_unreported (fuel : nat) (e : Effect) (q q' : State) :
  undisturbed q0 q -> isReport e = false -> emit env fuel e q = Ok q' ->
  undisturbed q0 q' /\ unreported q q'.
Proof.
  intros HU He H. destruct (emit_silent env q0 Hquiet fuel e q q' HU H) as [HU' L].
  split; [exact HU'|]. exists [e]. split; [exact L|]. constructor; [exact He|constructor].
Qed.

Lemma fireSelectedState_unreported (fuel : nat) (event : EventPtr) (t : EventType)
    (q q' : State) :
  undisturbed q0 q -> fireSelectedState env fuel event t q = Ok q' ->
  undisturbed q0 q' /\ unreported q q'.
Proof.
  intros HD H. unfold fireSelectedState in H.
  destruct (type_eqb t EVENT_SELECTION_ADD);
    [eapply emit_unreported; try exact H; auto|].
  destruct (type_eqb t EVENT_SELECTION_REMOVE);
    [eapply emit_unreported; try exact H; auto|].
  destruct (type_eqb t EVENT_SELECTION);
    [|inversion H; subst; split; [exact HD|apply unreported_refl]].
  destruct (asSelChange (heap q event)) as [s| |]; cbn [bind] in H; try discriminate.
  match type of H with
  | bind ?c _ = _ => destruct c as [q1| |] eqn:E1; cbn [bind] in H; try discriminate
  end.
  apply emit_unreported in E1; auto. destruct E1 as [HD1 H1].
  destruct (asSelChange (heap q1 event)) as [s1| |]; cbn [bind] in H; try discriminate.
  destruct (mPackedEvent s1) as [packed|]; [|inversion H; subst; auto].
  destruct (asSelChange (heap q1 packed)) as [s2| |]; cbn [bind] in H; try discriminate.
  apply emit_unreported in H; auto. destruct H as [HD2 H2].
  split; [exact HD2|]. eapply unreported_trans; eassumption.
Qed.

Lemma processEvents_collects (fuel : nat) :
  forall events ids q r q',
    undisturbed q0 q ->
    processEvents env fuel events ids q = Ok (r, q') ->
    undisturbed q0 q' /\ unreported q q' /\
    r = Some (fst ids ++ reportedIDs env q0 true events,
              snd ids ++ reportedIDs env q0 false events).
Proof.
  induction events as [|event rest IH]; intros ids q r q' HU H;
    cbn [processEvents] in H.
  - inversion H; subst. split; [exact HU|]. split; [apply unreported_refl|].
    cbn. rewrite !app_nil_r. destruct ids; reflexivity.
  - pose proof HU as (Hh & Hd & Hm).
    rewrite (reportedIDs_cons env q0 true), (reportedIDs_cons env q0 false).
    assert (Hskip : forall q1,
              undisturbed q0 q1 -> unreported q q1 ->
              reportedItem env q0 event = None ->
              processEvents env fuel rest ids q1 = Ok (r, q') ->
              undisturbed q0 q' /\ unreported q q' /\
              r = Some (fst ids ++ reportedIDs env q0 true [event]
                                ++ reportedIDs env q0 true rest,
                        snd ids ++ reportedIDs env q0 false [event]
                                ++ reportedIDs env q0 false rest)).
    { intros q1 HU1 H1 Hnone H'.
      destruct (IH ids q1 r q' HU1 H') as (HU' & Hun & ->).
      split; [exact HU'|]. split; [eapply unreported_trans; eassumption|].
      rewrite !reportedIDs_skipped by exact Hnone. reflexivity. }
    assert (Hnext : forall ids' q1,
              undisturbed q0 q1 -> unreported q q1 ->
              ids' = (fst ids ++ reportedIDs env q0 true [event],
                      snd ids ++ reportedIDs env q0 false [event]) ->
              processEvents env fuel rest ids' q1 = Ok (r, q') ->
              undisturbed q0 q' /\ unreported q q' /\
              r = Some (fst ids ++ reportedIDs env q0 true [event]
                                ++ reportedIDs env q0 true rest,
                        snd ids ++ reportedIDs env q0 false [event]
                                ++ reportedIDs env q0 false rest)).
    { intros ids' q1 HU1 H1 Hids H'.
      destruct (IH ids' q1 r q' HU1 H') as (HU' & Hun & ->).
      split; [exact HU'|]. split; [eapply unreported_trans; eassumption|].
      subst ids'. cbn [fst snd]. rewrite <- !app_assoc. reflexivity. }
    destruct (mAccessible (heap q event)) as [target|] eqn:Ea.
    2:{ apply (Hskip q HU (unreported_refl q)); [|exact H].
        unfold reportedItem. rewrite <- Hh, Ea. reflexivity. }
    destruct (defunct q target) eqn:Edef.
    { apply (Hskip q HU (unreported_refl q)); [|exact H].
      unfold reportedItem. rewrite <- Hh, <- Hd, Ea, Edef. reflexivity. }
    destruct (collectSelChange env event (mEventType (heap q event)) ids q)
      as [ids'| |] eqn:Ec; cbn [bind] in H; try discriminate.
    apply (collectSelChange_reported env q event target ids ids' Hipc Ea Edef) in Ec.
    assert (Hrep : forall b, reportedIDs env q b [event] = reportedIDs env q0 b [event]).
    { intros b. unfold reportedIDs, reportedItem. rewrite Hh, Hd. reflexivity. }
    rewrite !Hrep in Ec.
    destruct (rule_eqb (mEventRule (heap q event)) eDoNotEmit);
      [apply (Hnext ids' q HU (unreported_refl q) Ec H)|].
    destruct (type_eqb (mEventType (heap q event)) EVENT_TEXT_SELECTION_CHANGED).
    { match type of H with
      | bind ?c _ = _ => destruct c as [q1| |] eqn:E1; cbn [bind] in H;
                           try discriminate
      end.
      apply emit_unreported in E1; [|exact HU|reflexivity]. destruct E1 as [HU1 H1].
      apply (Hnext ids' q1 HU1 H1 Ec H). }
    match type of H with
    | bind ?c _ = _ => destruct c as [q1| |] eqn:E1; cbn [bind] in H; try discriminate
    end.
    apply fireSelectedState_unreported in E1; [|exact HU]. destruct E1 as [HU1 H1].
    match type of H with
    | bind ?c _ = _ => destruct c as [q2| |] eqn:E2; cbn [bind] in H; try discriminate
    end.
    apply emit_unreported in E2; [|exact HU1|reflexivity]. destruct E2 as [HU2 H2].
    rewrite (proj2 (proj2 HU2)), Hdoc in H. cbn [negb] in H.
    match type of H with
    | bind ?c _ = _ => destruct c as [q3| |] eqn:E3; cbn [bind] in H; try discriminate
    end.
    assert (H3 : undisturbed q0 q3 /\ unreported q2 q3).
    { destruct (isMutationKind (mEventType (heap q event)) && IPCDoc env);
        [|inversion E3; subst; split; [exact HU2|apply unreported_refl]].
      eapply emit_unreported; try exact E3; auto. }
    destruct H3 as [HU3 H3].
    apply (Hnext ids' q3 HU3); [|exact Ec|exact H].
    eapply unreported_trans; [exact H1|]. eapply unreported_trans; eassumption.
Qed.

End SilentReport.

(** X13. With accessibility active in a content process, the document
    attached and no listener reacting, a drain that completes sends the
    selection report at most once, as the very last notification, and only
    when there is something to report.  The report lists, in array order,
    the items of the selection events that were suppressed and of the
    selection-within events, split into selected and unselected; an event
    whose target is missing or defunct, and an item that is defunct,
    contribute nothing. *)
Theorem selection_report_lists_the_suppressed_items (env : Env) (fuel : nat)
    (q q' : State) :
  (forall e, listener env e = []) ->
  IPCAccessibilityActive env = true ->
  mDocument q = true ->
  ProcessEventQueue env fuel q = Ok q' ->
  let selected := reportedIDs env q true (mEvents q) in
  let unselected := reportedIDs env q false (mEvents q) in
  exists d,
    Forall (fun e => isReport e = false) d /\
    log q' = log q ++ d ++
             (if IsEmpty selected && IsEmpty unselected then []
              else [SendSelectedAccessiblesChanged selected unselected]).
Proof.
  intros Hquiet Hipc Hdoc H selected unselected. unfold ProcessEventQueue in H.
  assert (HU0 : forall f, undisturbed q (withFocusEvent f (withEvents [] q)))
    by (intros f; repeat split).
  match type of H with
  | bind ?c _ = _ => destruct c as [q1| |] eqn:E1; cbn [bind] in H; try discriminate
  end.
  assert (H1 : undisturbed q q1 /\ unreported q q1).
  { cbn [mFocusEvent withEvents] in E1.
    destruct (mFocusEvent q) as [event|] eqn:Ef.
    - cbn [heap withFocusEvent withEvents defunct] in E1.
      destruct (mAccessible (heap q event)) as [target|]; [|discriminate].
      destruct (defunct q target); cbn [negb] in E1.
      + inversion E1; subst. split; [apply HU0|apply (unreported_refl q)].
      + apply (emit_unreported env q Hquiet) in E1; [|apply HU0|reflexivity].
        exact E1.
    - inversion E1; subst. split; [apply HU0|apply (unreported_refl q)]. }
  destruct H1 as [HU1 H1].
  match type of H with
  | bind ?c _ = _ => destruct c as [[ids q2]| |] eqn:E2; cbn [bind] in H;
                       try discriminate
  end.
  apply (processEvents_collects env q Hquiet Hipc Hdoc) in E2; [|exact HU1].
  destruct E2 as (HU2 & H2 & ->). cbn [fst snd app] in H.
  fold selected unselected in H.
  destruct (unreported_trans q q1 q2 H1 H2) as (d & L & F).
  exists d. split; [exact F|].
  rewrite (proj2 (proj2 HU2)), Hdoc, Hipc in H. cbn [andb] in H.
  destruct (IsEmpty selected); destruct (IsEmpty unselected); cbn [negb orb andb] in H |- *;
    try (destruct (IPCDoc env); [|discriminate];
         rewrite (emit_quiet env fuel _ q2 Hquiet) in H; inversion H; subst;
         cbn [log record]; rewrite L, <- app_assoc; reflexivity).
  inversion H; subst. rewrite L, app_nil_r. reflexivity.
Qed.

(** A content process whose listeners do nothing. *)
Definition ipcEnv : Env := {|
  HasNameRule := fun _ _ => false;
  HasNameDependent := fun _ => false;
  HasDescriptionDependent := fun _ => false;
  IsHTMLFileInput := fun _ => false;
  Name := fun _ => (eNameOK, false);
  RelationByType := fun _ _ => [];
  LocalParent := fun _ => None;
  IsDoc := fun _ => false;
  UniqueID := fun a => Z.of_nat a;
  IPCAccessibilityActive := true;
  IPCDoc := true;
  states_SELECTED := 2;
  defaultEventRule := eRemoveDupes;
  autoDetectedUserInput := false;
  listener := fun _ => []
|}.

(** Six items of widget 100 selected in a row, then item 9 of widget 200
    unselected. *)
Definition ipcQueue : State :=
  stateOf (QueueEvents ipcEnv 8
             (adds 100%nat 6 ++ [selEvent 200%nat 9%nat eSelectionRemove]) emptyQueue).
Definition ipcDrained : State := stateOf (ProcessEventQueue ipcEnv 8 ipcQueue).

Lemma selection_report_witness :
  exists d,
    Forall (fun e => isReport e = false) d /\
    log ipcDrained
    = log ipcQueue ++ d ++
      (if IsEmpty (reportedIDs ipcEnv ipcQueue true (mEvents ipcQueue))
          && IsEmpty (reportedIDs ipcEnv ipcQueue false (mEvents ipcQueue))
       then []
       else [SendSelectedAccessiblesChanged
               (reportedIDs ipcEnv ipcQueue true (mEvents ipcQueue))
               (reportedIDs ipcEnv ipcQueue false (mEvents ipcQueue))]).
Proof.
  apply (selection_report_lists_the_suppressed_items ipcEnv 8 ipcQueue ipcDrained).
  - intros e. reflexivity.
  - reflexivity.
  - reflexivity.
  - vm_compute. reflexivity.
Defined.

(** The remove for widget 200 is fired, not reported; the six adds are
    reported, although only the selection-within event is fired for them. *)
Example selection_report_runs :
  reportedIDs ipcEnv ipcQueue true (mEvents ipcQueue) = [1; 2; 3; 4; 5; 6] /\
  reportedIDs ipcEnv ipcQueue false (mEvents ipcQueue) = [] /\
  map fst (handed (log ipcDrained)) = [5%nat; 6%nat].
Proof. vm_compute. repeat split. Qed.

(** ** A focus event whose target died *)

Lemma focusAfter_In (d : list Effect) :
  forall f p, focusAfter f d = Some p -> f = Some p \/ In (PushedToFocusSlot p) d.
Proof.
  unfold focusAfter. induction d as [|e d IH]; intros f p H; cbn [fold_left] in H.
  - left. exact H.
  - apply IH in H. destruct H as [H|H]; [|right; right; exact H].
    destruct e; try (left; exact H). right. left. congruence.
Qed.

(** X14. A pending focus event whose target is defunct when the drain
    starts is discarded: the drain hands no focus event over, and the event
    is no longer in the focus slot afterwards, whatever the listeners of the
    other events push meanwhile. *)
Theorem defunct_focus_event_is_discarded (env : Env) (fuel : nat) (q q' : State)
    (f : EventPtr) (a : Acc) :
  mFocusEvent q = Some f -> (f < nextPtr q)%nat ->
  mAccessible (heap q f) = Some a -> defunct q a = true ->
  ProcessEventQueue env fuel q = Ok q' ->
  (exists d, log q' = log q ++ d /\
     Forall (fun e => forall p now, e <> ProcessFocusEvent p now) d) /\
  mFocusEvent q' <> Some f.
Proof.
  intros Hf Hlt Ha Hd H.
  destruct (ProcessEventQueue_log env (nextPtr q) fuel q q' (Nat.le_refl _) H)
    as (d & L & F & _ & S & _).
  unfold focusDelivery in L. rewrite Hf, Ha, Hd in L. cbn [app] in L.
  split.
  - exists d. split; [exact L|]. eapply Forall_impl; [|exact F].
    intros e [[Ho _]|(_ & Hn & _)]; [|exact Hn].
    intros p now ->. discriminate.
  - rewrite S. intros E. apply focusAfter_In in E.
    destruct E as [E|E]; [discriminate|].
    rewrite Forall_forall in F. destruct (F _ E) as [[_ Hge]|(Ho & _)];
      [|discriminate].
    specialize (Hge f eq_refl). lia.
Qed.

(** The queue of [withFocusQueued], after the target of its focus event
    died. *)
Definition deadFocusQueue : State :=
  withDefunct (fun a => Nat.eqb a 4) withFocusQueued.
Definition deadFocusDrained : State :=
  stateOf (ProcessEventQueue quietEnv 5 deadFocusQueue).

Lemma defunct_focus_witness :
  (exists d, log deadFocusDrained = log deadFocusQueue ++ d /\
     Forall (fun e => forall p now, e <> ProcessFocusEvent p now) d) /\
  mFocusEvent deadFocusDrained <> Some 1%nat.
Proof.
  apply (defunct_focus_event_is_discarded quietEnv 5 deadFocusQueue deadFocusDrained
           1%nat 4%nat).
  - reflexivity.
  - vm_compute. lia.
  - reflexivity.
  - reflexivity.
  - vm_compute. reflexivity.
Defined.

(** ** Two selection events that do not merge *)

(** What [CoalesceSelChangeEvents] makes of the older event [evB] and of the
    tail [evC] when it neither packs nor merges them. *)
Definition olderUnmerged (evB : AccEvent) (tB : SelChangeType) : AccEvent :=
  if type_eqb (mEventType evB) EVENT_SELECTION
  then withType (selChangeKind tB) evB else evB.

Definition tailUnmerged (evB evC : AccEvent) : AccEvent :=
  onSelChange (withPreceedingCount 1)
    (if negb (type_eqb (mEventType evB) EVENT_SELECTION)
        && type_eqb (mEventType evC) EVENT_SELECTION
     then withType EVENT_SELECTION_ADD evC else evC).

Lemma CoalesceSelChangeEvents_unmerged (fuel : nat) (t p : EventPtr)
    (i : Z) (s : State) (sT sP : SelChange) :
  t <> p ->
  payload (heap s t) = SelChangeEvent sT -> payload (heap s p) = SelChangeEvent sP ->
  mPreceedingCount sP = 0 -> mPackedEvent sP = None ->
  mItem sT = mItem sP \/ mSelChangeType sT = mSelChangeType sP ->
  exists s',
    CoalesceSelChangeEvents fuel t p i s = Ok s' /\
    sameShape s s' /\
    heap s' p = olderUnmerged (heap s p) (mSelChangeType sP) /\
    heap s' t = tailUnmerged (heap s p) (heap s t) /\
    forall x, x <> t -> x <> p -> heap s' x = heap s x.
Proof.
  intros Hne Ht Hp Hc Hk Hsame. unfold CoalesceSelChangeEvents.
  rewrite (asSelChange_payload _ _ Hp). cbn [bind]. rewrite Hc.
  change (u32 (0 + 1)) with 1.
  set (s1 := modify t (onSelChange (withPreceedingCount 1)) s).
  assert (H1t : heap s1 t = onSelChange (withPreceedingCount 1) (heap s t))
    by (unfold s1; apply heap_modify_same).
  assert (H1p : heap s1 p = heap s p)
    by (unfold s1; apply heap_modify_other; congruence).
  assert (H1o : forall x, x <> t -> heap s1 x = heap s x)
    by (intros x Hx; unfold s1; apply heap_modify_other; exact Hx).
  assert (P1t : payload (heap s1 t) = SelChangeEvent (withPreceedingCount 1 sT))
    by (rewrite H1t; apply payload_onSelChange; exact Ht).
  rewrite (asSelChange_payload _ _ P1t).
  cbn [bind withPreceedingCount mPreceedingCount mItem mSelChangeType].
  change (kSelChangeCountToPack <=? 1) with false. cbn iota.
  rewrite H1p, (asSelChange_payload _ _ Hp). cbn [bind]. change (1 =? 1) with true.
  assert (Hu : exists s',
            unpackOrConvert t p s1 = Ok s' /\ sameShape s s' /\
            heap s' p = olderUnmerged (heap s p) (mSelChangeType sP) /\
            heap s' t = tailUnmerged (heap s p) (heap s t) /\
            forall x, x <> t -> x <> p -> heap s' x = heap s x).
  { unfold unpackOrConvert, olderUnmerged, tailUnmerged. rewrite H1p.
    destruct (type_eqb (mEventType (heap s p)) EVENT_SELECTION) eqn:Etp.
    - rewrite (asSelChange_payload _ _ Hp). cbn [bind]. rewrite Hk. cbn [bind].
      rewrite H1p, (asSelChange_payload _ _ Hp). cbn [bind negb andb].
      eexists. split; [reflexivity|]. split; [unfold s1; repeat apply sameShape_modify; apply sameShape_refl|].
      split; [rewrite heap_modify_same, H1p; reflexivity|].
      split; [rewrite heap_modify_other by exact Hne; exact H1t|].
      intros x Hxt Hxp. rewrite heap_modify_other by exact Hxp. apply H1o. exact Hxt.
    - cbn [negb andb].
      replace (mEventType (heap s1 t)) with (mEventType (heap s t))
        by (rewrite H1t; unfold onSelChange; rewrite Ht; reflexivity).
      destruct (type_eqb (mEventType (heap s t)) EVENT_SELECTION).
      + eexists. split; [reflexivity|]. split; [unfold s1; repeat apply sameShape_modify; apply sameShape_refl|].
        split; [rewrite heap_modify_other by congruence; exact H1p|].
        split.
        * rewrite heap_modify_same, H1t. unfold onSelChange.
          cbn [withType payload]. rewrite Ht. reflexivity.
        * intros x Hxt Hxp. rewrite heap_modify_other by exact Hxt. apply H1o.
          exact Hxt.
      + eexists. split; [reflexivity|]. split; [unfold s1; repeat apply sameShape_modify; apply sameShape_refl|].
        split; [exact H1p|]. split; [exact H1t|].
        intros x Hxt _. apply H1o. exact Hxt. }
  destruct (Nat.eqb (mItem sT) (mItem sP)) eqn:Ei; cbn [negb andb]; [exact Hu|].
  destruct Hsame as [Hsame|Hsame]; [apply Nat.eqb_neq in Ei; contradiction|].
  rewrite Hsame.
  destruct (mSelChangeType sP); cbn; exact Hu.
Qed.

(** X15. Two selection events for the same widget that are for the same
    item, or both adds, or both removes, in a queue holding no other
    selection event for that widget, are not merged: both stay pending and
    the newer one counts one predecessor.  At most one of them keeps the
    type "selection": when the older event had that type it is retyped as the
    add or remove it stands for and the newer event keeps its type;
    otherwise a newer event of type "selection" is retyped as a
    selection-add. *)
Theorem selection_events_that_do_not_merge (env : Env) (fuel : nat) (q : State)
    (evB evC : AccEvent) (widget B C : Acc) (tB tC : SelChangeType)
    (kindB kindC : EventType) :
  isSelChangeOf evB widget B tB kindB ->
  kindB = EVENT_SELECTION_ADD \/ kindB = EVENT_SELECTION_REMOVE
  \/ kindB = EVENT_SELECTION ->
  isSelChangeOf evC widget C tC kindC ->
  kindC = EVENT_SELECTION_ADD \/ kindC = EVENT_SELECTION_REMOVE
  \/ kindC = EVENT_SELECTION ->
  B = C \/ tB = tC ->
  noSelectionFor q (mEvents q) widget ->
  (forall p, In p (mEvents q) -> (p < nextPtr q)%nat) ->
  Length (mEvents q) + 2 < 2 ^ 32 -> (length (mEvents q) + 1 <= fuel)%nat ->
  let p1 := nextPtr q in
  let p2 := S (nextPtr q) in
  exists q',
    QueueEvents env (S fuel) [evB; evC] q = Ok q' /\
    mEvents q' = mEvents q ++ [p1; p2] /\
    heap q' p1 = olderUnmerged evB tB /\
    heap q' p2 = tailUnmerged evB evC /\
    (forall x, (x < nextPtr q)%nat -> heap q' x = heap q x).
Proof.
  intros HB HkB HC HkC Hsame H0 Hq Hlen Hfuel p1 p2.
  pose proof HB as (HtyB & HrB & HaccB & HplB).
  pose proof HC as (HtyC & HrC & HaccC & HplC).
  cbn [QueueEvents].
  rewrite (QueueEvent_selection_alone env fuel q evB widget B tB kindB)
    by (auto; lia).
  cbn [bind].
  set (q1 := record (PushAppended (nextPtr q))
               (withEvents (mEvents q ++ [nextPtr q]) (allocated evB q))).
  unfold QueueEvent, alloc.
  rewrite PushEvent_appends
    by (rewrite heap_allocated; try congruence; rewrite HtyC;
        destruct HkC as [->|[->| ->]]; discriminate).
  set (qd := record (PushAppended (nextPtr q1))
               (withEvents (mEvents (allocated evC q1) ++ [nextPtr q1])
                  (allocated evC q1))).
  assert (Hn1 : nextPtr q1 = p2) by reflexivity.
  assert (Hmd : mEvents qd = (mEvents q ++ [p1]) ++ [p2]) by reflexivity.
  assert (Hne : p2 <> p1) by (unfold p1, p2; lia).
  assert (Hh1 : heap qd p1 = evB) by (unfold qd, q1, p1; heap_eq).
  assert (Hh2 : heap qd p2 = evC) by (unfold qd, q1, p2; heap_eq).
  assert (Hho : forall x, (x < nextPtr q)%nat -> heap qd x = heap q x)
    by (intros x Hx; unfold qd, q1; heap_eq).
  assert (Hhl : forall p, In p (mEvents q) -> heap qd p = heap q p)
    by (intros p Hp; apply Hho, Hq, Hp).
  pose proof HplC as HplC0.
  rewrite <- Hh2 in HrC, HplC. rewrite <- Hh1 in HrB, HplB.
  destruct (CoalesceSelChangeEvents_unmerged (S fuel) p2 p1
              (Z.of_nat (length (mEvents q))) qd _ _ Hne HplC HplB eq_refl eq_refl)
    as (s1 & Hrun & HS & Hs1 & Hs2 & Hout).
  { cbn [mItem mSelChangeType]. exact Hsame || (destruct Hsame; auto). }
  assert (Hc : CoalesceEvents (S fuel) qd = Ok s1).
  { rewrite (CoalesceEvents_selection (S fuel) qd (mEvents q ++ [p1]) p2);
      [|exact Hmd|rewrite Length_app; lia|rewrite length_app; simpl; lia|exact HrC].
    destruct (noSelectionFor_scan q qd (mEvents q) p2 widget _
                H0 Hhl HrC HplC eq_refl) as [[_ Hty'] Hnone].
    rewrite (scanDown_selection_hit (S fuel) qd p2 (mEvents q ++ [p1])
               (length (mEvents q)) p1 Hmd).
    - rewrite Hrun. reflexivity.
    - split; [eexists; exact HplC|]. intros p Hp Hrp.
      apply in_app_or in Hp. destruct Hp as [Hp|[<-|[]]]; [apply Hty'; assumption|].
      eexists; exact HplB.
    - rewrite nth_error_app2 by lia. rewrite Nat.sub_diag. reflexivity.
    - unfold sameControl. rewrite HrC, HrB, HplC, HplB. cbn.
      rewrite Nat.eqb_refl. reflexivity.
    - rewrite length_app. simpl. lia.
    - intros j p [Hj1 Hj2]. rewrite length_app in Hj2. simpl in Hj2. lia. }
  change (CoalesceEvents (S fuel) _) with (CoalesceEvents (S fuel) qd).
  rewrite Hc. cbn [bind]. rewrite Hn1, Hs2, Hh1, Hh2.
  assert (Hst : startsPropagation (mEventType (tailUnmerged evB evC)) = false).
  { unfold tailUnmerged, onSelChange.
    destruct (negb (type_eqb (mEventType evB) EVENT_SELECTION)
              && type_eqb (mEventType evC) EVENT_SELECTION);
      cbn [withType payload]; rewrite HplC0; cbn; [reflexivity|].
    rewrite HtyC. destruct HkC as [->|[->| ->]]; reflexivity. }
  rewrite Hst. cbn [bind].
  exists s1. split; [reflexivity|].
  split; [destruct HS as (_ & -> & _); rewrite <- app_assoc in Hmd; exact Hmd|].
  split; [rewrite Hs1, Hh1; reflexivity|]. split; [rewrite Hs2, Hh1, Hh2; reflexivity|].
  intros x Hx. rewrite Hout by (unfold p1, p2; lia). apply Hho. exact Hx.
Qed.

Lemma selection_events_that_do_not_merge_witness :
  exists q',
    QueueEvents quietEnv 2
      [selEvent 100%nat 1%nat eSelectionAdd;
       withType EVENT_SELECTION (selEvent 100%nat 2%nat eSelectionAdd)]
      emptyQueue = Ok q' /\
    mEvents q' = mEvents emptyQueue ++ [0%nat; 1%nat] /\
    heap q' 0%nat = olderUnmerged (selEvent 100%nat 1%nat eSelectionAdd) eSelectionAdd /\
    heap q' 1%nat
    = tailUnmerged (selEvent 100%nat 1%nat eSelectionAdd)
        (withType EVENT_SELECTION (selEvent 100%nat 2%nat eSelectionAdd)) /\
    (forall x, (x < 0)%nat -> heap q' x = heap emptyQueue x).
Proof.
  apply (selection_events_that_do_not_merge quietEnv 1 emptyQueue
           (selEvent 100%nat 1%nat eSelectionAdd)
           (withType EVENT_SELECTION (selEvent 100%nat 2%nat eSelectionAdd))
           100%nat 1%nat 2%nat eSelectionAdd eSelectionAdd
           EVENT_SELECTION_ADD EVENT_SELECTION).
  - repeat split.
  - left. reflexivity.
  - repeat split.
  - right. right. reflexivity.
  - right. reflexivity.
  - intros p [].
  - intros p [].
  - vm_compute. reflexivity.
  - simpl. lia.
Defined.

Example newer_selection_event_becomes_an_add :
  mEventType (tailUnmerged (selEvent 100%nat 1%nat eSelectionAdd)
                (withType EVENT_SELECTION (selEvent 100%nat 2%nat eSelectionAdd)))
  = EVENT_SELECTION_ADD /\
  mEventType (olderUnmerged
                (withType EVENT_SELECTION (selEvent 100%nat 1%nat eSelectionAdd))
                eSelectionAdd)
  = EVENT_SELECTION_ADD /\
  mEventType (tailUnmerged
                (withType EVENT_SELECTION (selEvent 100%nat 1%nat eSelectionAdd))
                (withType EVENT_SELECTION (selEvent 100%nat 2%nat eSelectionAdd)))
  = EVENT_SELECTION.
Proof. vm_compute. repeat split. Qed.

(** ** A drain returns *)

(** What the drain dereferences without a check is there: the target of the
    pending focus event, the transport when accessibility is active in a
    content process, and the [AccSelChangeEvent] part of the events it treats
    as selection events and of their packed partners. *)
Definition drainable (env : Env) (q : State) : Prop :=
  (forall f, mFocusEvent q = Some f -> mAccessible (heap q f) <> None) /\
  (IPCAccessibilityActive env = true -> IPCDoc env = true) /\
  forall p, In p (mEvents q) ->
    isSelectionKind (mEventType (heap q p)) = true
    \/ mEventType (heap q p) = EVENT_SELECTION_WITHIN ->
    exists s, payload (heap q p) = SelChangeEvent s /\
      forall pk, mPackedEvent s = Some pk ->
        exists s', payload (heap q pk) = SelChangeEvent s'.

Section DrainReturns.

Variable env : Env.
Variable q0 : State.
Hypothesis Hquiet : forall e, listener env e = [].
Hypothesis Hsel : forall p, In p (mEvents q0) ->
  isSelectionKind (mEventType (heap q0 p)) = true
  \/ mEventType (heap q0 p) = EVENT_SELECTION_WITHIN ->
  exists s, payload (heap q0 p) = SelChangeEvent s /\
    forall pk, mPackedEvent s = Some pk ->
      exists s', payload (heap q0 pk) = SelChangeEvent s'.

Lemma collectSelChange_returns (p : EventPtr) (ids : list Z * list Z) (q : State) :
  In p (mEvents q0) -> heap q = heap q0 ->
  exists ids', collectSelChange env p (mEventType (heap q p)) ids q = Ok ids'.
Proof.
  intros Hin Hh. unfold collectSelChange. rewrite Hh.
  destruct (IPCAccessibilityActive env); [|eauto].
  destruct ((rule_eqb (mEventRule (heap q0 p)) eDoNotEmit
             && isSelectionKind (mEventType (heap q0 p)))
            || type_eqb (mEventType (heap q0 p)) EVENT_SELECTION_WITHIN) eqn:Ec;
    [|eauto].
  destruct (Hsel p Hin) as (s & Hp & _).
  { apply orb_true_iff in Ec. destruct Ec as [Ec|Ec].
    - left. apply andb_true_iff in Ec. apply Ec.
    - right. apply type_eqb_true. exact Ec. }
  rewrite (asSelChange_payload _ _ Hp). cbn [bind].
  repeat match goal with
  | |- context [if ?c then _ else _] => destruct c
  end; eauto.
Qed.

Lemma fireSelectedState_returns (fuel : nat) (p : EventPtr) (q : State) :
  In p (mEvents q0) -> undisturbed q0 q ->
  exists q', fireSelectedState env fuel p (mEventType (heap q p)) q = Ok q' /\
             undisturbed q0 q'.
Proof.
  intros Hin HU. pose proof HU as (Hh & _). unfold fireSelectedState.
  destruct (type_eqb (mEventType (heap q p)) EVENT_SELECTION_ADD);
    [rewrite emit_quiet by exact Hquiet; eauto|].
  destruct (type_eqb (mEventType (heap q p)) EVENT_SELECTION_REMOVE);
    [rewrite emit_quiet by exact Hquiet; eauto|].
  destruct (type_eqb (mEventType (heap q p)) EVENT_SELECTION) eqn:Et; [|eauto].
  destruct (Hsel p Hin) as (s & Hp & Hpk).
  { left. unfold isSelectionKind. rewrite <- Hh, Et. apply orb_true_r. }
  rewrite <- Hh in Hp.
  rewrite (asSelChange_payload _ _ Hp). cbn [bind].
  rewrite emit_quiet by exact Hquiet. cbn [bind].
  change (heap (record _ q) p) with (heap q p).
  rewrite (asSelChange_payload _ _ Hp). cbn [bind].
  destruct (mPackedEvent s) as [pk|] eqn:Ek; [|eauto].
  destruct (Hpk pk eq_refl) as (s' & Hp').
  change (heap (record _ q) pk) with (heap q pk). rewrite Hh.
  rewrite (asSelChange_payload _ _ Hp'). cbn [bind].
  rewrite emit_quiet by exact Hquiet. eauto.
Qed.

Lemma processEvents_returns (fuel : nat) :
  forall events ids q,
    (forall p, In p events -> In p (mEvents q0)) -> undisturbed q0 q ->
    exists r q', processEvents env fuel events ids q = Ok (r, q').
Proof.
  induction events as [|event rest IH]; intros ids q Hev HU; cbn [processEvents].
  - eauto.
  - assert (Hin : In event (mEvents q0)) by (apply Hev; left; reflexivity).
    assert (Hrest : forall p, In p rest -> In p (mEvents q0))
      by (intros p Hp; apply Hev; right; exact Hp).
    destruct (mAccessible (heap q event)) as [target|]; [|apply IH; assumption].
    destruct (defunct q target); [apply IH; assumption|].
    destruct (collectSelChange_returns event ids q Hin (proj1 HU)) as [ids' ->].
    cbn [bind].
    destruct (rule_eqb (mEventRule (heap q event)) eDoNotEmit);
      [apply IH; assumption|].
    destruct (type_eqb (mEventType (heap q event)) EVENT_TEXT_SELECTION_CHANGED).
    { rewrite emit_quiet by exact Hquiet. cbn [bind]. apply IH; assumption. }
    destruct (fireSelectedState_returns fuel event q Hin HU) as (q1 & -> & HU1).
    cbn [bind]. rewrite emit_quiet by exact Hquiet. cbn [bind].
    destruct (negb (mDocument (record (FireEvent event (heap q1 event)) q1)));
      [eauto|].
    destruct (isMutationKind (mEventType (heap q event)) && IPCDoc env).
    + rewrite emit_quiet by exact Hquiet. cbn [bind]. apply IH; [exact Hrest|].
      exact HU1.
    + cbn [bind]. apply IH; [exact Hrest|]. exact HU1.
Qed.

End DrainReturns.

(** X16. A drain whose listeners do nothing returns, with any amount of
    fuel, from every queue in which what it dereferences without a check is
    there: it is one pass over the detached array and needs no fuel of its
    own. *)
Theorem undisturbed_drain_returns (env : Env) (fuel : nat) (q : State) :
  (forall e, listener env e = []) ->
  drainable env q ->
  exists q', ProcessEventQueue env fuel q = Ok q'.
Proof.
  intros Hquiet (Hfocus & Hipc & Hsel).
  assert (Htail : forall q1, undisturbed q q1 ->
            exists q', ('(ids, q2) <- processEvents env fuel (mEvents q) ([], []) q1 ;;
                        reportSelection env fuel ids q2) = Ok q').
  { intros q1 HU1.
    destruct (processEvents_returns env q Hquiet Hsel fuel (mEvents q) ([], []) q1
                (fun p H => H) HU1) as (r & q2 & ->).
    cbn [bind]. apply reportSelection_total; [exact Hquiet|].
    destruct (IPCAccessibilityActive env);
      [right; apply Hipc; reflexivity|left; reflexivity]. }
  unfold ProcessEventQueue. fold (reportSelection env fuel).
  cbn [mFocusEvent withEvents].
  destruct (mFocusEvent q) as [event|] eqn:Ef;
    [|cbn [bind]; apply Htail; repeat split].
  cbn [heap withFocusEvent withEvents defunct].
  specialize (Hfocus event eq_refl).
  destruct (mAccessible (heap q event)) as [target|]; [|congruence].
  destruct (defunct q target); cbn [negb].
  - cbn [bind]. apply Htail. repeat split.
  - rewrite emit_quiet by exact Hquiet. cbn [bind]. apply Htail. repeat split.
Qed.

(** A merged pair, in a content process. *)
Definition mergedQueue : State :=
  stateOf (QueueEvents ipcEnv 3
             [selEvent 100%nat 1%nat eSelectionRemove;
              selEvent 100%nat 2%nat eSelectionAdd] emptyQueue).

Lemma undisturbed_drain_returns_witness :
  exists q', ProcessEventQueue ipcEnv 0 mergedQueue = Ok q'.
Proof.
  apply (undisturbed_drain_returns ipcEnv 0 mergedQueue).
  - intros e. reflexivity.
  - split; [intros f Hf; discriminate Hf|]. split; [reflexivity|].
    intros p Hp _. vm_compute in Hp. destruct Hp as [<-|[<-|[]]].
    + eexists. split; [vm_compute; reflexivity|]. intros pk Hk. discriminate Hk.
    + eexists. split; [vm_compute; reflexivity|]. intros pk Hk.
      inversion Hk; subst pk. eexists. vm_compute. reflexivity.
Defined.

(** ** No pointer of the queue dangles *)

(** Every pointer the queue holds -- in the array, in the focus slot, or as
    the packed partner of an event object -- is the address of an event
    object that was created. *)
Definition wellFormed (q : State) : Prop :=
  Closed 0 q /\ forall f, mFocusEvent q = Some f -> (f < nextPtr q)%nat.

(** A property of the state that every notification keeps is kept by the
    drain. *)
Section DrainPreserves.

Variable env : Env.
Variable P : State -> Prop.
Hypothesis P_emit : forall fuel e q q', P q -> emit env fuel e q = Ok q' -> P q'.

Lemma fireSelectedState_preserves (fuel : nat) (event : EventPtr) (t : EventType)
    (q q' : State) :
  P q -> fireSelectedState env fuel event t q = Ok q' -> P q'.
Proof.
  intros HP H. unfold fireSelectedState in H.
  repeat match type of H with
  | (if ?c then _ else _) = _ => destruct c
  end; try (exact (P_emit _ _ _ _ HP H)); [|inversion H; subst; exact HP].
  destruct (asSelChange (heap q event)) as [s| |]; cbn [bind] in H; try discriminate.
  match type of H with
  | bind ?c _ = _ => destruct c as [q1| |] eqn:E1; cbn [bind] in H; try discriminate
  end.
  apply (P_emit _ _ _ _ HP) in E1.
  destruct (asSelChange (heap q1 event)) as [s1| |]; cbn [bind] in H; try discriminate.
  destruct (mPackedEvent s1) as [packed|]; [|inversion H; subst; exact E1].
  destruct (asSelChange (heap q1 packed)) as [s2| |]; cbn [bind] in H; try discriminate.
  exact (P_emit _ _ _ _ E1 H).
Qed.

Lemma processEvents_preserves (fuel : nat) :
  forall events ids q r q',
    P q -> processEvents env fuel events ids q = Ok (r, q') -> P q'.
Proof.
  induction events as [|event rest IH]; intros ids q r q' HP H;
    cbn [processEvents] in H.
  - inversion H; subst. exact HP.
  - destruct (mAccessible (heap q event)) as [target|]; [|eapply IH; eassumption].
    destruct (defunct q target); [eapply IH; eassumption|].
    destruct (collectSelChange env event (mEventType (heap q event)) ids q)
      as [ids'| |]; cbn [bind] in H; try discriminate.
    destruct (rule_eqb (mEventRule (heap q event)) eDoNotEmit);
      [eapply IH; eassumption|].
    destruct (type_eqb (mEventType (heap q event)) EVENT_TEXT_SELECTION_CHANGED).
    { match type of H with
      | bind ?c _ = _ => destruct c as [q1| |] eqn:E1; cbn [bind] in H;
                           try discriminate
      end.
      apply (P_emit _ _ _ _ HP) in E1. eapply IH; eassumption. }
    match type of H with
    | bind ?c _ = _ => destruct c as [q1| |] eqn:E1; cbn [bind] in H; try discriminate
    end.
    apply (fireSelectedState_preserves _ _ _ _ _ HP) in E1.
    match type of H with
    | bind ?c _ = _ => destruct c as [q2| |] eqn:E2; cbn [bind] in H; try discriminate
    end.
    apply (P_emit _ _ _ _ E1) in E2.
    destruct (negb (mDocument q2)); [inversion H; subst; exact E2|].
    match type of H with
    | bind ?c _ = _ => destruct c as [q3| |] eqn:E3; cbn [bind] in H; try discriminate
    end.
    assert (H3 : P q3).
    { destruct (isMutationKind (mEventType (heap q event)) && IPCDoc env);
        [exact (P_emit _ _ _ _ E2 E3)|inversion E3; subst; exact E2]. }
    eapply IH; eassumption.
Qed.

Lemma ProcessEventQueue_preserves (fuel : nat) (q q' : State) :
  P (withFocusEvent None (withEvents [] q)) -> P (withEvents [] q) ->
  ProcessEventQueue env fuel q = Ok q' -> P q'.
Proof.
  intros HP0 HP1 H. unfold ProcessEventQueue in H.
  match type of H with
  | bind ?c _ = _ => destruct c as [q1| |] eqn:E1; cbn [bind] in H; try discriminate
  end.
  assert (H1 : P q1).
  { cbn [mFocusEvent withEvents] in E1.
    destruct (mFocusEvent q) as [event|].
    - cbn [heap withFocusEvent withEvents defunct] in E1.
      destruct (mAccessible (heap q event)) as [target|]; [|discriminate].
      destruct (defunct q target); cbn [negb] in E1.
      + inversion E1; subst. exact HP0.
      + eapply P_emit; [exact HP0|exact E1].
    - inversion E1; subst. exact HP1. }
  match type of H with
  | bind ?c _ = _ => destruct c as [[ids q2]| |] eqn:E2; cbn [bind] in H;
                       try discriminate
  end.
  apply (processEvents_preserves _ _ _ _ _ _ H1) in E2.
  destruct ids as [[selectedIDs unselectedIDs]|]; [|inversion H; subst; exact E2].
  match type of H with
  | (if ?c then _ else _) = _ => destruct c
  end; [|inversion H; subst; exact E2].
  destruct (IPCDoc env); [|discriminate].
  exact (P_emit _ _ _ _ E2 H).
Qed.

End DrainPreserves.

(** The focus slot after a push holds what it held, or an object that
    exists. *)
Definition slotKept (q q' : State) : Prop :=
  (nextPtr q <= nextPtr q')%nat /\
  forall f, mFocusEvent q' = Some f ->
    mFocusEvent q = Some f \/ (f < nextPtr q')%nat.

Lemma PushEvent_slot (env : Env) (fuel : nat) (aEvent : EventPtr) (q : State)
    (b : bool) (q' : State) :
  (aEvent < nextPtr q)%nat ->
  PushEvent env fuel aEvent q = Ok (b, q') -> slotKept q q'.
Proof.
  intros Hlt H.
  apply (PushEvent_I env (fun _ => True) slotKept
           (fun s p => (p < nextPtr s)%nat)) in H; auto.
  - apply H.
  - intros s. split; [lia|]. intros f Hf. left. exact Hf.
  - intros q1 q2 q3 [A1 A2] [B1 B2]. split; [lia|]. intros f Hf.
    destruct (B2 f Hf) as [H2|H2]; [|right; exact H2].
    destruct (A2 f H2) as [H1|H1]; [left; exact H1|right; lia].
  - intros t a s _. split; [unfold allocated; cbn; lia|].
    intros f Hf. left. exact Hf.
  - intros p s _ Hp _. split; [cbn; lia|]. intros f Hf. cbn in Hf.
    inversion Hf; subst. right. cbn. exact Hp.
  - intros p s _ _ _. split; [cbn; lia|]. intros f Hf. left. exact Hf.
  - intros fuel0 p s s' _ _ _ Hc. apply CoalesceEvents_shape in Hc.
    destruct Hc as (S1 & _ & S3 & _). cbn in S1, S3.
    split; [lia|]. intros f Hf. left. congruence.
Qed.

Lemma QueueEvent_wellFormed (env : Env) (fuel : nat) (ev : AccEvent) (q q' : State) :
  unpacked ev -> wellFormed q -> QueueEvent env fuel ev q = Ok q' -> wellFormed q'.
Proof.
  intros Hu [HC Hf] H. split.
  - apply (QueueEvent_framed env 0 fuel ev q q' Hu HC H).
  - unfold QueueEvent, alloc in H.
    destruct (PushEvent env fuel (nextPtr q) (allocated ev q)) as [[b q1]| |] eqn:E;
      cbn [bind] in H; try discriminate.
    inversion H; subst.
    apply PushEvent_slot in E; [|unfold allocated; cbn; lia].
    destruct E as [E1 E2]. intros f Hf'.
    destruct (E2 f Hf') as [H1|H1]; [|exact H1].
    change (mFocusEvent (allocated ev q)) with (mFocusEvent q) in H1.
    change (nextPtr (allocated ev q)) with (S (nextPtr q)) in E1.
    specialize (Hf f H1). lia.
Qed.

Lemma emit_wellFormed (env : Env) :
  wellBehaved env ->
  forall fuel e q q', wellFormed q -> emit env fuel e q = Ok q' -> wellFormed q'.
Proof.
  intros Hw fuel e q q' HW H. unfold emit in H.
  assert (Hrs : forall ev, In (ReactQueueEvent ev) (listener env e) -> unpacked ev)
    by (intros ev Hev; eapply Hw; exact Hev).
  assert (HW0 : wellFormed (record e q)) by exact HW.
  revert Hrs H HW0. generalize (record e q). generalize (listener env e).
  induction l as [|r rest IH]; intros s Hrs H HW0; cbn [react] in H.
  - inversion H; subst. exact HW0.
  - assert (Hrest : forall ev, In (ReactQueueEvent ev) rest -> unpacked ev)
      by (intros ev Hev; apply Hrs; right; exact Hev).
    destruct r as [ev|a|].
    + destruct (QueueEvent env fuel ev s) as [s1| |] eqn:E; cbn [bind] in H;
        try discriminate.
      apply (IH s1 Hrest H).
      eapply QueueEvent_wellFormed; [|exact HW0|exact E].
      apply Hrs. left. reflexivity.
    + apply (IH _ Hrest H). exact HW0.
    + apply (IH _ Hrest H). exact HW0.
Qed.

Lemma QueueEvents_wellFormed (env : Env) (fuel : nat) (evs : list AccEvent) :
  Forall unpacked evs ->
  forall q q', wellFormed q -> QueueEvents env fuel evs q = Ok q' -> wellFormed q'.
Proof.
  induction 1 as [|ev rest Hu _ IH]; intros q q' HW H; cbn [QueueEvents] in H.
  - inversion H; subst. exact HW.
  - destruct (QueueEvent env fuel ev q) as [q1| |] eqn:E; cbn [bind] in H;
      try discriminate.
    apply (IH q1 q'); [|exact H]. eapply QueueEvent_wellFormed; eassumption.
Qed.

Lemma emptyQueue_wellFormed : wellFormed emptyQueue.
Proof.
  split; [|intros f Hf; discriminate Hf].
  split; [apply Nat.le_refl|]. split; [intros p []|].
  intros p [_ Hp]. cbn in Hp. lia.
Defined.

(** X17. No pointer of the queue ever dangles: when the array, the focus
    slot and the packed partners of the event objects refer to event objects
    that exist, they still do after an event is created and pushed, whatever
    coalescing and propagation the push triggers, and after a drain whose
    listeners push events of their own. *)
Theorem queue_pointers_never_dangle (env : Env) (fuel : nat) :
  (forall ev q q',
     unpacked ev -> wellFormed q -> QueueEvent env fuel ev q = Ok q' ->
     wellFormed q') /\
  (wellBehaved env ->
   forall q q', wellFormed q -> ProcessEventQueue env fuel q = Ok q' ->
     wellFormed q').
Proof.
  split.
  - intros ev q q'. apply QueueEvent_wellFormed.
  - intros Hw q q' [HC Hf] H.
    assert (HC0 : forall f, Closed 0 (withFocusEvent f (withEvents [] q))).
    { intros f. destruct HC as (C1 & _ & C3).
      split; [exact C1|]. split; [intros p []|exact C3]. }
    apply (ProcessEventQueue_preserves env wellFormed (emit_wellFormed env Hw)
             fuel q q'); [| |exact H].
    + split; [apply HC0|]. intros f E. discriminate E.
    + split; [apply (HC0 (mFocusEvent q))|exact Hf].
Qed.

Lemma queue_pointers_witness :
  wellFormed (stateOf (QueueEvent quietEnv 3 (selEvent 100%nat 1%nat eSelectionAdd)
                         emptyQueue)) /\
  wellFormed stormyDrained.
Proof.
  destruct (queue_pointers_never_dangle quietEnv 3) as [Hpush _].
  destruct (queue_pointers_never_dangle stormyEnv 5) as [_ Hdrain].
  split.
  - apply (Hpush (selEvent 100%nat 1%nat eSelectionAdd) emptyQueue).
    + intros s Hs. inversion Hs. reflexivity.
    + exact emptyQueue_wellFormed.
    + vm_compute. reflexivity.
  - apply (Hdrain stormyEnv_wellBehaved stormyQueue stormyDrained).
    + apply (QueueEvents_wellFormed stormyEnv 5
               [plainEvent (EVENT_OTHER 2) eAllowDupes 3%nat;
                plainEvent (EVENT_OTHER 2) eAllowDupes 5%nat;
                plainEvent (EVENT_OTHER 2) eDoNotEmit 6%nat;
                plainEvent (EVENT_OTHER 4) eAllowDupes 6%nat] ) with (q := emptyQueue).
      * repeat constructor; intros s Hs; discriminate Hs.
      * exact emptyQueue_wellFormed.
      * vm_compute. reflexivity.
    + vm_compute. reflexivity.
Defined.

(** ** The propagation ends, however the relations are wired *)

Lemma PushNameOrDescriptionChange_grows (env : Env) (f : nat) (p : EventPtr)
    (q : State) (b : bool) (q' : State) :
  PushNameOrDescriptionChange env (PushEvent env f) f p q = Ok (b, q') ->
  (length (mEvents q) <= length (mEvents q'))%nat.
Proof.
  intros H. apply PushNameOrDescriptionChange_logged in H.
  destruct H as (d & _ & _ & M & _). rewrite M, length_app. lia.
Qed.

(** X18. The propagation started for an event returns, even when labels
    and ancestors refer to one another in cycles, and appends at most four
    events per accessible of the closed set the target lives in: the events
    it creates carry the rule remove-duplicates, so that a second event of a
    kind for a target is dropped on arrival and propagates no further. *)
Theorem propagation_returns_and_is_bounded (env : Env) (N H f : nat)
    (aOrigEvent : EventPtr) (q : State) (a : Acc) :
  settled env N H ->
  mAccessible (heap q aOrigEvent) = Some a -> (a < N)%nat ->
  mEvents q <> [] -> (forall x, In x (mEvents q) -> (x < nextPtr q)%nat) ->
  (length (mEvents q) + 4 * N + H + 2 <= f)%nat ->
  Z.of_nat (length (mEvents q) + 4 * N) < 2 ^ 32 ->
  exists b q',
    PushNameOrDescriptionChange env (PushEvent env f) f aOrigEvent q = Ok (b, q') /\
    (length (mEvents q) <= length (mEvents q') <= length (mEvents q) + 4 * N)%nat.
Proof.
  intros Hs Ha HaN Hne Hq Hf Hlen.
  pose proof (missing_bound N q) as Hmb.
  destruct (propagation_returns env N H Hs f (pushReturns_all env N H Hs f)
              aOrigEvent q a Ha HaN) as (b & q' & E & _ & Hpot).
  - split; assumption.
  - unfold roomy, potential. split; lia.
  - exists b, q'. split; [exact E|]. split.
    + eapply PushNameOrDescriptionChange_grows. exact E.
    + unfold potential in Hpot. lia.
Qed.

(** The accessibles 0 and 1 label each other. *)
Definition cycleEnv : Env := {|
  HasNameRule := fun _ _ => false;
  HasNameDependent := fun _ => true;
  HasDescriptionDependent := fun _ => false;
  IsHTMLFileInput := fun _ => false;
  Name := fun _ => (eNameOK, false);
  RelationByType := fun a r =>
    match a, r with
    | 0%nat, LABEL_FOR => [1%nat]
    | 1%nat, LABEL_FOR => [0%nat]
    | _, _ => []
    end;
  LocalParent := fun _ => None;
  IsDoc := fun _ => false;
  UniqueID := fun a => Z.of_nat a;
  IPCAccessibilityActive := false;
  IPCDoc := false;
  states_SELECTED := 2;
  defaultEventRule := eRemoveDupes;
  autoDetectedUserInput := false;
  listener := fun _ => []
|}.

Lemma cycleEnv_settled : settled cycleEnv 2 1.
Proof.
  split; [reflexivity|]. split; [|split].
  - intros a b _ E. discriminate E.
  - intros a t b Ha Hb. destruct a as [|[|a]]; [| |lia];
      destruct t; cbn in Hb; repeat (destruct Hb as [<-|Hb]; [lia|]); destruct Hb.
  - intros a _. cbn. discriminate.
Defined.

(** A name-change event for accessible 0, queued. *)
Definition cycleQueue : State :=
  stateOf (QueueEvents quietEnv 5 [plainEvent EVENT_NAME_CHANGE eRemoveDupes 0%nat]
             emptyQueue).

Lemma propagation_witness :
  exists b q',
    PushNameOrDescriptionChange cycleEnv (PushEvent cycleEnv 12) 12 0%nat cycleQueue
    = Ok (b, q') /\
    (length (mEvents cycleQueue) <= length (mEvents q')
     <= length (mEvents cycleQueue) + 4 * 2)%nat.
Proof.
  apply (propagation_returns_and_is_bounded cycleEnv 2 1 12 0%nat cycleQueue 0%nat).
  - exact cycleEnv_settled.
  - reflexivity.
  - lia.
  - vm_compute. discriminate.
  - intros x Hx. vm_compute in Hx. destruct Hx as [<-|[]]. vm_compute. lia.
  - vm_compute. lia.
  - vm_compute. reflexivity.
Defined.

(** The event for 1 is queued; the one it propagates back to 0 is dropped as
    a duplicate of the event the propagation started from. *)
Example propagation_around_a_cycle :
  let r := outcomeOf (PushNameOrDescriptionChange cycleEnv (PushEvent cycleEnv 12) 12
                        0%nat cycleQueue) in
  fst r = true /\
  map (fun p => (mEventType (heap (snd r) p), mAccessible (heap (snd r) p)))
      (mEvents (snd r))
  = [(EVENT_NAME_CHANGE, Some 0%nat); (EVENT_NAME_CHANGE, Some 1%nat)] /\
  log (snd r) = log cycleQueue ++ [PushAppended 1%nat; PushDroppedAsDuplicate 2%nat].
Proof. vm_compute. repeat split. Qed.

(** * Cancelled events, the whole array and the merged pair, for any queue *)

(** ** Events that stay suppressed *)

(** Suppressed for good: marked do-not-emit, and not of the class whose
    events the selection merge may bring back. *)
Definition cancelled (e : AccEvent) : Prop :=
  mEventRule e = eDoNotEmit /\ forall s, payload e <> SelChangeEvent s.

Definition keepsCancelled (f : AccEvent -> AccEvent) : Prop :=
  forall e, cancelled e -> cancelled (f e).

Lemma keepsCancelled_suppress : keepsCancelled (withRule eDoNotEmit).
Proof. intros e [_ H]. split; [reflexivity|exact H]. Qed.

Lemma keepsCancelled_withType (t : EventType) : keepsCancelled (withType t).
Proof. intros e H. exact H. Qed.

Lemma keepsCancelled_withAccessible (a : option Acc) :
  keepsCancelled (withAccessible a).
Proof. intros e H. exact H. Qed.

Lemma keepsCancelled_onSelChange (f : SelChange -> SelChange) :
  keepsCancelled (onSelChange f).
Proof.
  intros e [H1 H2]. unfold onSelChange.
  destruct (payload e) as [|st en|s|sel] eqn:E;
    try (split; [exact H1|rewrite E; exact H2]).
  exfalso. exact (H2 s eq_refl).
Qed.

(** Every object that was suppressed for good in [q0] still is. *)
Definition cancelledKept (q0 q : State) : Prop :=
  forall x, cancelled (heap q0 x) -> cancelled (heap q x).

Lemma cancelledKept_refl (q : State) : cancelledKept q q.
Proof. intros x H. exact H. Qed.

Lemma cancelledKept_modify (q0 q : State) (x : EventPtr) (f : AccEvent -> AccEvent) :
  cancelledKept q0 q -> keepsCancelled f -> cancelledKept q0 (modify x f q).
Proof.
  intros H Hf y Hy. cbn [modify withHeap heap].
  destruct (Nat.eqb_spec y x) as [->|_]; [apply Hf|]; apply H; exact Hy.
Qed.

(** A write into an [AccSelChangeEvent] touches no such object. *)
Lemma cancelledKept_selChange (q0 q : State) (x : EventPtr)
    (f : AccEvent -> AccEvent) (s : SelChange) :
  cancelledKept q0 q -> payload (heap q x) = SelChangeEvent s ->
  cancelledKept q0 (modify x f q).
Proof.
  intros H Hp y Hy. cbn [modify withHeap heap].
  destruct (Nat.eqb_spec y x) as [->|_]; [|apply H; exact Hy].
  destruct (H x Hy) as [_ Hn]. destruct (Hn s Hp).
Qed.

Create HintDb cancelled.
#[local] Hint Resolve keepsCancelled_suppress keepsCancelled_withType
  keepsCancelled_withAccessible keepsCancelled_onSelChange : cancelled.

Ltac cancelled_tac :=
  repeat match goal with
  | |- cancelledKept _ (modify _ (withRule eCoalesceSelectionChange) _) =>
      eapply cancelledKept_selChange
  | |- cancelledKept _ (modify _ _ _) => apply cancelledKept_modify
  | |- keepsCancelled _ => solve [auto with cancelled]
  end;
  try assumption.

Lemma suppressPreceding_cancelled (q0 : State) (t : EventPtr) (i : Z)
    (s : State) (r : LoopStep State State) :
  cancelledKept q0 s -> suppressPreceding t i s = Ok r -> cancelledKept q0 (leave r).
Proof.
  intros HP H. unfold suppressPreceding in H.
  steps_ok; cbn [leave]; cancelled_tac.
Qed.

Lemma unpackOrConvert_cancelled (q0 : State) (t p : EventPtr) (s s' : State) :
  cancelledKept q0 s -> unpackOrConvert t p s = Ok s' -> cancelledKept q0 s'.
Proof.
  intros HP H. unfold unpackOrConvert in H.
  steps_ok; cancelled_tac.
  rewrite heap_modify_same. cbn [withType payload].
  apply asSelChange_Ok. eassumption.
Qed.

Lemma CoalesceSelChangeEvents_cancelled (q0 : State) (fuel : nat)
    (t p : EventPtr) (i : Z) (s s' : State) :
  cancelledKept q0 s ->
  CoalesceSelChangeEvents fuel t p i s = Ok s' -> cancelledKept q0 s'.
Proof.
  intros HP H. unfold CoalesceSelChangeEvents in H.
  steps_ok;
    try (eapply unpackOrConvert_cancelled; [|exact H]; cancelled_tac; fail);
    try (cancelled_tac; fail).
  match goal with
  | E : forDown _ _ _ _ _ = Ok _ |- _ =>
      eapply (forDown_preserves (cancelledKept q0)); [| |exact E]
  end.
  - intros j s0 r0. apply suppressPreceding_cancelled.
  - cancelled_tac.
Qed.

Lemma coalesce_bodies_cancelled (q0 : State) (fuel : nat) (t : EventPtr)
    (i : Z) (s : State) (r : LoopStep State State) :
  cancelledKept q0 s ->
  (coalesceOfSameType t i s = Ok r \/
   coalesceSelectionChange fuel t i s = Ok r \/
   coalesceStateChange t i s = Ok r \/
   coalesceTextSelChange t i s = Ok r) ->
  cancelledKept q0 (leave r).
Proof.
  unfold coalesceOfSameType, coalesceSelectionChange, coalesceStateChange,
    coalesceTextSelChange.
  intros HP [H|[H|[H|H]]]; steps_ok; cbn [leave]; cancelled_tac.
  eapply CoalesceSelChangeEvents_cancelled; [exact HP|eassumption].
Qed.

Lemma CoalesceEvents_cancelled (fuel : nat) (q q' : State) :
  CoalesceEvents fuel q = Ok q' -> cancelledKept q q'.
Proof.
  intros H. unfold CoalesceEvents in H. step_ok.
  destruct (mEventRule (heap q a)); steps_ok; try apply cancelledKept_refl;
    match goal with
    | E : forDown _ _ _ _ _ = Ok _ |- _ =>
        eapply (forDown_preserves (cancelledKept q)); [| |exact E];
          [|apply cancelledKept_refl]
    end;
    intros i s r Hs Hr;
    apply (coalesce_bodies_cancelled q fuel a i s r Hs); auto.
Qed.

(** The objects that exist in [q] and are suppressed for good there are
    still so in [q']. *)
Definition cancelledStay (q q' : State) : Prop :=
  (nextPtr q <= nextPtr q')%nat /\
  forall x, (x < nextPtr q)%nat -> cancelled (heap q x) -> cancelled (heap q' x).

Lemma cancelledStay_refl (q : State) : cancelledStay q q.
Proof. split; [lia|]. intros x _ H. exact H. Qed.

Lemma cancelledStay_trans (q1 q2 q3 : State) :
  cancelledStay q1 q2 -> cancelledStay q2 q3 -> cancelledStay q1 q3.
Proof.
  intros [A1 A2] [B1 B2]. split; [lia|]. intros x Hx H.
  apply B2; [lia|]. apply A2; assumption.
Qed.

Lemma PushEvent_cancelled (env : Env) (fuel : nat) (aEvent : EventPtr) (q : State)
    (b : bool) (q' : State) :
  PushEvent env fuel aEvent q = Ok (b, q') -> cancelledStay q q'.
Proof.
  intros H.
  apply (PushEvent_I env (fun _ => True) cancelledStay (fun _ _ => True)) in H; auto.
  - apply H.
  - apply cancelledStay_refl.
  - apply cancelledStay_trans.
  - intros t a s _. split; [unfold allocated; cbn; lia|].
    intros x Hx. unfold allocated. cbn.
    destruct (Nat.eqb_spec x (nextPtr s)); [lia|auto].
  - intros p s _ _ _. split; [cbn; lia|]. intros x _ Hc. exact Hc.
  - intros p s _ _ _. split; [cbn; lia|]. intros x _.
    apply (cancelledKept_modify s s p (withRule eDoNotEmit));
      [apply cancelledKept_refl|apply keepsCancelled_suppress].
  - intros fuel0 p s s' _ _ _ Hc. pose proof (CoalesceEvents_shape _ _ _ Hc) as (S1 & _).
    apply CoalesceEvents_cancelled in Hc. split; [rewrite S1; cbn; lia|].
    intros x _. apply Hc.
Qed.

Lemma QueueEvent_cancelled (env : Env) (fuel : nat) (ev : AccEvent) (q q' : State) :
  QueueEvent env fuel ev q = Ok q' -> cancelledStay q q'.
Proof.
  intros H. unfold QueueEvent, alloc in H.
  destruct (PushEvent env fuel (nextPtr q) (allocated ev q)) as [[b q1]| |] eqn:E;
    cbn [bind] in H; try discriminate.
  inversion H; subst. apply PushEvent_cancelled in E. destruct E as [E1 E2].
  change (nextPtr (allocated ev q)) with (S (nextPtr q)) in E1, E2.
  split; [lia|]. intros x Hx Hc. apply E2; [lia|].
  unfold allocated. cbn. destruct (Nat.eqb_spec x (nextPtr q)); [lia|exact Hc].
Qed.

Lemma QueueEvents_cancelled (env : Env) (fuel : nat) (evs : list AccEvent) :
  forall q q', QueueEvents env fuel evs q = Ok q' -> cancelledStay q q'.
Proof.
  induction evs as [|ev rest IH]; intros q q' H; cbn [QueueEvents] in H.
  - inversion H; subst. apply cancelledStay_refl.
  - destruct (QueueEvent env fuel ev q) as [q1| |] eqn:E; cbn [bind] in H;
      try discriminate.
    eapply cancelledStay_trans; [eapply QueueEvent_cancelled; exact E|].
    apply IH. exact H.
Qed.

(** ** Opposite state changes *)

Lemma sameStateChange_payload (a : Acc) (st : Z) (e : AccEvent) :
  sameStateChange a st e = true ->
  mEventType e = EVENT_STATE_CHANGE /\
  exists en, payload e = StateChangeEvent st en.
Proof.
  unfold sameStateChange. intros H.
  apply andb_true_iff in H. destruct H as [H Hp].
  apply andb_true_iff in H. destruct H as [H _].
  apply andb_true_iff in H. destruct H as [_ Ht].
  apply type_eqb_true in Ht. split; [exact Ht|].
  destruct (payload e) as [|st' en'|s|sel]; try discriminate.
  apply Z.eqb_eq in Hp. subst st'. eauto.
Qed.

(** C6 (amended).  A state-change event pushed while an earlier state-change
    event for the same target and state bit with the opposite enabled flag
    is still pending in the array (not yet retagged do-not-emit) cancels it:
    coalescing retags both do-not-emit, both stay so whatever is pushed
    afterwards, and the drain delivers neither of them. *)
Theorem pending_opposite_state_changes_cancel (env : Env) (fuel : nat) (q : State)
    (p1 : EventPtr) (ev2 : AccEvent) (a : Acc) (st : Z) (en : bool) :
  (* the queue: no pointer dangles, the focus slot holds a focus event, and
     the state-change events for [a] are [AccStateChangeEvent]s *)
  wellFormed q ->
  (forall f, mFocusEvent q = Some f -> mEventType (heap q f) = EVENT_FOCUS) ->
  (forall p, In p (mEvents q) -> mEventType (heap q p) = EVENT_STATE_CHANGE ->
     mAccessible (heap q p) = Some a ->
     exists st' en', payload (heap q p) = StateChangeEvent st' en') ->
  (* the earlier event: in the array and still pending, with flag [en] *)
  In p1 (mEvents q) ->
  sameStateChange a st (heap q p1) = true -> flagOf (heap q p1) = en ->
  (* the later event: the opposite flag *)
  isStateChangeOf ev2 a st (negb en) ->
  Length (mEvents q) + 1 < 2 ^ 32 -> (length (mEvents q) <= fuel)%nat ->
  let p2 := nextPtr q in
  exists q',
    QueueEvent env (S fuel) ev2 q = Ok q' /\
    mEvents q' = mEvents q ++ [p2] /\
    mEventRule (heap q' p1) = eDoNotEmit /\
    mEventRule (heap q' p2) = eDoNotEmit /\
    (* whatever is pushed before the drain *)
    forall evs fuel1 q1,
      Forall unpacked evs ->
      QueueEvents env fuel1 evs q' = Ok q1 ->
      mEventRule (heap q1 p1) = eDoNotEmit /\
      mEventRule (heap q1 p2) = eDoNotEmit /\
      forall fuel2 q2 d,
        wellBehaved env ->
        ProcessEventQueue env fuel2 q1 = Ok q2 -> log q2 = log q1 ++ d ->
        forall e, In e d -> isDelivery e = true ->
          effectPtr e <> Some p1 /\ effectPtr e <> Some p2.
Proof.
  intros HW Hslot Hwt Hin1 Hsame Hflag Hev Hlen Hfuel p2.
  pose proof HW as [HC Hf].
  assert (Hq : forall p, In p (mEvents q) -> (p < nextPtr q)%nat)
    by (intros p Hp; apply (proj1 (proj2 HC)) in Hp; apply Hp).
  pose proof Hev as (Hty2 & Hr2 & Hacc2 & Hpl2).
  destruct (QueueEvent_stateChange_closed env fuel q ev2 a st (negb en) Hev Hq Hwt
              Hlen Hfuel) as (q' & Hrun & Hm & _ & Hold & Htail & _).
  assert (Hopp : existsb (fun p => opposes a st (negb en) (heap q p)) (mEvents q) = true).
  { apply existsb_exists. exists p1. split; [exact Hin1|].
    unfold opposes. rewrite Hsame, Hflag. destruct en; reflexivity. }
  rewrite Hopp in Htail. fold p2 in Htail.
  pose proof (Hold p1 Hin1) as Hh1. rewrite Hsame in Hh1.
  destruct (sameStateChange_payload a st _ Hsame) as (Hty1 & en1 & Hpl1).
  assert (Hc1 : cancelled (heap q' p1)).
  { rewrite Hh1. split; [reflexivity|]. cbn [withRule payload]. rewrite Hpl1.
    intros s; discriminate. }
  assert (Hc2 : cancelled (heap q' p2)).
  { rewrite Htail. split; [reflexivity|]. cbn [withRule payload]. rewrite Hpl2.
    intros s; discriminate. }
  assert (HW' : wellFormed q').
  { eapply QueueEvent_wellFormed; [|exact HW|exact Hrun].
    intros s Hs. rewrite Hpl2 in Hs. discriminate. }
  assert (Hq' : forall p, In p (mEvents q') -> (p < nextPtr q')%nat)
    by (intros p Hp; apply (proj1 (proj2 (proj1 HW'))) in Hp; apply Hp).
  assert (Hlt1 : (p1 < nextPtr q')%nat)
    by (apply Hq'; rewrite Hm; apply in_or_app; left; exact Hin1).
  assert (Hlt2 : (p2 < nextPtr q')%nat)
    by (apply Hq'; rewrite Hm; apply in_or_app; right; left; reflexivity).
  assert (Hfoc : mFocusEvent q' = mFocusEvent q).
  { apply (QueueEvents_keep_focus env (S fuel) [ev2]).
    - constructor; [rewrite Hty2; discriminate|constructor].
    - cbn [QueueEvents]. rewrite Hrun. reflexivity. }
  exists q'. split; [exact Hrun|]. split; [exact Hm|].
  split; [apply Hc1|]. split; [apply Hc2|].
  intros evs fuel1 q1 Hu Hpush.
  pose proof (QueueEvents_cancelled env fuel1 evs q' q1 Hpush) as [_ Hstay].
  pose proof (Hstay p1 Hlt1 Hc1) as [Hr1 _].
  pose proof (Hstay p2 Hlt2 Hc2) as [Hr2' _].
  split; [exact Hr1|]. split; [exact Hr2'|].
  intros fuel2 q2 d Hw Hdrain Hlog e He Hdel.
  assert (HW1 : wellFormed q1) by (eapply QueueEvents_wellFormed; eassumption).
  assert (Hq1 : forall p, In p (mEvents q1) -> (p < nextPtr q1)%nat)
    by (intros p Hp; apply (proj1 (proj2 (proj1 HW1))) in Hp; apply Hp).
  destruct (ProcessEventQueue_emittable env fuel2 q1 q2 Hw Hq1 Hdrain) as (d' & L & F).
  rewrite Hlog in L. apply app_inv_head in L. subst d.
  apply in_app_or in He. destruct He as [He|He].
  - unfold focusDelivery in He.
    destruct (mFocusEvent q1) as [pf|] eqn:Ef; [|destruct He].
    destruct (mAccessible (heap q1 pf)); [|destruct He].
    destruct (defunct q1 a0); [destruct He|].
    destruct He as [<-|[]]. cbn [effectPtr].
    destruct (QueueEvents_logged env (nextPtr q') fuel1 evs q' q1 (Nat.le_refl _) Hpush)
      as (d0 & _ & F0 & _ & S0 & _).
    rewrite S0 in Ef. apply focusAfter_In in Ef. destruct Ef as [Ef|Ef].
    + rewrite Hfoc in Ef. pose proof (Hslot pf Ef) as Hft.
      pose proof (Hf pf Ef) as Hfl.
      split; intros [= E]; subst pf; [congruence|unfold p2 in Hfl; lia].
    + rewrite Forall_forall in F0. destruct (F0 _ Ef) as [_ Hge].
      specialize (Hge pf eq_refl). split; intros [= E]; subst pf; lia.
  - rewrite Forall_forall in F. specialize (F e He).
    destruct e; cbn [isDelivery] in Hdel; try discriminate;
      cbn [emittable] in F; try contradiction;
      destruct F as (_ & _ & Hnr); cbn [effectPtr];
      split; intros [= ->]; apply Hnr; assumption.
Qed.

(** A state-change event that clears bit 8 of accessible 3, one that sets
    it, and one that clears it again.  The second and the third are two events
    with the same kind, target and state bit and opposite flags, pushed in
    one generation: the second was cancelled against the first, so the third
    finds nothing pending, keeps its rule, and is delivered. *)
Lemma third_opposite_state_change_is_delivered :
  exists q' q'',
    QueueEvents quietEnv 3
      [stateEvent 3%nat 8 false; stateEvent 3%nat 8 true; stateEvent 3%nat 8 false]
      emptyQueue = Ok q' /\
    mEvents q' = [0%nat; 1%nat; 2%nat] /\
    heap q' 1%nat = withRule eDoNotEmit (stateEvent 3%nat 8 true) /\
    heap q' 2%nat = stateEvent 3%nat 8 false /\
    mEventRule (heap q' 2%nat) <> eDoNotEmit /\
    ProcessEventQueue quietEnv 3 q' = Ok q'' /\
    log q'' = log q' ++ [FireEvent 2%nat (stateEvent 3%nat 8 false)].
Proof.
  eexists. eexists. split; [vm_compute; reflexivity|].
  split; [reflexivity|]. split; [reflexivity|]. split; [reflexivity|].
  split; [discriminate|].
  split; [vm_compute; reflexivity|]. reflexivity.
Qed.

(** A pending event that sets bit 8 of accessible 3, followed by two
    unrelated events. *)
Definition pendingSetQueue : State :=
  stateOf (QueueEvents quietEnv 5
             [stateEvent 3%nat 8 true; stateEvent 3%nat 4 true;
              plainEvent (EVENT_OTHER 2) eAllowDupes 3%nat] emptyQueue).

Lemma pendingSetQueue_wellFormed : wellFormed pendingSetQueue.
Proof.
  apply (QueueEvents_wellFormed quietEnv 5
           [stateEvent 3%nat 8 true; stateEvent 3%nat 4 true;
            plainEvent (EVENT_OTHER 2) eAllowDupes 3%nat]) with (q := emptyQueue).
  - repeat constructor; intros s Hs; discriminate Hs.
  - exact emptyQueue_wellFormed.
  - vm_compute. reflexivity.
Defined.

Lemma pending_opposite_state_changes_witness :
  exists q',
    QueueEvent quietEnv 4 (stateEvent 3%nat 8 false) pendingSetQueue = Ok q' /\
    mEvents q' = mEvents pendingSetQueue ++ [nextPtr pendingSetQueue] /\
    mEventRule (heap q' 0%nat) = eDoNotEmit /\
    mEventRule (heap q' (nextPtr pendingSetQueue)) = eDoNotEmit /\
    forall evs fuel1 q1,
      Forall unpacked evs ->
      QueueEvents quietEnv fuel1 evs q' = Ok q1 ->
      mEventRule (heap q1 0%nat) = eDoNotEmit /\
      mEventRule (heap q1 (nextPtr pendingSetQueue)) = eDoNotEmit /\
      forall fuel2 q2 d,
        wellBehaved quietEnv ->
        ProcessEventQueue quietEnv fuel2 q1 = Ok q2 -> log q2 = log q1 ++ d ->
        forall e, In e d -> isDelivery e = true ->
          effectPtr e <> Some 0%nat /\ effectPtr e <> Some (nextPtr pendingSetQueue).
Proof.
  refine (pending_opposite_state_changes_cancel quietEnv 3 pendingSetQueue 0%nat
            (stateEvent 3%nat 8 false) 3%nat 8 true _ _ _ _ _ _ _ _ _).
  - exact pendingSetQueue_wellFormed.
  - intros f Hf. discriminate Hf.
  - intros p Hp Ht _. vm_compute in Hp.
    destruct Hp as [<-|[<-|[<-|[]]]];
      try (vm_compute in Ht; discriminate Ht); vm_compute; eauto.
  - left. reflexivity.
  - reflexivity.
  - reflexivity.
  - repeat split.
  - vm_compute. reflexivity.
  - vm_compute. lia.
Defined.

(** ** The drain, step by step *)




(** ** What a drain never undoes *)




Section Outlasting.

Variable env : Env.







End Outlasting.

(** ** A drain goes through its whole array *)

Section DrainComplete.

Variable env : Env.
Variable N : nat.
Variable q0 : State.
Hypothesis Hw : wellBehaved env.


End DrainComplete.


(** ** The drain and its snapshot *)






Example echo_drain_runs :
  mEvents oneEvent = [0%nat] /\
  log oneEventDrained
  = log oneEvent ++ [FireEvent 0%nat (heap oneEvent 0%nat); PushAppended 1%nat] /\
  mEvents oneEventDrained = [1%nat].
Proof. vm_compute. repeat split. Qed.

(** ** The drain of a merged pair *)






Section MergedPair.

Variable env : Env.
Variable N : nat.
Variable q0 : State.
Hypothesis Hw : wellBehaved env.


Variables (p1 p2 : EventPtr) (A B : Acc) (sR sA : SelChange).
Hypothesis Hlt1 : (p1 < N)%nat.
Hypothesis Hlt2 : (p2 < N)%nat.
Hypothesis Hrule1 : mEventRule (heap q0 p1) = eDoNotEmit.
Hypothesis Hacc1 : mAccessible (heap q0 p1) = Some A.
Hypothesis Hpl1 : payload (heap q0 p1) = SelChangeEvent sR.
Hypothesis HsR : mSelChangeType sR = eSelectionRemove.
Hypothesis Htype2 : mEventType (heap q0 p2) = EVENT_SELECTION.
Hypothesis Hrule2 : mEventRule (heap q0 p2) = eCoalesceSelectionChange.
Hypothesis Hacc2 : mAccessible (heap q0 p2) = Some B.
Hypothesis Hpl2 : payload (heap q0 p2) = SelChangeEvent sA.
Hypothesis HsA : mSelChangeType sA = eSelectionAdd.
Hypothesis Hpk : mPackedEvent sA = Some p1.



End MergedPair.











(** An event for another accessible is queued already. *)
Definition busyQueue : State :=
  stateOf (QueueEvents quietEnv 5 [plainEvent (EVENT_OTHER 2) eAllowDupes 7%nat]
             emptyQueue).


(** The same pair behind the event of [busyQueue], drained: the event of
    [busyQueue] first, then the two selected-state notifications and the
    combined event. *)
Example merged_pair_is_fired_after_earlier_events :
  exists q' q'',
    QueueEvents quietEnv 3
      [selEvent 100%nat 1%nat eSelectionRemove; selEvent 100%nat 2%nat eSelectionAdd]
      busyQueue = Ok q' /\
    ProcessEventQueue quietEnv 3 q' = Ok q'' /\
    log q'' = log q' ++ [FireEvent 0%nat (heap q' 0%nat);
                         FireStateChange (Some 2%nat) 2 true false;
                         FireStateChange (Some 1%nat) 2 false false;
                         FireEvent 2%nat (heap q' 2%nat)].
Proof.
  eexists. eexists. split; [vm_compute; reflexivity|].
  split; [vm_compute; reflexivity|]. reflexivity.
Qed.
